(** * ngx-bun: render cache, render engine, static files and prerendering

    A shallow embedding of the stateful core of the package:
    - [src/server/cache.ts]   the LRU cache ([LRUCache]),
    - [src/server/engine.ts]  the render engine ([BunAngularEngine.render]),
    - [src/server/static.ts]  the static file handler ([BunStaticFileHandler]),
    - [src/prerender/prerender.ts]  the batch prerenderer ([prerenderRoutes]).

    Conventions.
    - JavaScript numbers that hold integers are [Z]; strings are [string];
      a JS [Map] (insertion ordered) is an association list in insertion
      order; a plain JS object used as a dictionary is a [gmap]; an
      optional field is an [option].
    - A call that may throw returns a [Js.outcome]; code that also changes
      an object threads that object through ([Engine.M]).
    - What the code reads from outside (file system, clock, the [URL] and
      [Date] constructors, the external renderer, the working directory) is
      a field of a [World] record, so that theorems hold for every such
      world and examples run in a concrete one.
    - [node:path] is modelled in its POSIX flavour ([Path]).
    - The only unbounded loop, the one of [chunk], takes fuel.
    - The tasks of a prerender wave run concurrently in the source: each
      task is a sequence of turns, from one [await] to the next, and the
      order of the turns of a wave is a parameter ([schedule]). *)

From Stdlib Require Import ZArith String Ascii List Lia Sorted.
From stdpp Require Import base decidable option list sorting gmap strings pretty.

Local Open Scope Z_scope.

(** ** The JS [Map]: entries in insertion order *)

Module JsMap.
Section JsMap.
Context {T : Type}.

Definition t := list (string * T).

Definition keys (m : t) : list string := m.*1.

Definition has (k : string) (m : t) : bool := bool_decide (k ∈ keys m).

Fixpoint get (k : string) (m : t) : option T :=
  match m with
  | [] => None
  | (k', v) :: r => if decide (k' = k) then Some v else get k r
  end.

(** [Map.prototype.delete]: removes the entry, keeps the order of the rest. *)
Definition delete (k : string) (m : t) : t := filter (λ e, e.1 ≠ k) m.

(** [Map.prototype.set]: an existing key keeps its position, a new key
    goes to the end. *)
Fixpoint set (k : string) (v : T) (m : t) : t :=
  match m with
  | [] => [(k, v)]
  | (k', v') :: r => if decide (k' = k) then (k, v) :: r else (k', v') :: set k v r
  end.

(** [m.keys().next().value] *)
Definition first_key (m : t) : option string :=
  match m with
  | [] => None
  | (k, _) :: _ => Some k
  end.

Definition size (m : t) : Z := Z.of_nat (length m).
End JsMap.
Global Arguments t : clear implicits.
End JsMap.

(** ** [LRUCache] (src/server/cache.ts) *)

Module LRU.
Section LRU.
Context {T : Type}.

Record LRUCache := mk { cache : JsMap.t T; maxSize : Z }.

Definition new (maxSize : Z) : LRUCache := {| cache := []; maxSize := maxSize |}.

Definition with_cache (c : LRUCache) (m : JsMap.t T) : LRUCache :=
  {| cache := m; maxSize := maxSize c |}.

(** [get]: a hit is moved to the end of the map. *)
Definition get (key : string) (c : LRUCache) : option T * LRUCache :=
  if negb (JsMap.has key (cache c)) then (None, c)
  else
    match JsMap.get key (cache c) with
    | Some value =>
        (Some value, with_cache c (JsMap.set key value (JsMap.delete key (cache c))))
    | None => (None, c)
    end.

Definition set (key : string) (value : T) (c : LRUCache) : LRUCache :=
  let m :=
    if JsMap.has key (cache c) then JsMap.delete key (cache c)
    else if JsMap.size (cache c) >=? maxSize c then
      match JsMap.first_key (cache c) with
      | Some firstKey => JsMap.delete firstKey (cache c)
      | None => cache c
      end
    else cache c in
  with_cache c (JsMap.set key value m).

Definition has (key : string) (c : LRUCache) : bool := JsMap.has key (cache c).

Definition delete (key : string) (c : LRUCache) : bool * LRUCache :=
  (JsMap.has key (cache c), with_cache c (JsMap.delete key (cache c))).

Definition clear (c : LRUCache) : LRUCache := with_cache c [].

Definition size (c : LRUCache) : Z := JsMap.size (cache c).

Definition keys (c : LRUCache) : list string := JsMap.keys (cache c).

(** The value stored under a key, without touching the order. *)
Definition peek (key : string) (c : LRUCache) : option T := JsMap.get key (cache c).

(** *** Histories of calls *)

Inductive op :=
| OpGet (key : string)
| OpSet (key : string) (value : T)
| OpDelete (key : string)
| OpClear.

Definition step (c : LRUCache) (o : op) : LRUCache :=
  match o with
  | OpGet k => (get k c).2
  | OpSet k v => set k v c
  | OpDelete k => (delete k c).2
  | OpClear => clear c
  end.

Definition run (c : LRUCache) (ops : list op) : LRUCache := fold_left step ops c.

(** A call touches [k] when it is a [set] of [k], or a [get] of [k] that
    finds it. *)
Definition touches (c : LRUCache) (o : op) (k : string) : bool :=
  match o with
  | OpSet k' _ => bool_decide (k' = k)
  | OpGet k' => bool_decide (k' = k) && has k c
  | _ => false
  end.

(** Position (counted from 1, starting at [i]) of the last call of the
    history that touches [k]; [acc] when there is none. *)
Fixpoint last_touch_from (c : LRUCache) (ops : list op) (k : string)
    (i acc : nat) : nat :=
  match ops with
  | [] => acc
  | o :: r =>
      last_touch_from (step c o) r k (S i) (if touches c o k then S i else acc)
  end.

Definition last_touch (C : Z) (ops : list op) (k : string) : nat :=
  last_touch_from (new C) ops k 0 0.
End LRU.
Global Arguments LRUCache : clear implicits.
Global Arguments op : clear implicits.
End LRU.

(** ** JavaScript strings *)

Module Str.

(** The double quote character, as a string. *)
Definition dq : string := String (ascii_of_nat 34) EmptyString.

Definition slash : ascii := "/"%char.
Definition dot : ascii := "."%char.

Definition is_empty (s : string) : bool :=
match s with EmptyString => true | _ => false end.

(** [s.startsWith(p)] *)
Fixpoint starts_with (p s : string) : bool :=
match p, s with
| EmptyString, _ => true
| String a p', String b s' => bool_decide (a = b) && starts_with p' s'
| String _ _, EmptyString => false
end.

Fixpoint last_char (s : string) : option ascii :=
match s with
| EmptyString => None
| String a EmptyString => Some a
| String _ r => last_char r
end.

(** [s.endsWith(c)] for a one-character [c] *)
Definition ends_with_char (c : ascii) (s : string) : bool :=
bool_decide (last_char s = Some c).

(** [s.includes(sub)] *)
Fixpoint includes (sub s : string) : bool :=
starts_with sub s ||
match s with
| EmptyString => false
| String _ r => includes sub r
end.

(** [s.split(c)] for a one-character separator: the pieces between the
    separators, empty pieces included. *)
Fixpoint split_on (c : ascii) (s : string) : list string :=
match s with
| EmptyString => [EmptyString]
| String a r =>
    if decide (a = c) then EmptyString :: split_on c r
    else match split_on c r with
         | h :: t => String a h :: t
         | [] => [String a EmptyString]
         end
end.

(** [l.join(sep)] *)
Fixpoint join_with (sep : string) (l : list string) : string :=
match l with
| [] => EmptyString
| [x] => x
| x :: r => x +:+ sep +:+ join_with sep r
end.

(** [l.filter(Boolean)] on strings: the non-empty ones. *)
Definition filter_Boolean (l : list string) : list string :=
filter (λ s, s ≠ EmptyString) l.

(** [s.replace(/\\/g, '/')] *)
Fixpoint backslashes_to_slashes (s : string) : string :=
match s with
| EmptyString => EmptyString
| String a r =>
    String (if decide (a = "\"%char) then slash else a) (backslashes_to_slashes r)
end.

(** [s.replace(/\.\.+/g, '')]: every maximal run of two or more dots is
    removed; a dot that stands alone is kept.  The scanner remembers how
    many dots of the current run it has seen. *)
Inductive dot_run := NoDot | OneDot | ManyDots.

Fixpoint remove_dot_runs_from (st : dot_run) (s : string) : string :=
match s with
| EmptyString => match st with OneDot => String dot EmptyString | _ => EmptyString end
| String a r =>
    if decide (a = dot) then
      match st with
      | NoDot => remove_dot_runs_from OneDot r
      | _ => remove_dot_runs_from ManyDots r
      end
    else
      match st with
      | OneDot => String dot (String a (remove_dot_runs_from NoDot r))
      | _ => String a (remove_dot_runs_from NoDot r)
      end
end.

Definition remove_dot_runs (s : string) : string := remove_dot_runs_from NoDot s.

(** [s.replace(/\.(br|gz)$/, '')] *)
Fixpoint strip_compression_suffix (s : string) : string :=
match s with
| EmptyString => EmptyString
| String a r =>
    if bool_decide (s = ".br") || bool_decide (s = ".gz") then EmptyString
    else String a (strip_compression_suffix r)
end.

(** [s.toLowerCase()], on the ASCII letters. *)
Definition lower_char (a : ascii) : ascii :=
let n := nat_of_ascii a in
if (65 <=? n)%nat && (n <=? 90)%nat then ascii_of_nat (n + 32) else a.

Fixpoint toLowerCase (s : string) : string :=
match s with
| EmptyString => EmptyString
| String a r => String (lower_char a) (toLowerCase r)
end.

(** A JS number that holds an integer, printed in decimal. *)
Definition of_Z (n : Z) : string := pretty n.

End Str.

(** ** [node:path], POSIX flavour

    The functions of Node's [path] module that the package calls.  Node
    scans characters; the result is the same as working segment by
    segment, which is how they are written here. *)

Module Path.

Definition isAbsolute (p : string) : bool := Str.starts_with "/" p.

(** The segments of a path between slashes, and the non-empty ones. *)
Definition split (p : string) : list string := Str.split_on Str.slash p.

Definition segments (p : string) : list string := Str.filter_Boolean (split p).

(** One segment of [normalizeString]; [stack] holds the segments kept so
    far, the last one first. *)
Definition norm_step (allowAboveRoot : bool) (stack : list string) (seg : string)
    : list string :=
if decide (seg = EmptyString ∨ seg = ".") then stack
else if decide (seg = "..") then
  match stack with
  | top :: rest =>
      if decide (top = "..") then (if allowAboveRoot then ".." :: stack else stack)
      else rest
  | [] => if allowAboveRoot then [".."] else []
  end
else seg :: stack.

Definition norm_segments (allowAboveRoot : bool) (segs : list string) : list string :=
rev (fold_left (norm_step allowAboveRoot) segs []).

Definition normalizeString (path : string) (allowAboveRoot : bool) : string :=
Str.join_with "/" (norm_segments allowAboveRoot (split path)).

Definition normalize (path : string) : string :=
if Str.is_empty path then "."
else
  let isAbs := isAbsolute path in
  let trailingSeparator := Str.ends_with_char Str.slash path in
  let p := normalizeString path (negb isAbs) in
  if Str.is_empty p then
    (if isAbs then "/" else if trailingSeparator then "./" else ".")
  else
    (if isAbs then "/" else EmptyString) +:+ p +:+
    (if trailingSeparator then "/" else EmptyString).

Definition join (args : list string) : string :=
let joined := Str.join_with "/" (Str.filter_Boolean args) in
if Str.is_empty joined then "." else normalize joined.

(** The loop of [resolve]: [paths] are the arguments from the last to the
    first, followed by the working directory. *)
Fixpoint resolve_loop (paths : list string) (resolvedPath : string) : string * bool :=
match paths with
| [] => (resolvedPath, false)
| path :: more =>
    if Str.is_empty path then resolve_loop more resolvedPath
    else if isAbsolute path then (path +:+ "/" +:+ resolvedPath, true)
    else resolve_loop more (path +:+ "/" +:+ resolvedPath)
end.

Definition resolve (cwd : string) (args : list string) : string :=
let '(resolvedPath, resolvedAbsolute) := resolve_loop (rev args ++ [cwd]) EmptyString in
let p := normalizeString resolvedPath (negb resolvedAbsolute) in
if resolvedAbsolute then "/" +:+ p
else if Str.is_empty p then "." else p.

Fixpoint strip_common (l1 l2 : list string) : list string * list string :=
match l1, l2 with
| a :: r1, b :: r2 => if decide (a = b) then strip_common r1 r2 else (l1, l2)
| _, _ => (l1, l2)
end.

Definition relative (cwd : string) (from to : string) : string :=
if decide (from = to) then EmptyString
else
  let from := resolve cwd [from] in
  let to := resolve cwd [to] in
  if decide (from = to) then EmptyString
  else
    let '(up, down) := strip_common (segments from) (segments to) in
    Str.join_with "/" (replicate (length up) ".." ++ down).

(** The part of [s] from its last dot on. *)
Fixpoint from_last_dot (s : string) : option string :=
match s with
| EmptyString => None
| String a r =>
    match from_last_dot r with
    | Some ext => Some ext
    | None => if decide (a = Str.dot) then Some s else None
    end
end.

Definition extname (path : string) : string :=
match last (segments path) with
| None => EmptyString
| Some base =>
    if decide (base = "..") then EmptyString
    else match from_last_dot base with
         | None => EmptyString
         | Some ext => if decide (ext = base) then EmptyString else ext
         end
end.

End Path.

(** ** The world outside: file system, clock, dates *)

(** What [existsSync] and [statSync] report for a path, and what a read of
    the file returns.  [mtime] is in milliseconds since the epoch. *)
Record FileNode := mkFileNode {
  isDirectory : bool;
  size : Z;
  mtime : Z;
  content : string
}.

Definition FileSystem := string → option FileNode.

Definition existsSync (fs : FileSystem) (path : string) : bool :=
bool_decide (is_Some (fs path)).

Definition is_directory (fs : FileSystem) (path : string) : bool :=
match fs path with
| Some node => isDirectory node
| None => false
end.

(** ** [BunStaticFileHandler] (src/server/static.ts) *)

Module Static.

Definition MIME_TYPES : gmap string string :=
list_to_map [
  (".html", "text/html; charset=utf-8");
  (".css", "text/css; charset=utf-8");
  (".js", "text/javascript; charset=utf-8");
  (".mjs", "text/javascript; charset=utf-8");
  (".json", "application/json; charset=utf-8");
  (".png", "image/png");
  (".jpg", "image/jpeg");
  (".jpeg", "image/jpeg");
  (".gif", "image/gif");
  (".svg", "image/svg+xml");
  (".ico", "image/x-icon");
  (".webp", "image/webp");
  (".avif", "image/avif");
  (".woff", "font/woff");
  (".woff2", "font/woff2");
  (".ttf", "font/ttf");
  (".otf", "font/otf");
  (".eot", "application/vnd.ms-fontobject");
  (".mp4", "video/mp4");
  (".webm", "video/webm");
  (".mp3", "audio/mpeg");
  (".ogg", "audio/ogg");
  (".wav", "audio/wav");
  (".pdf", "application/pdf");
  (".xml", "application/xml");
  (".txt", "text/plain; charset=utf-8");
  (".map", "application/json");
  (".wasm", "application/wasm")
].

Definition CACHE_CONTROL_hashed : string := "public, max-age=31536000, immutable".
Definition CACHE_CONTROL_html : string := "no-cache".
Definition CACHE_CONTROL_default : string := "public, max-age=86400".

(** A [RegExp] of the exclusion list is taken as the test it performs. *)
Definition RegExp := string → bool.

Inductive CacheControlOption :=
| CacheControlString (value : string)
| CacheControlFunction (f : string → string).

Record StaticFileOptions := mkOptions {
  opt_root : string;
  opt_index : option string;
  opt_compression : option bool;
  opt_mimeTypes : option (gmap string string);
  opt_cacheControl : option CacheControlOption;
  opt_headers : option (gmap string string);
  opt_exclude : option (list RegExp);
  opt_directoryListing : option bool
}.

Inductive Compression := gzip | br.

Record Stats := mkStats { st_size : Z; st_mtime : Z }.

Record StaticFileResult := mkResult {
  filePath : string;
  exists_ : bool;
  mimeType : string;
  cacheControl : string;
  compressed : option Compression;
  stats : option Stats
}.

(** Request headers; [Headers.get] ignores the case of the name, so the
    map is keyed by lower-case names. *)
Record Request := mkRequest { req_headers : gmap string string }.

Definition headers_get (name : string) (request : Request) : option string :=
req_headers request !! Str.toLowerCase name.

(** A [Response], by what the constructor is given: [headers] is the
    headers object, keyed by the names as the code and the configuration
    spell them; [body] is the path handed to [Bun.file], or [None] for a
    [null] body. *)
Record Response := mkResponse {
  status : Z;
  headers : gmap string string;
  body : option string
}.

(** What a [Response] built from the headers object [headers] holds under
    [name].  The [Headers] of a response match names without regard to
    letter case, and combine the values of the object's entries whose
    names differ only in case.  The list holds the values so combined, in
    the order of the map's entries; the response joins them in the order
    of the object's keys. *)
Definition header_values (headers : gmap string string) (name : string) : list string :=
(filter (λ entry, Str.toLowerCase entry.1 = Str.toLowerCase name) (map_to_list headers)).*2.

(** The process and host facilities the handler reads. *)
Record World := mkWorld {
  cwd : string;
  fs : FileSystem;
  (** [new Date(s).getTime()], [None] for an invalid date *)
  Date_parse : string → option Z;
  (** [new Date(ms).toUTCString()] *)
  toUTCString : Z → string
}.

Record BunStaticFileHandler := mkHandler {
  root : string;
  index : string;
  compression : bool;
  mimeTypes : gmap string string;
  handler_cacheControl : CacheControlOption;
  handler_headers : gmap string string;
  exclude : list RegExp;
  directoryListing : bool
}.

Definition is_hex (a : ascii) : bool :=
let n := nat_of_ascii (Str.lower_char a) in
((48 <=? n) && (n <=? 57) || (97 <=? n) && (n <=? 102))%nat.

(** After a dot: a run of hexadecimal digits, at least eight, then a dot. *)
Fixpoint hex_run_then_dot (seen : nat) (s : string) : bool :=
match s with
| EmptyString => false
| String a r =>
    if is_hex a then hex_run_then_dot (S seen) r
    else bool_decide (a = Str.dot) && (8 <=? seen)%nat
end.

(** [/\.[a-f0-9]{8,}\./i.test(s)] *)
Fixpoint has_content_hash (s : string) : bool :=
match s with
| EmptyString => false
| String a r => bool_decide (a = Str.dot) && hex_run_then_dot 0 r || has_content_hash r
end.

Definition defaultCacheControl (filePath : string) : string :=
let ext := Str.toLowerCase (Path.extname filePath) in
if decide (ext = ".html") then CACHE_CONTROL_html
else if has_content_hash filePath then CACHE_CONTROL_hashed
else CACHE_CONTROL_default.

(** The constructor. *)
Definition new (w : World) (options : StaticFileOptions) : BunStaticFileHandler :=
{| root := Path.resolve (cwd w) [opt_root options];
   index := default "index.html" (opt_index options);
   compression := default true (opt_compression options);
   mimeTypes := default ∅ (opt_mimeTypes options) ∪ MIME_TYPES;
   handler_cacheControl :=
     default (CacheControlFunction defaultCacheControl) (opt_cacheControl options);
   handler_headers := default ∅ (opt_headers options);
   exclude := default [] (opt_exclude options);
   directoryListing := default false (opt_directoryListing options) |}.

Definition getMimeType (h : BunStaticFileHandler) (filePath : string) : string :=
let ext := Str.toLowerCase (Path.extname filePath) in
default "application/octet-stream" (mimeTypes h !! ext).

Definition isExcluded (h : BunStaticFileHandler) (urlPath : string) : bool :=
existsb (λ pattern : RegExp, pattern urlPath) (exclude h).

Definition resolveFilePath (h : BunStaticFileHandler) (urlPath : string) : string :=
let normalized := Str.remove_dot_runs (Str.backslashes_to_slashes urlPath) in
let segments := Str.filter_Boolean (Str.split_on Str.slash normalized) in
Path.join (root h :: segments).

Definition not_found (filePath mimeType : string) : StaticFileResult :=
{| filePath := filePath; exists_ := false; mimeType := mimeType;
   cacheControl := "no-cache"; compressed := None; stats := None |}.

Definition statSync (node : FileNode) : Stats :=
{| st_size := size node; st_mtime := mtime node |}.

(** [lookup], for the calls that return: the [cacheControl] callback and
    the patterns of [exclude] are functions of the configuration and taken
    as total. *)
Definition lookup (h : BunStaticFileHandler) (w : World) (urlPath : string)
    : StaticFileResult :=
if isExcluded h urlPath then not_found EmptyString "application/octet-stream"
else
  let filePath := resolveFilePath h urlPath in
  let relativePath := Path.relative (cwd w) (root h) filePath in
  if Str.starts_with ".." relativePath || Str.starts_with "/" relativePath then
    not_found EmptyString "application/octet-stream"
  else
    let filePath :=
      if existsSync (fs w) filePath && is_directory (fs w) filePath
      then Path.join [filePath; index h] else filePath in
    let '(compressed, actualPath) :=
      if compression h then
        if existsSync (fs w) (filePath +:+ ".br") then (Some br, filePath +:+ ".br")
        else if existsSync (fs w) (filePath +:+ ".gz") then (Some gzip, filePath +:+ ".gz")
        else (None, filePath)
      else (None, filePath) in
    let chosen := match compressed with Some _ => actualPath | None => filePath end in
    match fs w chosen with
    | None => not_found filePath (getMimeType h filePath)
    | Some node =>
        let cacheControl :=
          match handler_cacheControl h with
          | CacheControlFunction f => f filePath
          | CacheControlString s => s
          end in
        {| filePath := chosen; exists_ := true;
           mimeType := getMimeType h filePath;
           cacheControl := cacheControl;
           compressed := compressed;
           stats := Some (statSync node) |}
    end.

(** The entity tag: size and modification time, between double quotes. *)
Definition etag_of (s : Stats) : string :=
Str.dq +:+ Str.of_Z (st_size s) +:+ "-" +:+ Str.of_Z (st_mtime s) +:+ Str.dq.

Definition encoding_name (c : Compression) : string :=
match c with br => "br" | gzip => "gzip" end.

(** [serve], for the calls that return, with [None] for [null].  A call
    that throws (in [lookup], or in [new Response] on a header it
    refuses) is accounted for where the request handler calls [serve]
    ([Handler.serve_error]). *)
Definition serve (h : BunStaticFileHandler) (w : World) (urlPath : string)
    (request : option Request) : option Response :=
let result := lookup h w urlPath in
if negb (exists_ result) then None
else
  let useCompressed :=
    match compressed result, request with
    | Some c, Some request =>
        let acceptEncoding := default EmptyString (headers_get "Accept-Encoding" request) in
        match c with
        | br => Str.includes "br" acceptEncoding
        | gzip => Str.includes "gzip" acceptEncoding
        end
    | _, _ => false
    end in
  let filePath :=
    if useCompressed then filePath result
    else Str.strip_compression_suffix (filePath result) in
  let headers : gmap string string :=
    handler_headers h ∪
    {[ "Content-Type" := mimeType result; "Cache-Control" := cacheControl result ]} in
  let headers :=
    match useCompressed, compressed result with
    | true, Some c => <["Content-Encoding" := encoding_name c]> headers
    | _, _ => headers
    end in
  let headers :=
    match stats result with
    | Some s =>
        <["ETag" := etag_of s]> (<["Last-Modified" := toUTCString w (st_mtime s)]> headers)
    | None => headers
    end in
  let not_modified :=
    match request, stats result with
    | Some request, Some s =>
        let ifNoneMatch := headers_get "If-None-Match" request in
        let ifModifiedSince := headers_get "If-Modified-Since" request in
        let etag := headers !! "ETag" in
        if decide (ifNoneMatch = etag) then true
        else match ifModifiedSince with
             | Some since =>
                 if Str.is_empty since then false
                 else match Date_parse w since with
                      | Some ifModifiedDate => st_mtime s <=? ifModifiedDate
                      | None => false
                      end
             | None => false
             end
    | _, _ => false
    end in
  if not_modified then Some {| status := 304; headers := headers; body := None |}
  else Some {| status := 200; headers := headers; body := Some filePath |}.

(** Containment: [p] is an absolute path whose segments are those of
    [root] followed by at least one more, none of which is [.] or [..]. *)
Definition is_descendant (root p : string) : bool :=
let rs := Path.segments root in
let ps := Path.segments p in
Path.isAbsolute p &&
bool_decide (take (length rs) ps = rs) &&
bool_decide (drop (length rs) ps ≠ []) &&
forallb (λ s, bool_decide (s ≠ "." ∧ s ≠ "..")) (drop (length rs) ps).

(** A relative path of names: no segment is empty, [.] or [..]. *)
Definition is_name_path (s : string) : bool :=
forallb (λ segment, bool_decide (segment ≠ EmptyString ∧ segment ≠ "." ∧ segment ≠ ".."))
  (Path.split s).

(** A plain file name: one segment, not [.] or [..]. *)
Definition is_file_name (s : string) : bool :=
bool_decide (Path.split s = [s] ∧ s ≠ EmptyString ∧ s ≠ "." ∧ s ≠ "..").

End Static.

(** ** A small site, for examples *)

Module Demo.

Definition file (bytes : Z) (modified : Z) (text : string) : option FileNode :=
Some {| isDirectory := false; size := bytes; mtime := modified; content := text |}.

Definition directory : option FileNode :=
Some {| isDirectory := true; size := 4096; mtime := 1000; content := EmptyString |}.

Definition site : FileSystem := λ path,
if decide (path = "/srv/www") then directory
else if decide (path = "/srv/www/index.html") then file 120 5000 "<html>home</html>"
else if decide (path = "/srv/www/app.js") then file 300 7000 "console.log(1)"
else if decide (path = "/srv/www/app.js.br") then file 90 7000 "(brotli)"
else if decide (path = "/srv/www/app.js.gz") then file 110 7000 "(gzip)"
else if decide (path = "/srv/www/logo.svg") then file 50 8000 "<svg/>"
else if decide (path = "/srv/www/logo.svg.gz") then file 40 8000 "(gzip)"
else if decide (path = "/srv/secret.txt") then file 6 9000 "secret"
else None.

(** The same site after [index.html] was rewritten in place: same length,
    same modification time, other content. *)
Definition site_edited : FileSystem := λ path,
if decide (path = "/srv/www/index.html") then file 120 5000 "<html>news</html>"
else site path.

(** Dates are given as decimal milliseconds in the examples. *)
Definition parse_millis (s : string) : option Z :=
if decide (s = "5000") then Some 5000
else if decide (s = "6000") then Some 6000
else if decide (s = "4000") then Some 4000
else None.

Definition world (files : FileSystem) : Static.World :=
{| Static.cwd := "/srv"; Static.fs := files;
   Static.Date_parse := parse_millis; Static.toUTCString := Str.of_Z |}.

Definition options : Static.StaticFileOptions :=
{| Static.opt_root := "www"; Static.opt_index := None; Static.opt_compression := None;
   Static.opt_mimeTypes := None; Static.opt_cacheControl := None;
   Static.opt_headers := None; Static.opt_exclude := None;
   Static.opt_directoryListing := None |}.

Definition handler : Static.BunStaticFileHandler := Static.new (world site) options.

Definition request (l : list (string * string)) : option Static.Request :=
Some {| Static.req_headers := list_to_map l |}.

End Demo.

(** The file suffix of a compressed sibling. *)
Definition compression_suffix (c : Static.Compression) : string :=
match c with
| Static.br => ".br"
| Static.gzip => ".gz"
end.

(** The three decisions [serve] takes, named so that theorems can refer to
    them; [serve_decisions] (below) shows [serve] is built from them. *)

(** [useCompressed] *)
Definition serve_useCompressed (result : Static.StaticFileResult)
    (request : option Static.Request) : bool :=
match Static.compressed result, request with
| Some c, Some request =>
    Str.includes (Static.encoding_name c)
      (default EmptyString (Static.headers_get "Accept-Encoding" request))
| _, _ => false
end.

(** The headers of the response. *)
Definition serve_headers (h : Static.BunStaticFileHandler) (w : Static.World)
    (result : Static.StaticFileResult) (s : Static.Stats) (useCompressed : bool)
    : gmap string string :=
let base : gmap string string :=
  Static.handler_headers h ∪
  {[ "Content-Type" := Static.mimeType result;
     "Cache-Control" := Static.cacheControl result ]} in
let encoded :=
  match useCompressed, Static.compressed result with
  | true, Some c => <["Content-Encoding" := Static.encoding_name c]> base
  | _, _ => base
  end in
<["ETag" := Static.etag_of s]>
  (<["Last-Modified" := Static.toUTCString w (Static.st_mtime s)]> encoded).

(** Whether the conditional request is answered with 304. *)
Definition serve_not_modified (w : Static.World) (s : Static.Stats)
    (request : option Static.Request) : bool :=
match request with
| Some request =>
    if decide (Static.headers_get "If-None-Match" request = Some (Static.etag_of s))
    then true
    else match Static.headers_get "If-Modified-Since" request with
         | Some since =>
             if Str.is_empty since then false
             else match Static.Date_parse w since with
                  | Some ifModifiedDate => Static.st_mtime s <=? ifModifiedDate
                  | None => false
                  end
         | None => false
         end
| None => false
end.

(** Two responses of the example site. *)
Module DemoResponses.

Definition app_js_brotli : Static.Response :=
{| Static.status := 200;
   Static.headers := list_to_map [
     ("Content-Type", "text/javascript; charset=utf-8");
     ("Cache-Control", "public, max-age=86400");
     ("Content-Encoding", "br");
     ("Last-Modified", "7000");
     ("ETag", Str.dq +:+ "90-7000" +:+ Str.dq)];
   Static.body := Some "/srv/www/app.js.br" |}.

Definition index_stats : Static.Stats := {| Static.st_size := 120; Static.st_mtime := 5000 |}.

End DemoResponses.

(** ** Thrown values and results *)

Module Js.

(** A thrown value: an [Error] with its message, or something else. *)
Inductive exn :=
| Error (message : string)
| NonError.

(** How a call ends. *)
Inductive outcome (A : Type) :=
| Returned (a : A)
| Thrown (e : exn).
Global Arguments Returned {A} a.
Global Arguments Thrown {A} e.

(** [error instanceof Error ? error.message : 'Unknown error'] *)
Definition message_of (e : exn) : string :=
match e with
| Error message => message
| NonError => "Unknown error"
end.

End Js.

(** ** [BunAngularEngine] (src/server/engine.ts) *)

Module Engine.

Record CacheEntry := mkEntry {
  entry_html : string;
  entry_status : Z;
  entry_headers : gmap string string;
  timestamp : Z;
  expiresAt : Z
}.

(** [request] and [providers] are only handed on to the renderer and are
    left out. *)
Record RenderOptions := mkRenderOptions {
  url : string;
  document : option string;
  skipCache : option bool
}.

(** [renderTime], a difference of [performance.now()] readings, is left out. *)
Record RenderResult := mkRenderResult {
  html : string;
  status : Z;
  headers : gmap string string;
  fromCache : bool
}.

Record BunAngularEngineOptions := mkEngineOptions {
  browserDistFolder : string;
  indexHtml : option string;
  enableCache : option bool;
  maxCacheSize : option Z;
  opt_cacheTtl : option Z
}.

(** The mutable part of an engine, and the fields [render] reads. *)
Record BunAngularEngine := mkEngine {
  indexHtmlPath : string;
  cache : option (LRU.LRUCache CacheEntry);
  cacheTtl : Z;
  indexHtmlContent : option string
}.

(** What the engine reads from outside during one call. *)
Record World := mkWorld {
  cwd : string;
  fs : FileSystem;
  (** [new URL(url, 'http://localhost')]: the [pathname] and the [search]
      of the parsed url, [None] when the constructor throws *)
  URL_parse : string → option (string * string);
  (** the external renderer, given the document and the url *)
  renderApplication : string → string → Js.outcome string;
  (** [Date.now()], at the cache check and at the two stamps of a new entry *)
  now_at_check : Z;
  now_at_timestamp : Z;
  now_at_expiry : Z;
  (** [process.env['NODE_ENV'] === 'production'] *)
  production : bool
}.

(** Calls that read and change the engine and may throw. *)
Definition M (A : Type) : Type := BunAngularEngine → Js.outcome A * BunAngularEngine.

Definition ret {A} (a : A) : M A := λ e, (Js.Returned a, e).

Definition throw {A} (err : Js.exn) : M A := λ e, (Js.Thrown err, e).

Definition bind {A B} (m : M A) (k : A → M B) : M B := λ e,
match m e with
| (Js.Returned a, e') => k a e'
| (Js.Thrown err, e') => (Js.Thrown err, e')
end.

(** [try { m } catch (error) { handler error }] *)
Definition try_catch {A} (m : M A) (handler : Js.exn → M A) : M A := λ e,
match m e with
| (Js.Returned a, e') => (Js.Returned a, e')
| (Js.Thrown err, e') => handler err e'
end.

Definition lift {A} (o : Js.outcome A) : M A := λ e, (o, e).

Notation "'let*' x := m 'in' k" := (bind m (λ x, k))
  (at level 10, x name, m at level 200, k at level 200).

Definition set_cache (c : LRU.LRUCache CacheEntry) : M unit := λ e,
(Js.Returned tt,
 {| indexHtmlPath := indexHtmlPath e; cache := Some c; cacheTtl := cacheTtl e;
    indexHtmlContent := indexHtmlContent e |}).

Definition set_indexHtmlContent (content : option string) : M unit := λ e,
(Js.Returned tt,
 {| indexHtmlPath := indexHtmlPath e; cache := cache e; cacheTtl := cacheTtl e;
    indexHtmlContent := content |}).

(** [readFileSync(path, 'utf-8')] of a path that [existsSync] *)
Definition readFileSync (node : FileNode) : Js.outcome string :=
if isDirectory node then Js.Thrown (Js.Error "EISDIR: illegal operation on a directory, read")
else Js.Returned (content node).

Definition loadIndexHtml (w : World) : M unit := λ e,
match fs w (indexHtmlPath e) with
| Some node =>
    bind (lift (readFileSync node)) (λ text, set_indexHtmlContent (Some text)) e
| None => (Js.Returned tt, e)
end.

(** A string option is truthy when it holds a non-empty string. *)
Definition truthy (s : option string) : bool :=
match s with
| Some text => negb (Str.is_empty text)
| None => false
end.

Definition getDocument (w : World) (customDocument : option string) : M string :=
if truthy customDocument then ret (default EmptyString customDocument)
else
  let* _ := (λ e, if truthy (indexHtmlContent e) then ret tt e else loadIndexHtml w e) in
  λ e,
    if truthy (indexHtmlContent e) then ret (default EmptyString (indexHtmlContent e)) e
    else throw (Js.Error ("Could not find index.html at " +:+ indexHtmlPath e +:+ ". " +:+
                          "Please ensure the browser build output exists.")) e.

Definition getCacheKey (w : World) (url : string) : Js.outcome string :=
match URL_parse w url with
| Some (pathname, search) => Js.Returned (pathname +:+ search)
| None => Js.Thrown (Js.Error "Invalid URL")
end.

Definition isCacheValid (w : World) (entry : CacheEntry) : bool :=
now_at_check w <? expiresAt entry.

Definition error_page_head : string :=
"<!DOCTYPE html>
<html lang=" +:+ Str.dq +:+ "en" +:+ Str.dq +:+ ">
<head>
  <meta charset=" +:+ Str.dq +:+ "UTF-8" +:+ Str.dq +:+ ">
  <meta name=" +:+ Str.dq +:+ "viewport" +:+ Str.dq +:+ " content=" +:+ Str.dq +:+
"width=device-width, initial-scale=1.0" +:+ Str.dq +:+ ">
  <title>Server Error</title>
  <style>
    body {
      font-family: system-ui, -apple-system, sans-serif;
      display: flex;
      justify-content: center;
      align-items: center;
      min-height: 100vh;
      margin: 0;
      background: #0f0f0f;
      color: #fff;
    }
    .error-container {
      text-align: center;
      padding: 2rem;
      max-width: 600px;
    }
    h1 {
      font-size: 4rem;
      margin: 0;
      background: linear-gradient(135deg, #ff6b6b, #feca57);
      -webkit-background-clip: text;
      -webkit-text-fill-color: transparent;
      background-clip: text;
    }
    p {
      color: #888;
      margin-top: 1rem;
    }
    code {
      display: block;
      margin-top: 1rem;
      padding: 1rem;
      background: #1a1a1a;
      border-radius: 8px;
      font-size: 0.875rem;
      color: #ff6b6b;
      word-break: break-word;
    }
  </style>
</head>
<body>
  <div class=" +:+ Str.dq +:+ "error-container" +:+ Str.dq +:+ ">
    <h1>500</h1>
    <p>An error occurred while rendering this page.</p>
    ".

Definition error_page_tail : string :=
"
  </div>
</body>
</html>".

Definition renderErrorPage (w : World) (message : string) : string :=
error_page_head +:+
(if production w then EmptyString else "<code>" +:+ message +:+ "</code>") +:+
error_page_tail.

(** The cache check at the start of [render]. *)
Definition check_cache (w : World) (options : RenderOptions) (cacheKey : string)
    : M (option CacheEntry) := λ e,
match cache e with
| Some c =>
    if negb (default false (skipCache options)) then
      match LRU.get cacheKey c with
      | (cached, c') =>
          bind (set_cache c')
               (λ _, ret (match cached with
                          | Some entry => if isCacheValid w entry then Some entry else None
                          | None => None
                          end)) e
      end
    else (Js.Returned None, e)
| None => (Js.Returned None, e)
end.

(** The cache population after a successful render. *)
Definition populate_cache (w : World) (options : RenderOptions) (cacheKey : string)
    (result : RenderResult) : M unit := λ e,
match cache e with
| Some c =>
    if negb (default false (skipCache options)) then
      let cacheEntry :=
        {| entry_html := html result; entry_status := status result;
           entry_headers := headers result;
           timestamp := now_at_timestamp w;
           expiresAt := now_at_expiry w + cacheTtl e |} in
      set_cache (LRU.set cacheKey cacheEntry c) e
    else (Js.Returned tt, e)
| None => (Js.Returned tt, e)
end.

Definition render (w : World) (options : RenderOptions) : M RenderResult :=
let* cacheKey := lift (getCacheKey w (url options)) in
let* hit := check_cache w options cacheKey in
match hit with
| Some cached =>
    ret {| html := entry_html cached; status := entry_status cached;
           headers := entry_headers cached; fromCache := true |}
| None =>
    try_catch
      (let* document := getDocument w (document options) in
       let* parsed :=
         lift (match URL_parse w (url options) with
               | Some parsed => Js.Returned parsed
               | None => Js.Thrown (Js.Error "Invalid URL")
               end) in
       let* html := lift (renderApplication w document (parsed.1 +:+ parsed.2)) in
       let result :=
         {| html := html; status := 200;
            headers := {[ "Content-Type" := "text/html; charset=utf-8";
                          "X-Rendered-By" := "bun-angular-ssr" ]};
            fromCache := false |} in
       let* _ := populate_cache w options cacheKey result in
       ret result)
      (λ error,
         ret {| html := renderErrorPage w (Js.message_of error); status := 500;
                headers := {[ "Content-Type" := "text/html; charset=utf-8" ]};
                fromCache := false |})
end.

(** The constructor; reading the template may throw. *)
Definition new (w : World) (options : BunAngularEngineOptions)
    : Js.outcome BunAngularEngine :=
let browserDist := Path.resolve (cwd w) [browserDistFolder options] in
let e :=
  {| indexHtmlPath :=
       match indexHtml options with
       | Some p => if Str.is_empty p then Path.join [browserDist; "index.html"]
                   else Path.resolve (cwd w) [p]
       | None => Path.join [browserDist; "index.html"]
       end;
     cache :=
       if default true (enableCache options)
       then Some (LRU.new (default 100 (maxCacheSize options))) else None;
     cacheTtl := default 300000 (opt_cacheTtl options);
     indexHtmlContent := None |} in
match loadIndexHtml w e with
| (Js.Returned _, e') => Js.Returned e'
| (Js.Thrown err, _) => Js.Thrown err
end.

End Engine.

(** An engine for the examples. *)
Module DemoEngine.

(** The text before the first [c], and the rest from [c] on. *)
Fixpoint break_at (c : ascii) (s : string) : string * string :=
match s with
| EmptyString => (EmptyString, EmptyString)
| String a r =>
    if decide (a = c) then (EmptyString, s)
    else (String a (break_at c r).1, (break_at c r).2)
end.

(** A url parser for the examples: it takes a path that starts with one
    slash, with or without a query, and refuses everything else. *)
Definition parse_path_and_query (url : string) : option (string * string) :=
if Str.starts_with "/" url && negb (Str.starts_with "//" url)
then Some (break_at "?" url) else None.

(** A renderer that fails on [/b] and on [/broken]. *)
Definition renderer (document url : string) : Js.outcome string :=
if decide (url = "/b") then Js.Thrown (Js.Error "boom")
else if decide (url = "/broken") then Js.Thrown (Js.Error "boom")
else Js.Returned ("<html>" +:+ url +:+ "</html>").

Definition world : Engine.World :=
{| Engine.cwd := "/srv"; Engine.fs := Demo.site;
   Engine.URL_parse := parse_path_and_query;
   Engine.renderApplication := renderer;
   Engine.now_at_check := 1000; Engine.now_at_timestamp := 1001;
   Engine.now_at_expiry := 1001; Engine.production := true |}.

Definition stale : Engine.CacheEntry :=
{| Engine.entry_html := "<html>old</html>"; Engine.entry_status := 200;
   Engine.entry_headers := ∅; Engine.timestamp := 0; Engine.expiresAt := 1000 |}.

Definition engine : Engine.BunAngularEngine :=
{| Engine.indexHtmlPath := "/srv/www/index.html";
   Engine.cache := Some (LRU.set "/about" stale (LRU.new 100));
   Engine.cacheTtl := 300000;
   Engine.indexHtmlContent := Some "<html>home</html>" |}.

Definition request (url : string) : Engine.RenderOptions :=
{| Engine.url := url; Engine.document := None; Engine.skipCache := None |}.

End DemoEngine.

(** The entry an engine's cache holds under a key, if any. *)
Definition cached_entry (key : string) (e : Engine.BunAngularEngine)
    : option Engine.CacheEntry :=
match Engine.cache e with
| Some c => LRU.peek key c
| None => None
end.

(** ** More string functions, for the prerenderer *)

Module StrMore.

Definition nl : string := String (ascii_of_nat 10) EmptyString.

Fixpoint drop (n : nat) (s : string) : string :=
match n, s with
| S k, String _ r => drop k r
| _, _ => s
end.

(** The replacement text of a match, for a pattern without capture
    groups: in the template [$$] stands for a dollar sign, [$&] for the
    matched text, [$`] for the text before the match and [$'] for the
    text after it; with no groups to refer to, any other [$] stands for
    itself. *)
Fixpoint substitution (matched before after template : string) : string :=
match template with
| EmptyString => EmptyString
| String a r =>
    if decide (a = "$"%char) then
      match r with
      | String b r' =>
          if decide (b = "$"%char) then String a (substitution matched before after r')
          else if decide (b = "&"%char) then matched +:+ substitution matched before after r'
          else if decide (b = "`"%char) then before +:+ substitution matched before after r'
          else if decide (b = "'"%char) then after +:+ substitution matched before after r'
          else String a (substitution matched before after r)
      | EmptyString => String a EmptyString
      end
    else String a (substitution matched before after r)
end.

(** [s.replace(pat, rep)] with a string pattern: the first occurrence is
    replaced; [before] is the text already passed. *)
Fixpoint replace_first_from (before pat rep s : string) : string :=
if Str.starts_with pat s then
  before +:+ substitution pat before (drop (String.length pat) s) rep +:+
  drop (String.length pat) s
else match s with
     | EmptyString => before
     | String a r => replace_first_from (before +:+ String a EmptyString) pat rep r
     end.

Definition replace_first (pat rep s : string) : string :=
replace_first_from EmptyString pat rep s.

(** [s.replace(/pat/g, rep)] for a literal, non-empty [pat]; [skip] counts
    the characters of a match still to pass over, [before] is the text
    already passed. *)
Fixpoint replace_all_from (skip : nat) (before pat rep s : string) : string :=
match s with
| EmptyString => EmptyString
| String a r =>
    let passed := before +:+ String a EmptyString in
    match skip with
    | S k => replace_all_from k passed pat rep r
    | O =>
        if Str.starts_with pat s
        then substitution pat before (drop (String.length pat) s) rep +:+
             replace_all_from (String.length pat - 1) passed pat rep r
        else String a (replace_all_from 0 passed pat rep r)
    end
end.

Definition replace_all (pat rep s : string) : string :=
replace_all_from 0 EmptyString pat rep s.

(** [s.replace(/\/+/g, '/')] *)
Fixpoint collapse_slashes (s : string) : string :=
match s with
| EmptyString => EmptyString
| String a r =>
    if decide (a = Str.slash) then
      match r with
      | String b _ => if decide (b = Str.slash) then collapse_slashes r
                      else String a (collapse_slashes r)
      | EmptyString => String a EmptyString
      end
    else String a (collapse_slashes r)
end.

(** [s.replace(/\/$/, '')] *)
Fixpoint drop_trailing_slash (s : string) : string :=
match s with
| EmptyString => EmptyString
| String a EmptyString => if decide (a = Str.slash) then EmptyString else s
| String a r => String a (drop_trailing_slash r)
end.

End StrMore.

(** [path.dirname] *)
Module Dirname.

(** The scan of [dirname] from the last character down to index 1; [i] is
    the index of the head of [rchars]. *)
Fixpoint find_end (rchars : list ascii) (matchedSlash : bool) (i : nat) : option nat :=
match rchars with
| [] => None
| ch :: more =>
    if decide (ch = Str.slash) then
      if matchedSlash then find_end more true (i - 1) else Some i
    else find_end more false (i - 1)
end.

Definition dirname (path : string) : string :=
if Str.is_empty path then "."
else
  let hasRoot := Str.starts_with "/" path in
  let chars := list_ascii_of_string path in
  match find_end (rev (tail chars)) true (length chars - 1) with
  | None => if hasRoot then "/" else "."
  | Some fin =>
      if hasRoot && bool_decide (fin = 1%nat) then "//"
      else String.substring 0 fin path
  end.

End Dirname.

(** ** [prerenderRoutes] (src/prerender/prerender.ts) *)

Module Prerender.

Record PrerenderRoute := mkRoute {
  path : string;
  (** the outcome of calling [getParams], when the route has one; a
      parameter set lists its entries in [Object.entries] order *)
  getParams : option (Js.outcome (list (list (string * string))));
  outputPath : option string
}.

(** An element of [routes]: a string or a [PrerenderRoute]. *)
Inductive RouteSpec :=
| Literal (path : string)
| Parameterized (route : PrerenderRoute).

Record PrerenderOptions := mkOptions {
  engineOptions : option Engine.BunAngularEngineOptions;
  engine : option Engine.BunAngularEngine;
  routes : list RouteSpec;
  outputDir : string;
  concurrency : option Z;
  minify : option bool;
  (** [onProgress] is only recorded, in [progress] below *)
  onError : option (Js.exn → string → bool);
  generateSitemap : option bool;
  baseUrl : option string
}.

(** An entry of [result.routes]; [renderTime] is left out. *)
Record RouteRecord := mkRecord {
  rec_path : string;
  rec_outputPath : string;
  rec_success : bool;
  rec_error : option string
}.

(** [totalTime] is left out. *)
Record PrerenderResult := mkResult {
  total : Z;
  success : Z;
  failed : Z;
  result_routes : list RouteRecord
}.

Record ExpandedRoute := mkExpanded { ex_path : string; ex_outputPath : string }.

(** The output side of the file system: what existed before the call, the
    directories made and the files written since, in order. *)
Record Disk := mkDisk {
  existing : string → bool;
  made : list string;
  written : list (string * string)
}.

Definition disk_exists (d : Disk) (p : string) : bool :=
existing d p || bool_decide (p ∈ made d) || bool_decide (p ∈ (written d).*1).

Record World := mkWorld {
  engine_world : Engine.World;
  (** [minifyHtml]; its regular expressions are not modelled *)
  minifyHtml : string → string;
  (** [new URL(route, baseUrl).href], [None] when the constructor throws *)
  URL_href : string → string → option string;
  (** the error of [mkdir(dir, { recursive: true })], if it fails *)
  mkdir_error : string → option Js.exn;
  (** the error of [writeFile(path, ...)], if it fails *)
  writeFile_error : string → option Js.exn;
  (** the turns of the wave that starts when [completed] tasks have
      settled: each turn is named by the position of its task in the wave,
      in the order in which what the tasks await completes, and the list
      ends where the caller of [Promise.all] resumes *)
  schedule : Z → list ExpandedRoute → list nat
}.

(** What a call changes: the engine, the disk, the progress reports. *)
Record State := mkState {
  st_engine : Engine.BunAngularEngine;
  disk : Disk;
  progress : list (Z * Z * string)
}.

Definition normalizePath (path : string) : string :=
let path := if Str.starts_with "/" path then path else "/" +:+ path in
StrMore.collapse_slashes path.

Definition pathToOutputFile (path : string) : string :=
let normalized := normalizePath path in
if decide (normalized = "/") then "/index.html"
else StrMore.drop_trailing_slash normalized +:+ "/index.html".

Definition expand_params (path : string) (params : list (string * string)) : string :=
fold_left
  (λ expanded kv,
     StrMore.replace_first ("[" +:+ kv.1 +:+ "]") kv.2
       (StrMore.replace_first (":" +:+ kv.1) kv.2 expanded))
  params path.

Definition expandRoute (route : PrerenderRoute) : Js.outcome (list string) :=
match getParams route with
| None => Js.Returned [path route]
| Some (Js.Returned paramSets) => Js.Returned (expand_params (path route) <$> paramSets)
| Some (Js.Thrown err) => Js.Thrown err
end.

(** The sitemap document for the given [<loc>] values. *)
Definition sitemap_xml (locs : list string) : string :=
"<?xml version=" +:+ Str.dq +:+ "1.0" +:+ Str.dq +:+ " encoding=" +:+ Str.dq +:+
"UTF-8" +:+ Str.dq +:+ "?>
<urlset xmlns=" +:+ Str.dq +:+ "http://www.sitemaps.org/schemas/sitemap/0.9" +:+ Str.dq +:+ ">
" +:+
Str.join_with StrMore.nl
  ((λ loc, "  <url>
    <loc>" +:+ loc +:+ "</loc>
    <changefreq>weekly</changefreq>
  </url>") <$> locs) +:+ "
</urlset>".

(** [routes.map(route => new URL(route, baseUrl).href)] *)
Fixpoint hrefs (w : World) (routes : list string) (baseUrl : string)
    : Js.outcome (list string) :=
match routes with
| [] => Js.Returned []
| route :: more =>
    match URL_href w route baseUrl with
    | None => Js.Thrown (Js.Error "Invalid URL")
    | Some loc =>
        match hrefs w more baseUrl with
        | Js.Returned locs => Js.Returned (loc :: locs)
        | Js.Thrown err => Js.Thrown err
        end
    end
end.

Definition generateSitemap_xml (w : World) (routes : list string) (baseUrl : string)
    : Js.outcome string :=
match hrefs w routes baseUrl with
| Js.Returned locs => Js.Returned (sitemap_xml locs)
| Js.Thrown err => Js.Thrown err
end.

(** [array.slice(start, end)] *)
Definition slice {T} (array : list T) (start fin : Z) : list T :=
let len := Z.of_nat (length array) in
let k := if start <? 0 then Z.max (len + start) 0 else Z.min start len in
let final := if fin <? 0 then Z.max (len + fin) 0 else Z.min fin len in
take (Z.to_nat (final - k)) (drop (Z.to_nat k) array).

(** The loop of [chunk]; each turn of the loop takes one unit of [fuel],
    and [None] means the fuel ran out before the loop ended. *)
Fixpoint chunk_loop {T} (fuel : nat) (array : list T) (size : Z) (i : Z)
    (chunks : list (list T)) : option (list (list T)) :=
match fuel with
| O => None
| S fuel =>
    if i <? Z.of_nat (length array)
    then chunk_loop fuel array size (i + size) (chunks ++ [slice array i (i + size)])
    else Some chunks
end.

Definition chunk {T} (fuel : nat) (array : list T) (size : Z) : option (list (list T)) :=
chunk_loop fuel array size 0 [].

(** The mutable [result] and the [completed] counter. *)
Record Tally := mkTally {
  tally_success : Z;
  tally_failed : Z;
  tally_routes : list RouteRecord;
  completed : Z
}.

Definition mkdir (w : World) (dir : string) (d : Disk) : Js.outcome unit * Disk :=
match mkdir_error w dir with
| Some err => (Js.Thrown err, d)
| None => (Js.Returned tt, {| existing := existing d; made := made d ++ [dir];
                              written := written d |})
end.

Definition writeFile (w : World) (file text : string) (d : Disk)
    : Js.outcome unit * Disk :=
match writeFile_error w file with
| Some err => (Js.Thrown err, d)
| None => (Js.Returned tt, {| existing := existing d; made := made d;
                              written := written d ++ [(file, text)] |})
end.

(** Where a task of a wave stands: the [await] it is at.  [Rendering]
    holds what [engine.render] is going to give the task.  For the two
    file operations, [landed] tells whether the operation has taken effect
    on the disk; the task itself resumes at a later turn. *)
Inductive Phase :=
| Rendering (rendered : Js.outcome Engine.RenderResult)
| MakingDir (html : string) (landed : bool)
| Writing (html : string) (landed : bool)
| Settled.

Definition is_settled (phase : Phase) : bool :=
match phase with
| Settled => true
| _ => false
end.

(** A promise of [promises], with the task it runs. *)
Record Slot := mkSlot { slot_task : ExpandedRoute; slot_phase : Phase }.

(** [routeChunk.map(async ...)]: every task of the wave is started, in
    order, and runs up to its first [await]; this is where [engine.render]
    is called, and where it reads and changes the engine (with
    [skipCache], what [render] does after its own [await] leaves the
    engine as it is). *)
Fixpoint dispatch (w : World) (routeChunk : list ExpandedRoute)
    (e : Engine.BunAngularEngine) : list Slot * Engine.BunAngularEngine :=
match routeChunk with
| [] => ([], e)
| task :: more =>
    let '(rendered, e') :=
      Engine.render (engine_world w)
        {| Engine.url := ex_path task; Engine.document := None;
           Engine.skipCache := Some true |} e in
    let '(slots, e'') := dispatch w more e' in
    ({| slot_task := task; slot_phase := Rendering rendered |} :: slots, e'')
end.

(** The end of the [try] block of a task, once its file is written. *)
Definition reported (options : PrerenderOptions) (total : Z) (task : ExpandedRoute)
    (acc : Tally * State) : Tally * State :=
let '(tally, st) := acc in
let fullOutputPath := Path.join [outputDir options; ex_outputPath task] in
let completed' := completed tally + 1 in
({| tally_success := tally_success tally + 1;
    tally_failed := tally_failed tally;
    tally_routes := tally_routes tally ++
      [{| rec_path := ex_path task; rec_outputPath := fullOutputPath;
          rec_success := true; rec_error := None |}];
    completed := completed' |},
 {| st_engine := st_engine st; disk := disk st;
    progress := progress st ++ [(completed', total, ex_path task)] |}).

(** The [catch] block of a task.  The third component is the error the
    task rejects with, when [onError] answers [false]. *)
Definition caught (options : PrerenderOptions) (total : Z) (task : ExpandedRoute)
    (error : Js.exn) (acc : Tally * State) : Tally * State * option Js.exn :=
let '(tally, st) := acc in
let fullOutputPath := Path.join [outputDir options; ex_outputPath task] in
let errorMessage := Js.message_of error in
let shouldContinue :=
  match onError options with
  | Some callback => Some (callback (Js.Error errorMessage) (ex_path task))
  | None => None
  end in
let completed' := completed tally + 1 in
({| tally_success := tally_success tally;
    tally_failed := tally_failed tally + 1;
    tally_routes := tally_routes tally ++
      [{| rec_path := ex_path task; rec_outputPath := fullOutputPath;
          rec_success := false; rec_error := Some errorMessage |}];
    completed := completed' |},
 {| st_engine := st_engine st; disk := disk st;
    progress := progress st ++ [(completed', total, ex_path task)] |},
 if decide (shouldContinue = Some false) then Some error else None).

Definition with_disk (d : Disk) (acc : Tally * State) : Tally * State :=
(acc.1, {| st_engine := st_engine acc.2; disk := d; progress := progress acc.2 |}).

(** One turn of a task: what it awaits completes, and the task runs on to
    its next [await] or to its end.  A file operation takes two turns, one
    in which it takes effect or fails, one in which the task resumes. *)
Definition advance (w : World) (options : PrerenderOptions) (total : Z)
    (task : ExpandedRoute) (phase : Phase) (acc : Tally * State)
    : Phase * (Tally * State) * option Js.exn :=
let fullOutputPath := Path.join [outputDir options; ex_outputPath task] in
let dir := Dirname.dirname fullOutputPath in
let settle := λ '(acc', thrown), (Settled, acc', thrown) in
match phase with
| Rendering (Js.Thrown err) => settle (caught options total task err acc)
| Rendering (Js.Returned renderResult) =>
    if decide (Engine.status renderResult ≠ 200) then
      settle (caught options total task
                (Js.Error ("Render returned status " +:+
                           Str.of_Z (Engine.status renderResult))) acc)
    else
      let html := if default false (minify options)
                  then minifyHtml w (Engine.html renderResult)
                  else Engine.html renderResult in
      if disk_exists (disk acc.2) dir then (Writing html false, acc, None)
      else (MakingDir html false, acc, None)
| MakingDir html false =>
    match mkdir w dir (disk acc.2) with
    | (Js.Thrown err, _) => settle (caught options total task err acc)
    | (Js.Returned _, d1) => (MakingDir html true, with_disk d1 acc, None)
    end
| MakingDir html true => (Writing html false, acc, None)
| Writing html false =>
    match writeFile w fullOutputPath html (disk acc.2) with
    | (Js.Thrown err, _) => settle (caught options total task err acc)
    | (Js.Returned _, d2) => (Writing html true, with_disk d2 acc, None)
    end
| Writing html true => (Settled, reported options total task acc, None)
| Settled => (Settled, acc, None)
end.

(** The turn of the task at position [i] of the wave. *)
Definition turn (w : World) (options : PrerenderOptions) (total : Z) (i : nat)
    (slots : list Slot) (acc : Tally * State)
    : list Slot * (Tally * State) * option Js.exn :=
match slots !! i with
| None => (slots, acc, None)
| Some slot =>
    let '(phase, acc', thrown) :=
      advance w options total (slot_task slot) (slot_phase slot) acc in
    (<[i := {| slot_task := slot_task slot; slot_phase := phase |}]> slots, acc', thrown)
end.

(** The turns the world schedules.  [Promise.all] rejects with the first
    error a task rethrows; the other tasks go on, and whatever they do
    before the caller resumes is part of what the caller finds. *)
Fixpoint run_turns (w : World) (options : PrerenderOptions) (total : Z)
    (turns : list nat) (slots : list Slot) (acc : Tally * State)
    (rejected : option Js.exn) : list Slot * (Tally * State) * option Js.exn :=
match turns with
| [] => (slots, acc, rejected)
| i :: more =>
    let '(slots', acc', thrown) := turn w options total i slots acc in
    run_turns w options total more slots' acc'
      (match rejected with Some err => Some err | None => thrown end)
end.

(** Turns up to the first error rethrown. *)
Fixpoint run_to_rejection (w : World) (options : PrerenderOptions) (total : Z)
    (turns : list nat) (slots : list Slot) (acc : Tally * State)
    : list Slot * (Tally * State) * option Js.exn :=
match turns with
| [] => (slots, acc, None)
| i :: more =>
    match turn w options total i slots acc with
    | (slots', acc', Some err) => (slots', acc', Some err)
    | (slots', acc', None) => run_to_rejection w options total more slots' acc'
    end
end.

(** Enough turns for every one of [n] tasks to settle, task by task. *)
Definition completion (n : nat) : list nat :=
i ← seq 0 n; replicate 5 i.

(** A wave, [await Promise.all(promises)]: the tasks are started, then
    take the turns of the world's schedule; the wave rejects with the
    first error rethrown, and the state is the one the caller finds when
    it resumes.  Where the schedule ends with tasks pending and nothing
    rethrown, these run to their end one after the other. *)
Definition run_wave (w : World) (options : PrerenderOptions) (total : Z)
    (routeChunk : list ExpandedRoute) (acc : Tally * State)
    : Tally * State * option Js.exn :=
let '(slots, e) := dispatch w routeChunk (st_engine acc.2) in
let started :=
  (acc.1, {| st_engine := e; disk := disk acc.2; progress := progress acc.2 |}) in
match run_turns w options total (schedule w (completed acc.1) routeChunk) slots started
        None with
| (_, acc', Some err) => (acc', Some err)
| (slots', acc', None) =>
    let '(_, acc'', rejected) :=
      run_to_rejection w options total (completion (length routeChunk)) slots' acc' in
    (acc'', rejected)
end.

(** [for (const routeChunk of chunks) { ...; await Promise.all(promises) }] *)
Fixpoint run_waves (w : World) (options : PrerenderOptions) (total : Z)
    (chunks : list (list ExpandedRoute)) (acc : Tally * State)
    : Js.outcome Tally * State :=
match chunks with
| [] => (Js.Returned acc.1, acc.2)
| routeChunk :: more =>
    match run_wave w options total routeChunk acc with
    | (acc', Some err) => (Js.Thrown err, acc'.2)
    | (acc', None) => run_waves w options total more acc'
    end
end.

(** The expansion of [routes]. *)
Fixpoint expand_all (routes : list RouteSpec) : Js.outcome (list ExpandedRoute) :=
match routes with
| [] => Js.Returned []
| route :: more =>
    let here :=
      match route with
      | Literal route =>
          Js.Returned [{| ex_path := route; ex_outputPath := pathToOutputFile route |}]
      | Parameterized route =>
          match expandRoute route with
          | Js.Returned paths =>
              Js.Returned
                ((λ path,
                    {| ex_path := path;
                       ex_outputPath :=
                         if Engine.truthy (outputPath route)
                         then StrMore.replace_all "$path" path
                                (default EmptyString (outputPath route))
                         else pathToOutputFile path |}) <$> paths)
          | Js.Thrown err => Js.Thrown err
          end
      end in
    match here with
    | Js.Thrown err => Js.Thrown err
    | Js.Returned first =>
        match expand_all more with
        | Js.Returned rest => Js.Returned (first ++ rest)
        | Js.Thrown err => Js.Thrown err
        end
    end
end.

(** [options.engine], or the engine made from [options.engineOptions]
    with the cache switched off. *)
Definition choose_engine (w : World) (options : PrerenderOptions)
    : Js.outcome Engine.BunAngularEngine :=
match engine options, engineOptions options with
| Some e, _ => Js.Returned e
| None, Some eo =>
    Engine.new (engine_world w)
      {| Engine.browserDistFolder := Engine.browserDistFolder eo;
         Engine.indexHtml := Engine.indexHtml eo;
         Engine.enableCache := Some false;
         Engine.maxCacheSize := Engine.maxCacheSize eo;
         Engine.opt_cacheTtl := Engine.opt_cacheTtl eo |}
| None, None => Js.Thrown (Js.Error "Either engine or engineOptions must be provided")
end.

(** The sitemap step at the end of [prerenderRoutes]. *)
Definition write_sitemap (w : World) (options : PrerenderOptions) (tally : Tally)
    (d : Disk) : Js.outcome unit * Disk :=
if default true (generateSitemap options) && (0 <? tally_success tally) then
  let successfulRoutes := rec_path <$> filter (λ r, rec_success r = true) (tally_routes tally) in
  match generateSitemap_xml w successfulRoutes (default "http://localhost" (baseUrl options)) with
  | Js.Thrown err => (Js.Thrown err, d)
  | Js.Returned sitemapContent =>
      writeFile w (Path.join [outputDir options; "sitemap.xml"]) sitemapContent d
  end
else (Js.Returned tt, d).

(** [prerenderRoutes]: [None] when the fuel of the chunking loop runs out,
    otherwise the outcome, the disk and the progress reports. *)
Definition prerenderRoutes (fuel : nat) (w : World) (options : PrerenderOptions)
    (d : Disk) : option (Js.outcome PrerenderResult * Disk * list (Z * Z * string)) :=
match choose_engine w options with
| Js.Thrown err => Some (Js.Thrown err, d, [])
| Js.Returned e =>
    match expand_all (routes options) with
    | Js.Thrown err => Some (Js.Thrown err, d, [])
    | Js.Returned expandedRoutes =>
        let total := Z.of_nat (length expandedRoutes) in
        let '(made_dir, d0) :=
          if disk_exists d (outputDir options) then (Js.Returned tt, d)
          else mkdir w (outputDir options) d in
        match made_dir with
        | Js.Thrown err => Some (Js.Thrown err, d0, [])
        | Js.Returned _ =>
            match chunk fuel expandedRoutes (default 5 (concurrency options)) with
            | None => None
            | Some chunks =>
                let start :=
                  ({| tally_success := 0; tally_failed := 0; tally_routes := [];
                      completed := 0 |},
                   {| st_engine := e; disk := d0; progress := [] |}) in
                match run_waves w options total chunks start with
                | (Js.Thrown err, st) => Some (Js.Thrown err, disk st, progress st)
                | (Js.Returned tally, st) =>
                    match write_sitemap w options tally (disk st) with
                    | (Js.Thrown err, d1) => Some (Js.Thrown err, d1, progress st)
                    | (Js.Returned _, d1) =>
                        Some (Js.Returned
                                {| total := total;
                                   success := tally_success tally;
                                   failed := tally_failed tally;
                                   result_routes := tally_routes tally |},
                              d1, progress st)
                    end
                end
            end
        end
    end
end.

End Prerender.

(** A prerendering setup for the examples. *)
Module DemoPrerender.

(** Resolution of a path that starts with a slash against an origin without
    a path, such as [https://example.com]; everything else is refused. *)
Definition href_of_origin (route baseUrl : string) : option string :=
if Str.starts_with "/" route && Str.includes "://" baseUrl
   && negb (Str.ends_with_char Str.slash baseUrl)
then Some (baseUrl +:+ route) else None.

(** A schedule in which the tasks of a wave run to their end one after
    the other, the first one first. *)
Definition in_order (completed : Z) (routeChunk : list Prerender.ExpandedRoute)
    : list nat :=
Prerender.completion (length routeChunk).

(** The same, the last task first. *)
Definition last_first (completed : Z) (routeChunk : list Prerender.ExpandedRoute)
    : list nat :=
i ← reverse (seq 0 (length routeChunk)); replicate 5 i.

(** A schedule in which the tasks take turns, the first one first, and
    the caller resumes after [n] turns. *)
Definition round_robin (n : nat) (completed : Z)
    (routeChunk : list Prerender.ExpandedRoute) : list nat :=
take n (_ ← seq 0 5; seq 0 (length routeChunk)).

Definition world (schedule : Z → list Prerender.ExpandedRoute → list nat)
    : Prerender.World :=
{| Prerender.engine_world := DemoEngine.world;
   Prerender.minifyHtml := λ text, text;
   Prerender.URL_href := href_of_origin;
   Prerender.mkdir_error := λ _, None;
   Prerender.writeFile_error := λ _, None;
   Prerender.schedule := schedule |}.

Definition empty_disk : Prerender.Disk :=
{| Prerender.existing := λ _, false; Prerender.made := []; Prerender.written := [] |}.

Definition options (routes : list string) (base : string) (limit : option Z)
    : Prerender.PrerenderOptions :=
{| Prerender.engineOptions := None;
   Prerender.engine := Some DemoEngine.engine;
   Prerender.routes := Prerender.Literal <$> routes;
   Prerender.outputDir := "/out";
   Prerender.concurrency := limit;
   Prerender.minify := None;
   Prerender.onError := Some (λ _ _, true);
   Prerender.generateSitemap := None;
   Prerender.baseUrl := Some base |}.

End DemoPrerender.

(** The render call a prerender task makes. *)
Definition task_render (w : Prerender.World) (route : string)
    (e : Engine.BunAngularEngine) : Js.outcome Engine.RenderResult * Engine.BunAngularEngine :=
Engine.render (Prerender.engine_world w)
  {| Engine.url := route; Engine.document := None; Engine.skipCache := Some true |} e.

(** Rendering [route] always succeeds with status 200, from every engine
    state that satisfies [Inv], and keeps [Inv]. *)
Definition render_ok (Inv : Engine.BunAngularEngine → Prop) (w : Prerender.World)
    (route : string) : Prop :=
∀ e, Inv e →
  ∃ r e', task_render w route e = (Js.Returned r, e') ∧ Engine.status r = 200 ∧ Inv e'.

(** Rendering [route] always fails, from every engine state that satisfies
    [Inv]: it throws, or the status is not 200; it keeps [Inv]. *)
Definition render_fails (Inv : Engine.BunAngularEngine → Prop) (w : Prerender.World)
    (route : string) : Prop :=
∀ e, Inv e →
  Inv (task_render w route e).2 ∧
  match (task_render w route e).1 with
  | Js.Returned r => Engine.status r ≠ 200
  | Js.Thrown _ => True
  end.

(** The error callback never asks to stop. *)
Definition never_stops (options : Prerender.PrerenderOptions) : Prop :=
match Prerender.onError options with
| Some callback => ∀ err route, callback err route = true
| None => True
end.

(** The output file of a route. *)
Definition output_file (options : Prerender.PrerenderOptions) (route : string) : string :=
Path.join [Prerender.outputDir options; Prerender.pathToOutputFile route].

Definition sitemap_file (options : Prerender.PrerenderOptions) : string :=
Path.join [Prerender.outputDir options; "sitemap.xml"].

(** The file a task writes. *)
Definition full_output (options : Prerender.PrerenderOptions)
    (task : Prerender.ExpandedRoute) : string :=
Path.join [Prerender.outputDir options; Prerender.ex_outputPath task].

(** A record fits its task, for a classification [good] of the tasks. *)
Definition record_fits (options : Prerender.PrerenderOptions)
    (good : Prerender.ExpandedRoute → bool) (task : Prerender.ExpandedRoute)
    (r : Prerender.RouteRecord) : Prop :=
Prerender.rec_path r = Prerender.ex_path task ∧
Prerender.rec_outputPath r = full_output options task ∧
Prerender.rec_success r = good task ∧
(if good task then Prerender.rec_error r = None else is_Some (Prerender.rec_error r)).

(** The engines of the examples that have their template loaded. *)
Definition template_loaded (e : Engine.BunAngularEngine) : Prop :=
Engine.truthy (Engine.indexHtmlContent e) = true.

(** The routes of a result that were rendered successfully. *)
Definition successful_routes (res : Prerender.PrerenderResult) : list string :=
Prerender.rec_path <$>
  filter (λ r, Prerender.rec_success r = true) (Prerender.result_routes res).

(** The cache of src/server/cache.spec.ts, after the given calls. *)
Definition cache3 (ops : list (LRU.op string)) : LRU.LRUCache string :=
LRU.run (LRU.new 3) ops.

(** ** Vocabulary of the proofs *)

(** The keys are listed by strictly increasing rank. *)
Definition recency_ordered (rank : string → nat) (ks : list string) : Prop :=
StronglySorted (λ a b, (rank a < rank b)%nat) ks.

(** The invariant of a cache reached by a history: the map lists its keys
    from the least to the most recently touched one, and holds at most
    [maxSize] of them. *)
Record lru_inv {T} (C : Z) (ops : list (LRU.op T)) (c : LRU.LRUCache T) : Prop := LruInv {
  inv_maxSize : LRU.maxSize c = C;
  inv_order : recency_ordered (LRU.last_touch C ops) (LRU.keys c);
  inv_touched : ∀ k, k ∈ LRU.keys c → (0 < LRU.last_touch C ops k)%nat;
  inv_size : LRU.size c ≤ C
}.

(** [c] does not occur in [s]. *)
Fixpoint char_free (c : ascii) (s : string) : Prop :=
match s with
| EmptyString => True
| String a r => a ≠ c ∧ char_free c r
end.

Definition starts_with_dot (s : string) : Prop :=
match s with
| String a _ => a = Str.dot
| EmptyString => False
end.

(** No two dots in a row. *)
Fixpoint no_adjacent_dots (s : string) : Prop :=
match s with
| EmptyString => True
| String a r => (a = Str.dot → ¬ starts_with_dot r) ∧ no_adjacent_dots r
end.

(** A segment that names something: no slash, not empty, not [.] or [..]. *)
Definition good_segment (s : string) : Prop :=
char_free Str.slash s ∧ s ≠ EmptyString ∧ s ≠ "." ∧ s ≠ "..".

(** A segment that survives normalisation. *)
Definition real_segment (s : string) : Prop := ¬ (s = EmptyString ∨ s = ".").

(** A segment as the url splitting leaves it. *)
Definition url_segment (s : string) : Prop :=
char_free Str.slash s ∧ s ≠ EmptyString ∧ s ≠ "..".

(** The absolute path made of the segments [l]. *)
Definition abs_of (l : list string) : string := "/" +:+ Str.join_with "/" l.

(** ** The other methods of [BunAngularEngine], and [reload] of the server *)

Module EngineOps.

(** [clearCache]: [this.cache?.clear()] *)
Definition clearCache : Engine.M unit := λ e,
(Js.Returned tt,
 {| Engine.indexHtmlPath := Engine.indexHtmlPath e;
    Engine.cache := LRU.clear <$> Engine.cache e;
    Engine.cacheTtl := Engine.cacheTtl e;
    Engine.indexHtmlContent := Engine.indexHtmlContent e |}).

(** [getCacheStats]: the [size] and the [maxSize], [None] for [null]. *)
Definition getCacheStats (e : Engine.BunAngularEngine) : option (Z * Z) :=
(λ c, (LRU.size c, LRU.maxSize c)) <$> Engine.cache e.

(** [reloadTemplate] *)
Definition reloadTemplate (w : Engine.World) : Engine.M unit :=
Engine.bind (Engine.set_indexHtmlContent None) (λ _, Engine.loadIndexHtml w).

(** [reload] of the object [createBunServer] returns
    (src/server/server.ts): [reloadTemplate], then [clearCache]. *)
Definition server_reload (w : Engine.World) : Engine.M unit :=
Engine.bind (reloadTemplate w) (λ _, clearCache).

(** A call on an engine, with the world it runs in. *)
Inductive call :=
| Render (w : Engine.World) (options : Engine.RenderOptions)
| ClearCache
| ReloadTemplate (w : Engine.World).

Definition step (e : Engine.BunAngularEngine) (c : call) : Engine.BunAngularEngine :=
match c with
| Render w options => (Engine.render w options e).2
| ClearCache => (clearCache e).2
| ReloadTemplate w => (reloadTemplate w e).2
end.

Definition run (e : Engine.BunAngularEngine) (calls : list call) : Engine.BunAngularEngine :=
fold_left step calls e.

End EngineOps.

(** The message of the error [getDocument] throws. *)
Definition template_missing_message (e : Engine.BunAngularEngine) : string :=
"Could not find index.html at " +:+ Engine.indexHtmlPath e +:+ ". " +:+
"Please ensure the browser build output exists.".

(** The result of a render that went well. *)
Definition rendered_page (text : string) : Engine.RenderResult :=
{| Engine.html := text; Engine.status := 200;
   Engine.headers := {[ "Content-Type" := "text/html; charset=utf-8";
                        "X-Rendered-By" := "bun-angular-ssr" ]};
   Engine.fromCache := false |}.

(** The result of a render that failed with [error]. *)
Definition error_page (w : Engine.World) (error : Js.exn) : Engine.RenderResult :=
{| Engine.html := Engine.renderErrorPage w (Js.message_of error); Engine.status := 500;
   Engine.headers := {[ "Content-Type" := "text/html; charset=utf-8" ]};
   Engine.fromCache := false |}.

(** The result served from a cache entry. *)
Definition cached_page (entry : Engine.CacheEntry) : Engine.RenderResult :=
{| Engine.html := Engine.entry_html entry; Engine.status := Engine.entry_status entry;
   Engine.headers := Engine.entry_headers entry; Engine.fromCache := true |}.

(** The entry [render] stores for a result. *)
Definition entry_of (w : Engine.World) (e : Engine.BunAngularEngine)
    (result : Engine.RenderResult) : Engine.CacheEntry :=
{| Engine.entry_html := Engine.html result; Engine.entry_status := Engine.status result;
   Engine.entry_headers := Engine.headers result;
   Engine.timestamp := Engine.now_at_timestamp w;
   Engine.expiresAt := Engine.now_at_expiry w + Engine.cacheTtl e |}.

(** An engine with another cache. *)
Definition engine_with_cache (e : Engine.BunAngularEngine)
    (c : LRU.LRUCache Engine.CacheEntry) : Engine.BunAngularEngine :=
(Engine.set_cache c e).2.

(** An engine with another template. *)
Definition engine_with_template (e : Engine.BunAngularEngine) (text : option string)
    : Engine.BunAngularEngine :=
(Engine.set_indexHtmlContent text e).2.

(** Whether the cache is consulted: it exists and [skipCache] is not set. *)
Definition consulted_cache (options : Engine.RenderOptions) (e : Engine.BunAngularEngine)
    : option (LRU.LRUCache Engine.CacheEntry) :=
if default false (Engine.skipCache options) then None else Engine.cache e.

(** The cache has nothing to serve under [key]: it is not consulted, or it
    holds no entry there, or one that has expired. *)
Definition no_valid_entry (w : Engine.World) (options : Engine.RenderOptions)
    (e : Engine.BunAngularEngine) (key : string) : Prop :=
∀ c entry, consulted_cache options e = Some c → LRU.peek key c = Some entry →
  Engine.isCacheValid w entry = false.

(** What a render that is not answered by the cache returns, given the
    document it hands to the renderer. *)
Definition fresh_result (w : Engine.World) (document key : string) : Engine.RenderResult :=
match Engine.renderApplication w document key with
| Js.Returned text => rendered_page text
| Js.Thrown err => error_page w err
end.

(** The empty file. *)
Definition is_empty_file (node : FileNode) : Prop :=
isDirectory node = false ∧ content node = EmptyString.

(** Engines and worlds for further examples. *)
Module DemoEngine2.

(** An engine whose template was not found when it was built. *)
Definition without_template : Engine.BunAngularEngine :=
{| Engine.indexHtmlPath := "/srv/www/missing.html";
   Engine.cache := Some (LRU.new 100);
   Engine.cacheTtl := 300000;
   Engine.indexHtmlContent := None |}.

(** The same file system seen later: the clock has advanced to [now]. *)
Definition world_at (now : Z) : Engine.World :=
{| Engine.cwd := "/srv"; Engine.fs := Demo.site;
   Engine.URL_parse := DemoEngine.parse_path_and_query;
   Engine.renderApplication := DemoEngine.renderer;
   Engine.now_at_check := now; Engine.now_at_timestamp := now;
   Engine.now_at_expiry := now; Engine.production := true |}.

(** An engine with an empty cache and the template loaded. *)
Definition fresh : Engine.BunAngularEngine :=
{| Engine.indexHtmlPath := "/srv/www/index.html";
   Engine.cache := Some (LRU.new 100);
   Engine.cacheTtl := 300000;
   Engine.indexHtmlContent := Some "<html>home</html>" |}.

Definition options : Engine.BunAngularEngineOptions :=
{| Engine.browserDistFolder := "www"; Engine.indexHtml := None;
   Engine.enableCache := None; Engine.maxCacheSize := Some 2;
   Engine.opt_cacheTtl := None |}.

End DemoEngine2.

(** ** Vocabulary for the static file handler *)

(** The segments [resolveFilePath] joins to the root. *)
Definition url_segments (urlPath : string) : list string :=
Str.filter_Boolean
  (Str.split_on Str.slash (Str.remove_dot_runs (Str.backslashes_to_slashes urlPath))).

(** The path [lookup] examines: the resolved one, or its index file when
    the resolved path is a directory. *)
Definition examined_path (h : Static.BunStaticFileHandler) (w : Static.World)
    (urlPath : string) : string :=
let filePath := Static.resolveFilePath h urlPath in
if existsSync (Static.fs w) filePath && is_directory (Static.fs w) filePath
then Path.join [filePath; Static.index h] else filePath.

(** What [lookup] answers once the path to examine is fixed. *)
Definition lookup_at (h : Static.BunStaticFileHandler) (w : Static.World)
    (filePath : string) : Static.StaticFileResult :=
let '(compressed, actualPath) :=
  if Static.compression h then
    if existsSync (Static.fs w) (filePath +:+ ".br") then (Some Static.br, filePath +:+ ".br")
    else if existsSync (Static.fs w) (filePath +:+ ".gz")
    then (Some Static.gzip, filePath +:+ ".gz")
    else (None, filePath)
  else (None, filePath) in
let chosen := match compressed with Some _ => actualPath | None => filePath end in
match Static.fs w chosen with
| None => Static.not_found filePath (Static.getMimeType h filePath)
| Some node =>
    {| Static.filePath := chosen; Static.exists_ := true;
       Static.mimeType := Static.getMimeType h filePath;
       Static.cacheControl :=
         match Static.handler_cacheControl h with
         | Static.CacheControlFunction f => f filePath
         | Static.CacheControlString s => s
         end;
       Static.compressed := compressed;
       Static.stats := Some (Static.statSync node) |}
end.

(** A file name that a url can spell: one segment, no backslash, no two
    dots in a row. *)
Definition url_file_name (s : string) : Prop :=
Static.is_file_name s = true ∧ no_adjacent_dots s ∧ char_free "\"%char s.

(** ** Vocabulary for the prerenderer *)

(** The error callback always asks to stop. *)
Definition always_stops (options : Prerender.PrerenderOptions) : Prop :=
match Prerender.onError options with
| Some callback => ∀ err route, callback err route = false
| None => False
end.

(** The tasks are classified by [good]: a good one always renders with
    status 200, another one always fails. *)
Definition classified (Inv : Engine.BunAngularEngine → Prop) (w : Prerender.World)
    (good : Prerender.ExpandedRoute → bool) (tasks : list Prerender.ExpandedRoute) : Prop :=
∀ task, task ∈ tasks →
  if good task then render_ok Inv w (Prerender.ex_path task)
  else render_fails Inv w (Prerender.ex_path task).

(** The progress reports for [tasks], counted from [completed]. *)
Fixpoint reports_from (completed total : Z) (tasks : list Prerender.ExpandedRoute)
    : list (Z * Z * string) :=
match tasks with
| [] => []
| task :: more =>
    (completed + 1, total, Prerender.ex_path task) :: reports_from (completed + 1) total more
end.

(** The tasks of a wave that have settled. *)
Definition settled (slots : list Prerender.Slot) : list Prerender.ExpandedRoute :=
Prerender.slot_task <$>
  filter (λ slot, Prerender.is_settled (Prerender.slot_phase slot) = true) slots.

(** The turns a task has left at most. *)
Definition remaining (phase : Prerender.Phase) : nat :=
match phase with
| Prerender.Rendering _ => 5
| Prerender.MakingDir _ false => 4
| Prerender.MakingDir _ true => 3
| Prerender.Writing _ false => 2
| Prerender.Writing _ true => 1
| Prerender.Settled => 0
end.

(** What the tasks [order], settling in this order, add to the result
    and to the progress reports: the records [rs]. *)
Definition bookkeeping (total : Z) (acc acc' : Prerender.Tally * Prerender.State)
    (order : list Prerender.ExpandedRoute) (rs : list Prerender.RouteRecord) : Prop :=
Prerender.tally_routes acc'.1 = Prerender.tally_routes acc.1 ++ rs ∧
Prerender.rec_path <$> rs = Prerender.ex_path <$> order ∧
Prerender.tally_success acc'.1 =
  Prerender.tally_success acc.1 +
  Z.of_nat (length (filter (λ r, Prerender.rec_success r = true) rs)) ∧
Prerender.tally_failed acc'.1 =
  Prerender.tally_failed acc.1 +
  Z.of_nat (length (filter (λ r, Prerender.rec_success r ≠ true) rs)) ∧
Prerender.completed acc'.1 = Prerender.completed acc.1 + Z.of_nat (length order) ∧
Prerender.progress acc'.2 =
  Prerender.progress acc.2 ++ reports_from (Prerender.completed acc.1) total order.

(** The phase of a task fits its class: a task that renders awaits a
    render of status 200 or is past it; a task that fails awaits a render
    that throws or has another status, or it has settled. *)
Definition phase_fits (good : bool) (phase : Prerender.Phase) : Prop :=
match phase with
| Prerender.Rendering (Js.Returned r) =>
    if good then Engine.status r = 200 else Engine.status r ≠ 200
| Prerender.Rendering (Js.Thrown _) => good = false
| Prerender.Settled => True
| _ => good = true
end.

Definition slot_fits (good : Prerender.ExpandedRoute → bool) (slot : Prerender.Slot) : Prop :=
phase_fits (good (Prerender.slot_task slot)) (Prerender.slot_phase slot).

(** The file of the task is on the disk. *)
Definition has_written (good : bool) (phase : Prerender.Phase) : bool :=
match phase with
| Prerender.Writing _ true => true
| Prerender.Settled => good
| _ => false
end.

(** The tasks of a wave whose file is on the disk. *)
Definition writers (good : Prerender.ExpandedRoute → bool) (slots : list Prerender.Slot)
    : list Prerender.ExpandedRoute :=
Prerender.slot_task <$>
  filter (λ slot, has_written (good (Prerender.slot_task slot))
                    (Prerender.slot_phase slot) = true) slots.

(** The tasks [order] were carried out between [acc] and [acc'], in this
    order, leaving the records [rs]; the tasks [wrote] wrote their files,
    in this order, which are the files [ws]. *)
Definition carried_out (options : Prerender.PrerenderOptions) (total : Z)
    (good : Prerender.ExpandedRoute → bool) (acc acc' : Prerender.Tally * Prerender.State)
    (order : list Prerender.ExpandedRoute) (rs : list Prerender.RouteRecord)
    (ws : list (string * string)) (wrote : list Prerender.ExpandedRoute) : Prop :=
bookkeeping total acc acc' order rs ∧
Forall2 (record_fits options good) order rs ∧
Prerender.written (Prerender.disk acc'.2) = Prerender.written (Prerender.disk acc.2) ++ ws ∧
ws.*1 = full_output options <$> wrote.

(** The state a call of [prerenderRoutes] starts its waves from. *)
Definition start_of (e : Engine.BunAngularEngine) (d : Prerender.Disk)
    : Prerender.Tally * Prerender.State :=
({| Prerender.tally_success := 0; Prerender.tally_failed := 0;
    Prerender.tally_routes := []; Prerender.completed := 0 |},
 {| Prerender.st_engine := e; Prerender.disk := d; Prerender.progress := [] |}).

(** The disk once the output directory is there. *)
Definition with_output_dir (w : Prerender.World) (options : Prerender.PrerenderOptions)
    (d : Prerender.Disk) : Prerender.Disk :=
if Prerender.disk_exists d (Prerender.outputDir options) then d
else (Prerender.mkdir w (Prerender.outputDir options) d).2.

(** A route with parameters whose [getParams] rejects with [err]. *)
Definition rejecting_route (path : string) (err : Js.exn) : Prerender.RouteSpec :=
Prerender.Parameterized
  {| Prerender.path := path; Prerender.getParams := Some (Js.Thrown err);
     Prerender.outputPath := None |}.

(** A route whose expansion does not fail. *)
Definition expands (route : Prerender.RouteSpec) : Prop :=
match route with
| Prerender.Literal _ => True
| Prerender.Parameterized r =>
    match Prerender.getParams r with
    | Some (Js.Thrown _) => False
    | _ => True
    end
end.

(** Further prerendering setups for the examples. *)
Module DemoPrerender2.

(** The task of a route given as a string. *)
Definition task (route : string) : Prerender.ExpandedRoute :=
{| Prerender.ex_path := route; Prerender.ex_outputPath := Prerender.pathToOutputFile route |}.

(** The routes the example renderer renders: all but [/b]. *)
Definition renders (t : Prerender.ExpandedRoute) : bool :=
bool_decide (Prerender.ex_path t ≠ "/b").

Definition options (routes : list string) (limit : option Z)
    (callback : Js.exn → string → bool) (sitemap : option bool) (base : option string)
    : Prerender.PrerenderOptions :=
{| Prerender.engineOptions := None;
   Prerender.engine := Some DemoEngine.engine;
   Prerender.routes := Prerender.Literal <$> routes;
   Prerender.outputDir := "/out";
   Prerender.concurrency := limit;
   Prerender.minify := None;
   Prerender.onError := Some callback;
   Prerender.generateSitemap := sitemap;
   Prerender.baseUrl := base |}.

End DemoPrerender2.

(** ** [createRequestHandler] (src/server/handler.ts) *)

Module Handler.

(** A [Request]: [new URL(request.url)] is taken by the [pathname] and the
    [search] it gives (the url of a [Request] is always absolute, the
    constructor does not throw on it); [req] holds the headers the static
    handler reads. *)
Record Request := mkRequest {
  req_pathname : string;
  req_search : string;
  req : Static.Request
}.

(** The body of a [Response]: a file handed to [Bun.file], a text, or
    [null]. *)
Inductive Body :=
| FileBody (path : string)
| TextBody (text : string)
| NoBody.

Record Response := mkResponse {
  status : Z;
  headers : gmap string string;
  body : Body
}.

(** A response of the static handler. *)
Definition of_static (r : Static.Response) : Response :=
{| status := Static.status r; headers := Static.headers r;
   body := match Static.body r with Some path => FileBody path | None => NoBody end |}.

(** [baseHref] is not read by the handler and [logging] only prints; both
    are left out.  [onError] gets the message of the [Error] it is called
    with; [getProviders] is kept for its throwing, the providers are only
    handed on to the renderer. *)
Record RequestHandlerOptions := mkOptions {
  staticHandler : option Static.BunStaticFileHandler;
  staticRoutes : option (list string);
  clientOnlyRoutes : option (list string);
  onError : option (string → Request → Js.outcome Response);
  getProviders : option (Request → Js.outcome unit)
}.

(** What a handler reads from outside during one request. *)
Record World := mkWorld {
  static_world : Static.World;
  engine_world : Engine.World;
  (** what [staticHandler.serve] throws for a path, when it throws (a
      [cacheControl] callback that throws, a header the [Response]
      constructor refuses); [Static.serve] describes the calls that
      return *)
  serve_error : string → option Js.exn;
  (** [new RegExp(source)]: the test of the pattern, or the SyntaxError *)
  RegExp_new : string → Js.outcome Static.RegExp;
  (** [result.renderTime.toFixed(2)] *)
  renderTime_text : string;
  (** the message of the RangeError of [new Response] *)
  status_range_message : string
}.

(** The closure [createRequestHandler] returns. *)
Record RequestHandler := mkHandler {
  options : RequestHandlerOptions;
  staticRoutePatterns : list Static.RegExp;
  clientOnlyPatterns : list Static.RegExp
}.

(** [`^${route.replace(/\*/g, '.*')}$`] *)
Definition pattern_source (route : string) : string :=
"^" +:+ StrMore.replace_all "*" ".*" route +:+ "$".

(** [routes.map((route) => new RegExp(...))] *)
Fixpoint compile_patterns (w : World) (routes : list string)
    : Js.outcome (list Static.RegExp) :=
match routes with
| [] => Js.Returned []
| route :: rest =>
    match RegExp_new w (pattern_source route) with
    | Js.Returned pattern =>
        match compile_patterns w rest with
        | Js.Returned patterns => Js.Returned (pattern :: patterns)
        | Js.Thrown err => Js.Thrown err
        end
    | Js.Thrown err => Js.Thrown err
    end
end.

Definition createRequestHandler (w : World) (o : RequestHandlerOptions)
    : Js.outcome RequestHandler :=
match compile_patterns w (default [] (staticRoutes o)) with
| Js.Returned staticRoutePatterns =>
    match compile_patterns w (default [] (clientOnlyRoutes o)) with
    | Js.Returned clientOnlyPatterns =>
        Js.Returned {| options := o; staticRoutePatterns := staticRoutePatterns;
                       clientOnlyPatterns := clientOnlyPatterns |}
    | Js.Thrown err => Js.Thrown err
    end
| Js.Thrown err => Js.Thrown err
end.

Definition staticExtensions : list string :=
[ ".js"; ".mjs"; ".css"; ".png"; ".jpg"; ".jpeg"; ".gif"; ".svg"; ".ico"; ".webp";
  ".avif"; ".woff"; ".woff2"; ".ttf"; ".otf"; ".eot"; ".map"; ".json"; ".xml"; ".txt";
  ".pdf"; ".mp4"; ".webm"; ".mp3"; ".ogg"; ".wav"; ".wasm" ].

(** [pathname.slice(pathname.lastIndexOf('.'))], [None] without a dot *)
Fixpoint from_last_dot (pathname : string) : option string :=
match pathname with
| EmptyString => None
| String a r =>
    match from_last_dot r with
    | Some ext => Some ext
    | None => if decide (a = Str.dot) then Some pathname else None
    end
end.

Definition isStaticFile (pathname : string) : bool :=
match from_last_dot pathname with
| None => false
| Some ext => bool_decide (Str.toLowerCase ext ∈ staticExtensions)
end.

Definition matchesPatterns (pathname : string) (patterns : list Static.RegExp) : bool :=
existsb (λ pattern : Static.RegExp, pattern pathname) patterns.

(** [await staticHandler.serve(path, request)] *)
Definition serve_static (static : Static.BunStaticFileHandler) (w : World)
    (path : string) (request : Request) : Js.outcome (option Response) :=
match serve_error w path with
| Some err => Js.Thrown err
| None =>
    Js.Returned (of_static <$> Static.serve static (static_world w) path (Some (req request)))
end.

Definition htmlPath (pathname : string) : string :=
if Str.ends_with_char Str.slash pathname then pathname +:+ "index.html"
else pathname +:+ ".html".

Definition render_options (request : Request) : Engine.RenderOptions :=
{| Engine.url := req_pathname request +:+ req_search request;
   Engine.document := None; Engine.skipCache := None |}.

(** [new Response(result.html, { status, headers })]; the constructor
    refuses a status outside 200..599. *)
Definition ssr_response (w : World) (result : Engine.RenderResult) : Js.outcome Response :=
if (200 <=? Engine.status result) && (Engine.status result <=? 599) then
  Js.Returned
    {| status := Engine.status result;
       headers :=
         <["X-Cache-Hit" := if Engine.fromCache result then "true" else "false"]>
           (<["X-Render-Time" := renderTime_text w +:+ "ms"]> (Engine.headers result));
       body := TextBody (Engine.html result) |}
else Js.Thrown (Js.Error (status_range_message w)).

(** [getProviders ? getProviders(request) : []] *)
Definition providers (h : RequestHandler) (request : Request) : Js.outcome unit :=
match getProviders (options h) with
| Some f => f request
| None => Js.Returned tt
end.

(** The rendering part of the [try] block. *)
Definition ssr (h : RequestHandler) (w : World) (request : Request) : Engine.M Response :=
Engine.bind (Engine.lift (providers h request))
  (λ _, Engine.bind (Engine.render (engine_world w) (render_options request))
          (λ result, Engine.lift (ssr_response w result))).

(** The three places where the static handler is asked, each with its
    guard and its path. *)
Definition file_step (h : RequestHandler) (w : World) (request : Request)
    : Js.outcome (option Response) :=
match staticHandler (options h) with
| Some static =>
    if isStaticFile (req_pathname request)
    then serve_static static w (req_pathname request) request
    else Js.Returned None
| None => Js.Returned None
end.

Definition page_step (h : RequestHandler) (w : World) (request : Request)
    : Js.outcome (option Response) :=
if matchesPatterns (req_pathname request) (staticRoutePatterns h) then
  match staticHandler (options h) with
  | Some static => serve_static static w (htmlPath (req_pathname request)) request
  | None => Js.Returned None
  end
else Js.Returned None.

Definition shell_step (h : RequestHandler) (w : World) (request : Request)
    : Js.outcome (option Response) :=
if matchesPatterns (req_pathname request) (clientOnlyPatterns h) then
  match staticHandler (options h) with
  | Some static => serve_static static w "/index.html" request
  | None => Js.Returned None
  end
else Js.Returned None.

(** The [try] block. *)
Definition attempt (h : RequestHandler) (w : World) (request : Request)
    : Engine.M Response :=
Engine.bind (Engine.lift (file_step h w request))
  (λ file,
     match file with
     | Some response => Engine.ret response
     | None =>
         Engine.bind (Engine.lift (page_step h w request))
           (λ page,
              match page with
              | Some response => Engine.ret response
              | None =>
                  Engine.bind (Engine.lift (shell_step h w request))
                    (λ shell,
                       match shell with
                       | Some response => Engine.ret response
                       | None => ssr h w request
                       end)
              end)
     end).

Definition internal_server_error : Response :=
{| status := 500;
   headers := {[ "Content-Type" := "text/html; charset=utf-8" ]};
   body := TextBody "<!DOCTYPE html>
<html>
<head><title>500 Internal Server Error</title></head>
<body>
  <h1>500 Internal Server Error</h1>
  <p>An unexpected error occurred.</p>
</body>
</html>" |}.

(** The [catch] block. *)
Definition on_thrown (h : RequestHandler) (request : Request) (error : Js.exn)
    : Engine.M Response :=
match onError (options h), error with
| Some f, Js.Error message => Engine.lift (f message request)
| _, _ => Engine.ret internal_server_error
end.

Definition handler (h : RequestHandler) (w : World) (request : Request)
    : Engine.M Response :=
Engine.try_catch (attempt h w request) (on_thrown h request).

End Handler.

(** What the static handler does for a request: its answer, if it gives
    one, for the file itself, for the page of a static route, or for the
    shell of a client-only route, in this order; or what it throws on the
    way. *)
Definition static_response (h : Handler.RequestHandler) (w : Handler.World)
    (request : Handler.Request) : Js.outcome (option Handler.Response) :=
match Handler.file_step h w request with
| Js.Returned None =>
    match Handler.page_step h w request with
    | Js.Returned None => Handler.shell_step h w request
    | answer => answer
    end
| answer => answer
end.

(** Handlers, worlds and requests for examples. *)
Module DemoHandler.

(** [new RegExp] on the two patterns of the examples. *)
Definition regexp (source : string) : Js.outcome Static.RegExp :=
if decide (source = "^/docs/.*$") then Js.Returned (Str.starts_with "/docs/")
else if decide (source = "^/admin/.*$") then Js.Returned (Str.starts_with "/admin/")
else Js.Thrown (Js.Error "Invalid regular expression").

Definition world_at (now : Z) : Handler.World :=
{| Handler.static_world := Demo.world Demo.site;
   Handler.engine_world := DemoEngine2.world_at now;
   Handler.serve_error := λ _, None;
   Handler.RegExp_new := regexp;
   Handler.renderTime_text := "1.50";
   Handler.status_range_message := "The status provided is outside the range [200, 599]." |}.

(** The same world with a static handler that throws when asked for
    [/logo.svg]. *)
Definition world_with_failing_static (now : Z) : Handler.World :=
{| Handler.static_world := Demo.world Demo.site;
   Handler.engine_world := DemoEngine2.world_at now;
   Handler.serve_error :=
     λ path, if decide (path = "/logo.svg") then Some (Js.Error "Invalid header name")
             else None;
   Handler.RegExp_new := regexp;
   Handler.renderTime_text := "1.50";
   Handler.status_range_message := "The status provided is outside the range [200, 599]." |}.

Definition get (pathname search : string) : Handler.Request :=
{| Handler.req_pathname := pathname; Handler.req_search := search;
   Handler.req := {| Static.req_headers := ∅ |} |}.

(** An [onError] that itself fails. *)
Definition failing_onError (message : string) (request : Handler.Request)
    : Js.outcome Handler.Response :=
Js.Thrown (Js.Error ("while handling: " +:+ message)).

Definition options (onError : option (string → Handler.Request → Js.outcome Handler.Response))
    : Handler.RequestHandlerOptions :=
{| Handler.staticHandler := Some Demo.handler;
   Handler.staticRoutes := Some ["/docs/*"];
   Handler.clientOnlyRoutes := Some ["/admin/*"];
   Handler.onError := onError;
   Handler.getProviders := None |}.

(** The handler [createRequestHandler] builds from [options]. *)
Definition built (onError : option (string → Handler.Request → Js.outcome Handler.Response))
    : Handler.RequestHandler :=
match Handler.createRequestHandler (world_at 0) (options onError) with
| Js.Returned h => h
| Js.Thrown _ =>
    {| Handler.options := options onError; Handler.staticRoutePatterns := [];
       Handler.clientOnlyPatterns := [] |}
end.

End DemoHandler.

(** A custom header whose name is [name] in another letter case. *)
Definition respelt (h : Static.BunStaticFileHandler) (name value : string) : Prop :=
∃ k, k ≠ name ∧ Str.toLowerCase k = Str.toLowerCase name ∧
     Static.handler_headers h !! k = Some value.

(** * Theorems *)

(** ** The JS [Map] model *)

Section JsMapFacts.
Context {T : Type}.
Implicit Types (m : JsMap.t T) (k : string) (v : T).

Lemma jsmap_has_true k m : JsMap.has k m = true ↔ k ∈ JsMap.keys m.
Proof. unfold JsMap.has. apply bool_decide_eq_true. Qed.

Lemma jsmap_has_false k m : JsMap.has k m = false ↔ k ∉ JsMap.keys m.
Proof. unfold JsMap.has. apply bool_decide_eq_false. Qed.

Lemma jsmap_keys_delete k m :
  JsMap.keys (JsMap.delete k m) = filter (λ k', k' ≠ k) (JsMap.keys m).
Proof.
  unfold JsMap.keys, JsMap.delete.
  induction m as [|[k' v'] m IH]; [done|].
  rewrite fmap_cons. cbn [fst]. destruct (decide (k' = k)) as [->|Hne].
  - rewrite (filter_cons_False (λ e : string * T, e.1 ≠ k)) by (simpl; naive_solver).
    rewrite (filter_cons_False (λ k', k' ≠ k)) by naive_solver. exact IH.
  - rewrite (filter_cons_True (λ e : string * T, e.1 ≠ k)) by done.
    rewrite (filter_cons_True (λ k', k' ≠ k)) by done.
    rewrite fmap_cons. f_equal. exact IH.
Qed.

Lemma jsmap_delete_absent k m : k ∉ JsMap.keys m → JsMap.delete k m = m.
Proof.
  unfold JsMap.keys, JsMap.delete.
  induction m as [|[k' v'] m IH]; [done|].
  rewrite fmap_cons, not_elem_of_cons. cbn [fst]. intros [Hne Hm].
  rewrite (filter_cons_True (λ e : string * T, e.1 ≠ k)) by (simpl; congruence).
  f_equal. by apply IH.
Qed.

Lemma jsmap_set_absent k v m : k ∉ JsMap.keys m → JsMap.set k v m = m ++ [(k, v)].
Proof.
  unfold JsMap.keys.
  induction m as [|[k' v'] m IH]; [done|].
  rewrite fmap_cons, not_elem_of_cons. simpl. intros [Hne Hm].
  destruct (decide (k' = k)); [congruence|]. by rewrite IH.
Qed.

Lemma jsmap_delete_not_elem k m : k ∉ JsMap.keys (JsMap.delete k m).
Proof. rewrite jsmap_keys_delete, list_elem_of_filter. tauto. Qed.

(** Deleting a key and setting it again puts it last. *)
Lemma jsmap_move_to_end k v m :
  JsMap.set k v (JsMap.delete k m) = JsMap.delete k m ++ [(k, v)].
Proof. apply jsmap_set_absent, jsmap_delete_not_elem. Qed.

Lemma jsmap_keys_app m1 m2 : JsMap.keys (m1 ++ m2) = JsMap.keys m1 ++ JsMap.keys m2.
Proof. unfold JsMap.keys. apply fmap_app. Qed.

Lemma jsmap_get_app_l k m1 m2 :
  k ∈ JsMap.keys m1 → JsMap.get k (m1 ++ m2) = JsMap.get k m1.
Proof.
  unfold JsMap.keys.
  induction m1 as [|[k' v'] m1 IH]; simpl.
  - by intros ?%elem_of_nil.
  - rewrite elem_of_cons. intros [->|Hin].
    + by destruct (decide (k' = k')).
    + destruct (decide (k' = k)); [done|]. by apply IH.
Qed.

Lemma jsmap_get_app_r k m1 m2 :
  k ∉ JsMap.keys m1 → JsMap.get k (m1 ++ m2) = JsMap.get k m2.
Proof.
  unfold JsMap.keys.
  induction m1 as [|[k' v'] m1 IH]; simpl; [done|].
  rewrite not_elem_of_cons. intros [Hne Hin].
  rewrite decide_False by congruence. by apply IH.
Qed.

Lemma jsmap_get_delete_ne k k' m :
  k' ≠ k → JsMap.get k' (JsMap.delete k m) = JsMap.get k' m.
Proof.
  intros Hne. unfold JsMap.delete.
  induction m as [|[k0 v0] m IH]; [done|].
  destruct (decide (k0 = k)) as [->|Hk].
  - rewrite (filter_cons_False (λ e : string * T, e.1 ≠ k)) by (simpl; naive_solver).
    simpl. rewrite decide_False by congruence. exact IH.
  - rewrite (filter_cons_True (λ e : string * T, e.1 ≠ k)) by done.
    simpl. destruct (decide (k0 = k')); [done|exact IH].
Qed.

Lemma jsmap_get_is_Some k m : is_Some (JsMap.get k m) ↔ k ∈ JsMap.keys m.
Proof.
  unfold JsMap.keys.
  induction m as [|[k' v'] m IH]; simpl.
  - rewrite elem_of_nil. split; [by intros [? ?]|done].
  - rewrite elem_of_cons. destruct (decide (k' = k)) as [->|Hne].
    + split; eauto.
    + rewrite IH. split; [by right|]. intros [?|?]; [congruence|done].
Qed.

Lemma jsmap_delete_length k m : (length (JsMap.delete k m) ≤ length m)%nat.
Proof. apply length_filter. Qed.
End JsMapFacts.

(** ** Recency order *)

Section Recency.
Implicit Types (rank : string → nat) (ks : list string).

Lemma recency_ordered_ext rank1 rank2 ks :
  (∀ k, k ∈ ks → rank1 k = rank2 k) →
  recency_ordered rank1 ks → recency_ordered rank2 ks.
Proof.
  unfold recency_ordered. intros Hext Hs.
  induction Hs as [|k ks Hs IH Hall]; constructor.
  - apply IH. intros k' Hk'. apply Hext. by right.
  - rewrite Forall_forall in *. intros k' Hk'.
    rewrite <- !Hext; [by apply Hall| by right | by left].
Qed.

Lemma recency_ordered_filter rank (P : string → Prop) `{!∀ k, Decision (P k)} ks :
  recency_ordered rank ks → recency_ordered rank (filter P ks).
Proof.
  unfold recency_ordered. induction 1 as [|k ks Hs IH Hall]; [constructor|].
  rewrite filter_cons. destruct (decide (P k)); [|done].
  constructor; [done|]. rewrite Forall_forall in *.
  intros k' [_ Hk']%list_elem_of_filter. by apply Hall.
Qed.

Lemma recency_ordered_snoc rank ks k :
  recency_ordered rank ks →
  (∀ k', k' ∈ ks → (rank k' < rank k)%nat) →
  recency_ordered rank (ks ++ [k]).
Proof.
  unfold recency_ordered. intros Hs Hlt.
  apply StronglySorted_app_2; [|done|repeat constructor].
  intros k1 k2 Hk1 ->%list_elem_of_singleton. by apply Hlt.
Qed.

Lemma recency_ordered_NoDup rank ks : recency_ordered rank ks → NoDup ks.
Proof.
  unfold recency_ordered. induction 1 as [|k ks Hs IH Hall]; constructor; [|done].
  intros Hin. rewrite Forall_forall in Hall. specialize (Hall _ Hin). lia.
Qed.
End Recency.

(** ** The LRU cache *)

Section LRUFacts.
Context {T : Type}.
Implicit Types (c : LRU.LRUCache T) (ops : list (LRU.op T)) (o : LRU.op T).
Implicit Types (k key : string) (C : Z).

Lemma lru_run_snoc c ops o : LRU.run c (ops ++ [o]) = LRU.step (LRU.run c ops) o.
Proof. unfold LRU.run. by rewrite fold_left_app. Qed.

Lemma last_touch_from_snoc c ops o k i acc :
  LRU.last_touch_from c (ops ++ [o]) k i acc =
  if LRU.touches (LRU.run c ops) o k then S (i + length ops)
  else LRU.last_touch_from c ops k i acc.
Proof.
  revert c i acc. induction ops as [|o' ops IH]; intros c i acc; simpl.
  - by rewrite Nat.add_0_r.
  - rewrite IH. by replace (S i + length ops)%nat with (i + S (length ops))%nat by lia.
Qed.

Lemma last_touch_from_le c ops k i acc :
  (acc ≤ i)%nat → (LRU.last_touch_from c ops k i acc ≤ i + length ops)%nat.
Proof.
  revert c i acc. induction ops as [|o' ops IH]; intros c i acc Hle; simpl; [lia|].
  etrans; [apply IH; destruct (LRU.touches c o' k); lia|lia].
Qed.

Lemma last_touch_snoc C ops o k :
  LRU.last_touch C (ops ++ [o]) k =
  if LRU.touches (LRU.run (LRU.new C) ops) o k then S (length ops)
  else LRU.last_touch C ops k.
Proof. unfold LRU.last_touch. by rewrite last_touch_from_snoc. Qed.

Lemma last_touch_le C ops k : (LRU.last_touch C ops k ≤ length ops)%nat.
Proof. unfold LRU.last_touch. by apply (last_touch_from_le _ ops k 0 0). Qed.

Lemma lru_inv_new C : 0 ≤ C → lru_inv (T:=T) C [] (LRU.new C).
Proof.
  intros HC. split; simpl; [done|apply SSorted_nil| |unfold LRU.size, JsMap.size; simpl; lia].
  intros k Hk. by apply elem_of_nil in Hk.
Qed.

(** A call that touches exactly [k] and leaves a selection of the old
    entries followed by [k]. *)
Lemma lru_inv_touch C ops o k (P : string → Prop) `{!∀ x, Decision (P x)} m :
  let c := LRU.run (LRU.new C) ops in
  lru_inv C ops c →
  (∀ k', LRU.touches c o k' = bool_decide (k = k')) →
  JsMap.keys m = filter P (LRU.keys c) ++ [k] →
  k ∉ filter P (LRU.keys c) →
  JsMap.size m ≤ C →
  lru_inv C (ops ++ [o]) (LRU.with_cache c m).
Proof.
  intros c [Hmax Hord Hpos Hsz] Htouch Hkeys Hk Hsize.
  assert (Hold : ∀ k', k' ∈ filter P (LRU.keys c) →
            LRU.last_touch C (ops ++ [o]) k' = LRU.last_touch C ops k').
  { intros k' Hk'. rewrite last_touch_snoc. fold c. rewrite Htouch.
    rewrite bool_decide_eq_false_2; [done|]. intros ->. done. }
  assert (Hnew : LRU.last_touch C (ops ++ [o]) k = S (length ops)).
  { rewrite last_touch_snoc. fold c. rewrite Htouch.
    by rewrite bool_decide_eq_true_2. }
  split; simpl; [done| | |done].
  - unfold LRU.keys. simpl. rewrite Hkeys. apply recency_ordered_snoc.
    + eapply recency_ordered_ext; [|by apply recency_ordered_filter].
      intros k' Hk'. symmetry. by apply Hold.
    + intros k' Hk'. rewrite Hnew, Hold by done.
      pose proof (last_touch_le C ops k'). lia.
  - unfold LRU.keys. simpl. rewrite Hkeys. intros k' [Hk'| ->%list_elem_of_singleton]%elem_of_app.
    + rewrite Hold by done. apply Hpos. by apply list_elem_of_filter in Hk' as [_ ?].
    + rewrite Hnew. lia.
Qed.

(** A call that touches none of the entries it leaves. *)
Lemma lru_inv_keep C ops o (P : string → Prop) `{!∀ x, Decision (P x)} m :
  let c := LRU.run (LRU.new C) ops in
  lru_inv C ops c →
  (∀ k', k' ∈ filter P (LRU.keys c) → LRU.touches c o k' = false) →
  JsMap.keys m = filter P (LRU.keys c) →
  (length m ≤ length (LRU.cache c))%nat →
  lru_inv C (ops ++ [o]) (LRU.with_cache c m).
Proof.
  intros c [Hmax Hord Hpos Hsz] Htouch Hkeys Hsize.
  assert (Hold : ∀ k', k' ∈ filter P (LRU.keys c) →
            LRU.last_touch C (ops ++ [o]) k' = LRU.last_touch C ops k').
  { intros k' Hk'. rewrite last_touch_snoc. fold c. by rewrite Htouch. }
  split; simpl; [done| | |].
  - unfold LRU.keys. simpl. rewrite Hkeys.
    eapply recency_ordered_ext; [|by apply recency_ordered_filter].
    intros k' Hk'. symmetry. by apply Hold.
  - unfold LRU.keys. simpl. rewrite Hkeys. intros k' Hk'.
    rewrite Hold by done. apply Hpos. by apply list_elem_of_filter in Hk' as [_ ?].
  - unfold LRU.size, JsMap.size in *. simpl. lia.
Qed.

Lemma filter_all {A} (P : A → Prop) `{!∀ x, Decision (P x)} (l : list A) :
  (∀ x, x ∈ l → P x) → filter P l = l.
Proof.
  induction l as [|x l IH]; intros Hall; [done|].
  rewrite filter_cons_True by (apply Hall; by left).
  f_equal. apply IH. intros y Hy. apply Hall. by right.
Qed.

Lemma filter_none {A} (P : A → Prop) `{!∀ x, Decision (P x)} (l : list A) :
  (∀ x, x ∈ l → ¬ P x) → filter P l = [].
Proof.
  induction l as [|x l IH]; intros Hall; [done|].
  rewrite filter_cons_False by (apply Hall; by left).
  apply IH. intros y Hy. apply Hall. by right.
Qed.

Lemma jsmap_delete_length_lt k (m : JsMap.t T) :
  k ∈ JsMap.keys m → (length (JsMap.delete k m) < length m)%nat.
Proof.
  unfold JsMap.keys. intros [[k' v] [-> Hin]]%list_elem_of_fmap.
  unfold JsMap.delete. eapply length_filter_lt; [exact Hin|]. simpl. naive_solver.
Qed.

Lemma jsmap_delete_head k v (m : JsMap.t T) :
  k ∉ JsMap.keys m → JsMap.delete k ((k, v) :: m) = m.
Proof.
  intros Hk. unfold JsMap.delete.
  rewrite (filter_cons_False (λ e : string * T, e.1 ≠ k)) by (simpl; naive_solver).
  by apply jsmap_delete_absent.
Qed.

Lemma lru_with_cache_id c : LRU.with_cache c (LRU.cache c) = c.
Proof. by destruct c. Qed.

Lemma lru_inv_step C ops o :
  1 ≤ C →
  lru_inv C ops (LRU.run (LRU.new C) ops) →
  lru_inv C (ops ++ [o]) (LRU.step (LRU.run (LRU.new C) ops) o).
Proof.
  intros HC Hinv. set (c := LRU.run (LRU.new C) ops) in *.
  pose proof Hinv as [Hmax Hord Hpos Hsz].
  pose proof (recency_ordered_NoDup _ _ Hord) as Hnd.
  destruct o as [k|k v|k|]; simpl.
  - (* get *)
    unfold LRU.get. destruct (JsMap.has k (LRU.cache c)) eqn:Hhas; simpl.
    + apply jsmap_has_true in Hhas.
      destruct (proj2 (jsmap_get_is_Some k (LRU.cache c)) Hhas) as [value Hget].
      rewrite Hget. simpl. rewrite jsmap_move_to_end.
      apply (lru_inv_touch C ops _ k (λ k', k' ≠ k)); [done| | | |].
      * intros k'. simpl. fold c. case_bool_decide as Hk; [subst k'|done].
        unfold LRU.has. by apply jsmap_has_true.
      * by rewrite jsmap_keys_app, jsmap_keys_delete.
      * rewrite list_elem_of_filter. tauto.
      * pose proof (jsmap_delete_length_lt k _ Hhas).
        unfold LRU.size, JsMap.size in *. rewrite length_app. simpl. lia.
    + apply jsmap_has_false in Hhas.
      rewrite <- (lru_with_cache_id c).
      apply (lru_inv_keep C ops _ (λ _, True)); [done| | |done].
      * intros k' [_ Hk']%list_elem_of_filter. simpl.
        case_bool_decide; [subst k'|done]. done.
      * symmetry. by apply filter_all.
  - (* set *)
    unfold LRU.set. destruct (JsMap.has k (LRU.cache c)) eqn:Hhas.
    + apply jsmap_has_true in Hhas. rewrite jsmap_move_to_end.
      apply (lru_inv_touch C ops _ k (λ k', k' ≠ k)); [done|done| | |].
      * by rewrite jsmap_keys_app, jsmap_keys_delete.
      * rewrite list_elem_of_filter. tauto.
      * pose proof (jsmap_delete_length_lt k _ Hhas).
        unfold LRU.size, JsMap.size in *. rewrite length_app. simpl. lia.
    + apply jsmap_has_false in Hhas.
      destruct (JsMap.size (LRU.cache c) >=? LRU.maxSize c) eqn:Hfull.
      * apply Z.geb_le in Hfull. rewrite Hmax in Hfull.
        unfold LRU.size, LRU.keys, JsMap.size in *.
        destruct (LRU.cache c) as [|[e ve] rest] eqn:Hc; simpl in *; [lia|].
        apply NoDup_cons in Hnd as [He Hnd]. apply not_elem_of_cons in Hhas as [Hke Hk].
        rewrite jsmap_delete_head by done. rewrite jsmap_set_absent by done.
        apply (lru_inv_touch C ops _ k (λ k', k' ≠ e)); [done|done| | |].
        -- fold c. unfold LRU.keys. rewrite Hc, jsmap_keys_app.
           change (JsMap.keys ((e, ve) :: rest)) with (e :: JsMap.keys rest).
           rewrite (filter_cons_False (λ k', k' ≠ e)) by naive_solver.
           rewrite filter_all; [done|]. intros x Hx ->. done.
        -- rewrite list_elem_of_filter. fold c. unfold LRU.keys. rewrite Hc.
           change (JsMap.keys ((e, ve) :: rest)) with (e :: JsMap.keys rest).
           rewrite elem_of_cons. intros [_ [?|?]]; done.
        -- unfold JsMap.size. rewrite length_app. simpl. lia.
      * rewrite jsmap_set_absent by done.
        apply (lru_inv_touch C ops _ k (λ _, True)); [done|done| | |].
        -- rewrite jsmap_keys_app. by rewrite filter_all.
        -- rewrite filter_all by done. done.
        -- unfold LRU.size, JsMap.size in *. rewrite length_app. simpl. lia.
  - (* delete *)
    apply (lru_inv_keep C ops _ (λ k', k' ≠ k)); [done|done| |].
    + apply jsmap_keys_delete.
    + apply jsmap_delete_length.
  - (* clear *)
    apply (lru_inv_keep C ops _ (λ _, False)); [done|done| |simpl; lia].
    symmetry. apply filter_none. by intros ? _ ?.
Qed.

Lemma lru_inv_run C ops : 1 ≤ C → lru_inv C ops (LRU.run (LRU.new C) ops).
Proof.
  intros HC. induction ops as [|o ops IH] using rev_ind.
  - apply lru_inv_new. lia.
  - rewrite lru_run_snoc. by apply lru_inv_step.
Qed.

(** C1. A cache built with capacity [C >= 1] and driven by any history of
    [get], [set], [delete] and [clear] calls never holds more than [C]
    entries.  When it is then given a [set] of a new key at capacity, one
    entry leaves it: the one whose last touch (a [set], or a [get] that
    found it) lies before the last touch of every other entry; all other
    entries stay, with their values, and the new entry is stored. *)
Theorem lru_capacity_and_eviction C ops :
  1 ≤ C →
  let c := LRU.run (LRU.new C) ops in
  LRU.size c ≤ C ∧
  ∀ key value,
    LRU.has key c = false →
    LRU.size c >= LRU.maxSize c →
    let c' := LRU.set key value c in
    ∃ victim,
      LRU.has victim c = true ∧
      LRU.has victim c' = false ∧
      (∀ k, k ≠ victim → LRU.has k c = true →
         LRU.peek k c' = LRU.peek k c ∧
         (LRU.last_touch C ops victim < LRU.last_touch C ops k)%nat) ∧
      LRU.peek key c' = Some value ∧
      LRU.size c' = C.
Proof.
  intros HC c. pose proof (lru_inv_run C ops HC) as Hinv. fold c in Hinv.
  destruct Hinv as [Hmax Hord Hpos Hsz]. split; [done|].
  intros key value Hnew Hfull c'.
  pose proof (recency_ordered_NoDup _ _ Hord) as Hnd.
  apply jsmap_has_false in Hnew.
  unfold c', LRU.set, LRU.has, LRU.peek, LRU.size, LRU.keys, JsMap.size in *.
  rewrite (proj2 (jsmap_has_false key _)) by done.
  rewrite (proj2 (Z.geb_le _ _)) by lia. rewrite Hmax in Hfull.
  destruct (LRU.cache c) as [|[e ve] rest] eqn:Hc; simpl in Hsz, Hfull; [lia|].
  change (JsMap.keys ((e, ve) :: rest)) with (e :: JsMap.keys rest) in *.
  apply NoDup_cons in Hnd as [He Hnd]. apply not_elem_of_cons in Hnew as [Hke Hk].
  apply StronglySorted_inv in Hord as [_ Hlt]. rewrite Forall_forall in Hlt.
  cbn [JsMap.first_key LRU.with_cache LRU.cache].
  rewrite jsmap_delete_head by done. rewrite jsmap_set_absent by done.
  exists e. split_and!.
  - apply jsmap_has_true. by left.
  - apply jsmap_has_false. rewrite jsmap_keys_app, elem_of_app.
    intros [?|?%list_elem_of_singleton]; done.
  - intros k Hk_ne Hk_in. apply jsmap_has_true, elem_of_cons in Hk_in as [?|Hk_in]; [done|].
    split; [|by apply Hlt].
    rewrite jsmap_get_app_l by done. simpl. by rewrite decide_False by congruence.
  - rewrite jsmap_get_app_r by done. simpl. by destruct (decide (key = key)).
  - rewrite length_app. simpl. lia.
Qed.
End LRUFacts.

Lemma lru_capacity_and_eviction_witness :
  1 ≤ 2 ∧
  let ops := [LRU.OpSet "/a" 1; LRU.OpSet "/b" 2; LRU.OpGet "/a"] in
  let c := LRU.run (LRU.new 2) ops in
  LRU.size c ≤ 2 ∧
  ∀ key value,
    LRU.has key c = false →
    LRU.size c >= LRU.maxSize c →
    let c' := LRU.set key value c in
    ∃ victim,
      LRU.has victim c = true ∧
      LRU.has victim c' = false ∧
      (∀ k, k ≠ victim → LRU.has k c = true →
         LRU.peek k c' = LRU.peek k c ∧
         (LRU.last_touch 2 ops victim < LRU.last_touch 2 ops k)%nat) ∧
      LRU.peek key c' = Some value ∧
      LRU.size c' = 2.
Proof.
  split; [lia|].
  apply (lru_capacity_and_eviction 2 [LRU.OpSet "/a" 1; LRU.OpSet "/b" 2; LRU.OpGet "/a"]).
  lia.
Defined.

(** The cache test "should update LRU order on get", replayed. *)
Example lru_test_update_order_on_get :
  let c := LRU.run (LRU.new 3)
    [LRU.OpSet "key1" "value1"; LRU.OpSet "key2" "value2"; LRU.OpSet "key3" "value3";
     LRU.OpGet "key1"; LRU.OpSet "key4" "value4"] in
  LRU.keys c = ["key3"; "key1"; "key4"].
Proof. vm_compute. reflexivity. Qed.

(** ** Strings: splitting and joining *)

Section StrFacts.
Implicit Types (s x suf : string) (c a : ascii) (l : list string).

Lemma string_app_nil_l s : EmptyString +:+ s = s.
Proof. reflexivity. Qed.

Lemma string_app_cons a r s : String a r +:+ s = String a (r +:+ s).
Proof. reflexivity. Qed.

Lemma string_app_nil_r s : s +:+ EmptyString = s.
Proof. induction s as [|a r IH]; [done|]. by rewrite string_app_cons, IH. Qed.

Lemma string_app_assoc s1 s2 s3 : (s1 +:+ s2) +:+ s3 = s1 +:+ (s2 +:+ s3).
Proof. induction s1 as [|a r IH]; [done|]. by rewrite !string_app_cons, IH. Qed.

Lemma split_on_not_nil c s : Str.split_on c s ≠ [].
Proof.
  destruct s as [|a r]; simpl; [done|].
  destruct (decide (a = c)); [done|]. by destruct (Str.split_on c r).
Qed.

Lemma split_on_app_sep c s1 s2 :
  Str.split_on c (s1 +:+ String c s2) = Str.split_on c s1 ++ Str.split_on c s2.
Proof.
  induction s1 as [|a r IH].
  - rewrite string_app_nil_l. simpl. by rewrite decide_True.
  - rewrite string_app_cons. simpl.
    destruct (decide (a = c)); [by rewrite IH|].
    rewrite IH. pose proof (split_on_not_nil c r).
    by destruct (Str.split_on c r).
Qed.

Lemma split_on_char_free c s : char_free c s → Str.split_on c s = [s].
Proof.
  induction s as [|a r IH]; simpl; [done|]. intros [Hne Hr].
  rewrite decide_False by done. by rewrite IH.
Qed.

Lemma split_on_singleton c s : Str.split_on c s = [s] → char_free c s.
Proof.
  induction s as [|a r IH]; simpl; [done|].
  destruct (decide (a = c)); [done|].
  pose proof (split_on_not_nil c r).
  destruct (Str.split_on c r) as [|h t]; [done|].
  intros [= -> ->]. split; [done|]. by apply IH.
Qed.

Lemma split_on_elements c s : Forall (char_free c) (Str.split_on c s).
Proof.
  induction s as [|a r IH]; simpl; [by repeat constructor|].
  destruct (decide (a = c)); [by constructor|].
  pose proof (split_on_not_nil c r).
  destruct (Str.split_on c r) as [|h t]; [done|].
  apply Forall_cons in IH as [Hh Ht]. by repeat constructor.
Qed.

Lemma char_free_app c s1 s2 : char_free c s1 → char_free c s2 → char_free c (s1 +:+ s2).
Proof.
  induction s1 as [|a r IH]; [done|]. rewrite string_app_cons. simpl.
  intros [? ?] ?. split; auto.
Qed.

(** Splitting a joined list gives the pieces of its elements. *)
Lemma split_on_join c l :
  l ≠ [] →
  Str.split_on c (Str.join_with (String c EmptyString) l) = concat (Str.split_on c <$> l).
Proof.
  induction l as [|x l IH]; [done|]. intros _.
  destruct l as [|y l].
  - simpl. by rewrite app_nil_r.
  - change (Str.join_with (String c EmptyString) (x :: y :: l))
      with (x +:+ String c (Str.join_with (String c EmptyString) (y :: l))).
    rewrite split_on_app_sep, IH by done. done.
Qed.

Lemma concat_split_char_free c l :
  Forall (char_free c) l → concat (Str.split_on c <$> l) = l.
Proof.
  induction 1 as [|x l Hx Hl IH]; [done|].
  rewrite fmap_cons. simpl. rewrite split_on_char_free by done. simpl. by rewrite IH.
Qed.

Lemma last_char_app s1 s2 : s2 ≠ EmptyString → Str.last_char (s1 +:+ s2) = Str.last_char s2.
Proof.
  intros Hs2. induction s1 as [|a r IH]; [done|].
  rewrite string_app_cons. simpl. rewrite IH.
  destruct (r +:+ s2) eqn:Heq; [|done].
  destruct r; [by rewrite string_app_nil_l in Heq|done].
Qed.

Lemma last_char_char_free c s : char_free c s → Str.last_char s ≠ Some c.
Proof.
  induction s as [|a r IH]; simpl; [done|]. intros [Hne Hr].
  destruct r; [congruence|by apply IH].
Qed.

Lemma join_with_snoc sep l x :
  l ≠ [] → Str.join_with sep (l ++ [x]) = Str.join_with sep l +:+ sep +:+ x.
Proof.
  induction l as [|y l IH]; [done|]. intros _.
  destruct l as [|z l]; [done|].
  change (Str.join_with sep ((y :: z :: l) ++ [x]))
    with (y +:+ sep +:+ Str.join_with sep ((z :: l) ++ [x])).
  rewrite IH by done.
  change (Str.join_with sep (y :: z :: l)) with (y +:+ sep +:+ Str.join_with sep (z :: l)).
  by rewrite !string_app_assoc.
Qed.

Lemma join_with_is_empty sep l :
  Forall (λ s, s ≠ EmptyString) l →
  Str.is_empty (Str.join_with sep l) = bool_decide (l = []).
Proof.
  destruct 1 as [|x l Hx Hl]; [done|].
  rewrite bool_decide_eq_false_2 by done.
  destruct l; simpl; by destruct x.
Qed.
End StrFacts.

(** ** Dot runs *)

Section DotRuns.
Implicit Types (s : string) (c a : ascii).

Lemma remove_dot_runs_from_no_adjacent st s :
  no_adjacent_dots (Str.remove_dot_runs_from st s).
Proof.
  revert st. induction s as [|a r IH]; intros st; simpl.
  - destruct st; simpl; [done| |done]. split; [|done]. by intros _ [].
  - destruct (decide (a = Str.dot)) as [->|Hne].
    + destruct st; apply IH.
    + destruct st; simpl; repeat split; try done; try apply IH.
Qed.

Lemma split_on_head_dot c s h t :
  Str.split_on c s = h :: t → starts_with_dot h → starts_with_dot s.
Proof.
  destruct s as [|b r]; simpl.
  - by intros [= <- <-].
  - destruct (decide (b = c)); [by intros [= <- <-]|].
    pose proof (split_on_not_nil c r).
    destruct (Str.split_on c r); [done|]. by intros [= <- <-].
Qed.

Lemma split_on_no_adjacent c s :
  no_adjacent_dots s → Forall no_adjacent_dots (Str.split_on c s).
Proof.
  induction s as [|a r IH]; simpl; [by repeat constructor|].
  intros [Ha Hr]. specialize (IH Hr).
  destruct (decide (a = c)); [by constructor|].
  pose proof (split_on_not_nil c r).
  destruct (Str.split_on c r) as [|h t] eqn:Hsplit; [done|].
  apply Forall_cons in IH as [Hh Ht]. constructor; [|done].
  simpl. split; [|done]. intros Hdot Hh'.
  by eapply Ha, split_on_head_dot.
Qed.

Lemma no_adjacent_dots_not_dotdot s : no_adjacent_dots s → s ≠ "..".
Proof. intros Hs ->. simpl in Hs. destruct Hs as [Hs _]. by apply Hs. Qed.
End DotRuns.

(** ** Paths *)

Section PathFacts.
Implicit Types (s p q : string) (l rs segs : list string).

Lemma starts_with_slash_inv s : Str.starts_with "/" s = true → ∃ r, s = String Str.slash r.
Proof.
  destruct s as [|a r]; [done|]. simpl.
  case_bool_decide as Ha; [subst a; eauto|done].
Qed.

Lemma abs_of_absolute l : Path.isAbsolute (abs_of l) = true.
Proof. reflexivity. Qed.

Lemma norm_fold_no_dotdot b l acc :
  (∀ s, s ∈ l → s ≠ "..") →
  fold_left (Path.norm_step b) l acc = rev (filter real_segment l) ++ acc.
Proof.
  revert acc. induction l as [|x l IH]; intros acc Hl; [done|].
  simpl. rewrite IH by (intros s Hs; apply Hl; by right).
  unfold Path.norm_step.
  destruct (decide (x = EmptyString ∨ x = ".")) as [Hx|Hx].
  - by rewrite filter_cons_False by (unfold real_segment; tauto).
  - rewrite decide_False by (apply Hl; by left).
    rewrite filter_cons_True by done. simpl. by rewrite <- app_assoc.
Qed.

Lemma norm_fold_good l acc :
  Forall good_segment acc → Forall (char_free Str.slash) l →
  Forall good_segment (fold_left (Path.norm_step false) l acc).
Proof.
  intros Hacc Hl. revert acc Hacc.
  induction Hl as [|x l Hx Hl IH]; intros acc Hacc; [done|].
  simpl. apply IH. unfold Path.norm_step.
  destruct (decide (x = EmptyString ∨ x = ".")); [done|].
  destruct (decide (x = "..")).
  - destruct acc as [|top rest]; [done|].
    destruct (decide (top = "..")); [done|]. by apply Forall_inv_tail in Hacc.
  - constructor; [|done]. unfold good_segment. tauto.
Qed.

Lemma norm_segments_good l :
  Forall (char_free Str.slash) l → Forall good_segment (Path.norm_segments false l).
Proof.
  intros Hl. unfold Path.norm_segments. apply Forall_rev.
  by apply norm_fold_good.
Qed.

(** [resolve] of one argument, from an absolute working directory. *)
Lemma resolve_abs cwd r :
  Path.isAbsolute cwd = true →
  ∃ rs, Forall good_segment rs ∧ Path.resolve cwd [r] = abs_of rs.
Proof.
  intros [c ->]%starts_with_slash_inv.
  assert (∃ q, Path.resolve_loop (rev [r] ++ [String Str.slash c]) EmptyString = (q, true))
    as [q Hq].
  { simpl. destruct (Str.is_empty r); [by eexists|].
    destruct (Path.isAbsolute r); by eexists. }
  unfold Path.resolve. rewrite Hq. simpl.
  exists (Path.norm_segments false (Path.split q)). split; [|done].
  apply norm_segments_good, split_on_elements.
Qed.

Lemma good_segment_nonempty l : Forall good_segment l → Forall (λ s, s ≠ EmptyString) l.
Proof. intros Hl. eapply Forall_impl; [exact Hl|]. by intros s (_ & ? & _). Qed.

Lemma good_segment_char_free l : Forall good_segment l → Forall (char_free Str.slash) l.
Proof. intros Hl. eapply Forall_impl; [exact Hl|]. by intros s (? & _). Qed.

Lemma filter_real_good l : Forall good_segment l → filter real_segment l = l.
Proof.
  intros Hl. apply filter_all. intros s Hs.
  rewrite Forall_forall in Hl. destruct (Hl s Hs) as (_ & ? & ? & _).
  unfold real_segment. tauto.
Qed.

Lemma split_join_good l :
  Forall (char_free Str.slash) l → l ≠ [] →
  Path.split (Str.join_with "/" l) = l.
Proof.
  intros Hl Hne. unfold Path.split.
  change "/" with (String Str.slash EmptyString).
  rewrite split_on_join by done. by apply concat_split_char_free.
Qed.

Lemma split_abs_of l :
  Path.split (abs_of l) = EmptyString :: Path.split (Str.join_with "/" l).
Proof. done. Qed.

Lemma segments_abs_of l : Forall good_segment l → Path.segments (abs_of l) = l.
Proof.
  intros Hl. unfold Path.segments, Str.filter_Boolean. rewrite split_abs_of.
  rewrite filter_cons_False by naive_solver.
  destruct l as [|x l]; [done|].
  rewrite split_join_good by (by apply good_segment_char_free || done).
  apply filter_all. intros s Hs. rewrite Forall_forall in Hl.
  by destruct (Hl s Hs) as (_ & ? & _).
Qed.

Lemma filter_real_split_abs_of l :
  Forall good_segment l → filter real_segment (Path.split (abs_of l)) = l.
Proof.
  intros Hl. rewrite split_abs_of.
  rewrite filter_cons_False by (unfold real_segment; tauto).
  destruct l as [|x l]; [done|].
  rewrite split_join_good by (by apply good_segment_char_free || done).
  by apply filter_real_good.
Qed.

Lemma join_with_last l x : ∃ p, Str.join_with "/" (l ++ [x]) = p +:+ x.
Proof.
  destruct l as [|y l].
  - by exists EmptyString.
  - rewrite join_with_snoc by done. rewrite <- string_app_assoc. by eexists.
Qed.

Lemma ends_with_slash_last l x :
  char_free Str.slash x → x ≠ EmptyString →
  Str.ends_with_char Str.slash (Str.join_with "/" (l ++ [x])) = false.
Proof.
  intros Hx Hne. destruct (join_with_last l x) as [p ->].
  unfold Str.ends_with_char. rewrite last_char_app by done.
  apply bool_decide_eq_false_2. by apply last_char_char_free.
Qed.

Lemma abs_of_ends_with_slash l :
  Forall good_segment l → l ≠ [] → Str.ends_with_char Str.slash (abs_of l) = false.
Proof.
  intros Hl Hne. destruct (exists_last Hne) as (l' & x & ->).
  apply Forall_app in Hl as [_ Hx]. apply Forall_inv in Hx as (Hx & Hx' & _).
  destruct (join_with_last l' x) as [p Hp]. unfold abs_of. rewrite Hp.
  rewrite <- string_app_assoc.
  unfold Str.ends_with_char. rewrite last_char_app by done.
  apply bool_decide_eq_false_2. by apply last_char_char_free.
Qed.
Lemma abs_of_cons l : ∃ r, abs_of l = String Str.slash r.
Proof. unfold abs_of. eexists. apply string_app_cons. Qed.

Lemma split_abs_of_elements l s :
  Forall good_segment l → s ∈ Path.split (abs_of l) → s = EmptyString ∨ good_segment s.
Proof.
  intros Hl. rewrite split_abs_of, elem_of_cons. intros [->|Hs]; [by left|].
  destruct l as [|x l].
  - apply list_elem_of_singleton in Hs. by left.
  - rewrite split_join_good in Hs by (by apply good_segment_char_free || done).
    right. rewrite Forall_forall in Hl. by apply Hl.
Qed.

(** [normalize] on an absolute path without [..] segments. *)
Lemma normalize_abs q l :
  Path.isAbsolute q = true →
  (∀ s, s ∈ Path.split q → s ≠ "..") →
  filter real_segment (Path.split q) = l →
  Forall (λ s, s ≠ EmptyString) l →
  Path.normalize q =
    if decide (l = []) then "/"
    else abs_of l +:+ (if Str.ends_with_char Str.slash q then "/" else EmptyString).
Proof.
  intros Habs Hdd Hl Hne. pose proof Habs as [c Hq]%starts_with_slash_inv.
  unfold Path.normalize. rewrite Habs.
  replace (Str.is_empty q) with false by (by rewrite Hq).
  unfold Path.normalizeString, Path.norm_segments. simpl negb.
  rewrite norm_fold_no_dotdot by done.
  rewrite app_nil_r, rev_involutive, Hl.
  rewrite join_with_is_empty by done.
  destruct (decide (l = [])) as [->|Hnil]; [done|].
  rewrite bool_decide_eq_false_2 by done. unfold abs_of.
  by rewrite !string_app_assoc.
Qed.

Lemma url_segment_nonempty l : Forall url_segment l → Forall (λ s, s ≠ EmptyString) l.
Proof. intros Hl. eapply Forall_impl; [exact Hl|]. by intros s (_ & ? & _). Qed.

Lemma url_segment_char_free l : Forall url_segment l → Forall (char_free Str.slash) l.
Proof. intros Hl. eapply Forall_impl; [exact Hl|]. by intros s (? & _). Qed.

(** [join] of a resolved root and segments free of [..]. *)
Lemma join_root_segments rs segs :
  Forall good_segment rs → Forall url_segment segs →
  Path.join (abs_of rs :: segs) = abs_of (rs ++ filter real_segment segs).
Proof.
  intros Hrs Hsegs. unfold Path.join.
  pose proof (abs_of_cons rs) as [r0 Hr0].
  assert (Hfb : Str.filter_Boolean (abs_of rs :: segs) = abs_of rs :: segs).
  { apply filter_all. intros s [->|Hs]%elem_of_cons; [by rewrite Hr0|].
    rewrite Forall_forall in Hsegs. by destruct (Hsegs s Hs) as (_ & ? & _). }
  rewrite Hfb. set (joined := Str.join_with "/" (abs_of rs :: segs)).
  assert (Hsplit : Path.split joined = Path.split (abs_of rs) ++ segs).
  { unfold joined, Path.split. change "/" with (String Str.slash EmptyString) at 1.
    rewrite split_on_join by done. rewrite fmap_cons, concat_cons. f_equal.
    by apply concat_split_char_free, url_segment_char_free. }
  assert (Hhead : ∃ r, joined = String Str.slash r).
  { unfold joined. destruct segs as [|x segs]; [by exists r0|].
    change (Str.join_with "/" (abs_of rs :: x :: segs))
      with (abs_of rs +:+ "/" +:+ Str.join_with "/" (x :: segs)).
    rewrite Hr0, string_app_cons. by eexists. }
  destruct Hhead as [r Hjoined].
  replace (Str.is_empty joined) with false by (by rewrite Hjoined).
  rewrite (normalize_abs joined (rs ++ filter real_segment segs)).
  - destruct (decide (rs ++ filter real_segment segs = [])) as [Heq|Hne].
    { by rewrite Heq. }
    replace (Str.ends_with_char Str.slash joined) with false;
      [by rewrite string_app_nil_r|].
    symmetry. destruct (decide (segs = [])) as [->|Hsegs_ne].
    + unfold joined. simpl. apply abs_of_ends_with_slash; [done|].
      intros ->. by apply Hne.
    + destruct (exists_last Hsegs_ne) as (segs' & x & ->).
      apply Forall_app in Hsegs as [_ Hx]. apply Forall_inv in Hx as (Hx & Hx' & _).
      unfold joined. rewrite app_comm_cons. by apply ends_with_slash_last.
  - by rewrite Hjoined.
  - intros s. rewrite Hsplit, elem_of_app. intros [Hs|Hs].
    + destruct (split_abs_of_elements rs s Hrs Hs) as [->|(_ & _ & _ & ?)]; done.
    + rewrite Forall_forall in Hsegs. by destruct (Hsegs s Hs) as (_ & _ & ?).
  - by rewrite Hsplit, filter_app, filter_real_split_abs_of.
  - apply Forall_app. split; [by apply good_segment_nonempty|].
    apply Forall_forall. intros s [_ Hs]%list_elem_of_filter.
    rewrite Forall_forall in Hsegs. by destruct (Hsegs s Hs) as (_ & ? & _).
Qed.

Lemma is_file_name_good s : Static.is_file_name s = true → good_segment s.
Proof.
  unfold Static.is_file_name. intros (Hs & ? & ? & ?)%bool_decide_eq_true.
  split; [|done]. by apply split_on_singleton.
Qed.

(** [join] of a directory and a file name. *)
Lemma join_dir_file l name :
  Forall good_segment l → good_segment name →
  Path.join [abs_of l; name] = abs_of (l ++ [name]).
Proof.
  intros Hl (Hn & Hn1 & Hn2 & Hn3).
  rewrite join_root_segments; [|done|by repeat constructor].
  by rewrite filter_cons_True by (unfold real_segment; tauto).
Qed.

(** The pieces of a split, joined again. *)
Lemma join_with_split_on c s :
  Str.join_with (String c EmptyString) (Str.split_on c s) = s.
Proof.
  induction s as [|a r IH]; [done|]. cbn [Str.split_on].
  destruct (decide (a = c)) as [->|Hne].
  - destruct (Str.split_on c r) as [|x t] eqn:Hsplit; [by destruct (split_on_not_nil c r)|].
    change (Str.join_with (String c EmptyString) (EmptyString :: x :: t))
      with (EmptyString +:+ String c EmptyString +:+
            Str.join_with (String c EmptyString) (x :: t)).
    by rewrite IH.
  - destruct (Str.split_on c r) as [|x t] eqn:Hsplit; [by destruct (split_on_not_nil c r)|].
    destruct t as [|y t]; [simpl in *; by rewrite IH|].
    change (Str.join_with (String c EmptyString) (String a x :: y :: t))
      with (String a x +:+ String c EmptyString +:+
            Str.join_with (String c EmptyString) (y :: t)).
    change (Str.join_with (String c EmptyString) (x :: y :: t))
      with (x +:+ String c EmptyString +:+
            Str.join_with (String c EmptyString) (y :: t)) in IH.
    by rewrite string_app_cons, IH.
Qed.

Lemma is_name_path_good s :
  Static.is_name_path s = true → Forall good_segment (Path.split s).
Proof.
  unfold Static.is_name_path. rewrite forallb_forall. intros Hall.
  pose proof (split_on_elements Str.slash s) as Hfree.
  apply Forall_forall. intros segment Hin.
  rewrite Forall_forall in Hfree.
  assert (In segment (Path.split s)) as Hin' by (by apply list_elem_of_In).
  apply Hall, bool_decide_eq_true in Hin'. destruct Hin' as (? & ? & ?).
  split; [by apply Hfree|done].
Qed.

(** [join] of a directory and a relative path of names. *)
Lemma join_dir_path l p :
  Forall good_segment l → Forall good_segment (Path.split p) →
  Path.join [abs_of l; p] = abs_of (l ++ Path.split p).
Proof.
  intros Hl Hp.
  transitivity (Path.join (abs_of l :: Path.split p)).
  2: { rewrite join_root_segments, filter_real_good; [done..|].
       eapply Forall_impl; [exact Hp|]. by intros s (? & ? & _ & ?). }
  unfold Path.join.
  pose proof (abs_of_cons l) as [r0 Hr0].
  assert (Hne : p ≠ EmptyString).
  { intros ->. by apply Forall_inv in Hp as (_ & ? & _). }
  assert (Str.filter_Boolean [abs_of l; p] = [abs_of l; p]) as ->.
  { apply filter_all. intros s [->|[->|[]%elem_of_nil]%elem_of_cons]%elem_of_cons;
      [by rewrite Hr0|done]. }
  assert (Str.filter_Boolean (abs_of l :: Path.split p) = abs_of l :: Path.split p) as ->.
  { apply filter_all. intros s [->|Hs]%elem_of_cons; [by rewrite Hr0|].
    rewrite Forall_forall in Hp. by destruct (Hp s Hs) as (_ & ? & _). }
  f_equal.
  destruct (Path.split p) as [|x t] eqn:Hsplit; [by destruct (split_on_not_nil Str.slash p)|].
  change (Str.join_with "/" (abs_of l :: x :: t))
    with (abs_of l +:+ "/" +:+ Str.join_with "/" (x :: t)).
  rewrite <- Hsplit. unfold Path.split.
  change "/" with (String Str.slash EmptyString) at 3.
  by rewrite join_with_split_on.
Qed.

(** A suffix glued to a path goes to its last segment. *)
Lemma abs_of_snoc_suffix l x suf :
  abs_of (l ++ [x]) +:+ suf = abs_of (l ++ [x +:+ suf]).
Proof.
  unfold abs_of. rewrite string_app_assoc. f_equal.
  destruct l as [|y l]; [done|].
  rewrite !join_with_snoc by done. by rewrite !string_app_assoc.
Qed.

Lemma good_segment_suffix x suf :
  good_segment x → char_free Str.slash suf → suf ≠ EmptyString →
  good_segment (x +:+ suf).
Proof.
  intros (Hx & Hne & Hd & Hdd) Hsuf Hsuf_ne.
  split; [by apply char_free_app|].
  destruct x as [|a x]; [done|]. rewrite string_app_cons.
  split; [done|]. split.
  - intros [= -> Hx']. destruct x; [by rewrite string_app_nil_l in Hx'|done].
  - intros [= -> Hx']. destruct x as [|b x]; [done|].
    rewrite string_app_cons in Hx'. injection Hx' as -> Hx'.
    destruct x; [by rewrite string_app_nil_l in Hx'|done].
Qed.

(** Containment of a path built from the root's segments and more. *)
Lemma is_descendant_abs_of rs d :
  Forall good_segment rs → Forall good_segment d → d ≠ [] →
  Static.is_descendant (abs_of rs) (abs_of (rs ++ d)) = true.
Proof.
  intros Hrs Hd Hne. unfold Static.is_descendant.
  rewrite !segments_abs_of by (done || by apply Forall_app).
  rewrite abs_of_absolute, take_app_length, drop_app_length.
  rewrite !bool_decide_eq_true_2 by done. simpl.
  apply forallb_forall. intros s Hs%list_elem_of_In. apply bool_decide_eq_true_2.
  rewrite Forall_forall in Hd. by destruct (Hd s Hs) as (_ & _ & ? & ?).
Qed.
End PathFacts.

(** ** Static files: lookups stay inside the root *)

Section StaticLookup.
Implicit Types (h : Static.BunStaticFileHandler) (w : Static.World).
Implicit Types (urlPath : string).

Lemma url_segments_ok urlPath :
  Forall url_segment
    (Str.filter_Boolean
       (Str.split_on Str.slash
          (Str.remove_dot_runs (Str.backslashes_to_slashes urlPath)))).
Proof.
  apply Forall_forall. intros s [Hne Hs]%list_elem_of_filter.
  split; [|split; [done|]].
  - pose proof (split_on_elements Str.slash
      (Str.remove_dot_runs (Str.backslashes_to_slashes urlPath))) as Hall.
    rewrite Forall_forall in Hall. by apply Hall.
  - apply no_adjacent_dots_not_dotdot.
    pose proof (split_on_no_adjacent Str.slash _
      (remove_dot_runs_from_no_adjacent Str.NoDot
         (Str.backslashes_to_slashes urlPath))) as Hall.
    rewrite Forall_forall in Hall. by apply Hall.
Qed.

Lemma resolveFilePath_abs h rs urlPath :
  Static.root h = abs_of rs → Forall good_segment rs →
  ∃ ts, Forall good_segment ts ∧ Static.resolveFilePath h urlPath = abs_of (rs ++ ts).
Proof.
  intros Hroot Hrs. unfold Static.resolveFilePath. rewrite Hroot.
  pose proof (url_segments_ok urlPath) as Hsegs.
  rewrite join_root_segments by done. eexists. split; [|done].
  apply Forall_forall. intros s [Hreal Hs]%list_elem_of_filter.
  rewrite Forall_forall in Hsegs. destruct (Hsegs s Hs) as (? & ? & ?).
  unfold real_segment in Hreal. unfold good_segment. tauto.
Qed.

Lemma is_directory_exists (files : FileSystem) path :
  is_directory files path = true → existsSync files path = true.
Proof.
  unfold is_directory, existsSync. destruct (files path); [|done].
  intros _. by apply bool_decide_eq_true_2.
Qed.

(** After the directory step the path lies strictly below the root. *)
Lemma lookup_path_below_root h w rs urlPath :
  Static.root h = abs_of rs → Forall good_segment rs →
  is_directory (Static.fs w) (Static.root h) = true →
  Forall good_segment (Path.split (Static.index h)) →
  let filePath := Static.resolveFilePath h urlPath in
  let filePath :=
    if existsSync (Static.fs w) filePath && is_directory (Static.fs w) filePath
    then Path.join [filePath; Static.index h] else filePath in
  ∃ d x, Forall good_segment d ∧ good_segment x ∧ filePath = abs_of ((rs ++ d) ++ [x]).
Proof.
  intros Hroot Hrs Hdir Hidx.
  destruct (resolveFilePath_abs h rs urlPath Hroot Hrs) as (ts & Hts & ->). simpl.
  destruct (existsSync _ _ && is_directory _ _) eqn:Hcase.
  - rewrite join_dir_path by (done || by apply Forall_app).
    destruct (exists_last (split_on_not_nil Str.slash (Static.index h)))
      as (names & x & Hnames).
    unfold Path.split in *. rewrite Hnames in *.
    apply Forall_app in Hidx as [Hnames' Hx]. apply Forall_inv in Hx.
    exists (ts ++ names), x. split; [by apply Forall_app|]. split; [done|].
    by rewrite !app_assoc.
  - destruct (decide (ts = [])) as [->|Hne].
    + rewrite app_nil_r, <- Hroot in Hcase.
      by rewrite Hdir, (is_directory_exists _ _ Hdir) in Hcase.
    + destruct (exists_last Hne) as (d & x & ->).
      apply Forall_app in Hts as [Hd Hx]. apply Forall_inv in Hx.
      exists d, x. by rewrite app_assoc.
Qed.

Lemma lookup_exists_below_root h w rs urlPath :
  Static.root h = abs_of rs → Forall good_segment rs →
  is_directory (Static.fs w) (Static.root h) = true →
  Forall good_segment (Path.split (Static.index h)) →
  Static.exists_ (Static.lookup h w urlPath) = true →
  ∃ d, d ≠ [] ∧ Forall good_segment d ∧
       Static.filePath (Static.lookup h w urlPath) = abs_of (rs ++ d).
Proof.
  intros Hroot Hrs Hdir Hidx. unfold Static.lookup.
  destruct (Static.isExcluded h urlPath); [done|].
  destruct (_ || _); [done|].
  destruct (lookup_path_below_root h w rs urlPath Hroot Hrs Hdir Hidx)
    as (d & x & Hd & Hx & Hpath).
  simpl in Hpath. rewrite Hpath. clear Hpath.
  assert (Hsuffix : ∀ suf, char_free Str.slash suf → suf ≠ EmptyString →
    ∃ d', d' ≠ [] ∧ Forall good_segment d' ∧
      abs_of ((rs ++ d) ++ [x]) +:+ suf = abs_of (rs ++ d')).
  { intros suf Hsuf Hne. exists (d ++ [x +:+ suf]). split; [by destruct d|].
    split; [|by rewrite abs_of_snoc_suffix, app_assoc].
    apply Forall_app. split; [done|]. constructor; [|done].
    by apply good_segment_suffix. }
  assert (Hplain : ∃ d', d' ≠ [] ∧ Forall good_segment d' ∧
      abs_of ((rs ++ d) ++ [x]) = abs_of (rs ++ d')).
  { exists (d ++ [x]). split; [by destruct d|]. split; [|by rewrite app_assoc].
    apply Forall_app. split; [done|]. by constructor. }
  destruct (Static.compression h); simpl.
  - destruct (existsSync _ (_ +:+ ".br")); simpl.
    { destruct (Static.fs w _); simpl; [intros _|done].
      apply Hsuffix; [by repeat split|done]. }
    destruct (existsSync _ (_ +:+ ".gz")); simpl.
    { destruct (Static.fs w _); simpl; [intros _|done].
      apply Hsuffix; [by repeat split|done]. }
    destruct (Static.fs w _); simpl; [intros _|done]. apply Hplain.
  - destruct (Static.fs w _); simpl; [intros _|done]. apply Hplain.
Qed.
End StaticLookup.

(** C2. Whatever the url path (with [..] segments, backslashes, anything),
    a lookup either reports [exists = false] or returns a file path that is
    a descendant of the configured root.  This holds for a handler, built
    by the constructor from an absolute working directory, whose root is a
    directory of the file system and whose index is a relative path of
    names (no segment empty, [.] or [..]), as [index.html] is. *)
Theorem lookup_never_escapes_root (w : Static.World)
    (options : Static.StaticFileOptions) (urlPath : string) :
  Path.isAbsolute (Static.cwd w) = true →
  let h := Static.new w options in
  is_directory (Static.fs w) (Static.root h) = true →
  Static.is_name_path (Static.index h) = true →
  let result := Static.lookup h w urlPath in
  Static.exists_ result = false ∨
  Static.is_descendant (Static.root h) (Static.filePath result) = true.
Proof.
  intros Hcwd h Hdir Hidx result.
  destruct (Static.exists_ result) eqn:Hex; [right|by left].
  destruct (resolve_abs (Static.cwd w) (Static.opt_root options) Hcwd) as (rs & Hrs & Hroot).
  change (Static.root h = abs_of rs) in Hroot.
  destruct (lookup_exists_below_root h w rs urlPath Hroot Hrs Hdir
              (is_name_path_good _ Hidx) Hex) as (d & Hne & Hd & Hpath).
  fold result in Hpath. rewrite Hpath, Hroot. by apply is_descendant_abs_of.
Qed.

Lemma lookup_never_escapes_root_witness :
  Path.isAbsolute (Static.cwd (Demo.world Demo.site)) = true ∧
  is_directory Demo.site (Static.root Demo.handler) = true ∧
  Static.is_name_path (Static.index Demo.handler) = true ∧
  let result := Static.lookup Demo.handler (Demo.world Demo.site) "/..\../index.html" in
  Static.exists_ result = false ∨
  Static.is_descendant (Static.root Demo.handler) (Static.filePath result) = true.
Proof.
  split_and!; [reflexivity| vm_compute; reflexivity | vm_compute; reflexivity |].
  apply (lookup_never_escapes_root (Demo.world Demo.site) Demo.options "/..\../index.html");
    vm_compute; reflexivity.
Defined.

(** The two ways out of the root that the configuration opens, both at the
    url path [/..]: an index that climbs out of the directory it is joined
    to, and a root that is no directory, whose compressed sibling is then
    taken for the file. *)
Lemma lookup_never_escapes_root_counterexample :
  let w := Demo.world Demo.site in
  let climbing := Static.new w
    {| Static.opt_root := "www"; Static.opt_index := Some "../secret.txt";
       Static.opt_compression := None; Static.opt_mimeTypes := None;
       Static.opt_cacheControl := None; Static.opt_headers := None;
       Static.opt_exclude := None; Static.opt_directoryListing := None |} in
  let rootless := Static.new w
    {| Static.opt_root := "www/app.js"; Static.opt_index := None;
       Static.opt_compression := None; Static.opt_mimeTypes := None;
       Static.opt_cacheControl := None; Static.opt_headers := None;
       Static.opt_exclude := None; Static.opt_directoryListing := None |} in
  (Static.root climbing = "/srv/www" ∧
   Static.exists_ (Static.lookup climbing w "/..") = true ∧
   Static.filePath (Static.lookup climbing w "/..") = "/srv/secret.txt" ∧
   Static.is_descendant (Static.root climbing)
     (Static.filePath (Static.lookup climbing w "/..")) = false) ∧
  (Static.root rootless = "/srv/www/app.js" ∧
   Static.exists_ (Static.lookup rootless w "/..") = true ∧
   Static.filePath (Static.lookup rootless w "/..") = "/srv/www/app.js.br" ∧
   Static.is_descendant (Static.root rootless)
     (Static.filePath (Static.lookup rootless w "/..")) = false).
Proof. vm_compute. by split_and!. Qed.

(** ** Static files: serving *)

Section StaticServe.
Implicit Types (h : Static.BunStaticFileHandler) (w : Static.World).
Implicit Types (urlPath : string) (request : option Static.Request).

Lemma string_length_app (s1 s2 : string) :
  String.length (s1 +:+ s2) = (String.length s1 + String.length s2)%nat.
Proof.
  induction s1 as [|a r IH]; [done|]. rewrite string_app_cons. simpl. by rewrite IH.
Qed.

Lemma strip_compression_suffix_app raw c :
  Str.strip_compression_suffix (raw +:+ compression_suffix c) = raw.
Proof.
  induction raw as [|a r IH].
  - by destruct c.
  - rewrite string_app_cons. simpl. rewrite IH.
    rewrite !bool_decide_eq_false_2; [done| |].
    + intros Heq. apply (f_equal String.length) in Heq. simpl in Heq.
      rewrite string_length_app in Heq. destruct c; simpl in Heq; lia.
    + intros Heq. apply (f_equal String.length) in Heq. simpl in Heq.
      rewrite string_length_app in Heq. destruct c; simpl in Heq; lia.
Qed.

(** What a lookup that reports a compressed variant has found. *)
Lemma lookup_compressed h w urlPath c :
  Static.compressed (Static.lookup h w urlPath) = Some c →
  Static.compression h = true ∧
  ∃ raw,
    Static.filePath (Static.lookup h w urlPath) = raw +:+ compression_suffix c ∧
    existsSync (Static.fs w) (raw +:+ compression_suffix c) = true ∧
    (c = Static.gzip → existsSync (Static.fs w) (raw +:+ ".br") = false).
Proof.
  unfold Static.lookup.
  destruct (Static.isExcluded h urlPath); [done|].
  destruct (_ || _); [done|].
  set (filePath := if _ && _ then _ else _).
  destruct (Static.compression h); simpl; [|by destruct (Static.fs w filePath)].
  destruct (existsSync _ (_ +:+ ".br")) eqn:Hbr; simpl.
  { destruct (Static.fs w _); simpl; [|done]. intros [= <-].
    split; [done|]. exists filePath. by split_and!. }
  destruct (existsSync _ (_ +:+ ".gz")) eqn:Hgz; simpl.
  { destruct (Static.fs w _); simpl; [|done]. intros [= <-].
    split; [done|]. exists filePath. by split_and!. }
  by destruct (Static.fs w filePath).
Qed.

Lemma lookup_exists_stats h w urlPath :
  Static.exists_ (Static.lookup h w urlPath) = true →
  ∃ s, Static.stats (Static.lookup h w urlPath) = Some s.
Proof.
  unfold Static.lookup.
  destruct (Static.isExcluded h urlPath); [done|].
  destruct (_ || _); [done|].
  set (filePath := if _ && _ then _ else _).
  destruct (if Static.compression h then _ else _) as [compressed actualPath].
  destruct (Static.fs w _); simpl; [eauto|done].
Qed.
(** [serve], as its three decisions. *)
Lemma serve_decisions h w urlPath request s :
  let result := Static.lookup h w urlPath in
  Static.exists_ result = true →
  Static.stats result = Some s →
  let useCompressed := serve_useCompressed result request in
  let not_modified := serve_not_modified w s request in
  Static.serve h w urlPath request =
  Some {| Static.status := if not_modified then 304 else 200;
          Static.headers := serve_headers h w result s useCompressed;
          Static.body :=
            if not_modified then None
            else Some (if useCompressed then Static.filePath result
                       else Str.strip_compression_suffix (Static.filePath result)) |}.
Proof.
  intros result Hex Hs useCompressed not_modified.
  unfold Static.serve. fold result. rewrite Hex, Hs.
  unfold useCompressed, not_modified, serve_useCompressed, serve_not_modified,
    serve_headers.
  cbv beta iota zeta delta [negb].
  destruct (Static.compressed result) as [[]|]; destruct request as [req|];
    cbv beta iota zeta delta [Static.encoding_name];
    repeat match goal with
    | |- context [Str.includes ?a ?b] => destruct (Str.includes a b)
    end;
    rewrite ?lookup_insert_eq;
    repeat match goal with
    | |- context [decide ?P] => destruct (decide P)
    | |- context [Static.headers_get "If-Modified-Since" ?r] =>
        destruct (Static.headers_get "If-Modified-Since" r)
    | |- context [Str.is_empty ?x] => destruct (Str.is_empty x)
    | |- context [Static.Date_parse ?w ?x] => destruct (Static.Date_parse w x)
    | |- context [?a <=? ?b] => destruct (a <=? b)
    end; reflexivity.
Qed.

Lemma serve_Some_inv h w urlPath request response :
  Static.serve h w urlPath request = Some response →
  Static.exists_ (Static.lookup h w urlPath) = true.
Proof.
  unfold Static.serve. by destruct (Static.exists_ (Static.lookup h w urlPath)).
Qed.
End StaticServe.

(** ** The headers a response holds *)

Section ResponseHeaders.
Implicit Types (hs : gmap string string) (name k v : string).

Lemma elem_of_header_values hs name v :
  v ∈ Static.header_values hs name ↔
  ∃ k, Str.toLowerCase k = Str.toLowerCase name ∧ hs !! k = Some v.
Proof.
  unfold Static.header_values. rewrite list_elem_of_fmap. split.
  - intros ([k v'] & -> & [Hk Hin]%list_elem_of_filter).
    exists k. split; [done|]. by apply elem_of_map_to_list.
  - intros (k & Hk & Hv). exists (k, v). split; [done|].
    apply list_elem_of_filter. split; [done|]. by apply elem_of_map_to_list.
Qed.

Lemma header_values_nil hs name :
  Static.header_values hs name = [] ↔
  ∀ k v, hs !! k = Some v → Str.toLowerCase k ≠ Str.toLowerCase name.
Proof.
  split.
  - intros Hnil k v Hv Hk.
    assert (v ∈ Static.header_values hs name) as Hin
      by (apply elem_of_header_values; eauto).
    rewrite Hnil in Hin. by apply elem_of_nil in Hin.
  - intros Hnone. destruct (Static.header_values hs name) as [|v l] eqn:Hl; [done|].
    assert (v ∈ Static.header_values hs name) as Hin by (rewrite Hl; left).
    apply elem_of_header_values in Hin as (k & Hk & Hv). by destruct (Hnone k v Hv).
Qed.

(** A new entry adds its value under its name, whatever the case. *)
Lemma header_values_insert hs k v name :
  hs !! k = None →
  Static.header_values (<[k:=v]> hs) name ≡ₚ
    (if decide (Str.toLowerCase k = Str.toLowerCase name) then [v] else []) ++
    Static.header_values hs name.
Proof.
  intros Hk. unfold Static.header_values.
  rewrite (map_to_list_insert hs k v Hk).
  destruct (decide (Str.toLowerCase k = Str.toLowerCase name)) as [Heq|Hne].
  - by rewrite (filter_cons_True (λ entry : string * string,
                   Str.toLowerCase entry.1 = Str.toLowerCase name)) by done.
  - by rewrite (filter_cons_False (λ entry : string * string,
                   Str.toLowerCase entry.1 = Str.toLowerCase name)) by done.
Qed.

(** The value of the one entry that carries the name. *)
Lemma header_values_unique hs name k v :
  hs !! k = Some v →
  Str.toLowerCase k = Str.toLowerCase name →
  (∀ k' v', hs !! k' = Some v' → Str.toLowerCase k' = Str.toLowerCase name → k' = k) →
  Static.header_values hs name = [v].
Proof.
  intros Hv Hk Honly.
  rewrite <- (insert_id hs k v Hv), <- insert_delete_eq.
  apply Permutation_singleton_r.
  rewrite header_values_insert by apply lookup_delete_eq.
  rewrite decide_True by done.
  assert (Static.header_values (delete k hs) name = []) as ->; [|done].
  apply header_values_nil. intros k' v' [Hne Hv']%lookup_delete_Some Hk'.
  by destruct Hne; symmetry; apply (Honly k' v').
Qed.

(** Picks the case of a nested disjunction that holds. *)
Ltac header_case :=
  lazymatch goal with
  | |- _ ∧ _ => split; header_case
  | |- _ ∨ _ => first [left; solve [header_case] | right; solve [header_case]]
  | |- ∃ _, _ => eexists; header_case
  | |- _ ≠ _ => intros ?; subst; header_case
  | |- _ → _ => intros ?; subst; header_case
  | |- _ =>
      first [ done
            | congruence
            | match goal with
              | H : ?x = ?x → _ ∨ _ |- _ => by destruct (H eq_refl)
              end ]
  end.

(** The entries of the headers object [serve] builds. *)
Lemma serve_headers_lookup h w (result : Static.StaticFileResult) s useCompressed k v :
  serve_headers h w result s useCompressed !! k = Some v ↔
  (k = "ETag" ∧ v = Static.etag_of s) ∨
  (k = "Last-Modified" ∧ v = Static.toUTCString w (Static.st_mtime s)) ∨
  (k = "Content-Encoding" ∧
   ∃ c, useCompressed = true ∧ Static.compressed result = Some c ∧
        v = Static.encoding_name c) ∨
  (k ≠ "ETag" ∧ k ≠ "Last-Modified" ∧
   (k = "Content-Encoding" →
    useCompressed = false ∨ Static.compressed result = None) ∧
   (Static.handler_headers h !! k = Some v ∨
    Static.handler_headers h !! k = None ∧
    (k = "Content-Type" ∧ v = Static.mimeType result ∨
     k = "Cache-Control" ∧ v = Static.cacheControl result))).
Proof.
  unfold serve_headers.
  destruct useCompressed; [destruct (Static.compressed result) as [c|]|];
    rewrite !lookup_insert_Some, lookup_union_Some_raw, lookup_insert_Some,
      lookup_singleton_Some;
    (split;
     [ intros Hin; decompose [and or] Hin; clear Hin; subst
     | intros Hin; decompose [and or ex] Hin; clear Hin; subst ]);
    try discriminate; simplify_eq; header_case.
Qed.
End ResponseHeaders.

Section StaticServeClaims.
Implicit Types (h : Static.BunStaticFileHandler) (w : Static.World).
Implicit Types (urlPath : string) (request : option Static.Request).

(** With no custom header of that name, only a negotiated encoding is
    carried under [Content-Encoding]. *)
Lemma serve_headers_encoding h w (result : Static.StaticFileResult) s useCompressed k v :
  Static.header_values (Static.handler_headers h) "Content-Encoding" = [] →
  serve_headers h w result s useCompressed !! k = Some v →
  Str.toLowerCase k = Str.toLowerCase "Content-Encoding" →
  k = "Content-Encoding" ∧
  ∃ c, useCompressed = true ∧ Static.compressed result = Some c ∧
       v = Static.encoding_name c.
Proof.
  intros Hcustom Hin Hk. rewrite header_values_nil in Hcustom.
  apply serve_headers_lookup in Hin
    as [[-> _]|[[-> _]|[[-> Hc]|(_ & _ & _ & [Hin|[_ [[-> _]|[-> _]]]])]]];
    try done.
  by destruct (Hcustom k v Hin).
Qed.

(** C6. A response of [serve] carries a [Content-Encoding] header only if
    the lookup found a compressed sibling on disk and the request's
    [Accept-Encoding] includes that encoding; the header then holds [br]
    or [gzip] and nothing else, the body (of a 200) is the compressed
    file, and [gzip] is only chosen when there is no [.br] sibling.
    Otherwise there is no [Content-Encoding] header and the body (of a
    200) is the file path with the compression suffix stripped, which is
    the raw file of a compressed sibling.  This holds for the handlers
    whose custom headers name no [Content-Encoding], in any letter case. *)
Theorem serve_compression_negotiation h w urlPath request response :
  Static.header_values (Static.handler_headers h) "Content-Encoding" = [] →
  Static.serve h w urlPath request = Some response →
  let result := Static.lookup h w urlPath in
  let sent := Static.header_values (Static.headers response) "Content-Encoding" in
  (∀ enc, enc ∈ sent →
     ∃ c req raw,
       sent = [enc] ∧
       enc = match c with Static.br => "br" | Static.gzip => "gzip" end ∧
       Static.compression h = true ∧
       Static.filePath result = raw +:+ compression_suffix c ∧
       existsSync (Static.fs w) (raw +:+ compression_suffix c) = true ∧
       (c = Static.gzip → existsSync (Static.fs w) (raw +:+ ".br") = false) ∧
       request = Some req ∧
       Str.includes enc
         (default EmptyString (Static.headers_get "Accept-Encoding" req)) = true ∧
       (Static.status response = 200 →
        Static.body response = Some (raw +:+ compression_suffix c))) ∧
  (sent = [] →
   Static.status response = 200 →
   Static.body response = Some (Str.strip_compression_suffix (Static.filePath result)) ∧
   ∀ c raw, Static.compressed result = Some c →
     Static.filePath result = raw +:+ compression_suffix c →
     Static.body response = Some raw).
Proof.
  intros Hcustom Hserve result sent.
  pose proof (serve_Some_inv _ _ _ _ _ Hserve) as Hex.
  destruct (lookup_exists_stats _ _ _ Hex) as [s Hs].
  rewrite (serve_decisions h w urlPath request s Hex Hs) in Hserve.
  fold result in Hserve, Hs, Hex. injection Hserve as <-.
  unfold sent. cbn [Static.headers Static.status Static.body].
  set (useCompressed := serve_useCompressed result request).
  set (headers := serve_headers h w result s useCompressed).
  pose proof (serve_headers_encoding h w result s useCompressed) as Honly.
  fold headers in Honly.
  destruct useCompressed eqn:Huc;
    [destruct (Static.compressed result) as [c|] eqn:Hc|].
  - assert (Hce : headers !! "Content-Encoding" = Some (Static.encoding_name c)).
    { apply serve_headers_lookup. right; right; left. split; [done|]. by exists c. }
    assert (Hsent : Static.header_values headers "Content-Encoding" =
                    [Static.encoding_name c]).
    { apply (header_values_unique headers _ "Content-Encoding"); [done|done|].
      intros k' v' Hin Hk'. by destruct (Honly k' v' Hcustom Hin Hk'). }
    rewrite Hsent. split; [|done]. intros enc ->%list_elem_of_singleton.
    destruct (lookup_compressed h w urlPath c Hc) as (Hon & raw & Hpath & Hsib & Hpref).
    unfold useCompressed, serve_useCompressed in Huc. rewrite Hc in Huc.
    destruct request as [req|]; [|done].
    exists c, req, raw. fold result in Hpath. split_and!; try done.
    destruct (serve_not_modified w s (Some req)); [done|]. intros _. by rewrite Hpath.
  - unfold useCompressed, serve_useCompressed in Huc. by rewrite Hc in Huc.
  - assert (Hsent : Static.header_values headers "Content-Encoding" = []).
    { apply header_values_nil. intros k v Hin Hk.
      by destruct (Honly k v Hcustom Hin Hk) as (_ & c & ? & _). }
    rewrite Hsent. split; [by intros enc ?%elem_of_nil|]. intros _.
    destruct (serve_not_modified w s request); [done|]. intros _.
    split; [done|]. intros c raw Hc ->. by rewrite strip_compression_suffix_app.
Qed.

(** C7. For a request for an existing file, with [s] the file's stats: if
    the [If-None-Match] header equals the entity tag computed from [s], or
    the [If-Modified-Since] header is a date that is not before the file's
    modification time, [serve] answers 304 with a null body. *)
Theorem serve_conditional_not_modified h w urlPath (req : Static.Request) s :
  Static.Date_parse w EmptyString = None →
  Static.exists_ (Static.lookup h w urlPath) = true →
  Static.stats (Static.lookup h w urlPath) = Some s →
  (Static.headers_get "If-None-Match" req = Some (Static.etag_of s) ∨
   ∃ since t,
     Static.headers_get "If-Modified-Since" req = Some since ∧
     Static.Date_parse w since = Some t ∧
     Static.st_mtime s ≤ t) →
  ∃ response,
    Static.serve h w urlPath (Some req) = Some response ∧
    Static.status response = 304 ∧
    Static.body response = None.
Proof.
  intros Hempty Hex Hs Hcond.
  rewrite (serve_decisions h w urlPath (Some req) s Hex Hs).
  assert (Hnm : serve_not_modified w s (Some req) = true).
  { unfold serve_not_modified. destruct Hcond as [Hmatch|(since & t & Hsince & Ht & Hle)].
    - by rewrite decide_True.
    - destruct (decide _); [done|]. rewrite Hsince.
      destruct since as [|a since]; [by rewrite Hempty in Ht|]. simpl.
      rewrite Ht. by apply Z.leb_le. }
  rewrite Hnm. by eexists.
Qed.

(** C10. The entity tag is the text [size-mtime] between double quotes,
    computed from the stats alone: two files, or two states of a file,
    with the same size and modification time get the same [ETag], whatever
    they contain, and a request that presents the tag obtained from the
    first is answered 304 for the second. *)
Theorem etag_ignores_content h w1 w2 urlPath1 urlPath2 request1 request2 s1 s2 :
  Static.exists_ (Static.lookup h w1 urlPath1) = true →
  Static.stats (Static.lookup h w1 urlPath1) = Some s1 →
  Static.exists_ (Static.lookup h w2 urlPath2) = true →
  Static.stats (Static.lookup h w2 urlPath2) = Some s2 →
  Static.st_size s1 = Static.st_size s2 →
  Static.st_mtime s1 = Static.st_mtime s2 →
  ∃ r1 r2,
    Static.serve h w1 urlPath1 request1 = Some r1 ∧
    Static.serve h w2 urlPath2 request2 = Some r2 ∧
    Static.headers r1 !! "ETag" =
      Some (Str.dq +:+ Str.of_Z (Static.st_size s1) +:+ "-" +:+
            Str.of_Z (Static.st_mtime s1) +:+ Str.dq) ∧
    Static.headers r2 !! "ETag" = Static.headers r1 !! "ETag" ∧
    ∀ req, Static.headers_get "If-None-Match" req = Static.headers r1 !! "ETag" →
      ∃ r, Static.serve h w2 urlPath2 (Some req) = Some r ∧
           Static.status r = 304 ∧ Static.body r = None.
Proof.
  intros Hex1 Hs1 Hex2 Hs2 Hsize Hmtime.
  rewrite (serve_decisions h w1 urlPath1 request1 s1 Hex1 Hs1).
  rewrite (serve_decisions h w2 urlPath2 request2 s2 Hex2 Hs2).
  do 2 eexists. split; [done|]. split; [done|]. simpl.
  unfold serve_headers. rewrite !lookup_insert_eq.
  assert (Htag : Static.etag_of s2 = Static.etag_of s1).
  { unfold Static.etag_of. by rewrite Hsize, Hmtime. }
  split; [done|]. split; [by rewrite Htag|].
  intros req Hreq.
  rewrite (serve_decisions h w2 urlPath2 (Some req) s2 Hex2 Hs2).
  unfold serve_not_modified at 1 2. rewrite Hreq, Htag, decide_True by done.
  by eexists.
Qed.
End StaticServeClaims.

Lemma serve_compression_negotiation_witness :
  let h := Demo.handler in
  let w := Demo.world Demo.site in
  let request := Demo.request [("accept-encoding", "gzip, deflate, br")] in
  let response := DemoResponses.app_js_brotli in
  Static.header_values (Static.handler_headers h) "Content-Encoding" = [] ∧
  Static.serve h w "/app.js" request = Some response ∧
  let result := Static.lookup h w "/app.js" in
  let sent := Static.header_values (Static.headers response) "Content-Encoding" in
  (∀ enc, enc ∈ sent →
     ∃ c req raw,
       sent = [enc] ∧
       enc = match c with Static.br => "br" | Static.gzip => "gzip" end ∧
       Static.compression h = true ∧
       Static.filePath result = raw +:+ compression_suffix c ∧
       existsSync (Static.fs w) (raw +:+ compression_suffix c) = true ∧
       (c = Static.gzip → existsSync (Static.fs w) (raw +:+ ".br") = false) ∧
       request = Some req ∧
       Str.includes enc
         (default EmptyString (Static.headers_get "Accept-Encoding" req)) = true ∧
       (Static.status response = 200 →
        Static.body response = Some (raw +:+ compression_suffix c))) ∧
  (sent = [] →
   Static.status response = 200 →
   Static.body response = Some (Str.strip_compression_suffix (Static.filePath result)) ∧
   ∀ c raw, Static.compressed result = Some c →
     Static.filePath result = raw +:+ compression_suffix c →
     Static.body response = Some raw).
Proof.
  intros h w request response.
  split; [vm_compute; reflexivity|]. split; [vm_compute; reflexivity|].
  apply (serve_compression_negotiation h w "/app.js" request response);
    vm_compute; reflexivity.
Defined.

(** A handler whose custom headers name [Content-Encoding]: the header is
    sent with the raw file, to a request that does not accept the
    encoding; the same with the name spelt in lower case. *)
Lemma serve_compression_negotiation_counterexample :
  let w := Demo.world Demo.site in
  let configured := λ name : string,
    Static.new w
      {| Static.opt_root := "www"; Static.opt_index := None;
         Static.opt_compression := None;
         Static.opt_mimeTypes := None; Static.opt_cacheControl := None;
         Static.opt_headers := Some {[ name := "br" ]};
         Static.opt_exclude := None; Static.opt_directoryListing := None |} in
  let request := {| Static.req_headers := {[ "accept-encoding" := "identity" ]} |} in
  Static.headers_get "Accept-Encoding" request = Some "identity" ∧
  Str.includes "br" "identity" = false ∧
  (∃ response,
     Static.serve (configured "Content-Encoding") w "/app.js" (Some request) =
       Some response ∧
     Static.status response = 200 ∧
     Static.body response = Some "/srv/www/app.js" ∧
     Static.header_values (Static.headers response) "Content-Encoding" = ["br"]) ∧
  (∃ response,
     Static.serve (configured "content-encoding") w "/app.js" (Some request) =
       Some response ∧
     Static.status response = 200 ∧
     Static.body response = Some "/srv/www/app.js" ∧
     Static.header_values (Static.headers response) "Content-Encoding" = ["br"]).
Proof.
  intros w configured request. split; [reflexivity|]. split; [reflexivity|].
  split.
  - destruct (Static.serve (configured "Content-Encoding") w "/app.js" (Some request))
      as [response|] eqn:Hserve; [|by vm_compute in Hserve].
    exists response. split; [done|].
    vm_compute in Hserve. injection Hserve as <-. by vm_compute.
  - destruct (Static.serve (configured "content-encoding") w "/app.js" (Some request))
      as [response|] eqn:Hserve; [|by vm_compute in Hserve].
    exists response. split; [done|].
    vm_compute in Hserve. injection Hserve as <-. by vm_compute.
Qed.

Lemma serve_conditional_not_modified_witness :
  let h := Demo.handler in
  let w := Demo.world Demo.site in
  let req := {| Static.req_headers := {[ "if-modified-since" := "6000" ]} |} in
  let s := DemoResponses.index_stats in
  Static.Date_parse w EmptyString = None ∧
  Static.exists_ (Static.lookup h w "/index.html") = true ∧
  Static.stats (Static.lookup h w "/index.html") = Some s ∧
  (Static.headers_get "If-None-Match" req = Some (Static.etag_of s) ∨
   ∃ since t,
     Static.headers_get "If-Modified-Since" req = Some since ∧
     Static.Date_parse w since = Some t ∧
     Static.st_mtime s ≤ t) ∧
  ∃ response,
    Static.serve h w "/index.html" (Some req) = Some response ∧
    Static.status response = 304 ∧
    Static.body response = None.
Proof.
  intros h w req s.
  assert (Hcond : Static.headers_get "If-None-Match" req = Some (Static.etag_of s) ∨
   ∃ since t,
     Static.headers_get "If-Modified-Since" req = Some since ∧
     Static.Date_parse w since = Some t ∧
     Static.st_mtime s ≤ t).
  { right. exists "6000", 6000. split_and!; [vm_compute; reflexivity..|]. simpl. lia. }
  split_and!; [vm_compute; reflexivity..|exact Hcond|].
  apply (serve_conditional_not_modified h w "/index.html" req s);
    [vm_compute; reflexivity..|exact Hcond].
Defined.

(** The edited site differs from the original in the content of the page
    only; the stats are the same. *)
Example site_edited_content :
  content <$> Demo.site "/srv/www/index.html" = Some "<html>home</html>" ∧
  content <$> Demo.site_edited "/srv/www/index.html" = Some "<html>news</html>".
Proof. split; reflexivity. Qed.

Lemma etag_ignores_content_witness :
  let h := Demo.handler in
  let w1 := Demo.world Demo.site in
  let w2 := Demo.world Demo.site_edited in
  let s := DemoResponses.index_stats in
  Static.exists_ (Static.lookup h w1 "/index.html") = true ∧
  Static.stats (Static.lookup h w1 "/index.html") = Some s ∧
  Static.exists_ (Static.lookup h w2 "/index.html") = true ∧
  Static.stats (Static.lookup h w2 "/index.html") = Some s ∧
  Static.st_size s = Static.st_size s ∧
  Static.st_mtime s = Static.st_mtime s ∧
  ∃ r1 r2,
    Static.serve h w1 "/index.html" None = Some r1 ∧
    Static.serve h w2 "/index.html" None = Some r2 ∧
    Static.headers r1 !! "ETag" =
      Some (Str.dq +:+ Str.of_Z (Static.st_size s) +:+ "-" +:+
            Str.of_Z (Static.st_mtime s) +:+ Str.dq) ∧
    Static.headers r2 !! "ETag" = Static.headers r1 !! "ETag" ∧
    ∀ req, Static.headers_get "If-None-Match" req = Static.headers r1 !! "ETag" →
      ∃ r, Static.serve h w2 "/index.html" (Some req) = Some r ∧
           Static.status r = 304 ∧ Static.body r = None.
Proof.
  intros h w1 w2 s.
  split_and!; [vm_compute; reflexivity..|].
  apply (etag_ignores_content h w1 w2 "/index.html" "/index.html" None None s s);
    vm_compute; reflexivity.
Defined.

(** ** The render engine *)

Section EngineFacts.
Implicit Types (w : Engine.World) (options : Engine.RenderOptions).
Implicit Types (e : Engine.BunAngularEngine) (c : LRU.LRUCache Engine.CacheEntry).

Lemma getCacheKey_Returned w url key :
  Engine.getCacheKey w url = Js.Returned key →
  ∃ parsed, Engine.URL_parse w url = Some parsed ∧ key = parsed.1 +:+ parsed.2.
Proof.
  unfold Engine.getCacheKey. destruct (Engine.URL_parse w url) as [[p s]|]; [|done].
  intros [= <-]. by exists (p, s).
Qed.

(** A [get] moves an entry; it neither adds, removes nor changes one. *)
Lemma lru_get_peek {T} (c : LRU.LRUCache T) key k :
  LRU.peek k (LRU.get key c).2 = LRU.peek k c.
Proof.
  unfold LRU.get, LRU.peek.
  destruct (JsMap.has key (LRU.cache c)) eqn:Hhas; simpl; [|done].
  destruct (JsMap.get key (LRU.cache c)) as [value|] eqn:Hget; simpl; [|done].
  rewrite jsmap_move_to_end. destruct (decide (k = key)) as [->|Hne].
  - rewrite jsmap_get_app_r by apply jsmap_delete_not_elem.
    simpl. by rewrite decide_True.
  - destruct (decide (k ∈ JsMap.keys (JsMap.delete key (LRU.cache c)))) as [Hin|Hout].
    + rewrite jsmap_get_app_l by done. by apply jsmap_get_delete_ne.
    + rewrite jsmap_get_app_r by done. simpl. rewrite decide_False by done.
      rewrite <- (jsmap_get_delete_ne key k) by done.
      destruct (JsMap.get k (JsMap.delete key (LRU.cache c))) eqn:Hk; [|done].
      exfalso. apply Hout, jsmap_get_is_Some. eauto.
Qed.

Lemma jsmap_get_set {T} (m : JsMap.t T) k v : JsMap.get k (JsMap.set k v m) = Some v.
Proof.
  induction m as [|[k' v'] m IH]; simpl.
  - by rewrite decide_True.
  - destruct (decide (k' = k)) as [->|Hne]; simpl.
    + by rewrite decide_True.
    + by rewrite decide_False.
Qed.

(** After a [set] the key holds the value. *)
Lemma lru_set_peek {T} (c : LRU.LRUCache T) key value :
  LRU.peek key (LRU.set key value c) = Some value.
Proof. unfold LRU.peek, LRU.set. simpl. apply jsmap_get_set. Qed.

Lemma check_cache_entries w options key e :
  ∃ hit e1,
    Engine.check_cache w options key e = (Js.Returned hit, e1) ∧
    ∀ k, cached_entry k e1 = cached_entry k e.
Proof.
  unfold Engine.check_cache, cached_entry.
  destruct (Engine.cache e) as [c|] eqn:Hc; [|do 2 eexists; by rewrite Hc].
  destruct (negb _); [|do 2 eexists; by rewrite Hc].
  destruct (LRU.get key c) as [cached c'] eqn:Hget.
  unfold Engine.bind, Engine.set_cache, Engine.ret. do 2 eexists.
  split; [done|]. simpl. intros k.
  change c' with (cached, c').2. rewrite <- Hget. apply lru_get_peek.
Qed.


(** [getDocument] may load the template; it leaves the cache alone. *)
Lemma getDocument_keeps_cache w custom e :
  ∃ o e1, Engine.getDocument w custom e = (o, e1) ∧
          Engine.cache e1 = Engine.cache e ∧
          Engine.cacheTtl e1 = Engine.cacheTtl e.
Proof.
  unfold Engine.getDocument. destruct (Engine.truthy custom); [by do 2 eexists|].
  unfold Engine.bind. destruct (Engine.truthy (Engine.indexHtmlContent e)) eqn:He.
  { unfold Engine.ret at 1. rewrite He. by do 2 eexists. }
  unfold Engine.loadIndexHtml.
  destruct (Engine.fs w (Engine.indexHtmlPath e)) as [node|].
  - unfold Engine.bind, Engine.lift.
    destruct (Engine.readFileSync node); [|by do 2 eexists].
    unfold Engine.set_indexHtmlContent.
    match goal with |- context [if ?b then _ else _] => destruct b end;
      by do 2 eexists.
  - unfold Engine.ret at 1. rewrite He. by do 2 eexists.
Qed.


(** The failure branch of [render]: when the url parses and the renderer
    throws, [render] returns the error page with status 500, unless the
    cache answered first; the cache holds the same entries as before. *)
Lemma render_failure_is_error_page w options e parsed :
  Engine.URL_parse w (Engine.url options) = Some parsed →
  (∀ document, ∃ err,
     Engine.renderApplication w document (parsed.1 +:+ parsed.2) = Js.Thrown err) →
  ∃ r e',
    Engine.render w options e = (Js.Returned r, e') ∧
    (Engine.fromCache r = true ∨
     (Engine.status r = 500 ∧
      ∃ message, Engine.html r = Engine.renderErrorPage w message)) ∧
    ∀ k, cached_entry k e' = cached_entry k e.
Proof.
  intros Hparse Hfail. destruct parsed as [p s]. simpl in Hfail.
  unfold Engine.render, Engine.getCacheKey. rewrite Hparse.
  unfold Engine.bind at 1. unfold Engine.lift at 1. unfold Engine.bind at 1.
  destruct (check_cache_entries w options (p +:+ s) e) as (hit & e1 & -> & Hsame).
  destruct hit as [cached|].
  { unfold Engine.ret. do 2 eexists. split; [done|]. split; [by left|done]. }
  unfold Engine.try_catch, Engine.bind at 1.
  destruct (getDocument_keeps_cache w (Engine.document options) e1)
    as (o & e2 & -> & Hcache & _).
  assert (Hsame2 : ∀ k, cached_entry k e2 = cached_entry k e)
    by (intros k; rewrite <- Hsame; unfold cached_entry; by rewrite Hcache).
  destruct o as [document|err].
  - unfold Engine.bind at 1. unfold Engine.lift at 1.
    unfold Engine.bind at 1. unfold Engine.lift at 1.
    cbn [fst snd]. destruct (Hfail document) as [err ->].
    unfold Engine.ret. do 2 eexists. split; [done|].
    split; [right; simpl; eauto|done].
  - unfold Engine.ret. do 2 eexists. split; [done|].
    split; [right; simpl; eauto|done].
Qed.

(** C3. The claim that [render] returns a result for every input does not
    hold for a url that the [URL] constructor refuses: the cache key is
    computed before the [try] block, so the exception leaves [render].
    (For a url that parses, [render_failure_is_error_page] gives the rest
    of the claim.) *)
Theorem render_rejects_unparsable_url w options e :
  Engine.URL_parse w (Engine.url options) = None →
  Engine.render w options e = (Js.Thrown (Js.Error "Invalid URL"), e).
Proof.
  intros Hparse. unfold Engine.render, Engine.getCacheKey. by rewrite Hparse.
Qed.

End EngineFacts.

Lemma render_rejects_unparsable_url_witness :
  Engine.URL_parse DemoEngine.world (Engine.url (DemoEngine.request "//")) = None ∧
  Engine.render DemoEngine.world (DemoEngine.request "//") DemoEngine.engine =
    (Js.Thrown (Js.Error "Invalid URL"), DemoEngine.engine).
Proof.
  split; [reflexivity|].
  apply (render_rejects_unparsable_url DemoEngine.world (DemoEngine.request "//")).
  reflexivity.
Defined.


(** The stale entry of the example engine is replaced by a fresh page. *)
Example render_after_expiry_run :
  let out := Engine.render DemoEngine.world (DemoEngine.request "/about") DemoEngine.engine in
  (match out.1 with
   | Js.Returned r => Some (Engine.html r, Engine.status r, Engine.fromCache r)
   | Js.Thrown _ => None
   end,
   Engine.entry_html <$> cached_entry "/about" out.2)
  = (Some ("<html>/about</html>", 200, false), Some "<html>/about</html>").
Proof. vm_compute. reflexivity. Qed.

(** ** The prerenderer: chunking *)

Section Chunking.
Context {T : Type}.
Implicit Types (array : list T) (chunks : list (list T)).

(** With a size of zero or less the index never passes the length. *)
Lemma chunk_loop_nonpositive fuel array size i chunks :
  size ≤ 0 → i ≤ 0 → array ≠ [] →
  Prerender.chunk_loop fuel array size i chunks = None.
Proof.
  intros Hsize Hi Hne. revert i chunks Hi.
  induction fuel as [|fuel IH]; intros i chunks Hi; [done|]. simpl.
  rewrite (proj2 (Z.ltb_lt _ _)) by (destruct array; [done|simpl; lia]).
  apply IH. lia.
Qed.

Lemma slice_take_drop array (i size : nat) :
  (i < length array)%nat → (0 < size)%nat →
  Prerender.slice array (Z.of_nat i) (Z.of_nat i + Z.of_nat size) = take size (drop i array).
Proof.
  intros Hi Hsize. unfold Prerender.slice.
  rewrite !(proj2 (Z.ltb_ge _ _)) by lia.
  rewrite (Z.min_l (Z.of_nat i)) by lia. rewrite Nat2Z.id.
  set (len := length array) in *.
  destruct (decide (i + size ≤ len)%nat) as [Hle|Hgt].
  - rewrite Z.min_l by lia. f_equal. lia.
  - rewrite Z.min_r by lia.
    replace (Z.to_nat (Z.of_nat len - Z.of_nat i)) with (len - i)%nat by lia.
    rewrite !take_ge; [done| |]; rewrite length_drop; fold len; lia.
Qed.

Lemma chunk_loop_concat fuel array (size i : nat) chunks :
  (0 < size)%nat →
  (length array - i < fuel)%nat →
  concat chunks = take i array →
  ∃ chunks',
    Prerender.chunk_loop fuel array (Z.of_nat size) (Z.of_nat i) chunks = Some chunks' ∧
    concat chunks' = array.
Proof.
  intros Hsize. revert i chunks.
  induction fuel as [|fuel IH]; intros i chunks Hfuel Hconcat; [lia|]. simpl.
  destruct (Z.of_nat i <? Z.of_nat (length array)) eqn:Hlt.
  - apply Z.ltb_lt in Hlt.
    replace (Z.of_nat i + Z.of_nat size) with (Z.of_nat (i + size)) by lia.
    apply IH; [lia|].
    rewrite concat_app, Hconcat. simpl. rewrite app_nil_r.
    replace (Z.of_nat (i + size)) with (Z.of_nat i + Z.of_nat size) by lia.
    rewrite slice_take_drop by lia.
    rewrite <- (take_drop i (take (i + size) array)).
    rewrite take_take, Nat.min_l by lia. f_equal.
    by rewrite <- take_drop_commute.
  - apply Z.ltb_ge in Hlt. exists chunks. split; [done|].
    rewrite Hconcat. apply take_ge. lia.
Qed.

(** With a size of one or more the chunks partition the array, in order. *)
Lemma chunk_concat fuel array size :
  1 ≤ size → (length array < fuel)%nat →
  ∃ chunks, Prerender.chunk fuel array size = Some chunks ∧ concat chunks = array.
Proof.
  intros Hsize Hfuel. unfold Prerender.chunk.
  replace size with (Z.of_nat (Z.to_nat size)) by lia.
  apply (chunk_loop_concat fuel array (Z.to_nat size) 0 []); [lia|lia|done].
Qed.
End Chunking.

(** ** The prerenderer: waves *)

Section Waves.
Implicit Types (w : Prerender.World) (options : Prerender.PrerenderOptions).
Implicit Types (acc : Prerender.Tally * Prerender.State).
Implicit Types (task : Prerender.ExpandedRoute) (tasks : list Prerender.ExpandedRoute).

(** C5. With a concurrency of zero or less and at least one route to
    render, [prerenderRoutes] neither substitutes a default nor rejects:
    it reaches the chunking loop with the value it was given, and the loop
    never ends, whatever the fuel.  The claim (default or reject, and
    terminate) does not hold of the code. *)
Theorem prerender_nonpositive_concurrency_never_returns fuel w options d c e first rest :
  Prerender.concurrency options = Some c →
  c ≤ 0 →
  Prerender.choose_engine w options = Js.Returned e →
  Prerender.expand_all (Prerender.routes options) = Js.Returned (first :: rest) →
  Prerender.mkdir_error w (Prerender.outputDir options) = None →
  Prerender.prerenderRoutes fuel w options d = None.
Proof.
  intros Hc Hle He Hexp Hmk. unfold Prerender.prerenderRoutes.
  rewrite He, Hexp, Hc. unfold Prerender.mkdir. rewrite Hmk. simpl default.
  unfold Prerender.chunk. rewrite chunk_loop_nonpositive by done.
  by destruct (Prerender.disk_exists d (Prerender.outputDir options)).
Qed.

End Waves.

Lemma prerender_nonpositive_concurrency_never_returns_witness :
  let w := DemoPrerender.world DemoPrerender.in_order in
  let options := DemoPrerender.options ["/a"] "http://localhost" (Some 0) in
  let task := {| Prerender.ex_path := "/a"; Prerender.ex_outputPath := "/a/index.html" |} in
  Prerender.concurrency options = Some 0 ∧
  0 ≤ 0 ∧
  Prerender.choose_engine w options = Js.Returned DemoEngine.engine ∧
  Prerender.expand_all (Prerender.routes options) = Js.Returned [task] ∧
  Prerender.mkdir_error w (Prerender.outputDir options) = None ∧
  Prerender.prerenderRoutes 1000 w options DemoPrerender.empty_disk = None.
Proof.
  intros w options task.
  split_and!; [reflexivity| lia | reflexivity | reflexivity | reflexivity |].
  apply (prerender_nonpositive_concurrency_never_returns 1000 w options
           DemoPrerender.empty_disk 0 DemoEngine.engine task []);
    first [reflexivity | lia].
Defined.

(** ** The prerenderer: the turns of a wave *)

Section Turns.
Implicit Types (w : Prerender.World) (options : Prerender.PrerenderOptions).
Implicit Types (acc : Prerender.Tally * Prerender.State).
Implicit Types (task : Prerender.ExpandedRoute) (order : list Prerender.ExpandedRoute).
Implicit Types (slot : Prerender.Slot) (slots : list Prerender.Slot).
Implicit Types (r : Prerender.RouteRecord) (rs : list Prerender.RouteRecord).
Implicit Types (phase : Prerender.Phase) (thrown rejected : option Js.exn).

Lemma reports_from_app completed total order1 order2 :
  reports_from completed total (order1 ++ order2) =
  reports_from completed total order1 ++
  reports_from (completed + Z.of_nat (length order1)) total order2.
Proof.
  revert completed. induction order1 as [|task order1 IH]; intros completed.
  - simpl. by rewrite Z.add_0_r.
  - cbn [app reports_from length]. rewrite IH. do 3 f_equal. lia.
Qed.

Lemma bookkeeping_refl total acc : bookkeeping total acc acc [] [].
Proof.
  unfold bookkeeping. simpl. rewrite !app_nil_r. split_and!; first [done|lia].
Qed.

Lemma bookkeeping_trans total acc1 acc2 acc3 order1 order2 rs1 rs2 :
  bookkeeping total acc1 acc2 order1 rs1 →
  bookkeeping total acc2 acc3 order2 rs2 →
  bookkeeping total acc1 acc3 (order1 ++ order2) (rs1 ++ rs2).
Proof.
  intros (Hr1 & Hp1 & Hs1 & Hf1 & Hc1 & Hg1) (Hr2 & Hp2 & Hs2 & Hf2 & Hc2 & Hg2).
  unfold bookkeeping.
  rewrite Hr2, Hs2, Hf2, Hc2, Hg2, Hr1, Hs1, Hf1, Hc1, Hg1.
  rewrite !fmap_app, Hp1, Hp2, !filter_app, !length_app, reports_from_app, <- !app_assoc.
  split_and!; first [done|lia].
Qed.

Lemma bookkeeping_with_disk total d acc :
  bookkeeping total acc (Prerender.with_disk d acc) [] [].
Proof.
  destruct acc as [tally st]. unfold bookkeeping. simpl.
  rewrite !app_nil_r. split_and!; first [done|lia].
Qed.

(** The [catch] block leaves a record of failure. *)
Lemma caught_bookkeeping options total task error acc :
  ∃ r,
    bookkeeping total acc (Prerender.caught options total task error acc).1 [task] [r] ∧
    Prerender.rec_path r = Prerender.ex_path task ∧
    Prerender.rec_outputPath r = full_output options task ∧
    Prerender.rec_success r = false ∧
    is_Some (Prerender.rec_error r).
Proof.
  destruct acc as [tally st]. eexists. unfold bookkeeping. simpl.
  split; [split; [reflexivity|]|]; simpl; split_and!; first [reflexivity|lia|by eexists].
Qed.

Lemma caught_state options total task error acc :
  Prerender.disk (Prerender.caught options total task error acc).1.2 = Prerender.disk acc.2 ∧
  Prerender.st_engine (Prerender.caught options total task error acc).1.2 =
    Prerender.st_engine acc.2.
Proof. by destruct acc as [tally st]. Qed.

Lemma caught_never_stops options total task error acc :
  never_stops options → (Prerender.caught options total task error acc).2 = None.
Proof.
  unfold never_stops. intros Hgo. destruct acc as [tally st]. simpl.
  destruct (Prerender.onError options) as [callback|]; [|done]. by rewrite Hgo.
Qed.

Lemma caught_always_stops options total task error acc :
  always_stops options → (Prerender.caught options total task error acc).2 = Some error.
Proof.
  unfold always_stops. intros Hstop. destruct acc as [tally st]. simpl.
  destruct (Prerender.onError options) as [callback|]; [|done]. by rewrite Hstop.
Qed.

(** The end of the [try] block leaves a record of success. *)
Lemma reported_bookkeeping options total task acc :
  ∃ r,
    bookkeeping total acc (Prerender.reported options total task acc) [task] [r] ∧
    Prerender.rec_path r = Prerender.ex_path task ∧
    Prerender.rec_outputPath r = full_output options task ∧
    Prerender.rec_success r = true ∧
    Prerender.rec_error r = None.
Proof.
  destruct acc as [tally st]. eexists. unfold bookkeeping. simpl.
  split; [split; [reflexivity|]|]; simpl; split_and!; first [reflexivity|lia].
Qed.

Lemma reported_state options total task acc :
  Prerender.disk (Prerender.reported options total task acc).2 = Prerender.disk acc.2 ∧
  Prerender.st_engine (Prerender.reported options total task acc).2 =
    Prerender.st_engine acc.2.
Proof. by destruct acc as [tally st]. Qed.

Lemma settle_eq (x : Prerender.Tally * Prerender.State * option Js.exn) :
  (let '(acc', thrown) := x in (Prerender.Settled, acc', thrown)) =
  (Prerender.Settled, x.1, x.2).
Proof. by destruct x. Qed.

(** A turn of a task either leaves the result as it is or settles the
    task, with one record. *)
Lemma advance_bookkeeping w options total task phase acc phase' acc' thrown :
  Prerender.advance w options total task phase acc = (phase', acc', thrown) →
  Prerender.is_settled phase = false →
  (never_stops options → thrown = None) ∧
  if Prerender.is_settled phase' then ∃ r, bookkeeping total acc acc' [task] [r]
  else bookkeeping total acc acc' [] [] ∧ thrown = None.
Proof.
  intros Hadv Hphase.
  assert (Hcaught : ∀ error,
    (Prerender.Settled, (Prerender.caught options total task error acc).1,
     (Prerender.caught options total task error acc).2) = (phase', acc', thrown) →
    (never_stops options → thrown = None) ∧
    if Prerender.is_settled phase' then ∃ r, bookkeeping total acc acc' [task] [r]
    else bookkeeping total acc acc' [] [] ∧ thrown = None).
  { intros error [= <- <- <-]. split; [apply caught_never_stops|]. simpl.
    destruct (caught_bookkeeping options total task error acc) as (r & Hr & _). eauto. }
  pose proof (bookkeeping_with_disk total) as Hsame.
  unfold Prerender.advance in Hadv.
  destruct phase as [[res|err]|html [|]|html [|]|]; [| | | | | |done].
  - destruct (decide (Engine.status res ≠ 200)).
    + rewrite settle_eq in Hadv. by apply Hcaught in Hadv.
    + destruct (Prerender.disk_exists _ _); injection Hadv as <- <- <-;
        (split; [done|]); simpl; (split; [apply bookkeeping_refl|done]).
  - rewrite settle_eq in Hadv. by apply Hcaught in Hadv.
  - injection Hadv as <- <- <-. split; [done|]. simpl. split; [apply bookkeeping_refl|done].
  - destruct (Prerender.mkdir _ _ _) as [[[]|err] d1].
    + injection Hadv as <- <- <-. split; [done|]. simpl. by split.
    + rewrite settle_eq in Hadv. by apply Hcaught in Hadv.
  - injection Hadv as <- <- <-. split; [done|]. simpl.
    destruct (reported_bookkeeping options total task acc) as (r & Hr & _). eauto.
  - destruct (Prerender.writeFile _ _ _ _) as [[[]|err] d2].
    + injection Hadv as <- <- <-. split; [done|]. simpl. by split.
    + rewrite settle_eq in Hadv. by apply Hcaught in Hadv.
Qed.

(** Each turn brings a task nearer to its end. *)
Lemma advance_remaining w options total task phase acc :
  (remaining (Prerender.advance w options total task phase acc).1.1 ≤
   pred (remaining phase))%nat.
Proof.
  unfold Prerender.advance.
  destruct phase as [[res|err]|html [|]|html [|]|]; simpl; try lia.
  - destruct (decide _); [destruct (Prerender.caught _ _ _ _ _); simpl; lia|].
    destruct (Prerender.disk_exists _ _); simpl; lia.
  - destruct (Prerender.caught _ _ _ _ _); simpl; lia.
  - destruct (Prerender.mkdir _ _ _) as [[[]|err] d1]; simpl; [lia|].
    destruct (Prerender.caught _ _ _ _ _); simpl; lia.
  - destruct (Prerender.writeFile _ _ _ _) as [[[]|err] d2]; simpl; [lia|].
    destruct (Prerender.caught _ _ _ _ _); simpl; lia.
Qed.

Lemma remaining_settled phase :
  remaining phase = 0%nat ↔ Prerender.is_settled phase = true.
Proof. by destruct phase as [?|? [|]|? [|]|]. Qed.

Lemma remaining_bound phase : (remaining phase ≤ 5)%nat.
Proof. destruct phase as [?|? [|]|? [|]|]; simpl; lia. Qed.

(** ** Slots *)

Lemma insert_split slots i slot slot' :
  slots !! i = Some slot →
  ∃ l1 l2, slots = l1 ++ slot :: l2 ∧ <[i := slot']> slots = l1 ++ slot' :: l2.
Proof.
  intros Hi. exists (take i slots), (drop (S i) slots).
  split; [by rewrite take_drop_middle|].
  apply insert_take_drop. by eapply lookup_lt_Some.
Qed.

(** Replacing a slot by one for the same task, as seen through a filter. *)
Lemma filter_insert_same (P : Prerender.Slot → Prop) `{!∀ s, Decision (P s)}
    slots i slot slot' :
  slots !! i = Some slot →
  Prerender.slot_task slot' = Prerender.slot_task slot →
  (P slot ↔ P slot') →
  Prerender.slot_task <$> filter P (<[i := slot']> slots) =
  Prerender.slot_task <$> filter P slots.
Proof.
  intros Hi Htask Hiff.
  destruct (insert_split slots i slot slot' Hi) as (l1 & l2 & Hslots & ->).
  rewrite Hslots, !filter_app, !fmap_app. f_equal.
  destruct (decide (P slot)) as [HP|HP].
  - rewrite !filter_cons_True by tauto. by rewrite !fmap_cons, Htask.
  - by rewrite !filter_cons_False by tauto.
Qed.

Lemma filter_insert_new (P : Prerender.Slot → Prop) `{!∀ s, Decision (P s)}
    slots i slot slot' :
  slots !! i = Some slot →
  ¬ P slot → P slot' →
  Prerender.slot_task <$> filter P (<[i := slot']> slots) ≡ₚ
  (Prerender.slot_task <$> filter P slots) ++ [Prerender.slot_task slot'].
Proof.
  intros Hi Hold Hnew.
  destruct (insert_split slots i slot slot' Hi) as (l1 & l2 & Hslots & ->).
  rewrite Hslots, !filter_app, !fmap_app.
  rewrite filter_cons_True, filter_cons_False by done.
  rewrite fmap_cons, <- app_assoc. f_equiv.
  by rewrite <- Permutation_cons_append.
Qed.

Lemma tasks_insert slots i slot phase :
  slots !! i = Some slot →
  Prerender.slot_task <$>
    <[i := {| Prerender.slot_task := Prerender.slot_task slot;
              Prerender.slot_phase := phase |}]> slots =
  Prerender.slot_task <$> slots.
Proof.
  intros Hi. rewrite list_fmap_insert. simpl. apply list_insert_id.
  by rewrite list_lookup_fmap, Hi.
Qed.

(** ** Turns: the result and the reports *)

Lemma turn_bookkeeping w options total i slots acc slots' acc' thrown :
  Prerender.turn w options total i slots acc = (slots', acc', thrown) →
  ∃ order rs,
    bookkeeping total acc acc' order rs ∧
    settled slots' ≡ₚ settled slots ++ order ∧
    Prerender.slot_task <$> slots' = Prerender.slot_task <$> slots ∧
    (never_stops options → thrown = None).
Proof.
  unfold Prerender.turn. intros Hturn.
  destruct (slots !! i) as [slot|] eqn:Hi.
  2:{ injection Hturn as <- <- <-. exists [], []. rewrite app_nil_r.
      split_and!; [apply bookkeeping_refl|done..]. }
  destruct (Prerender.advance w options total (Prerender.slot_task slot)
              (Prerender.slot_phase slot) acc) as [[phase' acc''] thrown'] eqn:Hadv.
  injection Hturn as <- <- <-.
  destruct (Prerender.is_settled (Prerender.slot_phase slot)) eqn:Hphase.
  - destruct slot as [task phase]. simpl in *. destruct phase; try done.
    simpl in Hadv. injection Hadv as <- <- <-.
    rewrite list_insert_id by done. exists [], []. rewrite app_nil_r.
    split_and!; [apply bookkeeping_refl|done..].
  - destruct (advance_bookkeeping _ _ _ _ _ _ _ _ _ Hadv Hphase) as [Hgo Hbook].
    rewrite tasks_insert by done. unfold settled.
    destruct (Prerender.is_settled phase') eqn:Hphase'.
    + destruct Hbook as [r Hr]. exists [Prerender.slot_task slot], [r].
      split_and!; [done| |done|done].
      apply (filter_insert_new _ slots i slot
               {| Prerender.slot_task := Prerender.slot_task slot;
                  Prerender.slot_phase := phase' |}); [done|by rewrite Hphase|done].
    + destruct Hbook as [Hbook ->]. exists [], []. rewrite app_nil_r.
      split_and!; [done| |done|done].
      rewrite (filter_insert_same _ slots i slot); [done..|].
      simpl. by rewrite Hphase, Hphase'.
Qed.

Lemma run_turns_bookkeeping w options total turns slots acc rejected slots' acc' rejected' :
  Prerender.run_turns w options total turns slots acc rejected = (slots', acc', rejected') →
  ∃ order rs,
    bookkeeping total acc acc' order rs ∧
    settled slots' ≡ₚ settled slots ++ order ∧
    Prerender.slot_task <$> slots' = Prerender.slot_task <$> slots ∧
    (never_stops options → rejected = None → rejected' = None).
Proof.
  revert slots acc rejected.
  induction turns as [|i turns IH]; intros slots acc rejected Hrun.
  - simpl in Hrun. injection Hrun as <- <- <-. exists [], []. rewrite app_nil_r.
    split_and!; [apply bookkeeping_refl|done..].
  - simpl in Hrun.
    destruct (Prerender.turn w options total i slots acc) as [[slots1 acc1] thrown] eqn:Hturn.
    destruct (turn_bookkeeping _ _ _ _ _ _ _ _ _ Hturn)
      as (order1 & rs1 & Hbook1 & Hset1 & Htasks1 & Hgo1).
    destruct (IH _ _ _ Hrun) as (order2 & rs2 & Hbook2 & Hset2 & Htasks2 & Hgo2).
    exists (order1 ++ order2), (rs1 ++ rs2).
    split_and!.
    + by eapply bookkeeping_trans.
    + by rewrite Hset2, Hset1, <- app_assoc.
    + by rewrite Htasks2.
    + intros Hgo ->. apply Hgo2; [done|]. by apply Hgo1.
Qed.

Lemma run_to_rejection_bookkeeping w options total turns slots acc slots' acc' rejected :
  Prerender.run_to_rejection w options total turns slots acc = (slots', acc', rejected) →
  ∃ order rs,
    bookkeeping total acc acc' order rs ∧
    settled slots' ≡ₚ settled slots ++ order ∧
    Prerender.slot_task <$> slots' = Prerender.slot_task <$> slots ∧
    (never_stops options → rejected = None).
Proof.
  revert slots acc.
  induction turns as [|i turns IH]; intros slots acc Hrun.
  - simpl in Hrun. injection Hrun as <- <- <-. exists [], []. rewrite app_nil_r.
    split_and!; [apply bookkeeping_refl|done..].
  - simpl in Hrun.
    destruct (Prerender.turn w options total i slots acc) as [[slots1 acc1] thrown] eqn:Hturn.
    destruct (turn_bookkeeping _ _ _ _ _ _ _ _ _ Hturn)
      as (order1 & rs1 & Hbook1 & Hset1 & Htasks1 & Hgo1).
    destruct thrown as [err|].
    + injection Hrun as <- <- <-. exists order1, rs1. split_and!; [done..|].
      intros Hgo. by apply Hgo1.
    + destruct (IH _ _ Hrun) as (order2 & rs2 & Hbook2 & Hset2 & Htasks2 & Hgo2).
      exists (order1 ++ order2), (rs1 ++ rs2).
      split_and!; [by eapply bookkeeping_trans| |by rewrite Htasks2|done].
      by rewrite Hset2, Hset1, <- app_assoc.
Qed.

(** ** Every task settles *)

Lemma turn_remaining w options total i slots acc j slot :
  slots !! j = Some slot →
  ∃ slot', (Prerender.turn w options total i slots acc).1.1 !! j = Some slot' ∧
    (remaining (Prerender.slot_phase slot') ≤
     remaining (Prerender.slot_phase slot) - (if decide (i = j) then 1 else 0))%nat.
Proof.
  intros Hj. unfold Prerender.turn.
  destruct (slots !! i) as [slot_i|] eqn:Hi.
  2:{ exists slot. split; [done|]. destruct (decide (i = j)) as [->|]; [congruence|lia]. }
  pose proof (advance_remaining w options total (Prerender.slot_task slot_i)
                (Prerender.slot_phase slot_i) acc) as Hrem.
  destruct (Prerender.advance _ _ _ _ _ _) as [[phase' acc'] thrown]. simpl in *.
  destruct (decide (i = j)) as [->|Hne].
  - eexists. rewrite list_lookup_insert_eq by (by eapply lookup_lt_Some).
    split; [done|]. simpl. assert (slot_i = slot) as -> by congruence. lia.
  - exists slot. rewrite list_lookup_insert_ne by done. split; [done|lia].
Qed.

Lemma run_to_rejection_remaining w options total turns slots acc slots' acc' j slot :
  Prerender.run_to_rejection w options total turns slots acc = (slots', acc', None) →
  slots !! j = Some slot →
  ∃ slot', slots' !! j = Some slot' ∧
    (remaining (Prerender.slot_phase slot') ≤
     remaining (Prerender.slot_phase slot) - length (filter (λ i, i = j) turns))%nat.
Proof.
  revert slots acc slot.
  induction turns as [|i turns IH]; intros slots acc slot Hrun Hj.
  - simpl in Hrun. injection Hrun as <- <-. exists slot. split; [done|simpl; lia].
  - simpl in Hrun.
    destruct (turn_remaining w options total i slots acc j slot Hj) as (slot1 & Hj1 & Hrem1).
    destruct (Prerender.turn w options total i slots acc) as [[slots1 acc1] [err|]];
      [done|]. simpl in Hj1.
    destruct (IH _ _ _ Hrun Hj1) as (slot' & Hj' & Hrem').
    exists slot'. split; [done|].
    destruct (decide (i = j)) as [->|Hne].
    + rewrite filter_cons_True by done. simpl. lia.
    + rewrite filter_cons_False by done. lia.
Qed.

Lemma completion_turns n j :
  (j < n)%nat → (5 ≤ length (filter (λ i, i = j) (Prerender.completion n)))%nat.
Proof.
  intros Hj. unfold Prerender.completion.
  assert (Hin : j ∈ seq 0 n) by (apply elem_of_seq; lia).
  induction (seq 0 n) as [|i l IH]; [by apply elem_of_nil in Hin|].
  rewrite bind_cons, filter_app, length_app.
  apply elem_of_cons in Hin as [<-|Hin]; [|specialize (IH Hin); lia].
  simpl. rewrite !filter_cons_True by done. simpl. lia.
Qed.

(** When the turns of [completion] end without an error rethrown, every
    task of the wave has settled. *)
Lemma run_to_rejection_all_settled w options total slots acc slots' acc' :
  Prerender.run_to_rejection w options total (Prerender.completion (length slots)) slots acc =
    (slots', acc', None) →
  Forall (λ slot, Prerender.is_settled (Prerender.slot_phase slot) = true) slots'.
Proof.
  intros Hrun. apply Forall_forall.
  intros slot' [j Hj']%list_elem_of_lookup.
  assert (Hlen : length slots' = length slots).
  { destruct (run_to_rejection_bookkeeping _ _ _ _ _ _ _ _ _ Hrun)
      as (_ & _ & _ & _ & Htasks & _).
    by rewrite <- (length_fmap Prerender.slot_task), Htasks, length_fmap. }
  assert (Hlt : (j < length slots)%nat) by (rewrite <- Hlen; by eapply lookup_lt_Some).
  destruct (lookup_lt_is_Some_2 slots j Hlt) as [slot Hj].
  destruct (run_to_rejection_remaining _ _ _ _ _ _ _ _ j slot Hrun Hj)
    as (slot'' & Hj'' & Hrem).
  assert (slot'' = slot') as -> by congruence.
  pose proof (completion_turns (length slots) j Hlt).
  pose proof (remaining_bound (Prerender.slot_phase slot)).
  apply remaining_settled. lia.
Qed.

Lemma all_settled slots :
  Forall (λ slot, Prerender.is_settled (Prerender.slot_phase slot) = true) slots →
  settled slots = Prerender.slot_task <$> slots.
Proof.
  intros Hall. unfold settled. f_equal. apply filter_all. by apply Forall_forall.
Qed.

(** ** Starting a wave *)

Lemma dispatch_tasks w routeChunk e :
  Prerender.slot_task <$> (Prerender.dispatch w routeChunk e).1 = routeChunk.
Proof.
  revert e. induction routeChunk as [|task routeChunk IH]; intros e; [done|].
  simpl. destruct (Engine.render _ _ _) as [rendered e'].
  specialize (IH e'). destruct (Prerender.dispatch w routeChunk e') as [slots e''].
  cbn [fst] in *. by rewrite fmap_cons, IH.
Qed.

Lemma dispatch_rendering w routeChunk e :
  Forall (λ slot, ∃ rendered, Prerender.slot_phase slot = Prerender.Rendering rendered)
    (Prerender.dispatch w routeChunk e).1.
Proof.
  revert e. induction routeChunk as [|task routeChunk IH]; intros e; [by constructor|].
  simpl. destruct (Engine.render _ _ _) as [rendered e'].
  specialize (IH e'). destruct (Prerender.dispatch w routeChunk e') as [slots e''].
  cbn [fst] in *. constructor; [by eexists|done].
Qed.

Lemma dispatch_settled w routeChunk e : settled (Prerender.dispatch w routeChunk e).1 = [].
Proof.
  unfold settled. rewrite filter_none; [done|].
  intros slot Hslot.
  pose proof (dispatch_rendering w routeChunk e) as Hall.
  rewrite Forall_forall in Hall. by destruct (Hall slot Hslot) as [rendered ->].
Qed.

(** ** A wave: the result and the reports *)

(** The tasks of a wave that have settled when the caller resumes settle
    in some order, each leaving one record; they are all the tasks of the
    wave unless the wave rejects, and a wave does not reject when the
    error callback never asks to stop. *)
Lemma run_wave_bookkeeping w options total routeChunk acc acc' rejected :
  Prerender.run_wave w options total routeChunk acc = (acc', rejected) →
  ∃ order rs,
    bookkeeping total acc acc' order rs ∧
    order ⊆+ routeChunk ∧
    (rejected = None → order ≡ₚ routeChunk) ∧
    (never_stops options → rejected = None).
Proof.
  unfold Prerender.run_wave. intros Hwave.
  pose proof (dispatch_tasks w routeChunk (Prerender.st_engine acc.2)) as Htasks.
  pose proof (dispatch_settled w routeChunk (Prerender.st_engine acc.2)) as Hnone.
  destruct (Prerender.dispatch w routeChunk _) as [slots e]. simpl in Htasks, Hnone.
  set (started := (acc.1, _)) in Hwave.
  assert (Hstart : ∀ acc1 order rs,
    bookkeeping total started acc1 order rs → bookkeeping total acc acc1 order rs).
  { intros acc1 order rs Hbook. exact Hbook. }
  destruct (Prerender.run_turns _ _ _ _ _ _ _) as [[slots1 acc1] rejected1] eqn:Hturns.
  destruct (run_turns_bookkeeping _ _ _ _ _ _ _ _ _ _ Hturns)
    as (order1 & rs1 & Hbook1 & Hset1 & Htasks1 & Hgo1).
  rewrite Hnone in Hset1. simpl in Hset1.
  assert (Hsub : ∀ slots', Prerender.slot_task <$> slots' = routeChunk →
                           settled slots' ⊆+ routeChunk).
  { intros slots' <-. unfold settled. apply fmap_submseteq, sublist_submseteq,
      sublist_filter. }
  destruct rejected1 as [err|].
  - injection Hwave as <- <-. exists order1, rs1.
    split_and!; [by apply Hstart| |done|].
    + rewrite <- Hset1. apply Hsub. by rewrite Htasks1.
    + intros Hgo. by apply Hgo1.
  - destruct (Prerender.run_to_rejection _ _ _ _ _ _) as [[slots2 acc2] rejected2] eqn:Hrest.
    injection Hwave as <- <-.
    destruct (run_to_rejection_bookkeeping _ _ _ _ _ _ _ _ _ Hrest)
      as (order2 & rs2 & Hbook2 & Hset2 & Htasks2 & Hgo2).
    exists (order1 ++ order2), (rs1 ++ rs2).
    split_and!; [apply Hstart; by eapply bookkeeping_trans| | |done].
    + rewrite <- Hset1, <- Hset2. apply Hsub. by rewrite Htasks2, Htasks1.
    + intros ->. rewrite <- Hset1, <- Hset2.
      replace (length routeChunk) with (length slots1) in Hrest
        by (by rewrite <- Htasks, <- Htasks1, !length_fmap).
      rewrite (all_settled _ (run_to_rejection_all_settled _ _ _ _ _ _ _ Hrest)).
      by rewrite Htasks2, Htasks1, Htasks.
Qed.

(** Waves that all resolve: every task has settled, wave by wave. *)
Lemma run_waves_bookkeeping w options total chunks acc tally st :
  Prerender.run_waves w options total chunks acc = (Js.Returned tally, st) →
  ∃ order rs, bookkeeping total acc (tally, st) order rs ∧ order ≡ₚ concat chunks.
Proof.
  revert acc. induction chunks as [|routeChunk chunks IH]; intros acc.
  - simpl. intros [= <- <-]. exists [], []. split; [|done]. destruct acc. apply bookkeeping_refl.
  - simpl. destruct (Prerender.run_wave w options total routeChunk acc)
      as [acc1 [err|]] eqn:Hwave; [done|]. intros Hrest.
    destruct (run_wave_bookkeeping _ _ _ _ _ _ _ Hwave) as (order1 & rs1 & Hbook1 & _ & Hall & _).
    destruct (IH _ Hrest) as (order2 & rs2 & Hbook2 & Hperm2).
    exists (order1 ++ order2), (rs1 ++ rs2).
    split; [by eapply bookkeeping_trans|]. by rewrite Hall, Hperm2.
Qed.

(** When the error callback never asks to stop, the waves all resolve. *)
Lemma run_waves_never_stops w options total chunks acc :
  never_stops options →
  ∃ tally st, Prerender.run_waves w options total chunks acc = (Js.Returned tally, st).
Proof.
  intros Hgo. revert acc. induction chunks as [|routeChunk chunks IH]; intros acc.
  - by do 2 eexists.
  - simpl. destruct (Prerender.run_wave w options total routeChunk acc)
      as [acc1 rejected] eqn:Hwave.
    destruct (run_wave_bookkeeping _ _ _ _ _ _ _ Hwave) as (_ & _ & _ & _ & _ & Hnone).
    rewrite (Hnone Hgo). apply IH.
Qed.
End Turns.

Section ClassifiedTurns.
Context (Inv : Engine.BunAngularEngine → Prop).
Implicit Types (w : Prerender.World) (options : Prerender.PrerenderOptions).
Implicit Types (acc : Prerender.Tally * Prerender.State).
Implicit Types (task : Prerender.ExpandedRoute) (order wrote : list Prerender.ExpandedRoute).
Implicit Types (slot : Prerender.Slot) (slots : list Prerender.Slot).
Implicit Types (r : Prerender.RouteRecord) (rs : list Prerender.RouteRecord).
Implicit Types (phase : Prerender.Phase) (thrown rejected : option Js.exn).
Implicit Types (good : Prerender.ExpandedRoute → bool).

Lemma carried_out_refl options total good acc : carried_out options total good acc acc [] [] [] [].
Proof.
  split_and!; [apply bookkeeping_refl|constructor|by rewrite app_nil_r|done].
Qed.

Lemma carried_out_trans options total good acc1 acc2 acc3
    order1 order2 rs1 rs2 ws1 ws2 wrote1 wrote2 :
  carried_out options total good acc1 acc2 order1 rs1 ws1 wrote1 →
  carried_out options total good acc2 acc3 order2 rs2 ws2 wrote2 →
  carried_out options total good acc1 acc3
    (order1 ++ order2) (rs1 ++ rs2) (ws1 ++ ws2) (wrote1 ++ wrote2).
Proof.
  intros (Hb1 & Hf1 & Hw1 & Hn1) (Hb2 & Hf2 & Hw2 & Hn2).
  split_and!.
  - by eapply bookkeeping_trans.
  - by apply Forall2_app.
  - by rewrite Hw2, Hw1, app_assoc.
  - by rewrite !fmap_app, Hn1, Hn2.
Qed.

(** Successes and failures among the records, counted by class. *)
Lemma record_fits_counts options good order rs :
  Forall2 (record_fits options good) order rs →
  length (filter (λ r, Prerender.rec_success r = true) rs) =
    length (filter (λ t, good t = true) order) ∧
  length (filter (λ r, Prerender.rec_success r ≠ true) rs) =
    length (filter (λ t, good t ≠ true) order).
Proof.
  induction 1 as [|task r order rs (_ & _ & Hs & _) _ [IH1 IH2]]; [done|].
  destruct (good task) eqn:Hgood.
  - rewrite !filter_cons_True by done.
    rewrite (filter_cons_False (λ r, Prerender.rec_success r ≠ true))
      by (rewrite Hs; naive_solver).
    rewrite (filter_cons_False (λ t, good t ≠ true)) by (rewrite Hgood; naive_solver).
    simpl. by rewrite IH1, IH2.
  - rewrite (filter_cons_False (λ r, Prerender.rec_success r = true)) by (by rewrite Hs).
    rewrite (filter_cons_False (λ t, good t = true)) by (by rewrite Hgood).
    rewrite (filter_cons_True (λ r, Prerender.rec_success r ≠ true)) by (by rewrite Hs).
    rewrite (filter_cons_True (λ t, good t ≠ true)) by (by rewrite Hgood).
    simpl. by rewrite IH1, IH2.
Qed.

(** A turn of a classified task, when no file operation fails. *)
Lemma advance_classified w options total task phase acc phase' acc' thrown good :
  Prerender.advance w options total task phase acc = (phase', acc', thrown) →
  Prerender.is_settled phase = false →
  phase_fits (good task) phase →
  (∀ p, Prerender.mkdir_error w p = None) →
  (∀ p, Prerender.writeFile_error w p = None) →
  phase_fits (good task) phase' ∧
  Prerender.st_engine acc'.2 = Prerender.st_engine acc.2 ∧
  (∃ ws,
     Prerender.written (Prerender.disk acc'.2) =
       Prerender.written (Prerender.disk acc.2) ++ ws ∧
     ws.*1 = if has_written (good task) phase' && negb (has_written (good task) phase)
             then [full_output options task] else []) ∧
  if Prerender.is_settled phase' then
    (∃ r, bookkeeping total acc acc' [task] [r] ∧ record_fits options good task r) ∧
    (is_Some thrown → good task = false) ∧
    (always_stops options → good task = false → is_Some thrown)
  else bookkeeping total acc acc' [] [] ∧ thrown = None.
Proof.
  intros Hadv Hphase Hfits Hmk Hwr.
  assert (Hcaught : ∀ error,
    good task = false →
    (Prerender.Settled, (Prerender.caught options total task error acc).1,
     (Prerender.caught options total task error acc).2) = (phase', acc', thrown) →
    phase_fits (good task) phase' ∧
    Prerender.st_engine acc'.2 = Prerender.st_engine acc.2 ∧
    (∃ ws,
       Prerender.written (Prerender.disk acc'.2) =
         Prerender.written (Prerender.disk acc.2) ++ ws ∧
       ws.*1 = if has_written (good task) phase' && negb (has_written (good task) phase)
               then [full_output options task] else []) ∧
    if Prerender.is_settled phase' then
      (∃ r, bookkeeping total acc acc' [task] [r] ∧ record_fits options good task r) ∧
      (is_Some thrown → good task = false) ∧
      (always_stops options → good task = false → is_Some thrown)
    else bookkeeping total acc acc' [] [] ∧ thrown = None).
  { intros error Hbad [= <- <- <-].
    destruct (caught_state options total task error acc) as [Hdisk Hengine].
    destruct (caught_bookkeeping options total task error acc)
      as (r & Hr & Hpath & Hout & Hsucc & Herr).
    split; [done|]. split; [done|]. split.
    { exists []. rewrite Hdisk, app_nil_r. split; [done|]. simpl. by rewrite Hbad. }
    simpl. split_and!.
    - exists r. split; [done|]. unfold record_fits. by rewrite Hbad.
    - done.
    - intros Hstop _. rewrite caught_always_stops by done. by eexists. }
  unfold Prerender.advance in Hadv.
  destruct phase as [[res|err]|html [|]|html [|]|]; simpl in Hfits; [| | | | | |done].
  - destruct (decide (Engine.status res ≠ 200)) as [Hne|Heq].
    + rewrite settle_eq in Hadv. apply Hcaught in Hadv; [done|].
      by destruct (good task).
    + assert (good task = true) as Hgood by (by destruct (good task)).
      destruct (Prerender.disk_exists _ _); injection Hadv as <- <- <-;
        rewrite Hgood; simpl; (split_and!; [done|done| |apply bookkeeping_refl|done]);
        exists []; by rewrite app_nil_r.
  - rewrite settle_eq in Hadv. by apply Hcaught in Hadv.
  - injection Hadv as <- <- <-. rewrite Hfits. simpl.
    split_and!; [done|done| |apply bookkeeping_refl|done].
    exists []. by rewrite app_nil_r.
  - unfold Prerender.mkdir in Hadv. rewrite Hmk in Hadv.
    injection Hadv as <- <- <-. rewrite Hfits. simpl.
    split_and!; [done|done| |apply bookkeeping_with_disk|done].
    exists []. by rewrite app_nil_r.
  - injection Hadv as <- <- <-. rewrite Hfits. simpl.
    destruct (reported_state options total task acc) as [Hdisk Hengine].
    destruct (reported_bookkeeping options total task acc)
      as (r & Hr & Hpath & Hout & Hsucc & Herr).
    split_and!; [done|done| | |by intros [? ?]|done].
    + exists []. by rewrite Hdisk, app_nil_r.
    + exists r. split; [done|]. unfold record_fits. by rewrite Hfits.
  - unfold Prerender.writeFile in Hadv. rewrite Hwr in Hadv.
    injection Hadv as <- <- <-. rewrite Hfits. simpl.
    split_and!; [done|done| |apply bookkeeping_with_disk|done].
    by eexists.
Qed.

Lemma turn_classified w options total i slots acc slots' acc' thrown good :
  Prerender.turn w options total i slots acc = (slots', acc', thrown) →
  Forall (slot_fits good) slots →
  (∀ p, Prerender.mkdir_error w p = None) →
  (∀ p, Prerender.writeFile_error w p = None) →
  ∃ order rs ws wrote,
    carried_out options total good acc acc' order rs ws wrote ∧
    settled slots' ≡ₚ settled slots ++ order ∧
    writers good slots' ≡ₚ writers good slots ++ wrote ∧
    Prerender.slot_task <$> slots' = Prerender.slot_task <$> slots ∧
    Forall (slot_fits good) slots' ∧
    Prerender.st_engine acc'.2 = Prerender.st_engine acc.2 ∧
    (is_Some thrown → ∃ t, t ∈ order ∧ good t = false) ∧
    (always_stops options → (∃ t, t ∈ order ∧ good t = false) → is_Some thrown).
Proof.
  unfold Prerender.turn. intros Hturn Hfits Hmk Hwr.
  assert (Hidle :
    ∃ order rs ws wrote,
      carried_out options total good acc acc order rs ws wrote ∧
      settled slots ≡ₚ settled slots ++ order ∧
      writers good slots ≡ₚ writers good slots ++ wrote ∧
      Prerender.slot_task <$> slots = Prerender.slot_task <$> slots ∧
      Forall (slot_fits good) slots ∧
      Prerender.st_engine acc.2 = Prerender.st_engine acc.2 ∧
      (is_Some (@None Js.exn) → ∃ t, t ∈ order ∧ good t = false) ∧
      (always_stops options → (∃ t, t ∈ order ∧ good t = false) →
       is_Some (@None Js.exn))).
  { exists [], [], [], []. rewrite !app_nil_r.
    split_and!; [apply carried_out_refl|done..|by intros [? ?]|].
    intros _ (t & Ht & _). by apply elem_of_nil in Ht. }
  destruct (slots !! i) as [slot|] eqn:Hi.
  2:{ by injection Hturn as <- <- <-. }
  destruct (Prerender.advance w options total (Prerender.slot_task slot)
              (Prerender.slot_phase slot) acc) as [[phase' acc''] thrown'] eqn:Hadv.
  injection Hturn as <- <- <-.
  destruct (Prerender.is_settled (Prerender.slot_phase slot)) eqn:Hphase.
  { destruct slot as [task phase]. simpl in *. destruct phase; try done.
    simpl in Hadv. injection Hadv as <- <- <-.
    by rewrite list_insert_id by done. }
  assert (Hfit : slot_fits good slot).
  { rewrite Forall_forall in Hfits. apply Hfits. by eapply list_elem_of_lookup_2. }
  destruct (advance_classified _ _ _ _ _ _ _ _ _ good Hadv Hphase Hfit Hmk Hwr)
    as (Hfit' & Hengine & (ws & Hws & Hfiles) & Hrest).
  set (slot' := {| Prerender.slot_task := Prerender.slot_task slot;
                   Prerender.slot_phase := phase' |}).
  assert (Hfits' : Forall (slot_fits good) (<[i := slot']> slots)).
  { by apply Forall_insert. }
  assert (Hwriters : ∃ wrote,
    ws.*1 = full_output options <$> wrote ∧
    writers good (<[i := slot']> slots) ≡ₚ writers good slots ++ wrote).
  { unfold writers.
    destruct (has_written (good (Prerender.slot_task slot)) (Prerender.slot_phase slot))
      eqn:Hold.
    - exists []. rewrite andb_false_r in Hfiles. rewrite app_nil_r. split; [done|].
      rewrite (filter_insert_same _ slots i slot); [done..|]. simpl. rewrite Hold.
      split; [intros _|done].
      destruct slot as [task phase]. simpl in *.
      destruct phase as [[?|?]|? [|]|? [|]|]; try done.
      simpl in Hadv. injection Hadv as <- <- <-. simpl. done.
    - rewrite andb_true_r in Hfiles.
      destruct (has_written (good (Prerender.slot_task slot)) phase') eqn:Hnew.
      + exists [Prerender.slot_task slot]. split; [done|].
        apply (filter_insert_new _ slots i slot slot'); [done|by rewrite Hold|done].
      + exists []. rewrite app_nil_r. split; [done|].
        rewrite (filter_insert_same _ slots i slot); [done..|]. simpl.
        by rewrite Hold, Hnew. }
  destruct Hwriters as (wrote & Hwrote & Hwriters).
  unfold slot' in *. rewrite tasks_insert by done.
  destruct (Prerender.is_settled phase') eqn:Hphase'.
  - destruct Hrest as ((r & Hr & Hrfit) & Hthrown & Hstop).
    exists [Prerender.slot_task slot], [r], ws, wrote.
    split_and!; [split_and!; [done|by constructor|done|done]| |done..| |].
    + unfold settled.
      apply (filter_insert_new _ slots i slot
               {| Prerender.slot_task := Prerender.slot_task slot;
                  Prerender.slot_phase := phase' |}); [done|by rewrite Hphase|done].
    + intros Hsome. exists (Prerender.slot_task slot). split; [by left|by apply Hthrown].
    + intros Hall (t & ->%list_elem_of_singleton & Hbad). by apply Hstop.
  - destruct Hrest as [Hbook ->].
    exists [], [], ws, wrote. rewrite app_nil_r.
    split_and!; [split_and!; [done|constructor|done|done]| |done..|by intros [? ?]|].
    + unfold settled. rewrite (filter_insert_same _ slots i slot); [done..|].
      simpl. by rewrite Hphase, Hphase'.
    + intros _ (t & Ht & _). by apply elem_of_nil in Ht.
Qed.

Lemma run_turns_classified w options total turns slots acc rejected slots' acc' rejected'
    good :
  Prerender.run_turns w options total turns slots acc rejected = (slots', acc', rejected') →
  Forall (slot_fits good) slots →
  (∀ p, Prerender.mkdir_error w p = None) →
  (∀ p, Prerender.writeFile_error w p = None) →
  ∃ order rs ws wrote,
    carried_out options total good acc acc' order rs ws wrote ∧
    settled slots' ≡ₚ settled slots ++ order ∧
    writers good slots' ≡ₚ writers good slots ++ wrote ∧
    Prerender.slot_task <$> slots' = Prerender.slot_task <$> slots ∧
    Forall (slot_fits good) slots' ∧
    Prerender.st_engine acc'.2 = Prerender.st_engine acc.2 ∧
    (is_Some rejected' → is_Some rejected ∨ ∃ t, t ∈ order ∧ good t = false) ∧
    (always_stops options → is_Some rejected ∨ (∃ t, t ∈ order ∧ good t = false) →
     is_Some rejected').
Proof.
  intros Hrun Hfits Hmk Hwr. revert slots acc rejected Hrun Hfits.
  induction turns as [|i turns IH]; intros slots acc rejected Hrun Hfits.
  - simpl in Hrun. injection Hrun as <- <- <-. exists [], [], [], []. rewrite !app_nil_r.
    split_and!; [apply carried_out_refl|done..|by left|].
    intros _ [?|(t & Ht & _)]; [done|]. by apply elem_of_nil in Ht.
  - simpl in Hrun.
    destruct (Prerender.turn w options total i slots acc) as [[slots1 acc1] thrown] eqn:Hturn.
    destruct (turn_classified _ _ _ _ _ _ _ _ _ good Hturn Hfits Hmk Hwr)
      as (order1 & rs1 & ws1 & wrote1 & Hout1 & Hset1 & Hwri1 & Htasks1 & Hfits1 & He1 &
          Hthrown1 & Hstop1).
    destruct (IH _ _ _ Hrun Hfits1)
      as (order2 & rs2 & ws2 & wrote2 & Hout2 & Hset2 & Hwri2 & Htasks2 & Hfits2 & He2 &
          Hthrown2 & Hstop2).
    exists (order1 ++ order2), (rs1 ++ rs2), (ws1 ++ ws2), (wrote1 ++ wrote2).
    split_and!.
    + by eapply carried_out_trans.
    + by rewrite Hset2, Hset1, <- app_assoc.
    + by rewrite Hwri2, Hwri1, <- app_assoc.
    + by rewrite Htasks2.
    + done.
    + by rewrite He2.
    + intros Hsome. destruct (Hthrown2 Hsome) as [Hrej|(t & Ht & Hbad)].
      * destruct rejected as [err|]; [left; by eexists|].
        right. destruct (Hthrown1 Hrej) as (t & Ht & Hbad).
        exists t. split; [|done]. apply elem_of_app. by left.
      * right. exists t. split; [|done]. apply elem_of_app. by right.
    + intros Hall Hcause. apply Hstop2; [done|].
      destruct Hcause as [[err ->]|(t & [Ht|Ht]%elem_of_app & Hbad)].
      * left. by eexists.
      * left. destruct rejected as [err|]; [by eexists|]. apply Hstop1; [done|]. by exists t.
      * right. by exists t.
Qed.

Lemma run_to_rejection_classified w options total turns slots acc slots' acc' rejected good :
  Prerender.run_to_rejection w options total turns slots acc = (slots', acc', rejected) →
  Forall (slot_fits good) slots →
  (∀ p, Prerender.mkdir_error w p = None) →
  (∀ p, Prerender.writeFile_error w p = None) →
  ∃ order rs ws wrote,
    carried_out options total good acc acc' order rs ws wrote ∧
    settled slots' ≡ₚ settled slots ++ order ∧
    writers good slots' ≡ₚ writers good slots ++ wrote ∧
    Prerender.slot_task <$> slots' = Prerender.slot_task <$> slots ∧
    Forall (slot_fits good) slots' ∧
    Prerender.st_engine acc'.2 = Prerender.st_engine acc.2 ∧
    (is_Some rejected → ∃ t, t ∈ order ∧ good t = false) ∧
    (always_stops options → (∃ t, t ∈ order ∧ good t = false) → is_Some rejected).
Proof.
  intros Hrun Hfits Hmk Hwr. revert slots acc Hrun Hfits.
  induction turns as [|i turns IH]; intros slots acc Hrun Hfits.
  - simpl in Hrun. injection Hrun as <- <- <-. exists [], [], [], []. rewrite !app_nil_r.
    split_and!; [apply carried_out_refl|done..|by intros [? ?]|].
    intros _ (t & Ht & _). by apply elem_of_nil in Ht.
  - simpl in Hrun.
    destruct (Prerender.turn w options total i slots acc) as [[slots1 acc1] thrown] eqn:Hturn.
    destruct (turn_classified _ _ _ _ _ _ _ _ _ good Hturn Hfits Hmk Hwr)
      as (order1 & rs1 & ws1 & wrote1 & Hout1 & Hset1 & Hwri1 & Htasks1 & Hfits1 & He1 &
          Hthrown1 & Hstop1).
    destruct thrown as [err|].
    { injection Hrun as <- <- <-. exists order1, rs1, ws1, wrote1.
      split_and!; [done..|]. intros _ _. by eexists. }
    destruct (IH _ _ Hrun Hfits1)
      as (order2 & rs2 & ws2 & wrote2 & Hout2 & Hset2 & Hwri2 & Htasks2 & Hfits2 & He2 &
          Hthrown2 & Hstop2).
    exists (order1 ++ order2), (rs1 ++ rs2), (ws1 ++ ws2), (wrote1 ++ wrote2).
    split_and!.
    + by eapply carried_out_trans.
    + by rewrite Hset2, Hset1, <- app_assoc.
    + by rewrite Hwri2, Hwri1, <- app_assoc.
    + by rewrite Htasks2.
    + done.
    + by rewrite He2.
    + intros Hsome. destruct (Hthrown2 Hsome) as (t & Ht & Hbad).
      exists t. split; [|done]. apply elem_of_app. by right.
    + intros Hall (t & [Ht|Ht]%elem_of_app & Hbad).
      * destruct (Hstop1 Hall) as [? ?]; [by exists t|done].
      * apply Hstop2; [done|]. by exists t.
Qed.

(** ** Slots of classified tasks *)

Lemma filter_fmap {A B} (f : A → B) (P : B → Prop) `{!∀ y, Decision (P y)} (l : list A) :
  filter P (f <$> l) = f <$> filter (λ x, P (f x)) l.
Proof.
  induction l as [|x l IH]; [done|]. rewrite fmap_cons. destruct (decide (P (f x))).
  - rewrite !filter_cons_True by done. by rewrite fmap_cons, IH.
  - by rewrite !filter_cons_False by done.
Qed.

Lemma filter_sublist_impl {A} (P Q : A → Prop) `{!∀ x, Decision (P x)}
    `{!∀ x, Decision (Q x)} (l : list A) :
  (∀ x, x ∈ l → P x → Q x) → filter P l `sublist_of` filter Q l.
Proof.
  induction l as [|x l IH]; intros Himpl; [done|].
  assert (IH' : filter P l `sublist_of` filter Q l).
  { apply IH. intros y Hy. apply Himpl. by right. }
  destruct (decide (P x)) as [HP|HP].
  - rewrite !filter_cons_True by (try apply Himpl; by try left). by constructor.
  - rewrite (filter_cons_False P) by done. destruct (decide (Q x)).
    + rewrite filter_cons_True by done. by constructor.
    + by rewrite filter_cons_False by done.
Qed.

(** The settled tasks that render have their files on the disk. *)
Lemma settled_good_writers good slots :
  filter (λ t, good t = true) (settled slots) ⊆+ writers good slots.
Proof.
  unfold settled, writers. rewrite filter_fmap, list_filter_filter.
  apply fmap_submseteq, sublist_submseteq, filter_sublist_impl.
  intros [task phase] _ [Hgood Hphase]. simpl in *. by destruct phase.
Qed.

(** Only tasks that render have a file on the disk. *)
Lemma writers_good good slots :
  Forall (slot_fits good) slots →
  writers good slots ⊆+ filter (λ t, good t = true) (Prerender.slot_task <$> slots).
Proof.
  intros Hfits. unfold writers. rewrite filter_fmap.
  apply fmap_submseteq, sublist_submseteq, filter_sublist_impl.
  intros [task phase] Hin Hwritten. rewrite Forall_forall in Hfits.
  specialize (Hfits _ Hin). unfold slot_fits in Hfits. simpl in *.
  by destruct phase as [[?|?]|? [|]|? [|]|].
Qed.

Lemma all_settled_writers good slots :
  Forall (λ slot, Prerender.is_settled (Prerender.slot_phase slot) = true) slots →
  writers good slots = filter (λ t, good t = true) (Prerender.slot_task <$> slots).
Proof.
  intros Hall. unfold writers. rewrite filter_fmap. f_equal.
  induction Hall as [|[task phase] slots Hphase _ IH]; [done|].
  simpl in Hphase. destruct phase; try done. simpl.
  destruct (good task) eqn:Hgood.
  - rewrite !filter_cons_True by (simpl; by rewrite ?Hgood). by rewrite IH.
  - by rewrite !filter_cons_False by (simpl; by rewrite ?Hgood).
Qed.

(** The tasks of a wave start in phases that fit their classes. *)
Lemma dispatch_classified w routeChunk e good :
  classified Inv w good routeChunk →
  Inv e →
  Forall (slot_fits good) (Prerender.dispatch w routeChunk e).1 ∧
  Inv (Prerender.dispatch w routeChunk e).2.
Proof.
  revert e. induction routeChunk as [|task routeChunk IH]; intros e Hclass Hinv.
  - by split.
  - simpl. pose proof (Hclass task ltac:(by left)) as Htask.
    assert (Hrender :
      Inv (task_render w (Prerender.ex_path task) e).2 ∧
      phase_fits (good task)
        (Prerender.Rendering (task_render w (Prerender.ex_path task) e).1)).
    { destruct (good task).
      - destruct (Htask e Hinv) as (r & e' & -> & H200 & Hinv'). by split.
      - destruct (Htask e Hinv) as [Hinv' Hout]. split; [done|]. simpl.
        by destruct (task_render w (Prerender.ex_path task) e).1. }
    unfold task_render in Hrender.
    destruct (Engine.render _ _ _) as [rendered e']. simpl in Hrender.
    destruct Hrender as [Hinv' Hfit].
    destruct (IH e') as [Hfits Hinv'']; [|done|].
    { intros t Ht. apply Hclass. by right. }
    destruct (Prerender.dispatch w routeChunk e') as [slots e'']. simpl in *.
    split; [|done]. by constructor.
Qed.

Lemma dispatch_writers w routeChunk e good :
  writers good (Prerender.dispatch w routeChunk e).1 = [].
Proof.
  unfold writers. rewrite filter_none; [done|].
  intros slot Hslot.
  pose proof (dispatch_rendering w routeChunk e) as Hall.
  rewrite Forall_forall in Hall. by destruct (Hall slot Hslot) as [rendered ->].
Qed.

(** ** A wave of classified tasks *)

(** What the caller finds when a wave of classified tasks settles, when
    no file operation fails: the tasks [order] have settled, among them
    every task of the wave unless the wave rejects; the tasks [wrote],
    which render, have their files on the disk, among them every settled
    task that renders.  The wave rejects only if a task that fails has
    settled, and it does reject then when the error callback always asks
    to stop. *)
Lemma run_wave_classified w options total routeChunk acc acc' rejected good :
  Prerender.run_wave w options total routeChunk acc = (acc', rejected) →
  classified Inv w good routeChunk →
  Inv (Prerender.st_engine acc.2) →
  (∀ p, Prerender.mkdir_error w p = None) →
  (∀ p, Prerender.writeFile_error w p = None) →
  ∃ order rs ws wrote,
    carried_out options total good acc acc' order rs ws wrote ∧
    order ⊆+ routeChunk ∧
    filter (λ t, good t = true) order ⊆+ wrote ∧
    wrote ⊆+ filter (λ t, good t = true) routeChunk ∧
    (rejected = None →
     order ≡ₚ routeChunk ∧ wrote ≡ₚ filter (λ t, good t = true) routeChunk) ∧
    Inv (Prerender.st_engine acc'.2) ∧
    (is_Some rejected → ∃ t, t ∈ order ∧ good t = false) ∧
    (always_stops options → (∃ t, t ∈ order ∧ good t = false) → is_Some rejected).
Proof.
  unfold Prerender.run_wave. intros Hwave Hclass Hinv Hmk Hwr.
  pose proof (dispatch_tasks w routeChunk (Prerender.st_engine acc.2)) as Htasks.
  pose proof (dispatch_settled w routeChunk (Prerender.st_engine acc.2)) as Hnone.
  pose proof (dispatch_writers w routeChunk (Prerender.st_engine acc.2) good) as Hnow.
  destruct (dispatch_classified w routeChunk _ good Hclass Hinv) as [Hfits Hinv0].
  destruct (Prerender.dispatch w routeChunk _) as [slots e].
  cbn [fst snd] in Htasks, Hnone, Hnow, Hfits, Hinv0.
  set (started := (acc.1, _)) in Hwave.
  assert (Hstart : ∀ acc1 order rs ws wrote,
    carried_out options total good started acc1 order rs ws wrote →
    carried_out options total good acc acc1 order rs ws wrote).
  { intros acc1 order rs ws wrote Hout. exact Hout. }
  assert (Hsummary : ∀ slots' order wrote,
    Prerender.slot_task <$> slots' = routeChunk →
    Forall (slot_fits good) slots' →
    settled slots' ≡ₚ order →
    writers good slots' ≡ₚ wrote →
    order ⊆+ routeChunk ∧
    filter (λ t, good t = true) order ⊆+ wrote ∧
    wrote ⊆+ filter (λ t, good t = true) routeChunk).
  { intros slots' order wrote <- Hfits' <- <-. split_and!.
    - unfold settled. apply fmap_submseteq, sublist_submseteq, sublist_filter.
    - apply settled_good_writers.
    - by apply writers_good. }
  destruct (Prerender.run_turns _ _ _ _ _ _ _) as [[slots1 acc1] rejected1] eqn:Hturns.
  destruct (run_turns_classified _ _ _ _ _ _ _ _ _ _ good Hturns Hfits Hmk Hwr)
    as (order1 & rs1 & ws1 & wrote1 & Hout1 & Hset1 & Hwri1 & Htasks1 & Hfits1 & He1 &
        Hthrown1 & Hstop1).
  rewrite Hnone in Hset1. rewrite Hnow in Hwri1. simpl in Hset1, Hwri1. simpl in He1.
  rewrite Htasks in Htasks1.
  destruct rejected1 as [err|].
  - injection Hwave as <- <-. exists order1, rs1, ws1, wrote1.
    destruct (Hsummary slots1 order1 wrote1) as (H1 & H2 & H3); [done..|].
    split_and!; [by apply Hstart|done|done|done|done|by rewrite He1| |].
    + intros Hsome. by destruct (Hthrown1 Hsome) as [[? [=]]|?].
    + intros _ _. by eexists.
  - destruct (Prerender.run_to_rejection _ _ _ _ _ _) as [[slots2 acc2] rejected2] eqn:Hrest.
    injection Hwave as <- <-.
    destruct (run_to_rejection_classified _ _ _ _ _ _ _ _ _ good Hrest Hfits1 Hmk Hwr)
      as (order2 & rs2 & ws2 & wrote2 & Hout2 & Hset2 & Hwri2 & Htasks2 & Hfits2 & He2 &
          Hthrown2 & Hstop2).
    rewrite Htasks1 in Htasks2. rewrite Hset1 in Hset2. rewrite Hwri1 in Hwri2.
    exists (order1 ++ order2), (rs1 ++ rs2), (ws1 ++ ws2), (wrote1 ++ wrote2).
    destruct (Hsummary slots2 (order1 ++ order2) (wrote1 ++ wrote2)) as (H1 & H2 & H3);
      [done..|].
    split_and!; [apply Hstart; by eapply carried_out_trans|done|done|done| |
                 by rewrite He2, He1| |].
    + intros ->.
      replace (length routeChunk) with (length slots1) in Hrest
        by (by rewrite <- Htasks1, length_fmap).
      pose proof (run_to_rejection_all_settled _ _ _ _ _ _ _ Hrest) as Hall.
      rewrite <- Hset2, <- Hwri2, (all_settled _ Hall), (all_settled_writers _ _ Hall).
      by rewrite Htasks2.
    + intros Hsome. destruct (Hthrown2 Hsome) as (t & Ht & Hbad).
      exists t. split; [|done]. apply elem_of_app. by right.
    + intros Hall (t & [Ht|Ht]%elem_of_app & Hbad).
      * destruct (Hstop1 Hall) as [? ?]; [right; by exists t|done].
      * apply Hstop2; [done|]. by exists t.
Qed.

Lemma classified_app w good tasks1 tasks2 :
  classified Inv w good (tasks1 ++ tasks2) ↔
  classified Inv w good tasks1 ∧ classified Inv w good tasks2.
Proof.
  unfold classified. split.
  - intros Hall. split; intros task Htask; apply Hall, elem_of_app; [by left|by right].
  - intros [H1 H2] task [?|?]%elem_of_app; [by apply H1|by apply H2].
Qed.

(** ** The waves of classified tasks *)

(** When the error callback never asks to stop and no file operation
    fails, the waves all resolve: every task has settled, and the files
    written are those of the tasks that render. *)
Lemma run_waves_classified w options total chunks acc good :
  never_stops options →
  classified Inv w good (concat chunks) →
  Inv (Prerender.st_engine acc.2) →
  (∀ p, Prerender.mkdir_error w p = None) →
  (∀ p, Prerender.writeFile_error w p = None) →
  ∃ tally st order rs ws wrote,
    Prerender.run_waves w options total chunks acc = (Js.Returned tally, st) ∧
    carried_out options total good acc (tally, st) order rs ws wrote ∧
    order ≡ₚ concat chunks ∧
    wrote ≡ₚ filter (λ t, good t = true) (concat chunks).
Proof.
  intros Hgo Hclass Hinv Hmk Hwr. revert acc Hinv.
  induction chunks as [|routeChunk chunks IH]; intros acc Hinv.
  - exists acc.1, acc.2, [], [], [], []. split; [done|]. split; [|done].
    destruct acc. apply carried_out_refl.
  - simpl in Hclass. apply classified_app in Hclass as [Hfirst Hrest]. simpl.
    destruct (Prerender.run_wave w options total routeChunk acc)
      as [acc1 rejected] eqn:Hwave.
    destruct (run_wave_bookkeeping _ _ _ _ _ _ _ Hwave) as (_ & _ & _ & _ & _ & Hnone).
    rewrite (Hnone Hgo) in Hwave |- *.
    destruct (run_wave_classified _ _ _ _ _ _ _ good Hwave Hfirst Hinv Hmk Hwr)
      as (order1 & rs1 & ws1 & wrote1 & Hout1 & _ & _ & _ & Hall & Hinv1 & _).
    destruct (Hall eq_refl) as [Horder1 Hwrote1].
    destruct (IH Hrest acc1 Hinv1)
      as (tally & st & order2 & rs2 & ws2 & wrote2 & -> & Hout2 & Horder2 & Hwrote2).
    exists tally, st, (order1 ++ order2), (rs1 ++ rs2), (ws1 ++ ws2), (wrote1 ++ wrote2).
    split; [done|]. split; [by eapply carried_out_trans|].
    by rewrite filter_app, Horder1, Horder2, Hwrote1, Hwrote2.
Qed.

(** When the error callback always asks to stop, the waves end with the
    first wave that holds a task that fails: the waves [before] it are
    carried out in full, of the wave [bad] the tasks [ran] have settled
    and the tasks [landed] have their files on the disk when the caller
    resumes, and no later wave is started. *)
Lemma run_waves_stop w options total before bad after acc good :
  always_stops options →
  classified Inv w good (concat before ++ bad) →
  (∀ task, task ∈ concat before → good task = true) →
  (∃ task, task ∈ bad ∧ good task = false) →
  Inv (Prerender.st_engine acc.2) →
  (∀ p, Prerender.mkdir_error w p = None) →
  (∀ p, Prerender.writeFile_error w p = None) →
  ∃ err tally st order rs ws wrote ran landed,
    Prerender.run_waves w options total (before ++ bad :: after) acc = (Js.Thrown err, st) ∧
    carried_out options total good acc (tally, st) order rs ws wrote ∧
    order ≡ₚ concat before ++ ran ∧
    wrote ≡ₚ filter (λ t, good t = true) (concat before) ++ landed ∧
    ran ⊆+ bad ∧
    (∃ task, task ∈ ran ∧ good task = false) ∧
    landed ⊆+ filter (λ t, good t = true) bad ∧
    filter (λ t, good t = true) ran ⊆+ landed.
Proof.
  intros Hstop Hclass Hgood Hbad Hinv Hmk Hwr. revert acc Hinv.
  induction before as [|routeChunk before IH]; intros acc Hinv.
  - cbn [app concat Prerender.run_waves]. simpl in Hclass.
    destruct (Prerender.run_wave w options total bad acc) as [acc1 rejected] eqn:Hwave.
    destruct (run_wave_classified _ _ _ _ _ _ _ good Hwave Hclass Hinv Hmk Hwr)
      as (ran & rs & ws & landed & Hout & Hran & Hlanded & Hsub & Hall & _ & Hcause & Hrej).
    destruct rejected as [err|].
    + destruct acc1 as [tally st]. exists err, tally, st, ran, rs, ws, landed, ran, landed.
      split_and!; [done..| |done|done]. apply Hcause. by eexists.
    + exfalso. destruct (Hall eq_refl) as [Hperm _].
      destruct Hrej as [? ?]; [done| |done].
      destruct Hbad as (task & Htask & Hb). exists task. by rewrite Hperm.
  - cbn [app concat Prerender.run_waves]. simpl in Hclass. rewrite <- app_assoc in Hclass.
    apply classified_app in Hclass as [Hfirst Hrest].
    destruct (Prerender.run_wave w options total routeChunk acc)
      as [acc1 rejected] eqn:Hwave.
    destruct (run_wave_classified _ _ _ _ _ _ _ good Hwave Hfirst Hinv Hmk Hwr)
      as (order1 & rs1 & ws1 & wrote1 & Hout1 & Hsub1 & _ & _ & Hall & Hinv1 & Hcause & _).
    destruct rejected as [err|].
    { exfalso. destruct Hcause as (t & Ht & Hb); [by eexists|].
      rewrite Hgood in Hb; [done|]. simpl. apply elem_of_app. left.
      by eapply elem_of_submseteq. }
    destruct (Hall eq_refl) as [Horder1 Hwrote1].
    destruct (IH Hrest ltac:(intros t Ht; apply Hgood; simpl; apply elem_of_app; by right)
                acc1 Hinv1)
      as (err & tally & st & order2 & rs2 & ws2 & wrote2 & ran & landed & -> & Hout2 &
          Horder2 & Hwrote2 & Hran & Hfails & Hlanded & Hsettled).
    exists err, tally, st, (order1 ++ order2), (rs1 ++ rs2), (ws1 ++ ws2), (wrote1 ++ wrote2),
      ran, landed.
    split; [done|]. split; [by eapply carried_out_trans|].
    split_and!; [|simpl|done..].
    + simpl. by rewrite Horder1, Horder2, app_assoc.
    + by rewrite filter_app, Hwrote1, Hwrote2, app_assoc.
Qed.
End ClassifiedTurns.


(** ** The prerenderer: the whole call *)

Section PrerenderCall.
Implicit Types (w : Prerender.World) (options : Prerender.PrerenderOptions).
Implicit Types (d : Prerender.Disk) (r : Prerender.RouteRecord).

Lemma hrefs_resolve w routes base :
  (∀ route, route ∈ routes → is_Some (Prerender.URL_href w route base)) →
  ∃ locs, Prerender.hrefs w routes base = Js.Returned locs ∧
          Forall2 (λ route loc, Prerender.URL_href w route base = Some loc) routes locs.
Proof.
  induction routes as [|route routes IH]; intros Hall.
  - exists []. by split.
  - destruct (Hall route ltac:(by left)) as [loc Hloc].
    destruct (IH ltac:(intros x Hx; apply Hall; by right)) as (locs & Hlocs & Hrel).
    exists (loc :: locs). simpl. rewrite Hloc, Hlocs. split; [done|]. by constructor.
Qed.

(** The start of the call, up to the waves, when nothing goes wrong there
    and the concurrency is valid. *)
Lemma prerender_reaches_waves fuel w options d e expanded :
  Prerender.choose_engine w options = Js.Returned e →
  Prerender.expand_all (Prerender.routes options) = Js.Returned expanded →
  Prerender.mkdir_error w (Prerender.outputDir options) = None →
  (∀ c, Prerender.concurrency options = Some c → 1 ≤ c) →
  (length expanded < fuel)%nat →
  ∃ chunks d0,
    concat chunks = expanded ∧
    Prerender.written d0 = Prerender.written d ∧
    Prerender.prerenderRoutes fuel w options d =
      let total := Z.of_nat (length expanded) in
      let start :=
        ({| Prerender.tally_success := 0; Prerender.tally_failed := 0;
            Prerender.tally_routes := []; Prerender.completed := 0 |},
         {| Prerender.st_engine := e; Prerender.disk := d0; Prerender.progress := [] |}) in
      match Prerender.run_waves w options total chunks start with
      | (Js.Thrown err, st) => Some (Js.Thrown err, Prerender.disk st, Prerender.progress st)
      | (Js.Returned tally, st) =>
          match Prerender.write_sitemap w options tally (Prerender.disk st) with
          | (Js.Thrown err, d1) => Some (Js.Thrown err, d1, Prerender.progress st)
          | (Js.Returned _, d1) =>
              Some (Js.Returned
                      {| Prerender.total := total;
                         Prerender.success := Prerender.tally_success tally;
                         Prerender.failed := Prerender.tally_failed tally;
                         Prerender.result_routes := Prerender.tally_routes tally |},
                    d1, Prerender.progress st)
          end
      end.
Proof.
  intros He Hexp Hmk Hc Hfuel.
  destruct (chunk_concat fuel expanded (default 5 (Prerender.concurrency options)))
    as (chunks & Hchunk & Hconcat); [|done|].
  { destruct (Prerender.concurrency options) as [c|]; simpl; [by apply Hc|lia]. }
  unfold Prerender.prerenderRoutes. rewrite He, Hexp.
  unfold Prerender.mkdir. rewrite Hmk.
  destruct (Prerender.disk_exists d (Prerender.outputDir options));
    rewrite Hchunk; eexists chunks, _; (split; [done|]); (split; [|done]); done.
Qed.
End PrerenderCall.

Section PartialFailure.
Implicit Types (w : Prerender.World) (options : Prerender.PrerenderOptions).

Lemma Forall2_record_of_task options good tasks rs task :
  Forall2 (record_fits options good) tasks rs → task ∈ tasks →
  ∃ r, r ∈ rs ∧ record_fits options good task r.
Proof.
  intros Hfits [i Hi]%list_elem_of_lookup.
  destruct (Forall2_lookup_l _ _ _ _ _ Hfits Hi) as (r & Hr & Hfit).
  exists r. split; [|done]. apply list_elem_of_lookup. eauto.
Qed.

Lemma Forall2_task_of_record options good tasks rs r :
  Forall2 (record_fits options good) tasks rs → r ∈ rs →
  ∃ task, task ∈ tasks ∧ record_fits options good task r.
Proof.
  intros Hfits [i Hi]%list_elem_of_lookup.
  destruct (Forall2_lookup_r _ _ _ _ _ Hfits Hi) as (task & Htask & Hfit).
  exists task. split; [|done]. apply list_elem_of_lookup. eauto.
Qed.

(** C8. Routes [/a], [/b], [/c]; rendering [/b] always fails, [/a] and
    [/c] always render with status 200 (from the engine states the batch
    can reach, described by [Inv]); the error callback returns true;
    the concurrency is valid and there is enough fuel for the chunking
    loop; no directory or file operation fails and the sitemap urls
    resolve.  Then, whatever the order in which the tasks of a wave
    take their turns, [prerenderRoutes] returns a result with total 3,
    success 2 and failed 1; there is a record for [/b], and every record
    for [/b] has [success = false] and an error message; the files
    written are the output files of [/a] and [/c] (in some order) and,
    after them, at most the sitemap. *)
Theorem prerender_partial_failure (Inv : Engine.BunAngularEngine → Prop)
    fuel w options d e callback :
  Prerender.routes options =
    [Prerender.Literal "/a"; Prerender.Literal "/b"; Prerender.Literal "/c"] →
  Prerender.choose_engine w options = Js.Returned e →
  (∀ c, Prerender.concurrency options = Some c → 1 ≤ c) →
  (3 < fuel)%nat →
  Prerender.onError options = Some callback →
  (∀ err route, callback err route = true) →
  Inv e →
  render_ok Inv w "/a" → render_fails Inv w "/b" → render_ok Inv w "/c" →
  (∀ p, Prerender.mkdir_error w p = None) →
  (∀ p, Prerender.writeFile_error w p = None) →
  (∀ route, route ∈ ["/a"; "/c"] →
     is_Some (Prerender.URL_href w route
                (default "http://localhost" (Prerender.baseUrl options)))) →
  ∃ res d' reports,
    Prerender.prerenderRoutes fuel w options d = Some (Js.Returned res, d', reports) ∧
    Prerender.total res = 3 ∧
    Prerender.success res = 2 ∧
    Prerender.failed res = 1 ∧
    (∃ r, r ∈ Prerender.result_routes res ∧ Prerender.rec_path r = "/b") ∧
    (∀ r, r ∈ Prerender.result_routes res → Prerender.rec_path r = "/b" →
       Prerender.rec_success r = false ∧ is_Some (Prerender.rec_error r)) ∧
    ∃ ws sm,
      Prerender.written d' = Prerender.written d ++ ws ++ sm ∧
      ws.*1 ≡ₚ [output_file options "/a"; output_file options "/c"] ∧
      (sm = [] ∨ ∃ xml, sm = [(sitemap_file options, xml)]).
Proof.
  intros Hroutes He Hc Hfuel Hcb Htrue Hinv Ha Hb Hcc Hmk Hwr Hurl.
  set (ta := {| Prerender.ex_path := "/a";
                Prerender.ex_outputPath := Prerender.pathToOutputFile "/a" |}).
  set (tb := {| Prerender.ex_path := "/b";
                Prerender.ex_outputPath := Prerender.pathToOutputFile "/b" |}).
  set (tc := {| Prerender.ex_path := "/c";
                Prerender.ex_outputPath := Prerender.pathToOutputFile "/c" |}).
  assert (Hexp : Prerender.expand_all (Prerender.routes options) = Js.Returned [ta; tb; tc])
    by (by rewrite Hroutes).
  assert (Hgo : never_stops options) by (unfold never_stops; by rewrite Hcb).
  destruct (prerender_reaches_waves fuel w options d e [ta; tb; tc] He Hexp (Hmk _) Hc Hfuel)
    as (chunks & d0 & Hconcat & Hd0 & ->).
  cbv zeta.
  set (good := λ t : Prerender.ExpandedRoute, bool_decide (Prerender.ex_path t ≠ "/b")).
  fold (start_of e d0).
  destruct (run_waves_classified Inv w options (Z.of_nat (length [ta; tb; tc])) chunks
              (start_of e d0) good)
    as (tally & st & tasks & rs & ws & wrote & -> & (Hbook & Hfits & Hwritten & Hws) &
        Htasks & Hwrote); [done| |done|done|done|].
  { rewrite Hconcat. intros t Ht.
    apply elem_of_cons in Ht as [->|Ht]; [exact Ha|].
    apply elem_of_cons in Ht as [->|Ht]; [exact Hb|].
    apply list_elem_of_singleton in Ht as ->. exact Hcc. }
  rewrite Hconcat in Htasks, Hwrote.
  destruct Hbook as (Hrs & _ & Hsucc & Hfail & _ & _).
  destruct (record_fits_counts options good tasks rs Hfits) as [Hcount1 Hcount2].
  rewrite Hcount1 in Hsucc. rewrite Hcount2 in Hfail.
  assert (Hgood_tasks : filter (λ t, good t = true) tasks ≡ₚ [ta; tc]).
  { rewrite Htasks. done. }
  assert (Hbad_tasks : filter (λ t, good t ≠ true) tasks ≡ₚ [tb]).
  { rewrite Htasks. done. }
  rewrite Hgood_tasks in Hsucc. rewrite Hbad_tasks in Hfail.
  simpl in Hsucc, Hfail, Hrs, Hwritten.
  assert (Hsuccessful : ∀ route,
    route ∈ Prerender.rec_path <$>
      filter (λ r, Prerender.rec_success r = true) (Prerender.tally_routes tally) →
    route ∈ ["/a"; "/c"]).
  { intros route (r & -> & [Hr_ok Hr]%list_elem_of_filter)%list_elem_of_fmap.
    rewrite Hrs in Hr.
    destruct (Forall2_task_of_record _ _ _ _ _ Hfits Hr) as (t & Ht & Hp & _ & Hs & _).
    rewrite Hr_ok in Hs. rewrite Hp.
    assert (t ∈ filter (λ t, good t = true) tasks) as Hin
      by (by apply list_elem_of_filter).
    rewrite Hgood_tasks in Hin.
    apply elem_of_cons in Hin as [->|Hin]; [by left|].
    apply list_elem_of_singleton in Hin as ->. right. by left. }
  assert (Hsitemap : ∃ d' sm,
    Prerender.write_sitemap w options tally (Prerender.disk st) = (Js.Returned tt, d') ∧
    Prerender.written d' = Prerender.written (Prerender.disk st) ++ sm ∧
    (sm = [] ∨ ∃ xml, sm = [(sitemap_file options, xml)])).
  { unfold Prerender.write_sitemap.
    destruct (_ && _); [|exists (Prerender.disk st), []; by rewrite app_nil_r; eauto].
    unfold Prerender.generateSitemap_xml.
    destruct (hrefs_resolve w _ _ ltac:(intros route Hr; apply Hurl, Hsuccessful, Hr))
      as (locs & -> & _).
    unfold Prerender.writeFile. rewrite Hwr. do 2 eexists. simpl. eauto. }
  destruct Hsitemap as (d' & sm & -> & Hd' & Hsm).
  do 3 eexists. split; [done|]. simpl. split; [done|]. split; [lia|]. split; [lia|].
  rewrite Hrs. split_and!.
  - destruct (Forall2_record_of_task options good tasks rs tb Hfits) as (r & Hr & Hp & _).
    { rewrite Htasks. right. by left. }
    by exists r.
  - intros r Hr Hpath.
    destruct (Forall2_task_of_record _ _ _ _ _ Hfits Hr) as (t & Ht & Hp & _ & Hs & Herr).
    assert (good t = false) as Hbad.
    { unfold good. apply bool_decide_eq_false_2. rewrite <- Hp, Hpath. by intros ?. }
    rewrite Hbad in Hs, Herr. done.
  - exists ws, sm. rewrite Hd', Hwritten, Hd0, <- app_assoc. split; [done|].
    split; [|done]. rewrite Hws, Hwrote. done.
Qed.
End PartialFailure.

Section Sitemap.
Implicit Types (w : Prerender.World) (options : Prerender.PrerenderOptions).

(** C9. When the call gets through (valid concurrency, enough fuel, an
    error callback that never stops the batch), sitemap generation is
    requested and the urls resolve: [success] counts the successful
    records, and if at least one task succeeded the last file written is
    [sitemap.xml] in the output directory.  Its text is the XML
    declaration, the opening [urlset] tag, one [url] element per
    successful path, in the order of the records, with the path resolved
    against the base url as its [loc] and [weekly] as its [changefreq],
    and the closing tag, each on lines of their own. *)
Theorem prerender_sitemap fuel w options d e expanded :
  Prerender.choose_engine w options = Js.Returned e →
  Prerender.expand_all (Prerender.routes options) = Js.Returned expanded →
  (∀ c, Prerender.concurrency options = Some c → 1 ≤ c) →
  (length expanded < fuel)%nat →
  never_stops options →
  Prerender.mkdir_error w (Prerender.outputDir options) = None →
  Prerender.writeFile_error w (sitemap_file options) = None →
  default true (Prerender.generateSitemap options) = true →
  let base := default "http://localhost" (Prerender.baseUrl options) in
  (∀ task, task ∈ expanded →
     is_Some (Prerender.URL_href w (Prerender.ex_path task) base)) →
  ∃ res d' reports,
    Prerender.prerenderRoutes fuel w options d = Some (Js.Returned res, d', reports) ∧
    Prerender.success res = Z.of_nat (length (successful_routes res)) ∧
    (0 < Prerender.success res →
     ∃ locs,
       Forall2 (λ route loc, Prerender.URL_href w route base = Some loc)
         (successful_routes res) locs ∧
       last (Prerender.written d') =
         Some (sitemap_file options,
               "<?xml version=" +:+ Str.dq +:+ "1.0" +:+ Str.dq +:+
               " encoding=" +:+ Str.dq +:+ "UTF-8" +:+ Str.dq +:+ "?>" +:+ StrMore.nl +:+
               "<urlset xmlns=" +:+ Str.dq +:+
               "http://www.sitemaps.org/schemas/sitemap/0.9" +:+ Str.dq +:+ ">" +:+
               StrMore.nl +:+
               Str.join_with StrMore.nl
                 ((λ loc,
                     "  <url>" +:+ StrMore.nl +:+
                     "    <loc>" +:+ loc +:+ "</loc>" +:+ StrMore.nl +:+
                     "    <changefreq>weekly</changefreq>" +:+ StrMore.nl +:+
                     "  </url>") <$> locs) +:+
               StrMore.nl +:+ "</urlset>")).
Proof.
  intros He Hexp Hc Hfuel Hgo Hmk Hwr Hreq base Hurl.
  destruct (prerender_reaches_waves fuel w options d e expanded He Hexp Hmk Hc Hfuel)
    as (chunks & d0 & Hconcat & Hd0 & ->).
  cbv zeta. fold (start_of e d0).
  destruct (run_waves_never_stops w options (Z.of_nat (length expanded)) chunks
              (start_of e d0) Hgo) as (tally & st & Hwaves).
  rewrite Hwaves.
  destruct (run_waves_bookkeeping _ _ _ _ _ _ _ Hwaves)
    as (tasks & rs & (Hrs & Hpaths & Hsucc & _) & Htasks).
  rewrite Hconcat in Htasks. simpl in Hrs, Hsucc.
  assert (Hresolve : ∀ route,
    route ∈ Prerender.rec_path <$>
      filter (λ r, Prerender.rec_success r = true) (Prerender.tally_routes tally) →
    is_Some (Prerender.URL_href w route base)).
  { intros route (r & -> & [_ Hr]%list_elem_of_filter)%list_elem_of_fmap.
    rewrite Hrs in Hr.
    assert (Prerender.rec_path r ∈ Prerender.ex_path <$> tasks) as Hin.
    { rewrite <- Hpaths. by apply list_elem_of_fmap_2. }
    apply list_elem_of_fmap in Hin as (task & -> & Htask).
    apply Hurl. by rewrite <- Htasks. }
  unfold Prerender.write_sitemap. rewrite Hreq. simpl andb.
  destruct (0 <? Prerender.tally_success tally) eqn:Hpos.
  - unfold Prerender.generateSitemap_xml. fold base.
    destruct (hrefs_resolve w _ base Hresolve) as (locs & -> & Hlocs).
    unfold Prerender.writeFile. fold (sitemap_file options). rewrite Hwr.
    do 3 eexists. split; [done|]. unfold successful_routes. simpl.
    split; [rewrite length_fmap, Hsucc, Hrs; lia|]. intros _. exists locs. split; [done|].
    by rewrite last_snoc.
  - do 3 eexists. split; [done|]. unfold successful_routes. simpl.
    split; [rewrite length_fmap, Hsucc, Hrs; lia|]. apply Z.ltb_ge in Hpos. lia.
Qed.
End Sitemap.

(** ** The examples: renders of the demo engine *)

Section DemoRenders.

(** A render that skips the cache, on an engine with its template loaded. *)
Lemma render_skip_cache (w : Engine.World) url (e : Engine.BunAngularEngine) parsed :
  Engine.URL_parse w url = Some parsed →
  template_loaded e →
  Engine.render w {| Engine.url := url; Engine.document := None;
                     Engine.skipCache := Some true |} e =
  (Js.Returned
     match Engine.renderApplication w (default EmptyString (Engine.indexHtmlContent e))
             (parsed.1 +:+ parsed.2) with
     | Js.Returned text =>
         {| Engine.html := text; Engine.status := 200;
            Engine.headers := {[ "Content-Type" := "text/html; charset=utf-8";
                                 "X-Rendered-By" := "bun-angular-ssr" ]};
            Engine.fromCache := false |}
     | Js.Thrown err =>
         {| Engine.html := Engine.renderErrorPage w (Js.message_of err);
            Engine.status := 500;
            Engine.headers := {[ "Content-Type" := "text/html; charset=utf-8" ]};
            Engine.fromCache := false |}
     end, e).
Proof.
  intros Hparse Hloaded. unfold template_loaded in Hloaded.
  unfold Engine.render, Engine.getCacheKey. cbn [Engine.url Engine.document].
  rewrite Hparse. destruct parsed as [p s].
  unfold Engine.bind at 1. unfold Engine.lift at 1. unfold Engine.bind at 1.
  replace (Engine.check_cache w _ (p +:+ s) e) with (Js.Returned (@None Engine.CacheEntry), e)
    by (unfold Engine.check_cache; by destruct (Engine.cache e)).
  unfold Engine.try_catch, Engine.bind at 1.
  replace (Engine.getDocument w _ e)
    with (Js.Returned (default EmptyString (Engine.indexHtmlContent e)), e).
  2:{ unfold Engine.getDocument. cbn [Engine.truthy]. unfold Engine.bind.
      rewrite Hloaded. unfold Engine.ret. by rewrite Hloaded. }
  unfold Engine.bind at 1. unfold Engine.lift at 1.
  unfold Engine.bind at 1. unfold Engine.lift at 1. cbn [fst snd].
  destruct (Engine.renderApplication w _ (p +:+ s)) as [text|err]; [|done].
  unfold Engine.bind, Engine.populate_cache, Engine.ret. simpl.
  by destruct (Engine.cache e).
Qed.

Lemma demo_render_ok order route text :
  DemoEngine.parse_path_and_query route = Some (route, EmptyString) →
  (∀ document, DemoEngine.renderer document route = Js.Returned text) →
  render_ok template_loaded (DemoPrerender.world order) route.
Proof.
  intros Hparse Hrender e He. unfold task_render.
  cbn [Prerender.engine_world DemoPrerender.world].
  rewrite (render_skip_cache DemoEngine.world route e (route, EmptyString)) by done.
  simpl. rewrite string_app_nil_r, Hrender. by do 2 eexists.
Qed.

Lemma demo_render_fails order route err :
  DemoEngine.parse_path_and_query route = Some (route, EmptyString) →
  (∀ document, DemoEngine.renderer document route = Js.Thrown err) →
  render_fails template_loaded (DemoPrerender.world order) route.
Proof.
  intros Hparse Hrender e He. unfold task_render.
  cbn [Prerender.engine_world DemoPrerender.world].
  rewrite (render_skip_cache DemoEngine.world route e (route, EmptyString)) by done.
  simpl. rewrite string_app_nil_r, Hrender. by split.
Qed.
End DemoRenders.

Lemma prerender_partial_failure_witness :
  let w := DemoPrerender.world DemoPrerender.last_first in
  let options := DemoPrerender.options ["/a"; "/b"; "/c"] "https://example.com" (Some 2) in
  let d := DemoPrerender.empty_disk in
  Prerender.routes options =
    [Prerender.Literal "/a"; Prerender.Literal "/b"; Prerender.Literal "/c"] ∧
  Prerender.choose_engine w options = Js.Returned DemoEngine.engine ∧
  (∀ c, Prerender.concurrency options = Some c → 1 ≤ c) ∧
  (3 < 10)%nat ∧
  Prerender.onError options = Some (λ _ _, true) ∧
  (∀ (err : Js.exn) (route : string), (λ _ _, true) err route = true) ∧
  template_loaded DemoEngine.engine ∧
  render_ok template_loaded w "/a" ∧
  render_fails template_loaded w "/b" ∧
  render_ok template_loaded w "/c" ∧
  (∀ p, Prerender.mkdir_error w p = None) ∧
  (∀ p, Prerender.writeFile_error w p = None) ∧
  (∀ route, route ∈ ["/a"; "/c"] →
     is_Some (Prerender.URL_href w route
                (default "http://localhost" (Prerender.baseUrl options)))) ∧
  ∃ res d' reports,
    Prerender.prerenderRoutes 10 w options d = Some (Js.Returned res, d', reports) ∧
    Prerender.total res = 3 ∧
    Prerender.success res = 2 ∧
    Prerender.failed res = 1 ∧
    (∃ r, r ∈ Prerender.result_routes res ∧ Prerender.rec_path r = "/b") ∧
    (∀ r, r ∈ Prerender.result_routes res → Prerender.rec_path r = "/b" →
       Prerender.rec_success r = false ∧ is_Some (Prerender.rec_error r)) ∧
    ∃ ws sm,
      Prerender.written d' = Prerender.written d ++ ws ++ sm ∧
      ws.*1 ≡ₚ [output_file options "/a"; output_file options "/c"] ∧
      (sm = [] ∨ ∃ xml, sm = [(sitemap_file options, xml)]).
Proof.
  intros w options d.
  assert (H3 : ∀ c, Prerender.concurrency options = Some c → 1 ≤ c)
    by (intros c [= <-]; lia).
  assert (Ha : render_ok template_loaded w "/a")
    by (by apply (demo_render_ok DemoPrerender.last_first "/a" "<html>/a</html>")).
  assert (Hb : render_fails template_loaded w "/b")
    by (by apply (demo_render_fails DemoPrerender.last_first "/b" (Js.Error "boom"))).
  assert (Hc : render_ok template_loaded w "/c")
    by (by apply (demo_render_ok DemoPrerender.last_first "/c" "<html>/c</html>")).
  assert (Hurl : ∀ route, route ∈ ["/a"; "/c"] →
     is_Some (Prerender.URL_href w route
                (default "http://localhost" (Prerender.baseUrl options)))).
  { intros route [->|[->|[]%elem_of_nil]%elem_of_cons]%elem_of_cons; by eexists. }
  split_and!; [reflexivity | reflexivity | exact H3 | lia | reflexivity | done
              | reflexivity | exact Ha | exact Hb | exact Hc | done | done | exact Hurl |].
  apply (prerender_partial_failure template_loaded 10 w options d DemoEngine.engine
           (λ _ _, true)); first [done | lia].
Defined.

(** The partial failure scenario, run. *)
Example prerender_partial_failure_run :
  (λ out, match out with
          | Some (Js.Returned res, d', _) =>
              Some (Prerender.total res, Prerender.success res, Prerender.failed res,
                    (λ r, (Prerender.rec_path r, Prerender.rec_success r, Prerender.rec_error r))
                      <$> Prerender.result_routes res,
                    (Prerender.written d').*1)
          | _ => None
          end)
    (Prerender.prerenderRoutes 10 (DemoPrerender.world DemoPrerender.last_first)
       (DemoPrerender.options ["/a"; "/b"; "/c"] "https://example.com" (Some 2))
       DemoPrerender.empty_disk)
  = Some (3, 2, 1,
          [("/b", false, Some "Render returned status 500"); ("/a", true, None);
           ("/c", true, None)],
          ["/out/a/index.html"; "/out/c/index.html"; "/out/sitemap.xml"]).
Proof. vm_compute. reflexivity. Qed.

Lemma prerender_sitemap_witness :
  let w := DemoPrerender.world DemoPrerender.last_first in
  let options := DemoPrerender.options ["/"; "/about"] "https://example.com" None in
  let d := DemoPrerender.empty_disk in
  let expanded :=
    [{| Prerender.ex_path := "/"; Prerender.ex_outputPath := "/index.html" |};
     {| Prerender.ex_path := "/about"; Prerender.ex_outputPath := "/about/index.html" |}] in
  Prerender.choose_engine w options = Js.Returned DemoEngine.engine ∧
  Prerender.expand_all (Prerender.routes options) = Js.Returned expanded ∧
  (∀ c, Prerender.concurrency options = Some c → 1 ≤ c) ∧
  (length expanded < 10)%nat ∧
  never_stops options ∧
  Prerender.mkdir_error w (Prerender.outputDir options) = None ∧
  Prerender.writeFile_error w (sitemap_file options) = None ∧
  default true (Prerender.generateSitemap options) = true ∧
  let base := default "http://localhost" (Prerender.baseUrl options) in
  (∀ task, task ∈ expanded →
     is_Some (Prerender.URL_href w (Prerender.ex_path task) base)) ∧
  ∃ res d' reports,
    Prerender.prerenderRoutes 10 w options d = Some (Js.Returned res, d', reports) ∧
    Prerender.success res = Z.of_nat (length (successful_routes res)) ∧
    (0 < Prerender.success res →
     ∃ locs,
       Forall2 (λ route loc, Prerender.URL_href w route base = Some loc)
         (successful_routes res) locs ∧
       last (Prerender.written d') =
         Some (sitemap_file options,
               "<?xml version=" +:+ Str.dq +:+ "1.0" +:+ Str.dq +:+
               " encoding=" +:+ Str.dq +:+ "UTF-8" +:+ Str.dq +:+ "?>" +:+ StrMore.nl +:+
               "<urlset xmlns=" +:+ Str.dq +:+
               "http://www.sitemaps.org/schemas/sitemap/0.9" +:+ Str.dq +:+ ">" +:+
               StrMore.nl +:+
               Str.join_with StrMore.nl
                 ((λ loc,
                     "  <url>" +:+ StrMore.nl +:+
                     "    <loc>" +:+ loc +:+ "</loc>" +:+ StrMore.nl +:+
                     "    <changefreq>weekly</changefreq>" +:+ StrMore.nl +:+
                     "  </url>") <$> locs) +:+
               StrMore.nl +:+ "</urlset>")).
Proof.
  intros w options d expanded.
  assert (H3 : ∀ c, Prerender.concurrency options = Some c → 1 ≤ c) by (by intros c [=]).
  assert (H5 : never_stops options) by (by intros ? ?).
  assert (Hurl : ∀ task, task ∈ expanded →
     is_Some (Prerender.URL_href w (Prerender.ex_path task)
                (default "http://localhost" (Prerender.baseUrl options)))).
  { intros task [->|[->|[]%elem_of_nil]%elem_of_cons]%elem_of_cons; by eexists. }
  split_and!; [reflexivity | reflexivity | exact H3 | simpl; lia | exact H5
              | reflexivity | reflexivity | reflexivity |].
  intros base. split; [exact Hurl|].
  apply (prerender_sitemap 10 w options d DemoEngine.engine expanded);
    first [done | simpl; lia].
Defined.

(** The sitemap scenario, run: base url [https://example.com], routes [/]
    and [/about], both rendered; the second settles first. *)
Example prerender_sitemap_run :
  (λ out, match out with
          | Some (Js.Returned res, d', _) => last (Prerender.written d')
          | _ => None
          end)
    (Prerender.prerenderRoutes 10 (DemoPrerender.world DemoPrerender.last_first)
       (DemoPrerender.options ["/"; "/about"] "https://example.com" None)
       DemoPrerender.empty_disk)
  = Some ("/out/sitemap.xml",
          "<?xml version=" +:+ Str.dq +:+ "1.0" +:+ Str.dq +:+
          " encoding=" +:+ Str.dq +:+ "UTF-8" +:+ Str.dq +:+ "?>
<urlset xmlns=" +:+ Str.dq +:+ "http://www.sitemaps.org/schemas/sitemap/0.9" +:+ Str.dq +:+ ">
  <url>
    <loc>https://example.com/about</loc>
    <changefreq>weekly</changefreq>
  </url>
  <url>
    <loc>https://example.com/</loc>
    <changefreq>weekly</changefreq>
  </url>
</urlset>").
Proof. vm_compute. reflexivity. Qed.

(** ** The tests of src/server/cache.spec.ts, replayed *)

Section CacheSpec.

Example spec_store_and_retrieve :
  (LRU.get "key1" (cache3 [LRU.OpSet "key1" "value1"])).1 = Some "value1".
Proof. reflexivity. Qed.

Example spec_missing_key : (LRU.get "nonexistent" (cache3 [])).1 = None.
Proof. reflexivity. Qed.

Example spec_evicts_least_recently_used :
  let c := cache3 [LRU.OpSet "key1" "value1"; LRU.OpSet "key2" "value2";
                   LRU.OpSet "key3" "value3"; LRU.OpSet "key4" "value4"] in
  (LRU.peek "key1" c, LRU.peek "key2" c, LRU.peek "key3" c, LRU.peek "key4" c)
  = (None, Some "value2", Some "value3", Some "value4").
Proof. vm_compute. reflexivity. Qed.

Example spec_delete :
  let c := cache3 [LRU.OpSet "key1" "value1"; LRU.OpSet "key2" "value2"] in
  (LRU.delete "key1" c).1 = true ∧
  LRU.peek "key1" (LRU.delete "key1" c).2 = None ∧
  LRU.peek "key2" (LRU.delete "key1" c).2 = Some "value2" ∧
  (LRU.delete "nonexistent" c).1 = false.
Proof. vm_compute. done. Qed.

Example spec_size :
  LRU.size (cache3 []) = 0 ∧
  LRU.size (cache3 [LRU.OpSet "key1" "value1"]) = 1 ∧
  LRU.size (cache3 [LRU.OpSet "key1" "value1"; LRU.OpSet "key2" "value2"]) = 2 ∧
  LRU.size (cache3 [LRU.OpSet "key1" "value1"; LRU.OpSet "key2" "value2";
                    LRU.OpDelete "key1"]) = 1.
Proof. vm_compute. done. Qed.
End CacheSpec.

(** ** Further runs of the examples *)

Section Runs.

(** A traversal attempt does not leave the root: the file next to the root
    is not found, the one inside is. *)
Example lookup_traversal_run :
  let w := Demo.world Demo.site in
  let outside := Static.lookup Demo.handler w "/../secret.txt" in
  let inside := Static.lookup Demo.handler w "/..\..//index.html" in
  existsSync Demo.site "/srv/secret.txt" = true ∧
  Static.exists_ outside = false ∧
  Static.filePath outside = "/srv/www/secret.txt" ∧
  Static.exists_ inside = true ∧
  Static.filePath inside = "/srv/www/index.html".
Proof. vm_compute. done. Qed.

(** Both siblings exist and the client takes gzip only: the raw file is
    served, without [Content-Encoding]. *)
Example serve_gzip_only_run :
  (λ response, (Static.status response, Static.headers response !! "Content-Encoding",
                Static.body response))
    <$> Static.serve Demo.handler (Demo.world Demo.site) "/app.js"
          (Demo.request [("accept-encoding", "gzip")])
  = Some (200, None, Some "/srv/www/app.js").
Proof. vm_compute. reflexivity. Qed.

(** Only the gzip sibling exists and the client takes it. *)
Example serve_gzip_run :
  (λ response, (Static.status response, Static.headers response !! "Content-Encoding",
                Static.body response))
    <$> Static.serve Demo.handler (Demo.world Demo.site) "/logo.svg"
          (Demo.request [("accept-encoding", "gzip")])
  = Some (200, Some "gzip", Some "/srv/www/logo.svg.gz").
Proof. vm_compute. reflexivity. Qed.

(** Seven routes, three at a time: waves of 3, 3 and 1. *)
Example chunk_seven_by_three :
  Prerender.chunk 10 ["/1"; "/2"; "/3"; "/4"; "/5"; "/6"; "/7"] 3
  = Some [["/1"; "/2"; "/3"]; ["/4"; "/5"; "/6"]; ["/7"]].
Proof. reflexivity. Qed.
End Runs.

(** * Further properties of the code *)

(** ** [LRUCache]: the single operations *)

Section LRUOperations.
Context {T : Type}.
Implicit Types (c : LRU.LRUCache T) (ops : list (LRU.op T)) (o : LRU.op T).
Implicit Types (k key : string) (C : Z) (m : JsMap.t T).

Lemma lru_keys_get key c :
  LRU.keys (LRU.get key c).2 =
    if LRU.has key c then filter (λ k, k ≠ key) (LRU.keys c) ++ [key] else LRU.keys c.
Proof.
  unfold LRU.get, LRU.has, LRU.keys.
  destruct (JsMap.has key (LRU.cache c)) eqn:Hhas; simpl; [|done].
  apply jsmap_has_true in Hhas.
  destruct (proj2 (jsmap_get_is_Some key (LRU.cache c)) Hhas) as [value Hget].
  rewrite Hget. simpl. by rewrite jsmap_move_to_end, jsmap_keys_app, jsmap_keys_delete.
Qed.

(** What [set] leaves of the old entries, before the new one is appended. *)
Lemma lru_set_shape key (value : T) c :
  ∃ m0, LRU.cache (LRU.set key value c) = m0 ++ [(key, value)] ∧
        (key ∉ JsMap.keys m0) ∧
        m0 =
          (if LRU.has key c then JsMap.delete key (LRU.cache c)
           else if LRU.size c >=? LRU.maxSize c then
             match JsMap.first_key (LRU.cache c) with
             | Some firstKey => JsMap.delete firstKey (LRU.cache c)
             | None => LRU.cache c
             end
           else LRU.cache c).
Proof.
  unfold LRU.set, LRU.has, LRU.size. eexists. split; [|split; [|reflexivity]].
  - simpl. apply jsmap_set_absent.
    destruct (JsMap.has key (LRU.cache c)) eqn:Hhas.
    + apply jsmap_delete_not_elem.
    + apply jsmap_has_false in Hhas.
      destruct (JsMap.size (LRU.cache c) >=? LRU.maxSize c); [|done].
      destruct (JsMap.first_key (LRU.cache c)); [|done].
      rewrite jsmap_keys_delete, list_elem_of_filter. tauto.
  - destruct (JsMap.has key (LRU.cache c)) eqn:Hhas.
    + apply jsmap_delete_not_elem.
    + apply jsmap_has_false in Hhas.
      destruct (JsMap.size (LRU.cache c) >=? LRU.maxSize c); [|done].
      destruct (JsMap.first_key (LRU.cache c)); [|done].
      rewrite jsmap_keys_delete, list_elem_of_filter. tauto.
Qed.

Lemma lru_step_NoDup c o : NoDup (LRU.keys c) → NoDup (LRU.keys (LRU.step c o)).
Proof.
  intros Hnd. destruct o as [k|k v|k|]; simpl.
  - rewrite lru_keys_get. destruct (LRU.has k c); [|done].
    apply NoDup_app. split_and!; [by apply NoDup_filter| |apply NoDup_singleton].
    intros x [Hx _]%list_elem_of_filter ->%list_elem_of_singleton. done.
  - destruct (lru_set_shape k v c) as (m0 & Hc & Hk & Hm0).
    unfold LRU.keys. rewrite Hc, jsmap_keys_app.
    apply NoDup_app. split_and!; [| |apply NoDup_singleton].
    + rewrite Hm0. unfold LRU.keys in Hnd.
      destruct (LRU.has k c); [rewrite jsmap_keys_delete; by apply NoDup_filter|].
      destruct (LRU.size c >=? LRU.maxSize c); [|done].
      destruct (JsMap.first_key (LRU.cache c)); [|done].
      rewrite jsmap_keys_delete. by apply NoDup_filter.
    + intros x Hx ->%list_elem_of_singleton. done.
  - unfold LRU.keys. simpl. rewrite jsmap_keys_delete. by apply NoDup_filter.
  - apply NoDup_nil_2.
Qed.

Lemma lru_run_NoDup C ops : NoDup (LRU.keys (LRU.run (LRU.new (T:=T) C) ops)).
Proof.
  induction ops as [|o ops IH] using rev_ind; [apply NoDup_nil_2|].
  rewrite lru_run_snoc. by apply lru_step_NoDup.
Qed.

Lemma jsmap_delete_cons_ne k k' (v' : T) m :
  k' ≠ k → JsMap.delete k ((k', v') :: m) = (k', v') :: JsMap.delete k m.
Proof.
  intros Hne. unfold JsMap.delete.
  by rewrite (filter_cons_True (λ e : string * T, e.1 ≠ k)) by done.
Qed.

Lemma jsmap_delete_snoc k (v : T) m :
  k ∉ JsMap.keys m → JsMap.delete k (m ++ [(k, v)]) = m.
Proof.
  induction m as [|[k' v'] m IH].
  - intros Hk. exact (jsmap_delete_head k v [] Hk).
  - change (JsMap.keys ((k', v') :: m)) with (k' :: JsMap.keys m).
    intros [Hne Hk]%not_elem_of_cons. simpl.
    rewrite jsmap_delete_cons_ne by done. by rewrite IH.
Qed.

(** Removing a key that occurs once shortens the list by one. *)
Lemma jsmap_delete_length_NoDup k m :
  NoDup (JsMap.keys m) → k ∈ JsMap.keys m →
  length (JsMap.delete k m) = (length m - 1)%nat.
Proof.
  induction m as [|[k' v'] m IH]; [by intros _ ?%elem_of_nil|].
  change (JsMap.keys ((k', v') :: m)) with (k' :: JsMap.keys m).
  intros [Hk' Hnd]%NoDup_cons Hin.
  destruct (decide (k' = k)) as [->|Hne].
  - rewrite jsmap_delete_head by done. simpl. lia.
  - rewrite jsmap_delete_cons_ne by done.
    apply elem_of_cons in Hin as [?|Hin]; [congruence|].
    simpl. rewrite IH by done.
    assert (0 < length m)%nat; [|lia].
    destruct m; [by apply elem_of_nil in Hin|simpl; lia].
Qed.

(** X1. [get] on a cache reached by any history of calls.  The result is
    the value stored under the key, [undefined] when there is none, and a
    miss leaves the cache as it was.  A hit changes no stored value and
    not the number of entries; it moves the key to the end of [keys()],
    the most recently used position, and keeps the order of the others. *)
Theorem lru_get_promotes C ops key :
  let c := LRU.run (LRU.new (T:=T) C) ops in
  let c' := (LRU.get key c).2 in
  (LRU.get key c).1 = LRU.peek key c ∧
  (LRU.has key c = false → LRU.get key c = (None, c)) ∧
  (∀ k, LRU.peek k c' = LRU.peek k c) ∧
  LRU.size c' = LRU.size c ∧
  LRU.keys c' =
    if LRU.has key c then filter (λ k, k ≠ key) (LRU.keys c) ++ [key] else LRU.keys c.
Proof.
  intros c c'. pose proof (lru_run_NoDup C ops) as Hnd. fold c in Hnd.
  split_and!.
  - unfold LRU.get, LRU.peek. destruct (JsMap.has key (LRU.cache c)) eqn:Hhas; simpl.
    + by destruct (JsMap.get key (LRU.cache c)).
    + apply jsmap_has_false in Hhas. symmetry. apply eq_None_not_Some.
      by rewrite jsmap_get_is_Some.
  - unfold LRU.get, LRU.has. by intros ->.
  - intros k. apply lru_get_peek.
  - unfold c', LRU.get, LRU.size, JsMap.size.
    destruct (JsMap.has key (LRU.cache c)) eqn:Hhas; simpl; [|done].
    apply jsmap_has_true in Hhas.
    destruct (proj2 (jsmap_get_is_Some key (LRU.cache c)) Hhas) as [value Hget].
    rewrite Hget. simpl. rewrite jsmap_move_to_end, length_app.
    rewrite jsmap_delete_length_NoDup by done. simpl.
    assert (0 < length (LRU.cache c))%nat; [|lia].
    unfold JsMap.keys in Hhas. destruct (LRU.cache c); [by apply elem_of_nil in Hhas|simpl; lia].
  - apply lru_keys_get.
Qed.

(** X2. A value that was just [set] is read back by [get], whatever the
    cache held before and whatever its capacity is; the entry is already
    the most recently used one, so this [get] changes nothing. *)
Theorem lru_set_then_get key (value : T) c :
  LRU.get key (LRU.set key value c) = (Some value, LRU.set key value c).
Proof.
  destruct (lru_set_shape key value c) as (m0 & Hc & Hk & _).
  unfold LRU.get. rewrite Hc.
  rewrite (proj2 (jsmap_has_true key (m0 ++ [(key, value)]))); simpl.
  2:{ rewrite jsmap_keys_app, elem_of_app. right. by left. }
  rewrite jsmap_get_app_r by done. simpl. rewrite decide_True by done.
  f_equal. unfold LRU.with_cache. simpl.
  rewrite jsmap_delete_snoc by done.
  rewrite jsmap_set_absent by done. rewrite <- Hc. reflexivity.
Qed.
End LRUOperations.

Section LRUHistories.
Context {T : Type}.
Implicit Types (c : LRU.LRUCache T) (ops : list (LRU.op T)) (o : LRU.op T).
Implicit Types (k key : string) (C : Z) (m : JsMap.t T).

Lemma jsmap_get_snoc_ne k key (v : T) m :
  k ≠ key → JsMap.get k (m ++ [(key, v)]) = JsMap.get k m.
Proof.
  intros Hne. induction m as [|[k' v'] m IH]; simpl.
  - by rewrite decide_False by congruence.
  - by rewrite IH.
Qed.

Lemma lru_maxSize_step c o : LRU.maxSize (LRU.step c o) = LRU.maxSize c.
Proof.
  destruct o; simpl; try done.
  unfold LRU.get. destruct (negb _); [done|]. by destruct (JsMap.get _ _).
Qed.

Lemma lru_maxSize_run C ops : LRU.maxSize (LRU.run (LRU.new (T:=T) C) ops) = C.
Proof.
  induction ops as [|o ops IH] using rev_ind; [done|].
  by rewrite lru_run_snoc, lru_maxSize_step.
Qed.

(** With a capacity below one, every [set] that finds an entry removes it
    first, so at most one entry is held. *)
Lemma lru_one_entry_step c o :
  LRU.maxSize c ≤ 0 → (length (LRU.cache c) ≤ 1)%nat →
  (length (LRU.cache (LRU.step c o)) ≤ 1)%nat.
Proof.
  intros HC Hlen. destruct o as [k|k v|k|]; cbn [LRU.step].
  - pose proof (lru_keys_get k c) as Hkeys. unfold LRU.keys, JsMap.keys in Hkeys.
    apply (f_equal length) in Hkeys. rewrite !length_fmap in Hkeys. rewrite Hkeys.
    destruct (LRU.has k c) eqn:Hhas; [|by rewrite length_fmap].
    apply jsmap_has_true in Hhas. unfold JsMap.keys in Hhas.
    rewrite length_app. simpl.
    assert (Hlt : (length (filter (λ k0, k0 ≠ k) (LRU.cache c).*1) < length (LRU.cache c).*1)%nat).
    { eapply length_filter_lt; [exact Hhas|naive_solver]. }
    rewrite length_fmap in Hlt. lia.
  - destruct (lru_set_shape k v c) as (m0 & Hc & _ & Hm0).
    rewrite Hc, length_app. simpl. cut (length m0 = 0)%nat; [lia|]. rewrite Hm0.
    destruct (LRU.has k c) eqn:Hhas.
    + apply jsmap_has_true in Hhas. pose proof (jsmap_delete_length_lt k _ Hhas). lia.
    + unfold LRU.size, JsMap.size. rewrite (proj2 (Z.geb_le _ _)) by lia.
      destruct (LRU.cache c) as [|[e ve] rest]; [done|]. simpl.
      assert (Hin : e ∈ JsMap.keys ((e, ve) :: rest)) by (by left).
      pose proof (jsmap_delete_length_lt e _ Hin). simpl in *. lia.
  - simpl. pose proof (jsmap_delete_length k (LRU.cache c)). lia.
  - simpl. lia.
Qed.

(** X3. A capacity of zero, or a negative one, does not switch the cache
    off: whatever calls came before, the cache holds at most one entry,
    and a [set] leaves exactly the entry it stores, which can be read. *)
Theorem lru_nonpositive_capacity_holds_one C ops key (value : T) :
  C ≤ 0 →
  let c := LRU.run (LRU.new C) ops in
  LRU.size c ≤ 1 ∧
  LRU.keys (LRU.set key value c) = [key] ∧
  LRU.peek key (LRU.set key value c) = Some value.
Proof.
  intros HC c.
  assert (Hlen : (length (LRU.cache c) ≤ 1)%nat).
  { unfold c. induction ops as [|o ops IH] using rev_ind; [simpl; lia|].
    rewrite lru_run_snoc. apply lru_one_entry_step; [|done].
    by rewrite lru_maxSize_run. }
  split_and!.
  - unfold LRU.size, JsMap.size. lia.
  - assert (Hmax : LRU.maxSize c ≤ 0) by (unfold c; by rewrite lru_maxSize_run).
    pose proof (lru_one_entry_step c (LRU.OpSet key value) Hmax Hlen) as Hone.
    cbn [LRU.step] in Hone. destruct (lru_set_shape key value c) as (m0 & Hc & _ & _).
    unfold LRU.keys. rewrite Hc in *. rewrite length_app in Hone. simpl in Hone.
    destruct m0; [done|simpl in Hone; lia].
  - apply lru_set_peek.
Qed.

(** X4. A [set] evicts nothing when it updates a key that is already
    stored, or when the cache is below its capacity: every other entry
    keeps its value and its place in the order, and the key written is
    the most recently used afterwards.  The number of entries grows by
    one exactly when the key is new. *)
Theorem lru_set_without_eviction C ops key (value : T) :
  let c := LRU.run (LRU.new C) ops in
  LRU.has key c = true ∨ LRU.size c < LRU.maxSize c →
  let c' := LRU.set key value c in
  (∀ k, k ≠ key → LRU.peek k c' = LRU.peek k c) ∧
  LRU.keys c' = filter (λ k, k ≠ key) (LRU.keys c) ++ [key] ∧
  LRU.size c' = if LRU.has key c then LRU.size c else LRU.size c + 1.
Proof.
  intros c Hcase c'. pose proof (lru_run_NoDup C ops) as Hnd. fold c in Hnd.
  destruct (lru_set_shape key value c) as (m0 & Hc & Hk & Hm0). fold c' in Hc.
  assert (Hm0' : m0 = JsMap.delete key (LRU.cache c)).
  { rewrite Hm0. destruct (LRU.has key c) eqn:Hhas; [done|].
    destruct Hcase as [?|Hlt]; [done|].
    rewrite Z.geb_leb, (proj2 (Z.leb_gt _ _)) by lia.
    symmetry. by apply jsmap_delete_absent, jsmap_has_false. }
  split_and!.
  - intros k Hne. unfold LRU.peek. rewrite Hc, jsmap_get_snoc_ne by done.
    rewrite Hm0'. by apply jsmap_get_delete_ne.
  - unfold LRU.keys. by rewrite Hc, jsmap_keys_app, Hm0', jsmap_keys_delete.
  - unfold LRU.size, JsMap.size. rewrite Hc, length_app, Hm0'. simpl.
    destruct (LRU.has key c) eqn:Hhas.
    + apply jsmap_has_true in Hhas. rewrite jsmap_delete_length_NoDup by done.
      pose proof (jsmap_delete_length_lt key _ Hhas). lia.
    + apply jsmap_has_false in Hhas. rewrite jsmap_delete_absent by done. lia.
Qed.

(** X5. [delete] on a cache reached by any history of calls: it answers
    whether the key was stored, removes that entry and no other, keeps
    the order of the rest, and lowers the number of entries by one
    exactly when the key was stored. *)
Theorem lru_delete_removes_only_key C ops key :
  let c := LRU.run (LRU.new (T:=T) C) ops in
  let c' := (LRU.delete key c).2 in
  (LRU.delete key c).1 = LRU.has key c ∧
  LRU.has key c' = false ∧
  (∀ k, k ≠ key → LRU.peek k c' = LRU.peek k c) ∧
  LRU.keys c' = filter (λ k, k ≠ key) (LRU.keys c) ∧
  LRU.size c' = if LRU.has key c then LRU.size c - 1 else LRU.size c.
Proof.
  intros c c'. pose proof (lru_run_NoDup C ops) as Hnd. fold c in Hnd.
  split_and!; [done| | | |].
  - apply jsmap_has_false. simpl. apply jsmap_delete_not_elem.
  - intros k Hne. by apply jsmap_get_delete_ne.
  - apply jsmap_keys_delete.
  - unfold c', LRU.size, JsMap.size, LRU.has. simpl.
    destruct (JsMap.has key (LRU.cache c)) eqn:Hhas.
    + apply jsmap_has_true in Hhas. rewrite jsmap_delete_length_NoDup by done.
      pose proof (jsmap_delete_length_lt key _ Hhas). lia.
    + apply jsmap_has_false in Hhas. by rewrite jsmap_delete_absent.
Qed.

(** X6. [keys()] iterates from the least to the most recently used entry:
    of two stored keys, the one listed first was last touched (by a
    [set], or by a [get] that found it) before the other. *)
Theorem lru_keys_by_recency C ops (i j : nat) k1 k2 :
  1 ≤ C →
  let c := LRU.run (LRU.new (T:=T) C) ops in
  LRU.keys c !! i = Some k1 → LRU.keys c !! j = Some k2 → (i < j)%nat →
  (0 < LRU.last_touch C ops k1 < LRU.last_touch C ops k2)%nat.
Proof.
  intros HC c Hi Hj Hlt. destruct (lru_inv_run (T:=T) C ops HC) as [_ Hord Hpos _].
  fold c in Hord, Hpos. split.
  - apply Hpos. by eapply list_elem_of_lookup_2.
  - unfold recency_ordered in Hord. rewrite <- (take_drop j (LRU.keys c)) in Hord.
    eapply (StronglySorted_app_1_elem_of _ _ _ k1 k2 Hord).
    + apply list_elem_of_lookup. exists i. by rewrite lookup_take_lt.
    + apply list_elem_of_lookup. exists 0%nat. by rewrite lookup_drop, Nat.add_0_r.
Qed.
End LRUHistories.

Lemma lru_nonpositive_capacity_holds_one_witness :
  0 ≤ 0 ∧
  let c := LRU.run (LRU.new 0) [LRU.OpSet "/a" "A"; LRU.OpSet "/b" "B"] in
  LRU.size c ≤ 1 ∧
  LRU.keys (LRU.set "/c" "C" c) = ["/c"] ∧
  LRU.peek "/c" (LRU.set "/c" "C" c) = Some "C".
Proof.
  split; [lia|].
  apply (lru_nonpositive_capacity_holds_one 0
           [LRU.OpSet "/a" "A"; LRU.OpSet "/b" "B"] "/c" "C").
  lia.
Defined.

Lemma lru_set_without_eviction_witness :
  let ops := [LRU.OpSet "/a" "A"; LRU.OpSet "/b" "B"] in
  let c := LRU.run (LRU.new 2) ops in
  (LRU.has "/a" c = true ∨ LRU.size c < LRU.maxSize c) ∧
  let c' := LRU.set "/a" "A2" c in
  (∀ k, k ≠ "/a" → LRU.peek k c' = LRU.peek k c) ∧
  LRU.keys c' = filter (λ k, k ≠ "/a") (LRU.keys c) ++ ["/a"] ∧
  LRU.size c' = if LRU.has "/a" c then LRU.size c else LRU.size c + 1.
Proof.
  intros ops c. split; [left; reflexivity|].
  apply (lru_set_without_eviction 2 ops "/a" "A2"). left. reflexivity.
Defined.

Lemma lru_keys_by_recency_witness :
  let ops := [LRU.OpSet "/a" "A"; LRU.OpSet "/b" "B"; LRU.OpGet "/a"] in
  let c := LRU.run (LRU.new 2) ops in
  1 ≤ 2 ∧
  LRU.keys c !! 0%nat = Some "/b" ∧ LRU.keys c !! 1%nat = Some "/a" ∧ (0 < 1)%nat ∧
  (0 < LRU.last_touch 2 ops "/b" < LRU.last_touch 2 ops "/a")%nat.
Proof.
  intros ops c. split; [lia|]. split; [reflexivity|]. split; [reflexivity|].
  split; [lia|].
  apply (lru_keys_by_recency 2 ops 0 1 "/b" "/a"); [lia|reflexivity|reflexivity|lia].
Defined.

(** ** [render], step by step *)

Section RenderEquations.
Implicit Types (w : Engine.World) (options : Engine.RenderOptions).
Implicit Types (e : Engine.BunAngularEngine) (c : LRU.LRUCache Engine.CacheEntry).

(** Which document [getDocument] hands out, and what it remembers. *)
Lemma getDocument_equation w custom e :
  Engine.getDocument w custom e =
    if Engine.truthy custom then (Js.Returned (default EmptyString custom), e)
    else if Engine.truthy (Engine.indexHtmlContent e)
    then (Js.Returned (default EmptyString (Engine.indexHtmlContent e)), e)
    else
      match Engine.fs w (Engine.indexHtmlPath e) with
      | None => (Js.Thrown (Js.Error (template_missing_message e)), e)
      | Some node =>
          match Engine.readFileSync node with
          | Js.Thrown err => (Js.Thrown err, e)
          | Js.Returned text =>
              (if Str.is_empty text
               then Js.Thrown (Js.Error (template_missing_message e))
               else Js.Returned text,
               engine_with_template e (Some text))
          end
      end.
Proof.
  unfold Engine.getDocument. destruct (Engine.truthy custom); [done|].
  unfold Engine.bind. destruct (Engine.truthy (Engine.indexHtmlContent e)) eqn:He.
  { unfold Engine.ret at 1. by rewrite He. }
  unfold Engine.loadIndexHtml.
  destruct (Engine.fs w (Engine.indexHtmlPath e)) as [node|].
  - unfold Engine.bind, Engine.lift.
    destruct (Engine.readFileSync node) as [text|err]; [|done].
    unfold Engine.set_indexHtmlContent, engine_with_template, Engine.truthy. simpl.
    by destruct (Str.is_empty text).
  - unfold Engine.ret at 1. by rewrite He.
Qed.

(** [getDocument] changes nothing but the stored template. *)
Lemma getDocument_frame w custom e :
  let e2 := (Engine.getDocument w custom e).2 in
  Engine.cache e2 = Engine.cache e ∧
  Engine.cacheTtl e2 = Engine.cacheTtl e ∧
  Engine.indexHtmlPath e2 = Engine.indexHtmlPath e.
Proof.
  rewrite getDocument_equation. repeat case_match; done.
Qed.

(** The whole of [render], for a url that parses. *)
Lemma render_equation w options e p s :
  Engine.URL_parse w (Engine.url options) = Some (p, s) →
  let key := p +:+ s in
  let looked := LRU.get key <$> consulted_cache options e in
  let e1 := match looked with Some l => engine_with_cache e l.2 | None => e end in
  let hit :=
    match looked with
    | Some (Some entry, _) => if Engine.isCacheValid w entry then Some entry else None
    | _ => None
    end in
  Engine.render w options e =
    match hit with
    | Some entry => (Js.Returned (cached_page entry), e1)
    | None =>
        match Engine.getDocument w (Engine.document options) e1 with
        | (Js.Thrown err, e2) => (Js.Returned (error_page w err), e2)
        | (Js.Returned document, e2) =>
            match Engine.renderApplication w document key with
            | Js.Thrown err => (Js.Returned (error_page w err), e2)
            | Js.Returned text =>
                (Js.Returned (rendered_page text),
                 match consulted_cache options e2 with
                 | Some c =>
                     engine_with_cache e2
                       (LRU.set key (entry_of w e2 (rendered_page text)) c)
                 | None => e2
                 end)
            end
        end
    end.
Proof.
  intros Hparse key looked e1 hit.
  unfold Engine.render, Engine.getCacheKey. rewrite Hparse.
  unfold Engine.bind at 1. unfold Engine.lift at 1. unfold Engine.bind at 1.
  fold key.
  assert (Hcheck : Engine.check_cache w options key e = (Js.Returned hit, e1)).
  { unfold Engine.check_cache, hit, e1, looked, consulted_cache.
    destruct (Engine.cache e) as [c|]; [|by destruct (default false _)].
    destruct (default false (Engine.skipCache options)); simpl; [done|].
    destruct (LRU.get key c) as [cached c'].
    unfold Engine.bind, Engine.set_cache, Engine.ret, engine_with_cache. simpl.
    by destruct cached. }
  rewrite Hcheck. destruct hit as [entry|]; [done|].
  unfold Engine.try_catch, Engine.bind at 1.
  destruct (Engine.getDocument w (Engine.document options) e1) as [[document|err] e2];
    [|done].
  unfold Engine.bind at 1. unfold Engine.lift at 1.
  unfold Engine.bind at 1. unfold Engine.lift at 1. cbn [fst snd]. fold key.
  destruct (Engine.renderApplication w document key) as [text|err]; [|done].
  unfold Engine.bind at 1. unfold Engine.populate_cache, consulted_cache.
  destruct (Engine.cache e2) as [c|]; [|by destruct (default false _)].
  destruct (default false (Engine.skipCache options)); done.
Qed.

Lemma lru_get_fst {T} key (c : LRU.LRUCache T) : (LRU.get key c).1 = LRU.peek key c.
Proof.
  unfold LRU.get, LRU.peek. destruct (JsMap.has key (LRU.cache c)) eqn:Hhas; simpl.
  - by destruct (JsMap.get key (LRU.cache c)).
  - apply jsmap_has_false in Hhas. symmetry. apply eq_None_not_Some.
    by rewrite jsmap_get_is_Some.
Qed.

Lemma lru_get_maxSize {T} key (c : LRU.LRUCache T) :
  LRU.maxSize (LRU.get key c).2 = LRU.maxSize c.
Proof. apply (lru_maxSize_step c (LRU.OpGet key)). Qed.
End RenderEquations.

(** ** [render] and the cache *)

Section RenderCache.
Implicit Types (w : Engine.World) (options : Engine.RenderOptions).
Implicit Types (e : Engine.BunAngularEngine) (c : LRU.LRUCache Engine.CacheEntry).

Lemma consulted_cache_Some options e c :
  Engine.cache e = Some c → default false (Engine.skipCache options) = false →
  consulted_cache options e = Some c.
Proof. intros Hc Hskip. unfold consulted_cache. by rewrite Hskip. Qed.

Lemma consulted_cache_frame options e e' :
  Engine.cache e' = Engine.cache e → consulted_cache options e' = consulted_cache options e.
Proof. intros Hc. unfold consulted_cache. by rewrite Hc. Qed.

(** A render whose key holds an entry that has not expired. *)
Lemma render_hit w options e c p s (entry : Engine.CacheEntry) :
  Engine.URL_parse w (Engine.url options) = Some (p, s) →
  Engine.cache e = Some c →
  default false (Engine.skipCache options) = false →
  LRU.peek (p +:+ s) c = Some entry →
  Engine.now_at_check w < Engine.expiresAt entry →
  Engine.render w options e =
    (Js.Returned (cached_page entry), engine_with_cache e (LRU.get (p +:+ s) c).2).
Proof.
  intros Hparse Hc Hskip Hpeek Hvalid.
  rewrite (render_equation w options e p s Hparse).
  rewrite (consulted_cache_Some options e c Hc Hskip). cbn [fmap option_fmap option_map].
  pose proof (lru_get_fst (p +:+ s) c) as Hfst. rewrite Hpeek in Hfst.
  destruct (LRU.get (p +:+ s) c) as [o c']. cbn [fst snd] in *. subst o.
  unfold Engine.isCacheValid. by rewrite (proj2 (Z.ltb_lt _ _)) by done.
Qed.

(** X7. With the cache enabled and [skipCache] not set, a render whose key
    holds an entry that has not expired returns that entry's page, status
    and headers with [fromCache = true]; neither the template nor the
    renderer is consulted.  The cache keeps all its entries, and the entry
    served becomes the most recently used one. *)
Theorem render_serves_unexpired_entry w options e c (key : string)
    (entry : Engine.CacheEntry) :
  Engine.cache e = Some c →
  default false (Engine.skipCache options) = false →
  Engine.getCacheKey w (Engine.url options) = Js.Returned key →
  LRU.peek key c = Some entry →
  Engine.now_at_check w < Engine.expiresAt entry →
  Engine.render w options e =
    (Js.Returned (cached_page entry), engine_with_cache e (LRU.get key c).2) ∧
  (∀ k, LRU.peek k (LRU.get key c).2 = LRU.peek k c) ∧
  last (LRU.keys (LRU.get key c).2) = Some key.
Proof.
  intros Hc Hskip Hkey Hpeek Hvalid.
  destruct (getCacheKey_Returned _ _ _ Hkey) as ([p s] & Hparse & ->). cbn [fst snd] in *.
  split_and!.
  - by apply render_hit.
  - intros k. apply lru_get_peek.
  - rewrite lru_keys_get.
    assert (LRU.has (p +:+ s) c = true) as ->.
    { apply jsmap_has_true, jsmap_get_is_Some. unfold LRU.peek in Hpeek. eauto. }
    apply last_snoc.
Qed.

(** A render that was not answered by the cache and returned status 200
    has stored its result under the key. *)
Lemma render_fresh_is_stored w options e c p s r e' :
  Engine.URL_parse w (Engine.url options) = Some (p, s) →
  Engine.cache e = Some c →
  default false (Engine.skipCache options) = false →
  Engine.render w options e = (Js.Returned r, e') →
  Engine.fromCache r = false → Engine.status r = 200 →
  ∃ c', Engine.cache e' = Some c' ∧
        Engine.cacheTtl e' = Engine.cacheTtl e ∧
        LRU.peek (p +:+ s) c' =
          Some {| Engine.entry_html := Engine.html r; Engine.entry_status := 200;
                  Engine.entry_headers := Engine.headers r;
                  Engine.timestamp := Engine.now_at_timestamp w;
                  Engine.expiresAt := Engine.now_at_expiry w + Engine.cacheTtl e |}.
Proof.
  intros Hparse Hc Hskip Hrender Hfresh Hstatus.
  rewrite (render_equation w options e p s Hparse) in Hrender.
  rewrite (consulted_cache_Some options e c Hc Hskip) in Hrender.
  cbn [fmap option_fmap option_map] in Hrender.
  destruct (LRU.get (p +:+ s) c) as [o c1]. cbn [fst snd] in Hrender.
  set (e1 := engine_with_cache e c1) in *.
  assert (Hmiss :
    match Engine.getDocument w (Engine.document options) e1 with
    | (Js.Returned document, e2) =>
        match Engine.renderApplication w document (p +:+ s) with
        | Js.Returned text =>
            (Js.Returned (rendered_page text),
             match consulted_cache options e2 with
             | Some c0 =>
                 engine_with_cache e2
                   (LRU.set (p +:+ s) (entry_of w e2 (rendered_page text)) c0)
             | None => e2
             end)
        | Js.Thrown err => (Js.Returned (error_page w err), e2)
        end
    | (Js.Thrown err, e2) => (Js.Returned (error_page w err), e2)
    end = (Js.Returned r, e')).
  { destruct o as [entry|]; [|done].
    destruct (Engine.isCacheValid w entry); [|done].
    injection Hrender as <- _. done. }
  clear Hrender.
  pose proof (getDocument_frame w (Engine.document options) e1) as (Hc2 & Httl2 & _).
  destruct (Engine.getDocument w (Engine.document options) e1) as [[document|err] e2];
    cbn [snd] in *.
  2:{ injection Hmiss as <- _. done. }
  destruct (Engine.renderApplication w document (p +:+ s)) as [text|err].
  2:{ injection Hmiss as <- _. done. }
  rewrite (consulted_cache_Some options e2 c1) in Hmiss by done.
  injection Hmiss as <- <-. eexists. split; [reflexivity|].
  split; [simpl; by rewrite Httl2|].
  rewrite lru_set_peek. unfold entry_of. simpl. by rewrite Httl2.
Qed.

(** X8. The cache is keyed by the path and the query of the url, and an
    entry lives for [cacheTtl] milliseconds.  After a render that produced
    a page with status 200, a later render of a url with the same key,
    whose clock reading lies before the first one's [Date.now()] plus
    [cacheTtl], returns the same page, status and headers with
    [fromCache = true]. *)
Theorem second_render_is_served_from_cache w1 w2 options1 options2 e c (key : string)
    r1 e1 :
  Engine.cache e = Some c →
  default false (Engine.skipCache options1) = false →
  default false (Engine.skipCache options2) = false →
  Engine.getCacheKey w1 (Engine.url options1) = Js.Returned key →
  Engine.getCacheKey w2 (Engine.url options2) = Js.Returned key →
  Engine.render w1 options1 e = (Js.Returned r1, e1) →
  Engine.fromCache r1 = false →
  Engine.status r1 = 200 →
  Engine.now_at_check w2 < Engine.now_at_expiry w1 + Engine.cacheTtl e →
  ∃ r2 e2,
    Engine.render w2 options2 e1 = (Js.Returned r2, e2) ∧
    Engine.html r2 = Engine.html r1 ∧
    Engine.status r2 = 200 ∧
    Engine.headers r2 = Engine.headers r1 ∧
    Engine.fromCache r2 = true.
Proof.
  intros Hc Hskip1 Hskip2 Hkey1 Hkey2 Hrender Hfresh Hstatus Hnow.
  destruct (getCacheKey_Returned _ _ _ Hkey1) as ([p s] & Hparse & ->). cbn [fst snd] in *.
  destruct (render_fresh_is_stored w1 options1 e c p s r1 e1
              Hparse Hc Hskip1 Hrender Hfresh Hstatus) as (c' & Hc' & _ & Hpeek).
  destruct (getCacheKey_Returned _ _ _ Hkey2) as ([p2 s2] & Hparse2 & Hsame).
  cbn [fst snd] in Hsame. rewrite Hsame in Hpeek.
  rewrite (render_hit w2 options2 e1 c' p2 s2 _ Hparse2 Hc' Hskip2 Hpeek) by done.
  by do 2 eexists.
Qed.

(** X9. With [skipCache] set, [render] neither reads nor writes the cache:
    the cache is afterwards what it was, order included, and a result is
    never marked [fromCache]. *)
Theorem render_skip_cache_leaves_cache w options e :
  Engine.skipCache options = Some true →
  let out := Engine.render w options e in
  Engine.cache out.2 = Engine.cache e ∧
  match out.1 with
  | Js.Returned r => Engine.fromCache r = false
  | Js.Thrown _ => True
  end.
Proof.
  intros Hskip out. unfold out.
  destruct (Engine.URL_parse w (Engine.url options)) as [[p s]|] eqn:Hparse.
  2:{ unfold Engine.render, Engine.getCacheKey. by rewrite Hparse. }
  rewrite (render_equation w options e p s Hparse).
  assert (Hnone : ∀ e0, consulted_cache options e0 = None).
  { intros e0. unfold consulted_cache. by rewrite Hskip. }
  rewrite !Hnone. cbn [fmap option_fmap option_map].
  pose proof (getDocument_frame w (Engine.document options) e) as (Hc2 & _ & _).
  destruct (Engine.getDocument w (Engine.document options) e) as [[document|err] e2];
    cbn [snd] in *; [|done].
  rewrite Hnone. by destruct (Engine.renderApplication w document (p +:+ s)).
Qed.
End RenderCache.

Lemma render_serves_unexpired_entry_witness :
  let w := DemoEngine2.world_at 999 in
  let options := DemoEngine.request "/about" in
  let c := LRU.set "/about" DemoEngine.stale (LRU.new 100) in
  Engine.cache DemoEngine.engine = Some c ∧
  default false (Engine.skipCache options) = false ∧
  Engine.getCacheKey w (Engine.url options) = Js.Returned "/about" ∧
  LRU.peek "/about" c = Some DemoEngine.stale ∧
  Engine.now_at_check w < Engine.expiresAt DemoEngine.stale ∧
  Engine.render w options DemoEngine.engine =
    (Js.Returned (cached_page DemoEngine.stale),
     engine_with_cache DemoEngine.engine (LRU.get "/about" c).2) ∧
  (∀ k, LRU.peek k (LRU.get "/about" c).2 = LRU.peek k c) ∧
  last (LRU.keys (LRU.get "/about" c).2) = Some "/about".
Proof.
  intros w options c.
  split; [reflexivity|]. split; [reflexivity|]. split; [reflexivity|].
  split; [reflexivity|]. split; [reflexivity|].
  apply (render_serves_unexpired_entry w options DemoEngine.engine c "/about"
           DemoEngine.stale); reflexivity.
Defined.

Lemma second_render_is_served_from_cache_witness :
  let w1 := DemoEngine2.world_at 1000 in
  let w2 := DemoEngine2.world_at 300999 in
  let options1 := DemoEngine.request "/about?x=1" in
  let options2 := DemoEngine.request "/about?x=1" in
  let e := DemoEngine2.fresh in
  let out := Engine.render w1 options1 e in
  Engine.cache e = Some (LRU.new 100) ∧
  default false (Engine.skipCache options1) = false ∧
  default false (Engine.skipCache options2) = false ∧
  Engine.getCacheKey w1 (Engine.url options1) = Js.Returned "/about?x=1" ∧
  Engine.getCacheKey w2 (Engine.url options2) = Js.Returned "/about?x=1" ∧
  out = (Js.Returned (rendered_page "<html>/about?x=1</html>"), out.2) ∧
  Engine.now_at_check w2 < Engine.now_at_expiry w1 + Engine.cacheTtl e ∧
  ∃ r2 e2,
    Engine.render w2 options2 out.2 = (Js.Returned r2, e2) ∧
    Engine.html r2 = "<html>/about?x=1</html>" ∧
    Engine.status r2 = 200 ∧
    Engine.headers r2 = Engine.headers (rendered_page "<html>/about?x=1</html>") ∧
    Engine.fromCache r2 = true.
Proof.
  intros w1 w2 options1 options2 e out.
  assert (Hout : out = (Js.Returned (rendered_page "<html>/about?x=1</html>"), out.2))
    by (vm_compute; reflexivity).
  split; [reflexivity|]. split; [reflexivity|]. split; [reflexivity|].
  split; [reflexivity|]. split; [reflexivity|]. split; [exact Hout|].
  split; [reflexivity|].
  apply (second_render_is_served_from_cache w1 w2 options1 options2 e (LRU.new 100)
           "/about?x=1" (rendered_page "<html>/about?x=1</html>") out.2);
    reflexivity.
Defined.

(** ** [render] and the template *)

Section RenderTemplate.
Implicit Types (w : Engine.World) (options : Engine.RenderOptions).
Implicit Types (e : Engine.BunAngularEngine) (c : LRU.LRUCache Engine.CacheEntry).

(** The engine after the cache check. *)
Lemma render_miss w options e p s :
  Engine.URL_parse w (Engine.url options) = Some (p, s) →
  no_valid_entry w options e (p +:+ s) →
  ∃ e1,
    Engine.indexHtmlPath e1 = Engine.indexHtmlPath e ∧
    Engine.indexHtmlContent e1 = Engine.indexHtmlContent e ∧
    Engine.cacheTtl e1 = Engine.cacheTtl e ∧
    (∀ k, cached_entry k e1 = cached_entry k e) ∧
    Engine.render w options e =
      match Engine.getDocument w (Engine.document options) e1 with
      | (Js.Thrown err, e2) => (Js.Returned (error_page w err), e2)
      | (Js.Returned document, e2) =>
          match Engine.renderApplication w document (p +:+ s) with
          | Js.Thrown err => (Js.Returned (error_page w err), e2)
          | Js.Returned text =>
              (Js.Returned (rendered_page text),
               match consulted_cache options e2 with
               | Some c =>
                   engine_with_cache e2
                     (LRU.set (p +:+ s) (entry_of w e2 (rendered_page text)) c)
               | None => e2
               end)
          end
      end.
Proof.
  intros Hparse Hnone. rewrite (render_equation w options e p s Hparse).
  destruct (consulted_cache options e) as [c|] eqn:Hcons; cbn [fmap option_fmap option_map].
  - pose proof (lru_get_fst (p +:+ s) c) as Hfst.
    pose proof (lru_get_peek c (p +:+ s)) as Hpeek.
    destruct (LRU.get (p +:+ s) c) as [o c1]. cbn [fst snd] in *.
    exists (engine_with_cache e c1). split_and!; try done.
    + intros k. unfold cached_entry. simpl. rewrite Hpeek.
      unfold consulted_cache in Hcons. destruct (default false _); [done|].
      by rewrite Hcons.
    + destruct o as [entry|]; [|done].
      by rewrite (Hnone c entry).
  - by exists e.
Qed.

(** X10. When no template is at hand, [render] answers with the error
    page and status 500 and names the path it looked at: no custom
    document is given, the engine holds no template, and the file at
    [indexHtmlPath] is missing, or is empty (an empty template counts as
    none).  Nothing is added to the cache. *)
Theorem render_without_template_is_error_page w options e p s :
  Engine.URL_parse w (Engine.url options) = Some (p, s) →
  no_valid_entry w options e (p +:+ s) →
  Engine.truthy (Engine.document options) = false →
  Engine.truthy (Engine.indexHtmlContent e) = false →
  match Engine.fs w (Engine.indexHtmlPath e) with
  | Some node => is_empty_file node
  | None => True
  end →
  ∃ e',
    Engine.render w options e =
      (Js.Returned (error_page w (Js.Error (template_missing_message e))), e') ∧
    ∀ k, cached_entry k e' = cached_entry k e.
Proof.
  intros Hparse Hnone Hcustom Htemplate Hfile.
  destruct (render_miss w options e p s Hparse Hnone)
    as (e1 & Hpath & Hcontent & _ & Hsame & ->).
  rewrite getDocument_equation, Hcustom, Hcontent, Htemplate, Hpath.
  assert (Hmsg : template_missing_message e1 = template_missing_message e).
  { unfold template_missing_message. by rewrite Hpath. }
  rewrite Hmsg.
  destruct (Engine.fs w (Engine.indexHtmlPath e)) as [node|]; [|by exists e1].
  destruct Hfile as [Hdir Hempty]. unfold Engine.readFileSync. rewrite Hdir, Hempty.
  simpl. eexists. split; [reflexivity|]. intros k. rewrite <- Hsame. done.
Qed.

(** A render, not answered by the cache, of an engine that holds its
    template. *)
Lemma render_with_held_template w options e p s document :
  Engine.URL_parse w (Engine.url options) = Some (p, s) →
  no_valid_entry w options e (p +:+ s) →
  Engine.truthy (Engine.document options) = false →
  Engine.truthy (Engine.indexHtmlContent e) = true →
  Engine.indexHtmlContent e = Some document →
  ∃ e', Engine.render w options e =
          (Js.Returned (fresh_result w document (p +:+ s)), e').
Proof.
  intros Hparse Hnone Hc Ht Hdoc.
  destruct (render_miss w options e p s Hparse Hnone)
    as (e1 & Hpath & Hcontent & _ & _ & ->).
  rewrite getDocument_equation, Hcontent, Hpath. unfold fresh_result.
  rewrite Hc, Ht, Hdoc. simpl.
  destruct (Engine.renderApplication w document (p +:+ s)); by eexists.
Qed.

(** X11. Which document the renderer receives.  A custom document, when
    it is not empty, comes first; otherwise the template the engine
    holds; otherwise the file at [indexHtmlPath], read at this moment and
    kept for later renders.  The result, when the cache did not answer,
    is the renderer's page with status 200, or the error page with status
    500 when the renderer throws. *)
Theorem render_document_choice w options e p s :
  Engine.URL_parse w (Engine.url options) = Some (p, s) →
  no_valid_entry w options e (p +:+ s) →
  ∀ document,
    (Engine.truthy (Engine.document options) = true ∧
     Engine.document options = Some document) ∨
    (Engine.truthy (Engine.document options) = false ∧
     Engine.truthy (Engine.indexHtmlContent e) = true ∧
     Engine.indexHtmlContent e = Some document) ∨
    (Engine.truthy (Engine.document options) = false ∧
     Engine.truthy (Engine.indexHtmlContent e) = false ∧
     document ≠ EmptyString ∧
     ∃ node, Engine.fs w (Engine.indexHtmlPath e) = Some node ∧
             isDirectory node = false ∧ content node = document) →
    ∃ e',
      Engine.render w options e = (Js.Returned (fresh_result w document (p +:+ s)), e') ∧
      Engine.indexHtmlContent e' =
        if Engine.truthy (Engine.document options) || Engine.truthy (Engine.indexHtmlContent e)
        then Engine.indexHtmlContent e else Some document.
Proof.
  intros Hparse Hnone document Hchoice.
  destruct (render_miss w options e p s Hparse Hnone)
    as (e1 & Hpath & Hcontent & _ & _ & ->).
  rewrite getDocument_equation, Hcontent, Hpath. unfold fresh_result.
  assert (Hfinish : ∀ e2 text,
    Engine.indexHtmlContent
      match consulted_cache options e2 with
      | Some c =>
          engine_with_cache e2 (LRU.set (p +:+ s) (entry_of w e2 (rendered_page text)) c)
      | None => e2
      end = Engine.indexHtmlContent e2).
  { intros e2 text. by destruct (consulted_cache options e2). }
  destruct Hchoice as [[Hc Hdoc]|[(Hc & Ht & Hdoc)|(Hc & Ht & Hne & node & Hnode & Hdir & Hdoc)]].
  - rewrite Hc, Hdoc. simpl.
    destruct (Engine.renderApplication w document (p +:+ s));
      eexists; (split; [reflexivity|]); by rewrite ?Hfinish.
  - rewrite Hc, Ht, Hdoc. simpl.
    destruct (Engine.renderApplication w document (p +:+ s));
      eexists; (split; [reflexivity|]); by rewrite ?Hfinish, ?Hcontent.
  - rewrite Hc, Ht, Hnode. unfold Engine.readFileSync. rewrite Hdir, Hdoc. simpl.
    assert (Str.is_empty document = false) as -> by (by destruct document).
    destruct (Engine.renderApplication w document (p +:+ s));
      eexists; (split; [reflexivity|]); by rewrite ?Hfinish.
Qed.
End RenderTemplate.

Lemma render_without_template_is_error_page_witness :
  let w := DemoEngine.world in
  let options := DemoEngine.request "/about" in
  let e := DemoEngine2.without_template in
  Engine.URL_parse w (Engine.url options) = Some ("/about", EmptyString) ∧
  Engine.truthy (Engine.document options) = false ∧
  Engine.truthy (Engine.indexHtmlContent e) = false ∧
  Engine.fs w (Engine.indexHtmlPath e) = None ∧
  ∃ e',
    Engine.render w options e =
      (Js.Returned (error_page w (Js.Error (template_missing_message e))), e') ∧
    ∀ k, cached_entry k e' = cached_entry k e.
Proof.
  intros w options e.
  split; [reflexivity|]. split; [reflexivity|]. split; [reflexivity|].
  split; [reflexivity|].
  apply (render_without_template_is_error_page w options e "/about" EmptyString).
  - reflexivity.
  - intros c entry [= <-]. discriminate.
  - reflexivity.
  - reflexivity.
  - exact I.
Defined.

Lemma render_document_choice_witness :
  let w := DemoEngine.world in
  let options := DemoEngine.request "/about" in
  let e :=
    {| Engine.indexHtmlPath := "/srv/www/index.html"; Engine.cache := None;
       Engine.cacheTtl := 300000; Engine.indexHtmlContent := None |} in
  Engine.URL_parse w (Engine.url options) = Some ("/about", EmptyString) ∧
  ∃ e',
    Engine.render w options e =
      (Js.Returned (fresh_result w "<html>home</html>" "/about"), e') ∧
    Engine.indexHtmlContent e' = Some "<html>home</html>".
Proof.
  intros w options e. split; [reflexivity|].
  apply (render_document_choice w options e "/about" EmptyString eq_refl).
  - intros c entry [=].
  - right. right. split; [reflexivity|]. split; [reflexivity|]. split; [discriminate|].
    eexists. split; [reflexivity|]. split; reflexivity.
Defined.

(** ** The engine over many calls *)

Section EngineHistories.
Implicit Types (w : Engine.World) (options : Engine.RenderOptions).
Implicit Types (e : Engine.BunAngularEngine) (c : LRU.LRUCache Engine.CacheEntry).

(** A cache within its capacity stays within it. *)
Lemma lru_bounded_step {T} (c : LRU.LRUCache T) o :
  1 ≤ LRU.maxSize c → LRU.size c ≤ LRU.maxSize c →
  LRU.size (LRU.step c o) ≤ LRU.maxSize c.
Proof.
  intros HC Hsz. unfold LRU.size, JsMap.size in *.
  destruct o as [k|k v|k|]; cbn [LRU.step].
  - pose proof (lru_keys_get k c) as Hkeys. unfold LRU.keys, JsMap.keys in Hkeys.
    apply (f_equal length) in Hkeys. rewrite !length_fmap in Hkeys. rewrite Hkeys.
    destruct (LRU.has k c) eqn:Hhas; [|by rewrite length_fmap].
    apply jsmap_has_true in Hhas. unfold JsMap.keys in Hhas.
    rewrite length_app. simpl.
    assert (Hlt : (length (filter (λ k0, k0 ≠ k) (LRU.cache c).*1)
                   < length (LRU.cache c).*1)%nat).
    { eapply length_filter_lt; [exact Hhas|naive_solver]. }
    rewrite length_fmap in Hlt. lia.
  - destruct (lru_set_shape k v c) as (m0 & Hc & _ & Hm0).
    rewrite Hc, length_app. simpl.
    cut (Z.of_nat (length m0) < LRU.maxSize c); [lia|]. rewrite Hm0.
    destruct (LRU.has k c) eqn:Hhas.
    + apply jsmap_has_true in Hhas. pose proof (jsmap_delete_length_lt k _ Hhas). lia.
    + unfold LRU.size, JsMap.size.
      destruct (Z.of_nat (length (LRU.cache c)) >=? LRU.maxSize c) eqn:Hfull.
      * destruct (LRU.cache c) as [|[e ve] rest]; [simpl; lia|]. simpl JsMap.first_key.
        assert (Hin : e ∈ JsMap.keys ((e, ve) :: rest)) by (by left).
        pose proof (jsmap_delete_length_lt e _ Hin). lia.
      * rewrite Z.geb_leb in Hfull. apply Z.leb_gt in Hfull. lia.
  - simpl. pose proof (jsmap_delete_length k (LRU.cache c)). lia.
  - simpl. lia.
Qed.

(** What [render] does to the cache: nothing, a [get] of the key, or a
    [get] followed by a [set] of the key. *)
Lemma render_cache_effect w options e :
  ∃ ops, Engine.cache (Engine.render w options e).2 =
         (λ c, LRU.run c ops) <$> Engine.cache e.
Proof.
  destruct (Engine.URL_parse w (Engine.url options)) as [[p s]|] eqn:Hparse.
  2:{ unfold Engine.render, Engine.getCacheKey. rewrite Hparse. exists [].
      simpl. by destruct (Engine.cache e). }
  rewrite (render_equation w options e p s Hparse).
  destruct (consulted_cache options e) as [c|] eqn:Hcons;
    cbn [fmap option_fmap option_map].
  - assert (Hc : Engine.cache e = Some c ∧
                 default false (Engine.skipCache options) = false).
    { unfold consulted_cache in Hcons. by destruct (default false _). }
    destruct Hc as [Hc Hskip]. rewrite Hc. cbn [fmap option_fmap option_map].
    destruct (LRU.get (p +:+ s) c) as [o c1] eqn:Hget. cbn [fst snd].
    assert (Hc1 : c1 = LRU.run c [LRU.OpGet (p +:+ s)]) by (simpl; by rewrite Hget).
    set (e1 := engine_with_cache e c1).
    assert (Hmiss : ∃ ops,
      Engine.cache
        (match Engine.getDocument w (Engine.document options) e1 with
         | (Js.Returned document, e2) =>
             match Engine.renderApplication w document (p +:+ s) with
             | Js.Returned text =>
                 (Js.Returned (rendered_page text),
                  match consulted_cache options e2 with
                  | Some c0 =>
                      engine_with_cache e2
                        (LRU.set (p +:+ s) (entry_of w e2 (rendered_page text)) c0)
                  | None => e2
                  end)
             | Js.Thrown err => (Js.Returned (error_page w err), e2)
             end
         | (Js.Thrown err, e2) => (Js.Returned (error_page w err), e2)
         end).2 = Some (LRU.run c ops)).
    { pose proof (getDocument_frame w (Engine.document options) e1) as (Hc2 & _ & _).
      destruct (Engine.getDocument w (Engine.document options) e1)
        as [[document|err] e2]; cbn [snd] in *.
      2:{ exists [LRU.OpGet (p +:+ s)]. rewrite Hc2. simpl. by rewrite Hget. }
      destruct (Engine.renderApplication w document (p +:+ s)) as [text|err].
      2:{ exists [LRU.OpGet (p +:+ s)]. cbn [snd]. rewrite Hc2. simpl. by rewrite Hget. }
      rewrite (consulted_cache_Some options e2 c1) by done.
      exists [LRU.OpGet (p +:+ s);
              LRU.OpSet (p +:+ s) (entry_of w e2 (rendered_page text))].
      simpl. by rewrite Hget. }
    destruct o as [entry|]; [|exact Hmiss].
    destruct (Engine.isCacheValid w entry); [|exact Hmiss].
    exists [LRU.OpGet (p +:+ s)]. simpl. by rewrite Hget.
  - pose proof (getDocument_frame w (Engine.document options) e) as (Hc2 & _ & _).
    exists [].
    destruct (Engine.getDocument w (Engine.document options) e) as [[document|err] e2];
      cbn [snd] in *.
    2:{ rewrite Hc2. by destruct (Engine.cache e). }
    rewrite (consulted_cache_frame options e e2 Hc2), Hcons.
    destruct (Engine.renderApplication w document (p +:+ s)); cbn [snd]; rewrite Hc2;
      by destruct (Engine.cache e).
Qed.

(** Every call reaches the cache through the operations of [LRUCache]. *)
Lemma engine_step_cache_effect e call :
  ∃ ops, Engine.cache (EngineOps.step e call) = (λ c, LRU.run c ops) <$> Engine.cache e.
Proof.
  destruct call as [w options| |w]; cbn [EngineOps.step].
  - apply render_cache_effect.
  - exists [LRU.OpClear]. simpl. by destruct (Engine.cache e).
  - exists []. unfold EngineOps.reloadTemplate, Engine.bind, Engine.set_indexHtmlContent,
      Engine.loadIndexHtml. simpl.
    destruct (Engine.fs w (Engine.indexHtmlPath e)) as [node|].
    + unfold Engine.bind, Engine.lift.
      destruct (Engine.readFileSync node); simpl; by destruct (Engine.cache e).
    + simpl. by destruct (Engine.cache e).
Qed.

Lemma engine_run_cache_effect e calls :
  ∃ ops, Engine.cache (EngineOps.run e calls) = (λ c, LRU.run c ops) <$> Engine.cache e.
Proof.
  induction calls as [|call calls [ops IH]] using rev_ind.
  - exists []. simpl. by destruct (Engine.cache e).
  - unfold EngineOps.run in *. rewrite fold_left_app. simpl.
    destruct (engine_step_cache_effect (fold_left EngineOps.step calls e) call)
      as [ops' ->].
    rewrite IH. exists (ops ++ ops'). destruct (Engine.cache e); [|done]. simpl.
    unfold LRU.run. by rewrite fold_left_app.
Qed.

Lemma lru_bounded_run {T} (c : LRU.LRUCache T) ops :
  1 ≤ LRU.maxSize c → LRU.size c ≤ LRU.maxSize c →
  LRU.maxSize (LRU.run c ops) = LRU.maxSize c ∧
  LRU.size (LRU.run c ops) ≤ LRU.maxSize c.
Proof.
  intros HC Hsz. induction ops as [|o ops [IHmax IHsz]] using rev_ind; [done|].
  rewrite lru_run_snoc, lru_maxSize_step. split; [done|].
  rewrite <- IHmax. apply lru_bounded_step; by rewrite IHmax.
Qed.

Lemma engine_new_cache w0 eo e0 :
  Engine.new w0 eo = Js.Returned e0 →
  Engine.cache e0 =
    if default true (Engine.enableCache eo)
    then Some (LRU.new (default 100 (Engine.maxCacheSize eo))) else None.
Proof.
  unfold Engine.new, Engine.loadIndexHtml. simpl.
  destruct (Engine.fs w0 _) as [node|].
  - unfold Engine.bind, Engine.lift.
    destruct (Engine.readFileSync node); [|done]. simpl. by intros [= <-].
  - by intros [= <-].
Qed.

(** X12. However an engine is used after it was built, by renders in any
    worlds, [clearCache] and [reloadTemplate] calls, its cache stays
    within the configured capacity (100 when none is given):
    [getCacheStats] reports that [maxSize] and a [size] between 0 and it,
    and reports [null] exactly when the cache was switched off. *)
Theorem engine_cache_within_capacity w0 eo e0 calls :
  Engine.new w0 eo = Js.Returned e0 →
  1 ≤ default 100 (Engine.maxCacheSize eo) →
  match EngineOps.getCacheStats (EngineOps.run e0 calls) with
  | Some (size, maxSize) =>
      default true (Engine.enableCache eo) = true ∧
      maxSize = default 100 (Engine.maxCacheSize eo) ∧
      0 ≤ size ≤ maxSize
  | None => default true (Engine.enableCache eo) = false
  end.
Proof.
  intros Hnew HC. unfold EngineOps.getCacheStats.
  destruct (engine_run_cache_effect e0 calls) as [ops ->].
  rewrite (engine_new_cache w0 eo e0 Hnew).
  destruct (default true (Engine.enableCache eo)); [|done]. simpl.
  set (C := default 100 (Engine.maxCacheSize eo)) in *.
  destruct (lru_bounded_run (LRU.new (T:=Engine.CacheEntry) C) ops) as [Hmax Hsz].
  { simpl. lia. }
  { unfold LRU.size, JsMap.size. simpl. lia. }
  simpl in Hmax, Hsz. split; [done|]. split; [done|].
  unfold LRU.size, JsMap.size in *. lia.
Qed.
End EngineHistories.

Lemma engine_cache_within_capacity_witness :
  let w := DemoEngine.world in
  let calls :=
    [EngineOps.Render w (DemoEngine.request "/a");
     EngineOps.Render w (DemoEngine.request "/c");
     EngineOps.Render w (DemoEngine.request "/d")] in
  ∃ e0,
    Engine.new w DemoEngine2.options = Js.Returned e0 ∧
    1 ≤ default 100 (Engine.maxCacheSize DemoEngine2.options) ∧
    match EngineOps.getCacheStats (EngineOps.run e0 calls) with
    | Some (size, maxSize) =>
        default true (Engine.enableCache DemoEngine2.options) = true ∧
        maxSize = default 100 (Engine.maxCacheSize DemoEngine2.options) ∧
        0 ≤ size ≤ maxSize
    | None => default true (Engine.enableCache DemoEngine2.options) = false
    end.
Proof.
  intros w calls. eexists. split; [reflexivity|]. split; [simpl; lia|].
  apply (engine_cache_within_capacity w DemoEngine2.options _ calls);
    [reflexivity|simpl; lia].
Defined.

(** Three pages rendered by an engine with room for two. *)
Example engine_cache_stats_run :
  let w := DemoEngine.world in
  match Engine.new w DemoEngine2.options with
  | Js.Returned e0 =>
      let e := EngineOps.run e0
                 [EngineOps.Render w (DemoEngine.request "/a");
                  EngineOps.Render w (DemoEngine.request "/c");
                  EngineOps.Render w (DemoEngine.request "/d")] in
      (EngineOps.getCacheStats e, LRU.keys <$> Engine.cache e)
  | Js.Thrown _ => (None, None)
  end = (Some (2, 2), Some ["/c"; "/d"]).
Proof. vm_compute. reflexivity. Qed.

Section EngineMaintenance.
Implicit Types (w : Engine.World) (options : Engine.RenderOptions).
Implicit Types (e : Engine.BunAngularEngine) (c : LRU.LRUCache Engine.CacheEntry).

Lemma no_valid_entry_empty w options e key :
  (∀ c, Engine.cache e = Some c → LRU.cache c = []) →
  no_valid_entry w options e key.
Proof.
  intros Hempty c entry Hcons Hpeek. unfold consulted_cache in Hcons.
  destruct (default false _); [done|]. apply Hempty in Hcons.
  unfold LRU.peek in Hpeek. by rewrite Hcons in Hpeek.
Qed.

(** X13. [clearCache] empties the cache and keeps its capacity:
    [getCacheStats] reports size 0, no key holds an entry, and the next
    render, of whatever url, is not answered from the cache. *)
Theorem clearCache_forgets_all_pages w options e :
  let e1 := (EngineOps.clearCache e).2 in
  EngineOps.getCacheStats e1 = (λ c, (0, LRU.maxSize c)) <$> Engine.cache e ∧
  (∀ k, cached_entry k e1 = None) ∧
  match (Engine.render w options e1).1 with
  | Js.Returned r => Engine.fromCache r = false
  | Js.Thrown _ => True
  end.
Proof.
  intros e1. split_and!.
  - unfold EngineOps.getCacheStats, e1. simpl. by destruct (Engine.cache e).
  - intros k. unfold cached_entry, e1. simpl. by destruct (Engine.cache e).
  - destruct (Engine.URL_parse w (Engine.url options)) as [[p s]|] eqn:Hparse.
    2:{ unfold Engine.render, Engine.getCacheKey. by rewrite Hparse. }
    destruct (render_miss w options e1 p s Hparse) as (e2 & _ & _ & _ & _ & ->).
    { apply no_valid_entry_empty. unfold e1. simpl.
      destruct (Engine.cache e); [|done]. by intros c0 [= <-]. }
    destruct (Engine.getDocument w (Engine.document options) e2) as [[document|err] e3];
      [|done].
    by destruct (Engine.renderApplication w document (p +:+ s)).
Qed.

(** X14. [reload] of the server object re-reads the template and clears
    the cache.  When the file at [indexHtmlPath] is there and not empty,
    the render that follows is not answered from the cache and hands the
    file's present text to the renderer, whatever template and pages the
    engine held before. *)
Theorem server_reload_refreshes w options e node p s :
  Engine.fs w (Engine.indexHtmlPath e) = Some node →
  isDirectory node = false →
  content node ≠ EmptyString →
  Engine.URL_parse w (Engine.url options) = Some (p, s) →
  Engine.truthy (Engine.document options) = false →
  ∃ e1 e2,
    EngineOps.server_reload w e = (Js.Returned tt, e1) ∧
    EngineOps.getCacheStats e1 = (λ c, (0, LRU.maxSize c)) <$> Engine.cache e ∧
    Engine.indexHtmlContent e1 = Some (content node) ∧
    Engine.render w options e1 =
      (Js.Returned (fresh_result w (content node) (p +:+ s)), e2).
Proof.
  intros Hnode Hdir Hne Hparse Hcustom.
  set (e1 := {| Engine.indexHtmlPath := Engine.indexHtmlPath e;
                Engine.cache := LRU.clear <$> Engine.cache e;
                Engine.cacheTtl := Engine.cacheTtl e;
                Engine.indexHtmlContent := Some (content node) |}).
  assert (Hreload : EngineOps.server_reload w e = (Js.Returned tt, e1)).
  { unfold EngineOps.server_reload, EngineOps.reloadTemplate, Engine.bind,
      Engine.set_indexHtmlContent, Engine.loadIndexHtml. simpl. rewrite Hnode.
    unfold Engine.bind, Engine.lift, Engine.readFileSync. by rewrite Hdir. }
  assert (Hnone : no_valid_entry w options e1 (p +:+ s)).
  { apply no_valid_entry_empty. simpl. destruct (Engine.cache e); [|done].
    by intros c0 [= <-]. }
  destruct (render_with_held_template w options e1 p s (content node)
              Hparse Hnone Hcustom) as (e2 & Hrender).
  { simpl. by destruct (content node). }
  { reflexivity. }
  exists e1, e2. split; [exact Hreload|]. split; [|split; [reflexivity|exact Hrender]].
  unfold EngineOps.getCacheStats. simpl. by destruct (Engine.cache e).
Qed.
End EngineMaintenance.

Lemma server_reload_refreshes_witness :
  let w := DemoEngine.world in
  let options := DemoEngine.request "/about" in
  let e :=
    {| Engine.indexHtmlPath := "/srv/www/index.html";
       Engine.cache := Some (LRU.set "/about" DemoEngine.stale (LRU.new 100));
       Engine.cacheTtl := 300000;
       Engine.indexHtmlContent := Some "<html>outdated</html>" |} in
  Engine.fs w (Engine.indexHtmlPath e) = Demo.file 120 5000 "<html>home</html>" ∧
  Engine.URL_parse w (Engine.url options) = Some ("/about", EmptyString) ∧
  Engine.truthy (Engine.document options) = false ∧
  ∃ e1 e2,
    EngineOps.server_reload w e = (Js.Returned tt, e1) ∧
    EngineOps.getCacheStats e1 = (λ c, (0, LRU.maxSize c)) <$> Engine.cache e ∧
    Engine.indexHtmlContent e1 = Some "<html>home</html>" ∧
    Engine.render w options e1 =
      (Js.Returned (fresh_result w "<html>home</html>" "/about"), e2).
Proof.
  intros w options e. split; [reflexivity|]. split; [reflexivity|]. split; [reflexivity|].
  apply (server_reload_refreshes w options e
           {| isDirectory := false; size := 120; mtime := 5000;
              content := "<html>home</html>" |} "/about" EmptyString);
    try reflexivity. discriminate.
Defined.

(** ** Static files: what a lookup reports and what [serve] sends *)

Section StaticLookupReports.
Implicit Types (h : Static.BunStaticFileHandler) (w : Static.World).
Implicit Types (urlPath : string) (request : option Static.Request).

(** What a successful lookup has found. *)
Lemma lookup_found h w urlPath :
  let result := Static.lookup h w urlPath in
  Static.exists_ result = true →
  ∃ raw node,
    Static.filePath result =
      match Static.compressed result with
      | Some c => raw +:+ compression_suffix c
      | None => raw
      end ∧
    Static.fs w (Static.filePath result) = Some node ∧
    Static.stats result = Some (Static.statSync node) ∧
    Static.mimeType result = Static.getMimeType h raw ∧
    Static.cacheControl result =
      match Static.handler_cacheControl h with
      | Static.CacheControlFunction f => f raw
      | Static.CacheControlString text => text
      end.
Proof.
  unfold Static.lookup.
  destruct (Static.isExcluded h urlPath); [done|].
  destruct (_ || _); [done|].
  set (filePath := if _ && _ then _ else _).
  destruct (Static.compression h); simpl.
  - destruct (existsSync _ (_ +:+ ".br")) eqn:Hbr; simpl.
    { destruct (Static.fs w _) as [node|] eqn:Hnode; simpl; [|done]. intros _.
      exists filePath, node. by split_and!. }
    destruct (existsSync _ (_ +:+ ".gz")) eqn:Hgz; simpl.
    { destruct (Static.fs w _) as [node|] eqn:Hnode; simpl; [|done]. intros _.
      exists filePath, node. by split_and!. }
    destruct (Static.fs w filePath) as [node|] eqn:Hnode; simpl; [|done]. intros _.
    exists filePath, node. by split_and!.
  - destruct (Static.fs w filePath) as [node|] eqn:Hnode; simpl; [|done]. intros _.
    exists filePath, node. by split_and!.
Qed.

(** X15. What a lookup reports.  When it says [exists = true], the file
    path it returns is an entry of the file system, and the stats are
    that entry's size and modification time; when a compressed sibling
    was chosen, the path and the stats are the sibling's, while the MIME
    type and the cache policy are those of the original name, the path
    without the [.br] or [.gz] suffix.  When it says [exists = false],
    there are no stats, no compressed variant is named, and the cache
    policy is [no-cache]. *)
Theorem lookup_describes_file_on_disk h w urlPath :
  let result := Static.lookup h w urlPath in
  if Static.exists_ result then
    ∃ raw node,
      Static.filePath result =
        match Static.compressed result with
        | Some c => raw +:+ compression_suffix c
        | None => raw
        end ∧
      Static.fs w (Static.filePath result) = Some node ∧
      Static.stats result =
        Some {| Static.st_size := size node; Static.st_mtime := mtime node |} ∧
      Static.mimeType result = Static.getMimeType h raw ∧
      Static.cacheControl result =
        match Static.handler_cacheControl h with
        | Static.CacheControlFunction f => f raw
        | Static.CacheControlString text => text
        end
  else
    Static.stats result = None ∧
    Static.compressed result = None ∧
    Static.cacheControl result = "no-cache".
Proof.
  intros result. destruct (Static.exists_ result) eqn:Hex.
  { by apply lookup_found. }
  revert Hex. unfold result, Static.lookup.
  destruct (Static.isExcluded h urlPath); [done|].
  destruct (_ || _); [done|].
  set (filePath := if _ && _ then _ else _).
  destruct (if Static.compression h then _ else _) as [compressed actualPath].
  by destruct (Static.fs w _).
Qed.

(** X16. The validators do not depend on the encoding that is sent.  Two
    responses of [serve] for the same path carry the same [ETag] and the
    same [Last-Modified], whatever the requests accept; they are computed
    from the stats of the file the lookup chose, which is the compressed
    sibling when there is one, also when the body sent is the raw file. *)
Theorem serve_validators_ignore_encoding h w urlPath request1 request2 r1 r2 :
  Static.serve h w urlPath request1 = Some r1 →
  Static.serve h w urlPath request2 = Some r2 →
  let result := Static.lookup h w urlPath in
  ∃ node,
    Static.fs w (Static.filePath result) = Some node ∧
    Static.headers r1 !! "ETag" = Some (Static.etag_of (Static.statSync node)) ∧
    Static.headers r2 !! "ETag" = Some (Static.etag_of (Static.statSync node)) ∧
    Static.headers r1 !! "Last-Modified" = Some (Static.toUTCString w (mtime node)) ∧
    Static.headers r2 !! "Last-Modified" = Some (Static.toUTCString w (mtime node)).
Proof.
  intros Hserve1 Hserve2 result.
  pose proof (serve_Some_inv _ _ _ _ _ Hserve1) as Hex.
  destruct (lookup_found h w urlPath Hex) as (raw & node & _ & Hnode & Hs & _).
  fold result in Hnode, Hs.
  rewrite (serve_decisions h w urlPath request1 _ Hex Hs) in Hserve1.
  rewrite (serve_decisions h w urlPath request2 _ Hex Hs) in Hserve2.
  injection Hserve1 as <-. injection Hserve2 as <-.
  exists node. split; [done|]. unfold serve_headers. simpl.
  split_and!.
  - by rewrite lookup_insert_eq.
  - by rewrite lookup_insert_eq.
  - rewrite lookup_insert_ne by done. by rewrite lookup_insert_eq.
  - rewrite lookup_insert_ne by done. by rewrite lookup_insert_eq.
Qed.

(** X17. The headers a response of [serve] holds.  The computed [ETag]
    and [Last-Modified] are always sent: a custom header spelt exactly so
    is dropped, and one spelt in another letter case is sent along with
    the computed value, under the same name, so that the computed value
    stands alone exactly when no custom header respells the name.  Every
    other custom header is sent, except a custom [Content-Encoding].
    The [Content-Type] and [Cache-Control] of the lookup are sent exactly
    when no custom header is spelt so, beside whatever custom headers
    carry the name in any letter case. *)
Theorem serve_header_precedence h w urlPath request response :
  Static.serve h w urlPath request = Some response →
  let result := Static.lookup h w urlPath in
  let sent := Static.header_values (Static.headers response) in
  ∃ s, Static.stats result = Some s ∧
    (∀ v, v ∈ sent "ETag" ↔ v = Static.etag_of s ∨ respelt h "ETag" v) ∧
    ((∀ v, ¬ respelt h "ETag" v) → sent "ETag" = [Static.etag_of s]) ∧
    (∀ v, v ∈ sent "Last-Modified" ↔
          v = Static.toUTCString w (Static.st_mtime s) ∨ respelt h "Last-Modified" v) ∧
    ((∀ v, ¬ respelt h "Last-Modified" v) →
     sent "Last-Modified" = [Static.toUTCString w (Static.st_mtime s)]) ∧
    (∀ name value,
       Static.handler_headers h !! name = Some value →
       name ≠ "ETag" → name ≠ "Last-Modified" → name ≠ "Content-Encoding" →
       value ∈ sent name) ∧
    (∀ v, v ∈ sent "Content-Type" ↔
          Static.handler_headers h !! "Content-Type" = None ∧ v = Static.mimeType result ∨
          v ∈ Static.header_values (Static.handler_headers h) "Content-Type") ∧
    (∀ v, v ∈ sent "Cache-Control" ↔
          Static.handler_headers h !! "Cache-Control" = None ∧
            v = Static.cacheControl result ∨
          v ∈ Static.header_values (Static.handler_headers h) "Cache-Control").
Proof.
  intros Hserve result sent.
  pose proof (serve_Some_inv _ _ _ _ _ Hserve) as Hex.
  destruct (lookup_exists_stats _ _ _ Hex) as [s Hs].
  rewrite (serve_decisions h w urlPath request s Hex Hs) in Hserve.
  fold result in Hs. injection Hserve as <-.
  unfold sent. cbn [Static.headers]. fold result.
  set (headers := serve_headers h w result s (serve_useCompressed result request)).
  assert (Hin : ∀ k v, headers !! k = Some v ↔ _)
    by (intros k v; apply serve_headers_lookup).
  assert (Hcomputed : ∀ name computed,
    headers !! name = Some computed →
    (name = "ETag" ∨ name = "Last-Modified") →
    (∀ v, v ∈ Static.header_values headers name ↔ v = computed ∨ respelt h name v) ∧
    ((∀ v, ¬ respelt h name v) → Static.header_values headers name = [computed])).
  { intros name computed Hname Hwhich.
    assert (Hiff : ∀ v, v ∈ Static.header_values headers name ↔
                        v = computed ∨ respelt h name v).
    { intros v. rewrite elem_of_header_values. split.
      - intros (k & Hk & Hv). destruct (decide (k = name)) as [->|Hne].
        { left. congruence. }
        right. exists k. split; [done|]. split; [done|].
        apply Hin in Hv
          as [[-> _]|[[-> _]|[[-> _]|(_ & _ & _ & [Hv|[_ [[-> _]|[-> _]]]])]]];
          try done; by destruct Hwhich as [->| ->].
      - intros [->|(k & Hne & Hk & Hv)]; [by exists name|].
        exists k. split; [done|]. apply Hin. right; right; right.
        split_and!; [by destruct Hwhich as [->| ->]; intros ->..| |by left].
        by destruct Hwhich as [->| ->]; intros ->. }
    split; [exact Hiff|]. intros Hnone.
    apply (header_values_unique headers name name); [done|done|].
    intros k' v' Hv' Hk'. destruct (decide (k' = name)) as [|Hne]; [done|].
    assert (v' ∈ Static.header_values headers name) as [->|Hre]%Hiff
      by (apply elem_of_header_values; eauto).
    - destruct (Hnone computed). exists k'. split; [done|]. split; [done|].
      apply Hin in Hv'
        as [[-> _]|[[-> _]|[[-> _]|(_ & _ & _ & [Hv'|[_ [[-> _]|[-> _]]]])]]];
        try done; by destruct Hwhich as [->| ->].
    - by destruct (Hnone v'). }
  assert (Hdefault : ∀ name value,
    (name = "Content-Type" ∧ value = Static.mimeType result ∨
     name = "Cache-Control" ∧ value = Static.cacheControl result) →
    ∀ v, v ∈ Static.header_values headers name ↔
         Static.handler_headers h !! name = None ∧ v = value ∨
         v ∈ Static.header_values (Static.handler_headers h) name).
  { intros name value Hwhich v. rewrite !elem_of_header_values. split.
    - intros (k & Hk & Hv).
      apply Hin in Hv
        as [[-> _]|[[-> _]|[[-> _]|(_ & _ & _ & [Hv|[Hnone [[-> ->]|[-> ->]]]])]]];
        try (by destruct Hwhich as [[-> _]|[-> _]]).
      + right. by exists k.
      + left. by destruct Hwhich as [[-> ->]|[-> _]].
      + left. by destruct Hwhich as [[-> _]|[-> ->]].
    - intros [[Hnone ->]|(k & Hk & Hv)].
      + exists name. split; [done|]. apply Hin. right; right; right.
        split_and!; [by destruct Hwhich as [[-> _]|[-> _]]..| |].
        * by destruct Hwhich as [[-> _]|[-> _]].
        * right. split; [done|]. tauto.
      + exists k. split; [done|]. apply Hin. right; right; right.
        split_and!; [by destruct Hwhich as [[-> _]|[-> _]]; intros ->..| |by left].
        by destruct Hwhich as [[-> _]|[-> _]]; intros ->. }
  exists s. split; [done|].
  destruct (Hcomputed "ETag" (Static.etag_of s)) as [He1 He2];
    [apply Hin; by left|by left|].
  destruct (Hcomputed "Last-Modified" (Static.toUTCString w (Static.st_mtime s)))
    as [Hl1 Hl2]; [apply Hin; right; by left|by right|].
  split_and!; [exact He1|exact He2|exact Hl1|exact Hl2| | |].
  - intros name value Hcustom Hetag Hlm Hce.
    apply elem_of_header_values. exists name. split; [done|].
    apply Hin. right; right; right. by split_and!; [..|left].
  - apply (Hdefault "Content-Type" (Static.mimeType result)). by left.
  - apply (Hdefault "Cache-Control" (Static.cacheControl result)). by right.
Qed.

(** X18. [serve] answers 200 or 304 and nothing else.  It answers 304,
    with a null body, only to a request whose [If-None-Match] equals the
    entity tag, or whose [If-Modified-Since] is a non-empty text that
    parses to a date not before the modification time; every other
    request for an existing file gets 200 with a file as its body. *)
Theorem serve_not_modified_only_if_validated h w urlPath request response :
  Static.serve h w urlPath request = Some response →
  (Static.status response = 200 ∧ ∃ path, Static.body response = Some path) ∨
  (Static.status response = 304 ∧
   Static.body response = None ∧
   ∃ req s,
     request = Some req ∧
     Static.stats (Static.lookup h w urlPath) = Some s ∧
     (Static.headers_get "If-None-Match" req = Some (Static.etag_of s) ∨
      ∃ since t,
        Static.headers_get "If-Modified-Since" req = Some since ∧
        since ≠ EmptyString ∧
        Static.Date_parse w since = Some t ∧
        Static.st_mtime s ≤ t)).
Proof.
  intros Hserve.
  pose proof (serve_Some_inv _ _ _ _ _ Hserve) as Hex.
  destruct (lookup_exists_stats _ _ _ Hex) as [s Hs].
  rewrite (serve_decisions h w urlPath request s Hex Hs) in Hserve.
  injection Hserve as <-. simpl.
  destruct (serve_not_modified w s request) eqn:Hnm; [right|left; eauto].
  split; [done|]. split; [done|].
  unfold serve_not_modified in Hnm. destruct request as [req|]; [|done].
  exists req, s. split; [done|]. split; [done|].
  destruct (decide _) as [Hmatch|_]; [by left|]. right.
  destruct (Static.headers_get "If-Modified-Since" req) as [since|]; [|done].
  destruct (Str.is_empty since) eqn:Hempty; [done|].
  destruct (Static.Date_parse w since) as [t|] eqn:Hdate; [|done].
  exists since, t. split_and!; try done.
  - by intros ->.
  - by apply Z.leb_le.
Qed.
End StaticLookupReports.

(** A lookup that chooses the gzip sibling, typed as an image. *)
Example lookup_logo_run :
  let result := Static.lookup Demo.handler (Demo.world Demo.site) "/logo.svg" in
  (Static.filePath result, Static.compressed result, Static.mimeType result,
   Static.stats result)
  = ("/srv/www/logo.svg.gz", Some Static.gzip, "image/svg+xml",
     Some {| Static.st_size := 40; Static.st_mtime := 8000 |}).
Proof. vm_compute. reflexivity. Qed.

Lemma serve_validators_ignore_encoding_witness :
  let w := Demo.world Demo.site in
  match Static.serve Demo.handler w "/logo.svg" (Demo.request [("accept-encoding", "gzip")]),
        Static.serve Demo.handler w "/logo.svg" None with
  | Some r1, Some r2 =>
      Static.body r1 = Some "/srv/www/logo.svg.gz" ∧
      Static.body r2 = Some "/srv/www/logo.svg" ∧
      ∃ node,
        Demo.site (Static.filePath (Static.lookup Demo.handler w "/logo.svg")) = Some node ∧
        Static.headers r1 !! "ETag" = Some (Static.etag_of (Static.statSync node)) ∧
        Static.headers r2 !! "ETag" = Some (Static.etag_of (Static.statSync node)) ∧
        Static.headers r1 !! "Last-Modified" = Some (Static.toUTCString w (mtime node)) ∧
        Static.headers r2 !! "Last-Modified" = Some (Static.toUTCString w (mtime node))
  | _, _ => False
  end.
Proof.
  intros w.
  destruct (Static.serve Demo.handler w "/logo.svg"
              (Demo.request [("accept-encoding", "gzip")])) as [r1|] eqn:H1;
    [|by vm_compute in H1].
  destruct (Static.serve Demo.handler w "/logo.svg" None) as [r2|] eqn:H2;
    [|by vm_compute in H2].
  split; [vm_compute in H1; by injection H1 as <-|].
  split; [vm_compute in H2; by injection H2 as <-|].
  exact (serve_validators_ignore_encoding Demo.handler w "/logo.svg" _ _ r1 r2 H1 H2).
Defined.

Lemma serve_header_precedence_witness :
  let w := Demo.world Demo.site in
  let h := Static.new w
    {| Static.opt_root := "www"; Static.opt_index := None; Static.opt_compression := None;
       Static.opt_mimeTypes := None; Static.opt_cacheControl := None;
       Static.opt_headers :=
         Some (list_to_map [("Content-Type", "text/plain"); ("ETag", "custom");
                            ("last-modified", "never");
                            ("X-Frame-Options", "DENY")]);
       Static.opt_exclude := None; Static.opt_directoryListing := None |} in
  match Static.serve h w "/app.js" None with
  | Some response =>
      let result := Static.lookup h w "/app.js" in
      let sent := Static.header_values (Static.headers response) in
      ∃ s, Static.stats result = Some s ∧
        (∀ v, v ∈ sent "ETag" ↔ v = Static.etag_of s ∨ respelt h "ETag" v) ∧
        ((∀ v, ¬ respelt h "ETag" v) → sent "ETag" = [Static.etag_of s]) ∧
        (∀ v, v ∈ sent "Last-Modified" ↔
              v = Static.toUTCString w (Static.st_mtime s) ∨
              respelt h "Last-Modified" v) ∧
        ((∀ v, ¬ respelt h "Last-Modified" v) →
         sent "Last-Modified" = [Static.toUTCString w (Static.st_mtime s)]) ∧
        (∀ name value,
           Static.handler_headers h !! name = Some value →
           name ≠ "ETag" → name ≠ "Last-Modified" → name ≠ "Content-Encoding" →
           value ∈ sent name) ∧
        (∀ v, v ∈ sent "Content-Type" ↔
              Static.handler_headers h !! "Content-Type" = None ∧
                v = Static.mimeType result ∨
              v ∈ Static.header_values (Static.handler_headers h) "Content-Type") ∧
        (∀ v, v ∈ sent "Cache-Control" ↔
              Static.handler_headers h !! "Cache-Control" = None ∧
                v = Static.cacheControl result ∨
              v ∈ Static.header_values (Static.handler_headers h) "Cache-Control")
  | None => False
  end.
Proof.
  intros w h.
  destruct (Static.serve h w "/app.js" None) as [response|] eqn:Hserve;
    [|by vm_compute in Hserve].
  exact (serve_header_precedence h w "/app.js" None response Hserve).
Defined.

Lemma serve_not_modified_only_if_validated_witness :
  let w := Demo.world Demo.site in
  let request := Demo.request [("if-modified-since", "6000")] in
  match Static.serve Demo.handler w "/index.html" request with
  | Some response =>
      (Static.status response = 200 ∧ ∃ path, Static.body response = Some path) ∨
      (Static.status response = 304 ∧
       Static.body response = None ∧
       ∃ req s,
         request = Some req ∧
         Static.stats (Static.lookup Demo.handler w "/index.html") = Some s ∧
         (Static.headers_get "If-None-Match" req = Some (Static.etag_of s) ∨
          ∃ since t,
            Static.headers_get "If-Modified-Since" req = Some since ∧
            since ≠ EmptyString ∧
            Static.Date_parse w since = Some t ∧
            Static.st_mtime s ≤ t))
  | None => False
  end.
Proof.
  intros w request.
  destruct (Static.serve Demo.handler w "/index.html" request) as [response|] eqn:Hserve;
    [|by vm_compute in Hserve].
  exact (serve_not_modified_only_if_validated Demo.handler w "/index.html" request
           response Hserve).
Defined.

(** A custom [ETag] is overwritten, a custom [Content-Type] is not. *)
Example serve_custom_headers_run :
  let w := Demo.world Demo.site in
  let h := Static.new w
    {| Static.opt_root := "www"; Static.opt_index := None; Static.opt_compression := None;
       Static.opt_mimeTypes := None; Static.opt_cacheControl := None;
       Static.opt_headers :=
         Some (list_to_map [("Content-Type", "text/plain"); ("ETag", "custom")]);
       Static.opt_exclude := None; Static.opt_directoryListing := None |} in
  (λ response, (Static.headers response !! "Content-Type",
                Static.headers response !! "ETag"))
    <$> Static.serve h w "/index.html" None
  = Some (Some "text/plain", Some (Str.dq +:+ "120-5000" +:+ Str.dq)).
Proof. vm_compute. reflexivity. Qed.

(** A custom [etag] spelt in lower case is not overwritten: the response
    holds it next to the handler's value, under the one name. *)
Example serve_respelt_header_run :
  let w := Demo.world Demo.site in
  let h := Static.new w
    {| Static.opt_root := "www"; Static.opt_index := None; Static.opt_compression := None;
       Static.opt_mimeTypes := None; Static.opt_cacheControl := None;
       Static.opt_headers :=
         Some (list_to_map [("Content-Type", "text/plain"); ("etag", "custom")]);
       Static.opt_exclude := None; Static.opt_directoryListing := None |} in
  (λ response, (Static.header_values (Static.headers response) "content-type",
                Static.header_values (Static.headers response) "ETag"))
    <$> Static.serve h w "/index.html" None
  = Some (["text/plain"], ["custom"; Str.dq +:+ "120-5000" +:+ Str.dq]).
Proof. vm_compute. reflexivity. Qed.

Lemma render_skip_cache_leaves_cache_witness :
  let w := DemoEngine2.world_at 999 in
  let options :=
    {| Engine.url := "/about"; Engine.document := None; Engine.skipCache := Some true |} in
  let out := Engine.render w options DemoEngine.engine in
  Engine.skipCache options = Some true ∧
  Engine.cache out.2 = Engine.cache DemoEngine.engine ∧
  match out.1 with
  | Js.Returned r => Engine.fromCache r = false
  | Js.Thrown _ => True
  end.
Proof.
  intros w options out. split; [reflexivity|].
  apply (render_skip_cache_leaves_cache w options DemoEngine.engine). reflexivity.
Defined.

(** ** Static files: the guard of [lookup] and directory requests *)

Section StaticPaths.
Implicit Types (h : Static.BunStaticFileHandler) (w : Static.World).
Implicit Types (urlPath d name s : string) (rs ts l : list string).

(** An absolute path of plain segments resolves to itself. *)
Lemma resolve_abs_of cwd l :
  Forall good_segment l → Path.resolve cwd [abs_of l] = abs_of l.
Proof.
  intros Hl. unfold Path.resolve. simpl rev. simpl app.
  pose proof (abs_of_cons l) as [r Hr].
  assert (Hloop : Path.resolve_loop [abs_of l; cwd] EmptyString =
                  (abs_of l +:+ "/" +:+ EmptyString, true)).
  { simpl. rewrite Hr. reflexivity. }
  rewrite Hloop. simpl negb. unfold Path.normalizeString, Path.norm_segments.
  assert (Hsplit : Path.split (abs_of l +:+ "/" +:+ EmptyString) =
                   Path.split (abs_of l) ++ [EmptyString]).
  { unfold Path.split. change ("/" +:+ EmptyString) with (String Str.slash EmptyString).
    by rewrite split_on_app_sep. }
  rewrite Hsplit, norm_fold_no_dotdot.
  - rewrite filter_app, filter_real_split_abs_of by done.
    rewrite (filter_cons_False real_segment) by (unfold real_segment; tauto).
    rewrite filter_nil, !app_nil_r, rev_involutive. done.
  - intros s [Hs|Hs%list_elem_of_singleton]%elem_of_app; [|by subst].
    destruct (split_abs_of_elements l s Hl Hs) as [->|(_ & _ & _ & ?)]; done.
Qed.

Lemma strip_common_prefix rs ts : Path.strip_common rs (rs ++ ts) = ([], ts).
Proof.
  induction rs as [|r rs IH]; simpl; [by destruct ts|].
  by rewrite decide_True.
Qed.

(** The relative path from a directory to a path below it. *)
Lemma relative_below cwd rs ts :
  Forall good_segment rs → Forall good_segment ts →
  Path.relative cwd (abs_of rs) (abs_of (rs ++ ts)) = Str.join_with "/" ts.
Proof.
  intros Hrs Hts.
  assert (Hall : Forall good_segment (rs ++ ts)) by (by apply Forall_app).
  assert (Hsame : abs_of rs = abs_of (rs ++ ts) → ts = []).
  { intros Heq. apply (f_equal Path.segments) in Heq.
    rewrite !segments_abs_of in Heq by done.
    rewrite <- (app_nil_r rs) in Heq at 1. by apply app_inv_head in Heq. }
  unfold Path.relative. destruct (decide _) as [Heq|_].
  { by rewrite (Hsame Heq). }
  rewrite !resolve_abs_of by done. destruct (decide _) as [Heq|_].
  { by rewrite (Hsame Heq). }
  rewrite !segments_abs_of by done. by rewrite strip_common_prefix.
Qed.

Lemma url_segments_no_adjacent urlPath : Forall no_adjacent_dots (url_segments urlPath).
Proof.
  apply Forall_forall. intros s [_ Hs]%list_elem_of_filter.
  pose proof (split_on_no_adjacent Str.slash _
    (remove_dot_runs_from_no_adjacent Str.NoDot
       (Str.backslashes_to_slashes urlPath))) as Hall.
  rewrite Forall_forall in Hall. by apply Hall.
Qed.

(** A joined path whose first segment is a plain name does not start with
    two dots, nor with a slash. *)
Lemma join_with_plain_head ts :
  Forall good_segment ts → Forall no_adjacent_dots ts →
  Str.starts_with ".." (Str.join_with "/" ts) = false ∧
  Str.starts_with "/" (Str.join_with "/" ts) = false.
Proof.
  intros Hgood Hdots. destruct ts as [|x ts]; [done|].
  apply Forall_inv in Hgood as (Hslash & Hne & Hdot & _). apply Forall_inv in Hdots.
  assert (Hhead : ∃ rest, Str.join_with "/" (x :: ts) = x +:+ rest).
  { destruct ts; [exists EmptyString; by rewrite string_app_nil_r|]. by eexists. }
  destruct Hhead as [rest ->].
  destruct x as [|a x]; [done|]. rewrite string_app_cons.
  destruct Hslash as [Ha Hslash]. destruct Hdots as [Hrun _]. split.
  - simpl. case_bool_decide as Hdot1; [|done]. simpl. subst a.
    destruct x as [|b x]; [done|]. rewrite string_app_cons.
    case_bool_decide as Hdot2; [|done]. subst b. exfalso. by apply Hrun.
  - simpl. by rewrite bool_decide_eq_false_2 by (intros Heq; by apply Ha).
Qed.

(** The segments below the root of a resolved path. *)
Lemma resolveFilePath_segments h rs urlPath :
  Static.root h = abs_of rs → Forall good_segment rs →
  let ts := filter real_segment (url_segments urlPath) in
  Static.resolveFilePath h urlPath = abs_of (rs ++ ts) ∧
  Forall good_segment ts ∧ Forall no_adjacent_dots ts.
Proof.
  intros Hroot Hrs ts. pose proof (url_segments_ok urlPath) as Hsegs.
  fold (url_segments urlPath) in Hsegs. split_and!.
  - unfold Static.resolveFilePath. fold (url_segments urlPath).
    rewrite Hroot. by apply join_root_segments.
  - apply Forall_forall. intros s [Hreal Hs]%list_elem_of_filter.
    rewrite Forall_forall in Hsegs. destruct (Hsegs s Hs) as (? & ? & ?).
    unfold real_segment in Hreal. unfold good_segment. tauto.
  - apply Forall_forall. intros s [_ Hs]%list_elem_of_filter.
    pose proof (url_segments_no_adjacent urlPath) as Hall.
    rewrite Forall_forall in Hall. by apply Hall.
Qed.

Lemma lookup_guard_passes h w rs urlPath :
  Static.root h = abs_of rs → Forall good_segment rs →
  let relativePath :=
    Path.relative (Static.cwd w) (Static.root h) (Static.resolveFilePath h urlPath) in
  Str.starts_with ".." relativePath = false ∧ Str.starts_with "/" relativePath = false.
Proof.
  intros Hroot Hrs.
  destruct (resolveFilePath_segments h rs urlPath Hroot Hrs) as (-> & Hgood & Hdots).
  simpl. rewrite Hroot, relative_below by done. by apply join_with_plain_head.
Qed.

(** [lookup], once the exclusion list and the guard are passed. *)
Lemma lookup_unfold h w rs urlPath :
  Static.root h = abs_of rs → Forall good_segment rs →
  Static.isExcluded h urlPath = false →
  Static.lookup h w urlPath = lookup_at h w (examined_path h w urlPath).
Proof.
  intros Hroot Hrs Hexcl.
  destruct (lookup_guard_passes h w rs urlPath Hroot Hrs) as [Hdd Hslash].
  unfold Static.lookup. rewrite Hexcl. cbv zeta in Hdd, Hslash. by rewrite Hdd, Hslash.
Qed.

(** X19. The second guard of [lookup], which rejects a resolved path
    whose path relative to the root starts with [..] or with a slash,
    never fires: for a handler built by the constructor from an absolute
    working directory, and for every url path, that relative path starts
    with neither.  So a lookup answers [exists = false] only for an
    excluded path or a file that is not there: whenever the path is not
    excluded, the answer is the one for the examined path. *)
Theorem lookup_guard_never_fires w options urlPath :
  Path.isAbsolute (Static.cwd w) = true →
  let h := Static.new w options in
  let relativePath :=
    Path.relative (Static.cwd w) (Static.root h) (Static.resolveFilePath h urlPath) in
  Str.starts_with ".." relativePath = false ∧
  Str.starts_with "/" relativePath = false ∧
  (Static.isExcluded h urlPath = false →
   Static.lookup h w urlPath = lookup_at h w (examined_path h w urlPath)).
Proof.
  intros Hcwd h.
  destruct (resolve_abs (Static.cwd w) (Static.opt_root options) Hcwd) as (rs & Hrs & Hroot).
  change (Static.root h = abs_of rs) in Hroot.
  destruct (lookup_guard_passes h w rs urlPath Hroot Hrs) as [Hdd Hslash].
  split; [exact Hdd|]. split; [exact Hslash|].
  intros Hexcl. by apply (lookup_unfold h w rs).
Qed.
End StaticPaths.

Lemma lookup_guard_never_fires_witness :
  let w := Demo.world Demo.site in
  let h := Static.new w Demo.options in
  let urlPath := "/../..\secret.txt" in
  let relativePath :=
    Path.relative (Static.cwd w) (Static.root h) (Static.resolveFilePath h urlPath) in
  Path.isAbsolute (Static.cwd w) = true ∧
  Str.starts_with ".." relativePath = false ∧
  Str.starts_with "/" relativePath = false ∧
  (Static.isExcluded h urlPath = false →
   Static.lookup h w urlPath = lookup_at h w (examined_path h w urlPath)).
Proof.
  intros w h urlPath relativePath. split; [reflexivity|].
  apply (lookup_guard_never_fires w Demo.options urlPath). reflexivity.
Defined.

Section DirectoryIndex.
Implicit Types (h : Static.BunStaticFileHandler) (w : Static.World).
Implicit Types (urlPath d name s : string) (rs ts l : list string).

Lemma backslashes_to_slashes_app s1 s2 :
  Str.backslashes_to_slashes (s1 +:+ s2) =
  Str.backslashes_to_slashes s1 +:+ Str.backslashes_to_slashes s2.
Proof.
  induction s1 as [|a r IH]; [done|].
  rewrite string_app_cons. simpl. by rewrite IH.
Qed.

Lemma backslashes_to_slashes_id s :
  char_free "\"%char s → Str.backslashes_to_slashes s = s.
Proof.
  induction s as [|a r IH]; [done|]. intros [Ha Hr]. simpl.
  rewrite decide_False by done. by rewrite IH.
Qed.

(** A slash ends a run of dots. *)
Lemma remove_dot_runs_from_slash st s1 s2 :
  Str.remove_dot_runs_from st (s1 +:+ String Str.slash s2) =
  Str.remove_dot_runs_from st s1 +:+ String Str.slash (Str.remove_dot_runs_from Str.NoDot s2).
Proof.
  revert st. induction s1 as [|a r IH]; intros st.
  - rewrite string_app_nil_l. simpl. by destruct st.
  - rewrite string_app_cons. simpl. destruct (decide (a = Str.dot)).
    + destruct st; by rewrite IH.
    + destruct st; by rewrite IH.
Qed.

(** Text without two dots in a row passes the dot filter unchanged. *)
Lemma remove_dot_runs_from_id s :
  no_adjacent_dots s →
  Str.remove_dot_runs_from Str.NoDot s = s ∧
  (¬ starts_with_dot s →
   Str.remove_dot_runs_from Str.OneDot s = String Str.dot s).
Proof.
  induction s as [|a r IH]; [done|]. intros [Hrun Hr]. destruct (IH Hr) as [IH1 IH2].
  simpl. destruct (decide (a = Str.dot)) as [->|Hne].
  - split; [|by intros []]. rewrite IH2 by (by apply Hrun). done.
  - split; by rewrite IH1.
Qed.

Lemma url_segments_snoc d name :
  url_file_name name → url_segments (d +:+ "/" +:+ name) = url_segments d ++ [name].
Proof.
  intros (Hname & Hdots & Hback).
  destruct (is_file_name_good name Hname) as (Hslash & Hne & _).
  unfold url_segments. change ("/" +:+ name) with (String Str.slash name).
  rewrite backslashes_to_slashes_app. simpl.
  rewrite (backslashes_to_slashes_id name) by done.
  unfold Str.remove_dot_runs. rewrite remove_dot_runs_from_slash.
  rewrite (proj1 (remove_dot_runs_from_id name Hdots)).
  rewrite split_on_app_sep, (split_on_char_free Str.slash name) by done.
  unfold Str.filter_Boolean. rewrite filter_app.
  by rewrite (filter_cons_True (λ s, s ≠ EmptyString)) by done.
Qed.

Lemma resolveFilePath_snoc h rs d name :
  Static.root h = abs_of rs → Forall good_segment rs →
  url_file_name name →
  Static.resolveFilePath h (d +:+ "/" +:+ name) =
  Path.join [Static.resolveFilePath h d; name].
Proof.
  intros Hroot Hrs Hname. pose proof Hname as (Hfile & _ & _).
  pose proof (is_file_name_good name Hfile) as Hgood.
  destruct (resolveFilePath_segments h rs d Hroot Hrs) as (-> & Hts & _).
  destruct (resolveFilePath_segments h rs (d +:+ "/" +:+ name) Hroot Hrs) as (-> & _ & _).
  rewrite url_segments_snoc by done. rewrite filter_app.
  rewrite (filter_cons_True real_segment)
    by (destruct Hgood as (_ & ? & ? & _); unfold real_segment; tauto).
  rewrite filter_nil, app_assoc. symmetry. apply join_dir_file; [|done].
  by apply Forall_app.
Qed.

(** X20. A request for a directory is a request for its index file.  For
    a handler built by the constructor from an absolute working
    directory, whose index is a file name a url can spell (one segment,
    no backslash, no two dots in a row, as [index.html] is): when the url
    path [d] resolves to a directory, and the index file in it is not
    itself a directory, the lookup of [d] and the lookup of [d/index]
    give the same result, so [serve] sends the same response for both.
    Neither path is on the exclusion list. *)
Theorem lookup_directory_is_its_index w options d :
  Path.isAbsolute (Static.cwd w) = true →
  let h := Static.new w options in
  let explicit := d +:+ "/" +:+ Static.index h in
  url_file_name (Static.index h) →
  Static.isExcluded h d = false →
  Static.isExcluded h explicit = false →
  is_directory (Static.fs w) (Static.resolveFilePath h d) = true →
  is_directory (Static.fs w) (Static.resolveFilePath h explicit) = false →
  Static.lookup h w d = Static.lookup h w explicit ∧
  ∀ request, Static.serve h w d request = Static.serve h w explicit request.
Proof.
  intros Hcwd h explicit Hindex Hexcl1 Hexcl2 Hdir Hfile.
  destruct (resolve_abs (Static.cwd w) (Static.opt_root options) Hcwd) as (rs & Hrs & Hroot).
  change (Static.root h = abs_of rs) in Hroot.
  assert (Hsame : Static.lookup h w d = Static.lookup h w explicit).
  { rewrite (lookup_unfold h w rs d), (lookup_unfold h w rs explicit) by done.
    f_equal. unfold examined_path.
    rewrite Hdir, (is_directory_exists _ _ Hdir), Hfile, andb_false_r. simpl.
    symmetry. by apply (resolveFilePath_snoc h rs). }
  split; [exact Hsame|]. intros request. unfold Static.serve. by rewrite Hsame.
Qed.
End DirectoryIndex.

Lemma lookup_directory_is_its_index_witness :
  let w := Demo.world Demo.site in
  let h := Static.new w Demo.options in
  Path.isAbsolute (Static.cwd w) = true ∧
  url_file_name (Static.index h) ∧
  is_directory (Static.fs w) (Static.resolveFilePath h "/") = true ∧
  is_directory (Static.fs w) (Static.resolveFilePath h "//index.html") = false ∧
  Static.lookup h w "/" = Static.lookup h w "//index.html" ∧
  ∀ request, Static.serve h w "/" request = Static.serve h w "//index.html" request.
Proof.
  intros w h.
  assert (Hname : url_file_name (Static.index h)).
  { split; [reflexivity|]. split; [|by repeat split]. simpl. by repeat split. }
  split; [reflexivity|]. split; [exact Hname|].
  split; [vm_compute; reflexivity|]. split; [vm_compute; reflexivity|].
  apply (lookup_directory_is_its_index w Demo.options "/");
    [reflexivity|exact Hname|reflexivity|reflexivity|vm_compute; reflexivity
    |vm_compute; reflexivity].
Defined.

(** The root of the site and its index file, looked up. *)
Example lookup_root_run :
  let w := Demo.world Demo.site in
  (Static.filePath (Static.lookup Demo.handler w "/"),
   Static.filePath (Static.lookup Demo.handler w "/index.html"),
   Static.mimeType (Static.lookup Demo.handler w "/"))
  = ("/srv/www/index.html", "/srv/www/index.html", "text/html; charset=utf-8").
Proof. vm_compute. reflexivity. Qed.

(** ** The prerenderer: bookkeeping of a call *)

Section PrerenderBookkeeping.
Implicit Types (w : Prerender.World) (options : Prerender.PrerenderOptions).
Implicit Types (acc : Prerender.Tally * Prerender.State) (d : Prerender.Disk).
Implicit Types (task : Prerender.ExpandedRoute) (tasks : list Prerender.ExpandedRoute).

(** What [chunk] returns, when it returns, is a partition in order. *)
Lemma chunk_loop_Some_concat {T} fuel (array : list T) (size i : nat) chunks chunks' :
  Prerender.chunk_loop fuel array (Z.of_nat size) (Z.of_nat i) chunks = Some chunks' →
  (0 < size)%nat →
  concat chunks = take i array →
  concat chunks' = array.
Proof.
  intros Hloop Hsize. revert i chunks Hloop.
  induction fuel as [|fuel IH]; intros i chunks Hloop Hconcat; [done|].
  simpl in Hloop.
  destruct (Z.of_nat i <? Z.of_nat (length array)) eqn:Hlt.
  - apply Z.ltb_lt in Hlt.
    replace (Z.of_nat i + Z.of_nat size) with (Z.of_nat (i + size)) in Hloop by lia.
    apply (IH _ _ Hloop).
    rewrite concat_app, Hconcat. simpl. rewrite app_nil_r.
    replace (Z.of_nat (i + size)) with (Z.of_nat i + Z.of_nat size) by lia.
    rewrite slice_take_drop by lia.
    rewrite <- (take_drop i (take (i + size) array)).
    rewrite take_take, Nat.min_l by lia. f_equal.
    by rewrite <- take_drop_commute.
  - apply Z.ltb_ge in Hlt. injection Hloop as <-.
    rewrite Hconcat. apply take_ge. lia.
Qed.

Lemma chunk_Some_concat {T} fuel (array : list T) size chunks :
  Prerender.chunk fuel array size = Some chunks → concat chunks = array.
Proof.
  unfold Prerender.chunk. intros Hchunk.
  destruct (decide (size ≤ 0)) as [Hle|Hgt].
  - destruct array as [|x array].
    + destruct fuel; [done|]. simpl in Hchunk. by injection Hchunk as <-.
    + by rewrite chunk_loop_nonpositive in Hchunk.
  - replace size with (Z.of_nat (Z.to_nat size)) in Hchunk by lia.
    apply (chunk_loop_Some_concat fuel array (Z.to_nat size) 0 [] chunks Hchunk); [lia|done].
Qed.

Lemma filter_complement_length {A} (P : A → Prop) `{!∀ x, Decision (P x)} (l : list A) :
  (length (filter P l) + length (filter (λ x, ¬ P x) l) = length l)%nat.
Proof.
  induction l as [|x l IH]; [done|]. destruct (decide (P x)).
  - rewrite filter_cons_True by done. rewrite (filter_cons_False (λ x, ¬ P x)) by tauto.
    simpl. lia.
  - rewrite filter_cons_False by done. rewrite (filter_cons_True (λ x, ¬ P x)) by done.
    simpl. lia.
Qed.

Lemma reports_from_paths completed total tasks :
  (reports_from completed total tasks).*2 = Prerender.ex_path <$> tasks.
Proof.
  revert completed. induction tasks as [|task tasks IH]; intros completed; [done|].
  simpl. by rewrite IH.
Qed.

Lemma reports_from_numbers completed total tasks :
  (reports_from completed total tasks).*1 =
  (λ i : nat, (completed + 1 + Z.of_nat i, total)) <$> seq 0 (length tasks).
Proof.
  revert completed. induction tasks as [|task tasks IH]; intros completed; [done|].
  simpl. rewrite IH. f_equal; [f_equal; lia|].
  rewrite <- (fmap_S_seq 0), <- list_fmap_compose. apply list_fmap_ext.
  intros _ i _. simpl. f_equal. lia.
Qed.

(** X21. A result that [prerenderRoutes] returns adds up: [total] is the
    number of records, [success] and [failed] count the records with and
    without [success], and together make [total].  The progress callback
    was called once per record, in the order of the records, with the
    record's path, the counts 1, 2, ... and the same [total] every
    time. *)
Theorem prerender_result_adds_up fuel w options d res d' reports :
  Prerender.prerenderRoutes fuel w options d = Some (Js.Returned res, d', reports) →
  let records := Prerender.result_routes res in
  Prerender.total res = Z.of_nat (length records) ∧
  Prerender.success res =
    Z.of_nat (length (filter (λ r, Prerender.rec_success r = true) records)) ∧
  Prerender.failed res =
    Z.of_nat (length (filter (λ r, Prerender.rec_success r ≠ true) records)) ∧
  Prerender.total res = Prerender.success res + Prerender.failed res ∧
  reports.*2 = Prerender.rec_path <$> records ∧
  reports.*1 =
    (λ i : nat, (Z.of_nat i + 1, Prerender.total res)) <$> seq 0 (length records).
Proof.
  unfold Prerender.prerenderRoutes.
  destruct (Prerender.choose_engine w options) as [e|err]; [|done].
  destruct (Prerender.expand_all (Prerender.routes options)) as [expanded|err]; [|done].
  destruct (if Prerender.disk_exists d _ then _ else _) as [[[]|err] d0]; [|done].
  destruct (Prerender.chunk fuel expanded _) as [chunks|] eqn:Hchunk; [|done].
  apply chunk_Some_concat in Hchunk.
  destruct (Prerender.run_waves _ _ _ _ _) as [[tally|err] st] eqn:Hwaves; [|done].
  destruct (Prerender.write_sitemap _ _ _ _) as [[[]|err] d1]; [|done].
  intros [= <- <- <-]. simpl.
  destruct (run_waves_bookkeeping _ _ _ _ _ _ _ Hwaves)
    as (tasks & rs & (Hrs & Hpaths & Hsucc & Hfail & _ & Hprog) & Htasks).
  simpl in Hrs, Hsucc, Hfail, Hprog.
  assert (Hlen : length tasks = length expanded) by (by rewrite Htasks, Hchunk).
  assert (Hrecords : length rs = length expanded).
  { rewrite <- Hlen, <- (length_fmap Prerender.rec_path), Hpaths. apply length_fmap. }
  rewrite Hrs, Hsucc, Hfail, Hprog, Hrecords.
  split; [done|]. split; [lia|]. split; [lia|]. split.
  { pose proof (filter_complement_length (λ r, Prerender.rec_success r = true) rs).
    lia. }
  split; [by rewrite reports_from_paths, Hpaths|].
  rewrite reports_from_numbers, Hlen. apply list_fmap_ext. intros _ i _. f_equal. lia.
Qed.
End PrerenderBookkeeping.

Lemma prerender_result_adds_up_witness :
  let w := DemoPrerender.world DemoPrerender.last_first in
  let options := DemoPrerender.options ["/a"; "/b"; "/c"] "https://example.com" (Some 2) in
  match Prerender.prerenderRoutes 10 w options DemoPrerender.empty_disk with
  | Some (Js.Returned res, d', reports) =>
      let records := Prerender.result_routes res in
      Prerender.total res = Z.of_nat (length records) ∧
      Prerender.success res =
        Z.of_nat (length (filter (λ r, Prerender.rec_success r = true) records)) ∧
      Prerender.failed res =
        Z.of_nat (length (filter (λ r, Prerender.rec_success r ≠ true) records)) ∧
      Prerender.total res = Prerender.success res + Prerender.failed res ∧
      reports.*2 = Prerender.rec_path <$> records ∧
      reports.*1 =
        (λ i : nat, (Z.of_nat i + 1, Prerender.total res)) <$> seq 0 (length records)
  | _ => False
  end.
Proof.
  intros w options.
  destruct (Prerender.prerenderRoutes 10 w options DemoPrerender.empty_disk)
    as [[[[res|err] d'] reports]|] eqn:Hcall;
    [|by vm_compute in Hcall|by vm_compute in Hcall].
  exact (prerender_result_adds_up 10 w options DemoPrerender.empty_disk res d' reports
           Hcall).
Defined.

(** The progress reports of the run with [/a], [/b], [/c], two at a time,
    the last task of each wave running first. *)
Example prerender_progress_run :
  (λ out, match out with
          | Some (_, _, reports) => reports
          | None => []
          end)
    (Prerender.prerenderRoutes 10 (DemoPrerender.world DemoPrerender.last_first)
       (DemoPrerender.options ["/a"; "/b"; "/c"] "https://example.com" (Some 2))
       DemoPrerender.empty_disk)
  = [(1, 3, "/b"); (2, 3, "/a"); (3, 3, "/c")].
Proof. vm_compute. reflexivity. Qed.

(** ** The prerenderer: calls that end early *)

Section PrerenderEarly.
Implicit Types (w : Prerender.World) (options : Prerender.PrerenderOptions).
Implicit Types (d : Prerender.Disk) (routes : list Prerender.RouteSpec).

Lemma expand_all_app routes1 routes2 :
  Prerender.expand_all (routes1 ++ routes2) =
    match Prerender.expand_all routes1 with
    | Js.Returned first =>
        match Prerender.expand_all routes2 with
        | Js.Returned rest => Js.Returned (first ++ rest)
        | Js.Thrown err => Js.Thrown err
        end
    | Js.Thrown err => Js.Thrown err
    end.
Proof.
  induction routes1 as [|route routes1 IH].
  - simpl. by destruct (Prerender.expand_all routes2).
  - cbn [app Prerender.expand_all]. rewrite IH.
    destruct (match route with
              | Prerender.Literal _ => _
              | Prerender.Parameterized _ => _
              end) as [here|err]; [|done].
    destruct (Prerender.expand_all routes1) as [first|err]; [|done].
    destruct (Prerender.expand_all routes2) as [rest|err]; [|done].
    by rewrite app_assoc.
Qed.

Lemma expand_all_expands routes :
  Forall expands routes → ∃ tasks, Prerender.expand_all routes = Js.Returned tasks.
Proof.
  induction 1 as [|route routes Hroute _ [tasks IH]]; [by eexists|].
  cbn [Prerender.expand_all]. rewrite IH.
  destruct route as [path|route]; [by eexists|].
  unfold expands in Hroute. unfold Prerender.expandRoute.
  destruct (Prerender.getParams route) as [[paramSets|err]|]; [by eexists|done|by eexists].
Qed.

(** X22. A [getParams] that rejects aborts the call before anything is
    done.  Routes are expanded in order; when the first route whose
    expansion fails has a [getParams] rejecting with [err],
    [prerenderRoutes] rejects with [err]: the output directory is not
    created, nothing is written, no progress is reported, and the routes
    after it are not expanded.  The same holds, with the message
    [Either engine or engineOptions must be provided], when the options
    name no engine. *)
Theorem prerender_rejects_before_any_output fuel w options d :
  (Prerender.engine options = None → Prerender.engineOptions options = None →
   Prerender.prerenderRoutes fuel w options d =
     Some (Js.Thrown (Js.Error "Either engine or engineOptions must be provided"), d, [])) ∧
  (∀ e before path err after,
     Prerender.choose_engine w options = Js.Returned e →
     Prerender.routes options = before ++ rejecting_route path err :: after →
     Forall expands before →
     Prerender.prerenderRoutes fuel w options d = Some (Js.Thrown err, d, [])).
Proof.
  split.
  - intros He Heo. unfold Prerender.prerenderRoutes, Prerender.choose_engine.
    by rewrite He, Heo.
  - intros e before path err after He Hroutes Hbefore.
    unfold Prerender.prerenderRoutes. rewrite He, Hroutes, expand_all_app.
    destruct (expand_all_expands before Hbefore) as [tasks ->].
    by cbn [Prerender.expand_all rejecting_route Prerender.expandRoute Prerender.getParams].
Qed.

(** X23. With no routes to render, [prerenderRoutes] returns the empty
    result (total 0, success 0, failed 0, no records) for every
    concurrency, zero and negative ones included: the chunking loop has
    nothing to do.  The output directory is made if it was missing;
    no file is written, no sitemap either, and no progress is reported. *)
Theorem prerender_without_routes fuel w options d e :
  Prerender.routes options = [] →
  Prerender.choose_engine w options = Js.Returned e →
  Prerender.mkdir_error w (Prerender.outputDir options) = None →
  (0 < fuel)%nat →
  ∃ d',
    Prerender.prerenderRoutes fuel w options d =
      Some (Js.Returned {| Prerender.total := 0; Prerender.success := 0;
                           Prerender.failed := 0; Prerender.result_routes := [] |},
            d', []) ∧
    Prerender.written d' = Prerender.written d ∧
    Prerender.made d' =
      if Prerender.disk_exists d (Prerender.outputDir options) then Prerender.made d
      else Prerender.made d ++ [Prerender.outputDir options].
Proof.
  intros Hroutes He Hmk Hfuel. unfold Prerender.prerenderRoutes.
  rewrite He, Hroutes. cbn [Prerender.expand_all length].
  unfold Prerender.mkdir. rewrite Hmk.
  destruct fuel as [|fuel]; [lia|]. cbn [Prerender.chunk Prerender.chunk_loop length].
  rewrite Z.ltb_irrefl. cbn [Prerender.run_waves fst snd].
  unfold Prerender.write_sitemap. cbn [Prerender.tally_success].
  rewrite Z.ltb_irrefl, andb_false_r.
  destruct (Prerender.disk_exists d (Prerender.outputDir options)); by eexists.
Qed.
End PrerenderEarly.

Lemma prerender_without_routes_witness :
  let w := DemoPrerender.world DemoPrerender.in_order in
  let options := DemoPrerender.options [] "https://example.com" (Some 0) in
  Prerender.routes options = [] ∧
  Prerender.concurrency options = Some 0 ∧
  ∃ d',
    Prerender.prerenderRoutes 1 w options DemoPrerender.empty_disk =
      Some (Js.Returned {| Prerender.total := 0; Prerender.success := 0;
                           Prerender.failed := 0; Prerender.result_routes := [] |},
            d', []) ∧
    Prerender.written d' = Prerender.written DemoPrerender.empty_disk ∧
    Prerender.made d' =
      if Prerender.disk_exists DemoPrerender.empty_disk (Prerender.outputDir options)
      then Prerender.made DemoPrerender.empty_disk
      else Prerender.made DemoPrerender.empty_disk ++ [Prerender.outputDir options].
Proof.
  intros w options. split; [reflexivity|]. split; [reflexivity|].
  apply (prerender_without_routes 1 w options DemoPrerender.empty_disk DemoEngine.engine);
    [reflexivity|reflexivity|reflexivity|lia].
Defined.

(** A route list whose second route cannot be expanded. *)
Example prerender_rejecting_getParams_run :
  let options :=
    {| Prerender.engineOptions := None;
       Prerender.engine := Some DemoEngine.engine;
       Prerender.routes :=
         [Prerender.Literal "/a"; rejecting_route "/blog/:slug" (Js.Error "cms down");
          Prerender.Literal "/c"];
       Prerender.outputDir := "/out";
       Prerender.concurrency := None;
       Prerender.minify := None;
       Prerender.onError := None;
       Prerender.generateSitemap := None;
       Prerender.baseUrl := None |} in
  Prerender.prerenderRoutes 10 (DemoPrerender.world DemoPrerender.in_order) options DemoPrerender.empty_disk
  = Some (Js.Thrown (Js.Error "cms down"), DemoPrerender.empty_disk, []).
Proof. reflexivity. Qed.

(** ** The prerenderer: stopping, and the sitemap step *)

Section PrerenderStops.
Context (Inv : Engine.BunAngularEngine → Prop).
Implicit Types (w : Prerender.World) (options : Prerender.PrerenderOptions).
Implicit Types (acc : Prerender.Tally * Prerender.State) (d : Prerender.Disk).
Implicit Types (task : Prerender.ExpandedRoute) (tasks : list Prerender.ExpandedRoute).
Implicit Types (good : Prerender.ExpandedRoute → bool).

(** X24. When the error callback answers [false], a route that fails
    makes [prerenderRoutes] reject in the wave of that route.  Let the
    waves be the chunks of the expanded routes; the waves before [bad]
    hold only routes that render, and [bad] holds one that fails.  Then
    the call rejects, and this is what the caller finds at that moment,
    whatever the order in which the tasks of a wave take their turns.
    Progress has been reported for every route of the earlier waves and
    for the tasks [ran] of the wave [bad] that have settled, a task that
    fails among them.  The files written are the pages of the earlier
    waves and those of the tasks [landed] of the wave [bad]: tasks that
    render, among them every one that has settled.  No route of a later
    wave is rendered, and no sitemap is written.  (Tasks of the wave
    [bad] may still be under way at that moment.) *)
Theorem prerender_stops_in_failing_wave fuel w options d e expanded before bad after good :
  Prerender.choose_engine w options = Js.Returned e →
  Prerender.expand_all (Prerender.routes options) = Js.Returned expanded →
  Prerender.chunk fuel expanded (default 5 (Prerender.concurrency options)) =
    Some (before ++ bad :: after) →
  always_stops options →
  Inv e →
  classified Inv w good (concat before ++ bad) →
  (∀ task, task ∈ concat before → good task = true) →
  (∃ task, task ∈ bad ∧ good task = false) →
  (∀ p, Prerender.mkdir_error w p = None) →
  (∀ p, Prerender.writeFile_error w p = None) →
  ∃ err d' reports ws ran landed,
    Prerender.prerenderRoutes fuel w options d = Some (Js.Thrown err, d', reports) ∧
    ran ⊆+ bad ∧
    (∃ task, task ∈ ran ∧ good task = false) ∧
    reports.*2 ≡ₚ Prerender.ex_path <$> (concat before ++ ran) ∧
    landed ⊆+ filter (λ t, good t = true) bad ∧
    filter (λ t, good t = true) ran ⊆+ landed ∧
    Prerender.written d' = Prerender.written d ++ ws ∧
    ws.*1 ≡ₚ full_output options <$> (concat before ++ landed).
Proof.
  intros He Hexp Hchunk Hstop Hinv Hclass Hgood Hbad Hmk Hwr.
  unfold Prerender.prerenderRoutes. rewrite He, Hexp, Hchunk.
  set (d0 := with_output_dir w options d).
  assert (Hd0 : (if Prerender.disk_exists d (Prerender.outputDir options)
                 then (Js.Returned tt, d)
                 else Prerender.mkdir w (Prerender.outputDir options) d) =
                (Js.Returned tt, d0) ∧ Prerender.written d0 = Prerender.written d).
  { unfold d0, with_output_dir, Prerender.mkdir. rewrite Hmk.
    by destruct (Prerender.disk_exists d (Prerender.outputDir options)). }
  destruct Hd0 as [-> Hwritten0].
  set (total := Z.of_nat (length expanded)).
  fold (start_of e d0).
  destruct (run_waves_stop Inv w options total before bad after (start_of e d0) good
              Hstop Hclass Hgood Hbad Hinv Hmk Hwr)
    as (err & tally & st & order & rs & ws & wrote & ran & landed & -> &
        ((_ & _ & _ & _ & _ & Hprog) & _ & Hws & Hfiles) &
        Horder & Hwrote & Hran & Hfails & Hlanded & Hsettled).
  simpl in Hprog, Hws.
  exists err. eexists _, _, ws, ran, landed. split; [reflexivity|].
  split_and!; [done|done| |done|done| |].
  - by rewrite Hprog, reports_from_paths, Horder.
  - by rewrite Hws, <- Hwritten0.
  - rewrite Hfiles, Hwrote. f_equiv. f_equiv. apply Permutation_refl'.
    apply filter_all. intros t Ht. by apply Hgood.
Qed.

(** X25. No sitemap is written when sitemap generation is switched off,
    or when no route rendered.  With routes that are classified into
    those that always render and those that always fail, an error
    callback that never stops the batch, a valid concurrency and enough
    fuel: the call returns, [success] and [failed] count the two classes,
    and the files written are exactly the output files of the routes
    that render; in particular nothing at all is written when every
    route fails. *)
Theorem prerender_without_sitemap fuel w options d e expanded good :
  Prerender.choose_engine w options = Js.Returned e →
  Prerender.expand_all (Prerender.routes options) = Js.Returned expanded →
  (∀ c, Prerender.concurrency options = Some c → 1 ≤ c) →
  (length expanded < fuel)%nat →
  never_stops options →
  Inv e →
  classified Inv w good expanded →
  (∀ p, Prerender.mkdir_error w p = None) →
  (∀ p, Prerender.writeFile_error w p = None) →
  Prerender.generateSitemap options = Some false ∨
    (∀ task, task ∈ expanded → good task = false) →
  ∃ res d' reports ws,
    Prerender.prerenderRoutes fuel w options d = Some (Js.Returned res, d', reports) ∧
    Prerender.success res = Z.of_nat (length (filter (λ t, good t = true) expanded)) ∧
    Prerender.failed res = Z.of_nat (length (filter (λ t, good t ≠ true) expanded)) ∧
    Prerender.written d' = Prerender.written d ++ ws ∧
    ws.*1 ≡ₚ full_output options <$> filter (λ t, good t = true) expanded.
Proof.
  intros He Hexp Hc Hfuel Hgo Hinv Hclass Hmk Hwr Hoff.
  destruct (prerender_reaches_waves fuel w options d e expanded He Hexp (Hmk _) Hc Hfuel)
    as (chunks & d0 & Hconcat & Hd0 & ->).
  cbv zeta. fold (start_of e d0).
  destruct (run_waves_classified Inv w options (Z.of_nat (length expanded)) chunks
              (start_of e d0) good)
    as (tally & st & tasks & rs & ws & wrote & -> & (Hbook & Hfits & Hws & Hfiles) &
        Htasks & Hwrote); [done|by rewrite Hconcat|done|done|done|].
  rewrite Hconcat in Htasks, Hwrote.
  destruct Hbook as (_ & _ & Hsucc & Hfail & _ & _).
  destruct (record_fits_counts options good tasks rs Hfits) as [Hcount1 Hcount2].
  rewrite Hcount1 in Hsucc. rewrite Hcount2 in Hfail.
  simpl in Hsucc, Hfail, Hws.
  assert (Hnone : Prerender.write_sitemap w options tally (Prerender.disk st) =
                  (Js.Returned tt, Prerender.disk st)).
  { unfold Prerender.write_sitemap. destruct Hoff as [->|Hbad]; [done|].
    rewrite Hsucc, Htasks, (filter_none (λ t, good t = true)).
    - simpl. by rewrite andb_false_r.
    - intros t Ht. by rewrite (Hbad t Ht). }
  rewrite Hnone. eexists _, _, _, ws. split; [reflexivity|]. simpl.
  rewrite Hsucc, Hfail, Hws, Hd0, Hfiles, Hwrote, Htasks. by split_and!.
Qed.

(** X26. A base url that the [URL] constructor refuses makes the call
    reject at its very end.  With sitemap generation on (the default), an
    error callback that never stops the batch, and at least one route
    that renders: every route is attempted and reported, the pages of
    the routes that render are written, and then [prerenderRoutes]
    rejects, without a sitemap and without returning the result. *)
Theorem prerender_invalid_base_url_rejects fuel w options d e expanded good :
  Prerender.choose_engine w options = Js.Returned e →
  Prerender.expand_all (Prerender.routes options) = Js.Returned expanded →
  (∀ c, Prerender.concurrency options = Some c → 1 ≤ c) →
  (length expanded < fuel)%nat →
  never_stops options →
  Inv e →
  classified Inv w good expanded →
  (∀ p, Prerender.mkdir_error w p = None) →
  (∀ p, Prerender.writeFile_error w p = None) →
  default true (Prerender.generateSitemap options) = true →
  (∃ task, task ∈ expanded ∧ good task = true) →
  (∀ route, Prerender.URL_href w route
              (default "http://localhost" (Prerender.baseUrl options)) = None) →
  ∃ err d' reports ws,
    Prerender.prerenderRoutes fuel w options d = Some (Js.Thrown err, d', reports) ∧
    reports.*2 ≡ₚ Prerender.ex_path <$> expanded ∧
    Prerender.written d' = Prerender.written d ++ ws ∧
    ws.*1 ≡ₚ full_output options <$> filter (λ t, good t = true) expanded.
Proof.
  intros He Hexp Hc Hfuel Hgo Hinv Hclass Hmk Hwr Hon (task & Htask & Hgood) Hurl.
  destruct (prerender_reaches_waves fuel w options d e expanded He Hexp (Hmk _) Hc Hfuel)
    as (chunks & d0 & Hconcat & Hd0 & ->).
  cbv zeta. fold (start_of e d0).
  destruct (run_waves_classified Inv w options (Z.of_nat (length expanded)) chunks
              (start_of e d0) good)
    as (tally & st & tasks & rs & ws & wrote & -> & (Hbook & Hfits & Hws & Hfiles) &
        Htasks & Hwrote); [done|by rewrite Hconcat|done|done|done|].
  rewrite Hconcat in Htasks, Hwrote.
  destruct Hbook as (Hrs & _ & Hsucc & _ & _ & Hprog).
  destruct (record_fits_counts options good tasks rs Hfits) as [Hcount1 _].
  rewrite Hcount1 in Hsucc.
  simpl in Hsucc, Hws, Hrs, Hprog.
  assert (Hin : task ∈ filter (λ t, good t = true) tasks).
  { apply list_elem_of_filter. split; [done|]. by rewrite Htasks. }
  assert (Hpos : 0 < Prerender.tally_success tally).
  { rewrite Hsucc. destruct (filter (λ t, good t = true) tasks);
      [by apply elem_of_nil in Hin|simpl; lia]. }
  destruct (Forall2_record_of_task options good tasks rs task Hfits)
    as (r & Hr & _ & _ & Hsuccess & _).
  { by rewrite Htasks. }
  rewrite Hgood in Hsuccess.
  assert (Hsitemap : ∃ err,
    Prerender.write_sitemap w options tally (Prerender.disk st) =
      (Js.Thrown err, Prerender.disk st)).
  { unfold Prerender.write_sitemap. rewrite Hon, (proj2 (Z.ltb_lt _ _)) by done.
    simpl andb. cbv iota. unfold Prerender.generateSitemap_xml. rewrite Hrs.
    assert (Hr' : r ∈ filter (λ r, Prerender.rec_success r = true) rs)
      by (by apply list_elem_of_filter).
    destruct (filter (λ r, Prerender.rec_success r = true) rs) as [|r0 rest];
      [by apply elem_of_nil in Hr'|].
    rewrite fmap_cons. cbn [Prerender.hrefs]. rewrite Hurl. by eexists. }
  destruct Hsitemap as [err ->].
  exists err. eexists _, _, ws. split; [reflexivity|]. split_and!.
  - rewrite Hprog. by rewrite reports_from_paths, Htasks.
  - by rewrite Hws, Hd0.
  - by rewrite Hfiles, Hwrote.
Qed.
End PrerenderStops.

Section DemoClassified.

(** The routes [/a], [/b], [/c] of the examples, classified. *)
Lemma demo_classified order tasks :
  tasks ⊆ DemoPrerender2.task <$> ["/a"; "/b"; "/c"] →
  classified template_loaded (DemoPrerender.world order) DemoPrerender2.renders tasks.
Proof.
  intros Hsub task Htask. apply Hsub in Htask.
  apply elem_of_cons in Htask as [->|Htask];
    [by apply (demo_render_ok order "/a" "<html>/a</html>")|].
  apply elem_of_cons in Htask as [->|Htask];
    [by apply (demo_render_fails order "/b" (Js.Error "boom"))|].
  apply list_elem_of_singleton in Htask as ->.
  by apply (demo_render_ok order "/c" "<html>/c</html>").
Qed.
End DemoClassified.

Lemma prerender_stops_in_failing_wave_witness :
  let w := DemoPrerender.world (DemoPrerender.round_robin 8) in
  let options :=
    DemoPrerender2.options ["/a"; "/b"; "/c"] (Some 2) (λ _ _, false) None None in
  let d := DemoPrerender.empty_disk in
  let ta := DemoPrerender2.task "/a" in
  let tb := DemoPrerender2.task "/b" in
  let tc := DemoPrerender2.task "/c" in
  Prerender.chunk 10 [ta; tb; tc] (default 5 (Prerender.concurrency options)) =
    Some ([] ++ [ta; tb] :: [[tc]]) ∧
  always_stops options ∧
  ∃ err d' reports ws ran landed,
    Prerender.prerenderRoutes 10 w options d = Some (Js.Thrown err, d', reports) ∧
    ran ⊆+ [ta; tb] ∧
    (∃ task, task ∈ ran ∧ DemoPrerender2.renders task = false) ∧
    reports.*2 ≡ₚ Prerender.ex_path <$> (concat [] ++ ran) ∧
    landed ⊆+ filter (λ t, DemoPrerender2.renders t = true) [ta; tb] ∧
    filter (λ t, DemoPrerender2.renders t = true) ran ⊆+ landed ∧
    Prerender.written d' = Prerender.written d ++ ws ∧
    ws.*1 ≡ₚ full_output options <$> (concat [] ++ landed).
Proof.
  intros w options d ta tb tc.
  assert (Hstop : always_stops options) by (by intros err route).
  split; [reflexivity|]. split; [exact Hstop|].
  apply (prerender_stops_in_failing_wave template_loaded 10 w options d
           DemoEngine.engine [ta; tb; tc] [] [ta; tb] [[tc]] DemoPrerender2.renders).
  - reflexivity.
  - reflexivity.
  - reflexivity.
  - exact Hstop.
  - reflexivity.
  - apply demo_classified. intros t Ht. simpl in Ht. simpl.
    apply elem_of_cons in Ht as [->|Ht]; [by left|].
    apply list_elem_of_singleton in Ht as ->. right. by left.
  - intros t Ht. by apply elem_of_nil in Ht.
  - exists tb. split; [right; by left|reflexivity].
  - done.
  - done.
Defined.

(** Runs behind the witness, with what the caller finds when the call
    rejects: the message, the files written and the progress reports.
    The routes are [/a], [/b] and [/c], two at a time, and rendering [/b]
    fails; the tasks of the first wave take turns, [/a] first, and the
    caller resumes after 2, 8 or 10 turns.  After 2 turns [/b] has failed
    and nothing is written; after 8 the page of [/a] is written and not
    yet reported; after 10 it is reported.  [/c], in the second wave, is
    never rendered. *)
Example prerender_stop_run :
  (λ turns,
     match Prerender.prerenderRoutes 10
             (DemoPrerender.world (DemoPrerender.round_robin turns))
             (DemoPrerender2.options ["/a"; "/b"; "/c"] (Some 2) (λ _ _, false) None None)
             DemoPrerender.empty_disk with
     | Some (Js.Thrown err, d', reports) =>
         Some (Js.message_of err, (Prerender.written d').*1, reports)
     | _ => None
     end) <$> [2; 8; 10]%nat
  = [Some ("Render returned status 500", [], [(1, 3, "/b")]);
     Some ("Render returned status 500", ["/out/a/index.html"], [(1, 3, "/b")]);
     Some ("Render returned status 500", ["/out/a/index.html"],
           [(1, 3, "/b"); (2, 3, "/a")])].
Proof. vm_compute. reflexivity. Qed.

(** The same call when the tasks of a wave run one after the other: it
    rejects when [/b] settles, after [/a] or before it. *)
Example prerender_stop_in_order_run :
  (λ schedule,
     match Prerender.prerenderRoutes 10 (DemoPrerender.world schedule)
             (DemoPrerender2.options ["/a"; "/b"; "/c"] (Some 2) (λ _ _, false) None None)
             DemoPrerender.empty_disk with
     | Some (Js.Thrown err, d', reports) =>
         Some (Js.message_of err, (Prerender.written d').*1, reports)
     | _ => None
     end) <$> [DemoPrerender.in_order; DemoPrerender.last_first]
  = [Some ("Render returned status 500", ["/out/a/index.html"],
           [(1, 3, "/a"); (2, 3, "/b")]);
     Some ("Render returned status 500", ["/out/a/index.html"],
           [(1, 3, "/b"); (2, 3, "/a")])].
Proof. vm_compute. reflexivity. Qed.

Lemma prerender_without_sitemap_witness :
  let w := DemoPrerender.world DemoPrerender.in_order in
  let options :=
    DemoPrerender2.options ["/a"; "/b"; "/c"] None (λ _ _, true) (Some false) None in
  let d := DemoPrerender.empty_disk in
  let expanded := DemoPrerender2.task <$> ["/a"; "/b"; "/c"] in
  Prerender.generateSitemap options = Some false ∧
  never_stops options ∧
  ∃ res d' reports ws,
    Prerender.prerenderRoutes 10 w options d = Some (Js.Returned res, d', reports) ∧
    Prerender.success res =
      Z.of_nat (length (filter (λ t, DemoPrerender2.renders t = true) expanded)) ∧
    Prerender.failed res =
      Z.of_nat (length (filter (λ t, DemoPrerender2.renders t ≠ true) expanded)) ∧
    Prerender.written d' = Prerender.written d ++ ws ∧
    ws.*1 ≡ₚ full_output options <$>
               filter (λ t, DemoPrerender2.renders t = true) expanded.
Proof.
  intros w options d expanded.
  assert (Hgo : never_stops options) by (by intros err route).
  split; [reflexivity|]. split; [exact Hgo|].
  apply (prerender_without_sitemap template_loaded 10 w options d DemoEngine.engine
           expanded DemoPrerender2.renders).
  - reflexivity.
  - reflexivity.
  - intros c [=].
  - simpl. lia.
  - exact Hgo.
  - reflexivity.
  - by apply demo_classified.
  - done.
  - done.
  - by left.
Defined.

Lemma prerender_invalid_base_url_rejects_witness :
  let w := DemoPrerender.world DemoPrerender.in_order in
  let options :=
    DemoPrerender2.options ["/a"; "/b"; "/c"] None (λ _ _, true) None (Some "example.com") in
  let d := DemoPrerender.empty_disk in
  let expanded := DemoPrerender2.task <$> ["/a"; "/b"; "/c"] in
  default true (Prerender.generateSitemap options) = true ∧
  (∀ route, Prerender.URL_href w route
              (default "http://localhost" (Prerender.baseUrl options)) = None) ∧
  ∃ err d' reports ws,
    Prerender.prerenderRoutes 10 w options d = Some (Js.Thrown err, d', reports) ∧
    reports.*2 ≡ₚ Prerender.ex_path <$> expanded ∧
    Prerender.written d' = Prerender.written d ++ ws ∧
    ws.*1 ≡ₚ full_output options <$>
               filter (λ t, DemoPrerender2.renders t = true) expanded.
Proof.
  intros w options d expanded.
  assert (Hgo : never_stops options) by (by intros err route).
  assert (Hurl : ∀ route, Prerender.URL_href w route
              (default "http://localhost" (Prerender.baseUrl options)) = None).
  { intros route. simpl. unfold DemoPrerender.href_of_origin.
    by rewrite andb_false_r. }
  split; [reflexivity|]. split; [exact Hurl|].
  apply (prerender_invalid_base_url_rejects template_loaded 10 w options d
           DemoEngine.engine expanded DemoPrerender2.renders).
  - reflexivity.
  - reflexivity.
  - intros c [=].
  - simpl. lia.
  - exact Hgo.
  - reflexivity.
  - by apply demo_classified.
  - done.
  - done.
  - reflexivity.
  - exists (DemoPrerender2.task "/a"). split; [by left|reflexivity].
  - exact Hurl.
Defined.

(** ** The prerenderer: the size of the waves *)

Section ChunkSizes.
Context {T : Type}.
Implicit Types (array : list T) (chunks : list (list T)).

(** The chunks made so far are full as long as the index has not passed
    the end of the array; the last one may be shorter. *)
Lemma chunk_loop_sizes fuel array (size i : nat) chunks chunks' :
  (0 < size)%nat →
  Prerender.chunk_loop fuel array (Z.of_nat size) (Z.of_nat i) chunks = Some chunks' →
  Forall (λ c, (0 < length c ≤ size)%nat) chunks →
  ((i ≤ length array)%nat → Forall (λ c, length c = size) chunks) →
  (∀ j c, chunks !! j = Some c → (S j < length chunks)%nat → length c = size) →
  Forall (λ c, (0 < length c ≤ size)%nat) chunks' ∧
  (∀ j c, chunks' !! j = Some c → (S j < length chunks')%nat → length c = size).
Proof.
  intros Hsize. revert i chunks.
  induction fuel as [|fuel IH]; intros i chunks Hloop Hbound Hfull Hinner; [done|].
  simpl in Hloop.
  destruct (Z.of_nat i <? Z.of_nat (length array)) eqn:Hlt.
  - apply Z.ltb_lt in Hlt.
    replace (Z.of_nat i + Z.of_nat size) with (Z.of_nat (i + size)) in Hloop by lia.
    assert (Hslice : Prerender.slice array (Z.of_nat i) (Z.of_nat (i + size)) =
                     take size (drop i array)).
    { replace (Z.of_nat (i + size)) with (Z.of_nat i + Z.of_nat size) by lia.
      apply slice_take_drop; lia. }
    rewrite Hslice in Hloop.
    assert (Hlen : length (take size (drop i array)) = (size `min` (length array - i))%nat).
    { by rewrite length_take, length_drop. }
    apply (IH _ _ Hloop).
    + apply Forall_app. split; [done|]. constructor; [|done]. rewrite Hlen. lia.
    + intros Hle. apply Forall_app. split; [apply Hfull; lia|].
      constructor; [|done]. rewrite Hlen. lia.
    + intros j c Hj Hlast. rewrite length_app in Hlast. simpl in Hlast.
      assert (Hold : Forall (λ c, length c = size) chunks) by (apply Hfull; lia).
      rewrite lookup_app_l in Hj by lia.
      rewrite Forall_forall in Hold. apply Hold. by eapply list_elem_of_lookup_2.
  - injection Hloop as <-. by split.
Qed.

(** X27. A concurrency of one or more cuts the routes into waves in
    order: given fuel beyond the number of routes, [chunk] returns; the
    waves concatenated are the routes; no wave is empty and none holds
    more than [size] routes, so at most [size] renders are in flight at
    a time; every wave but the last holds exactly [size]. *)
Theorem chunk_waves_are_bounded fuel array size :
  1 ≤ size → (length array < fuel)%nat →
  ∃ chunks,
    Prerender.chunk fuel array size = Some chunks ∧
    concat chunks = array ∧
    Forall (λ c, 0 < Z.of_nat (length c) ≤ size) chunks ∧
    (∀ j c, chunks !! j = Some c → (S j < length chunks)%nat → Z.of_nat (length c) = size).
Proof.
  intros Hsize Hfuel.
  destruct (chunk_concat fuel array size Hsize Hfuel) as (chunks & Hchunk & Hconcat).
  exists chunks. split; [done|]. split; [done|].
  pose proof Hchunk as Hloop. unfold Prerender.chunk in Hloop.
  replace size with (Z.of_nat (Z.to_nat size)) in Hloop by lia.
  destruct (chunk_loop_sizes fuel array (Z.to_nat size) 0 [] chunks) as [Hbound Hinner];
    [lia|exact Hloop|done|done|by intros j c ?|].
  split.
  - eapply Forall_impl; [exact Hbound|]. intros c Hc. simpl in Hc. lia.
  - intros j c Hj Hlast. rewrite (Hinner j c Hj Hlast). lia.
Qed.
End ChunkSizes.

Lemma chunk_waves_are_bounded_witness :
  1 ≤ 3 ∧ (7 < 10)%nat ∧
  ∃ chunks,
    Prerender.chunk 10 ["/1"; "/2"; "/3"; "/4"; "/5"; "/6"; "/7"] 3 = Some chunks ∧
    concat chunks = ["/1"; "/2"; "/3"; "/4"; "/5"; "/6"; "/7"] ∧
    Forall (λ c, 0 < Z.of_nat (length c) ≤ 3) chunks ∧
    (∀ j c, chunks !! j = Some c → (S j < length chunks)%nat → Z.of_nat (length c) = 3).
Proof.
  split; [lia|]. split; [lia|].
  apply (chunk_waves_are_bounded 10 ["/1"; "/2"; "/3"; "/4"; "/5"; "/6"; "/7"] 3);
    simpl; lia.
Defined.

(** ** The prerenderer: output files *)

Section OutputFiles.
Implicit Types (s p r : string) (a b : ascii) (l : list string).

Lemma segments_slash r : Path.segments (String Str.slash r) = Path.segments r.
Proof.
  unfold Path.segments, Path.split, Str.filter_Boolean. simpl.
  by rewrite (filter_cons_False (λ s, s ≠ EmptyString)) by naive_solver.
Qed.

(** The first piece of a split is empty exactly for the empty text and
    for a text that starts with the separator. *)
Lemma split_on_head c s :
  ∃ h t, Str.split_on c s = h :: t ∧
         (h = EmptyString ↔ s = EmptyString ∨ ∃ r, s = String c r).
Proof.
  destruct s as [|a r]; simpl.
  - exists EmptyString, []. split; [done|]. split; [by left|done].
  - destruct (decide (a = c)) as [->|Hne].
    + eexists _, _. split; [done|]. split; [right; by eexists|done].
    + destruct (Str.split_on c r) as [|h t] eqn:Hr; eexists _, _; (split; [done|]);
        (split; [done|]); by intros [?|[? [= ? ?]]].
Qed.

Lemma segments_other a r :
  a ≠ Str.slash →
  Path.segments (String a r) =
    match r with
    | EmptyString => [String a EmptyString]
    | String b _ =>
        if decide (b = Str.slash) then String a EmptyString :: Path.segments r
        else match Path.segments r with
             | h :: t => String a h :: t
             | [] => [String a EmptyString]
             end
    end.
Proof.
  intros Hne. unfold Path.segments, Path.split, Str.filter_Boolean.
  cbn [Str.split_on]. rewrite decide_False by done.
  destruct r as [|b r']; [done|].
  destruct (split_on_head Str.slash (String b r')) as (h & t & Hsplit & Hh).
  rewrite Hsplit. rewrite (filter_cons_True (λ s, s ≠ EmptyString)) by done.
  destruct (decide (b = Str.slash)) as [->|Hb].
  - assert (h = EmptyString) as -> by (apply Hh; right; by eexists).
    by rewrite (filter_cons_False (λ s, s ≠ EmptyString)) by (intros Hx; by apply Hx).
  - assert (h ≠ EmptyString).
    { intros Heq. apply (proj1 Hh) in Heq as [?|[? [= ? ?]]]; done. }
    by rewrite (filter_cons_True (λ s, s ≠ EmptyString)) by done.
Qed.

Lemma ends_with_char_cons c a b r :
  Str.ends_with_char c (String a (String b r)) = Str.ends_with_char c (String b r).
Proof. done. Qed.

(** A non-empty text without segments is made of slashes. *)
Lemma segments_nil_ends_with_slash s :
  Path.segments s = [] → s ≠ EmptyString → Str.ends_with_char Str.slash s = true.
Proof.
  induction s as [|a r IH]; [done|]. intros Hsegs _.
  destruct (decide (a = Str.slash)) as [->|Hne].
  - rewrite segments_slash in Hsegs. destruct r as [|b r']; [done|].
    rewrite ends_with_char_cons. by apply IH.
  - rewrite segments_other in Hsegs by done.
    destruct r as [|b r']; [done|]. destruct (decide _); [done|].
    by destruct (Path.segments (String b r')).
Qed.

Lemma collapse_slashes_slash_slash r :
  StrMore.collapse_slashes (String Str.slash (String Str.slash r)) =
  StrMore.collapse_slashes (String Str.slash r).
Proof. reflexivity. Qed.

Lemma collapse_slashes_slash_other b r :
  b ≠ Str.slash →
  StrMore.collapse_slashes (String Str.slash (String b r)) =
  String Str.slash (StrMore.collapse_slashes (String b r)).
Proof.
  intros Hb.
  change (StrMore.collapse_slashes (String Str.slash (String b r)))
    with (if decide (b = Str.slash) then StrMore.collapse_slashes (String b r)
          else String Str.slash (StrMore.collapse_slashes (String b r))).
  by rewrite decide_False by done.
Qed.

Lemma collapse_slashes_other a r :
  a ≠ Str.slash →
  StrMore.collapse_slashes (String a r) = String a (StrMore.collapse_slashes r).
Proof.
  intros Ha.
  change (StrMore.collapse_slashes (String a r))
    with (if decide (a = Str.slash)
          then match r with
               | String b _ => if decide (b = Str.slash) then StrMore.collapse_slashes r
                               else String a (StrMore.collapse_slashes r)
               | EmptyString => String a EmptyString
               end
          else String a (StrMore.collapse_slashes r)).
  by rewrite decide_False by done.
Qed.

(** [replace(/\/+/g, '/')], by segments: the segments joined by single
    slashes, with a slash in front and one at the end where the text had
    some. *)
Lemma collapse_slashes_segments s :
  StrMore.collapse_slashes s =
    (if Str.starts_with "/" s then "/" else EmptyString) +:+
    Str.join_with "/" (Path.segments s) +:+
    (if Str.ends_with_char Str.slash s && bool_decide (Path.segments s ≠ [])
     then "/" else EmptyString).
Proof.
  induction s as [|a r IH]; [done|].
  destruct (decide (a = Str.slash)) as [->|Hne].
  - rewrite segments_slash. destruct r as [|b r']; [done|].
    rewrite ends_with_char_cons.
    destruct (decide (b = Str.slash)) as [->|Hb].
    + rewrite collapse_slashes_slash_slash, IH. done.
    + rewrite collapse_slashes_slash_other, IH by done.
      assert (Str.starts_with "/" (String b r') = false) as ->.
      { simpl. by rewrite (bool_decide_eq_false_2 (Str.slash = b)) by done. }
      done.
  - assert (Hstart : Str.starts_with "/" (String a r) = false).
    { simpl. by rewrite (bool_decide_eq_false_2 (Str.slash = a)) by done. }
    rewrite Hstart, string_app_nil_l.
    rewrite collapse_slashes_other, IH, segments_other by done.
    destruct r as [|b r'].
    { unfold Str.ends_with_char. simpl.
      by rewrite bool_decide_eq_false_2 by (intros [= ?]; done). }
    rewrite ends_with_char_cons.
    destruct (decide (b = Str.slash)) as [->|Hb].
    + assert (Str.starts_with "/" (String Str.slash r') = true) as -> by done.
      rewrite (bool_decide_eq_true_2 (_ :: _ ≠ [])) by done.
      rewrite andb_true_r.
      destruct (Path.segments (String Str.slash r')) as [|x l] eqn:Hsegs.
      * by rewrite (segments_nil_ends_with_slash _ Hsegs) by done.
      * rewrite (bool_decide_eq_true_2 (x :: l ≠ [])) by done. rewrite andb_true_r.
        change (Str.join_with "/" (String a EmptyString :: x :: l))
          with (String a EmptyString +:+ "/" +:+ Str.join_with "/" (x :: l)).
        by rewrite !string_app_cons, !string_app_nil_l.
    + assert (Str.starts_with "/" (String b r') = false) as ->.
      { simpl. by rewrite (bool_decide_eq_false_2 (Str.slash = b)) by done. }
      rewrite string_app_nil_l.
      destruct (split_on_head Str.slash (String b r')) as (h & t & Hsplit & Hh).
      assert (Hne' : h ≠ EmptyString).
      { intros Heq. apply (proj1 Hh) in Heq as [?|[? [= ? ?]]]; done. }
      assert (Hsegs : Path.segments (String b r') = h :: Str.filter_Boolean t).
      { unfold Path.segments, Path.split. rewrite Hsplit. unfold Str.filter_Boolean.
        by rewrite (filter_cons_True (λ s, s ≠ EmptyString)) by done. }
      rewrite Hsegs. rewrite !(bool_decide_eq_true_2 (_ :: _ ≠ [])) by done.
      destruct (Str.filter_Boolean t) as [|x l]; [done|].
      change (Str.join_with "/" (String a h :: x :: l))
        with (String a h +:+ "/" +:+ Str.join_with "/" (x :: l)).
      change (Str.join_with "/" (h :: x :: l))
        with (h +:+ "/" +:+ Str.join_with "/" (x :: l)).
      by rewrite !string_app_cons.
Qed.
Lemma drop_trailing_slash_added s : StrMore.drop_trailing_slash (s +:+ "/") = s.
Proof.
  induction s as [|a r IH]; [done|].
  rewrite string_app_cons. destruct r as [|b r']; [done|].
  rewrite string_app_cons in *.
  change (StrMore.drop_trailing_slash (String a (String b (r' +:+ "/"))))
    with (String a (StrMore.drop_trailing_slash (String b (r' +:+ "/")))).
  by rewrite IH.
Qed.

Lemma drop_trailing_slash_none s :
  Str.ends_with_char Str.slash s = false → StrMore.drop_trailing_slash s = s.
Proof.
  induction s as [|a r IH]; [done|]. destruct r as [|b r'].
  - unfold Str.ends_with_char. simpl. intros Ha%bool_decide_eq_false.
    rewrite decide_False; [done|]. by intros ->.
  - rewrite ends_with_char_cons. intros Hr.
    change (StrMore.drop_trailing_slash (String a (String b r')))
      with (String a (StrMore.drop_trailing_slash (String b r'))).
    by rewrite IH.
Qed.

Lemma segments_elements p :
  Forall (λ s, char_free Str.slash s ∧ s ≠ EmptyString) (Path.segments p).
Proof.
  apply Forall_forall. intros s [Hne Hs]%list_elem_of_filter. split; [|done].
  pose proof (split_on_elements Str.slash p) as Hall.
  rewrite Forall_forall in Hall. by apply Hall.
Qed.

(** X28. The output file of a route is [index.html] under the route's
    non-empty segments: a missing leading slash, repeated slashes and a
    trailing slash make no difference, and the root goes to [/index.html]. *)
Theorem pathToOutputFile_by_segments p :
  Prerender.pathToOutputFile p = abs_of (Path.segments p ++ ["index.html"]).
Proof.
  unfold Prerender.pathToOutputFile, Prerender.normalizePath. cbv zeta.
  set (q := if Str.starts_with "/" p then p else "/" +:+ p).
  assert (Hstart : Str.starts_with "/" q = true).
  { unfold q. destruct (Str.starts_with "/" p) eqn:Hp; [done|].
    by rewrite string_app_cons. }
  assert (Hsegs : Path.segments q = Path.segments p).
  { unfold q. destruct (Str.starts_with "/" p); [done|].
    rewrite string_app_cons, string_app_nil_l. apply segments_slash. }
  rewrite collapse_slashes_segments, Hstart, Hsegs.
  pose proof (segments_elements p) as Hall.
  destruct (decide (Path.segments p = [])) as [Hnil|Hne].
  { rewrite Hnil. rewrite (bool_decide_eq_false_2 ([] ≠ [])) by (intros H; by apply H).
    by rewrite andb_false_r. }
  rewrite (bool_decide_eq_true_2 (Path.segments p ≠ [])) by done.
  rewrite andb_true_r.
  destruct (exists_last Hne) as (l & x & Hl). rewrite Hl in *.
  apply Forall_app in Hall as [_ [Hfree Hx]%Forall_inv].
  assert (Hend : Str.ends_with_char Str.slash (abs_of (l ++ [x])) = false).
  { destruct (join_with_last l x) as [r Hr]. unfold abs_of. rewrite Hr.
    rewrite <- string_app_assoc.
    unfold Str.ends_with_char. rewrite last_char_app by done.
    apply bool_decide_eq_false_2. by apply last_char_char_free. }
  assert (Hnot : ∀ suf, "/" +:+ Str.join_with "/" (l ++ [x]) +:+ suf ≠ "/").
  { intros suf. destruct (join_with_last l x) as [r ->].
    rewrite string_app_cons, string_app_nil_l. intros [= Heq].
    destruct r; [|done]. destruct x; done. }
  rewrite decide_False by apply Hnot.
  assert (Hclean :
    StrMore.drop_trailing_slash
      ("/" +:+ Str.join_with "/" (l ++ [x]) +:+
       (if Str.ends_with_char Str.slash q then "/" else EmptyString)) =
    abs_of (l ++ [x])).
  { destruct (Str.ends_with_char Str.slash q).
    - rewrite <- string_app_assoc. apply drop_trailing_slash_added.
    - rewrite string_app_nil_r. by apply drop_trailing_slash_none. }
  rewrite Hclean. unfold abs_of.
  rewrite (join_with_snoc "/" (l ++ [x]) "index.html") by (by destruct l).
  by rewrite !string_app_assoc.
Qed.

(** The routes of a site, spelt loosely. *)
Example pathToOutputFile_run :
  Prerender.pathToOutputFile <$> ["/"; ""; "about"; "/about/"; "//blog///first-post//"] =
  ["/index.html"; "/index.html"; "/about/index.html"; "/about/index.html";
   "/blog/first-post/index.html"].
Proof. reflexivity. Qed.

End OutputFiles.

(** ** The request handler *)

Section HandlerFacts.
Implicit Types (h : Handler.RequestHandler) (w : Handler.World).
Implicit Types (request : Handler.Request) (e : Engine.BunAngularEngine).

(** The [try] block: what the static handler throws or answers, else a
    render. *)
Lemma attempt_by_static_response h w request :
  Handler.attempt h w request =
    match static_response h w request with
    | Js.Thrown err => Engine.throw err
    | Js.Returned (Some response) => Engine.ret response
    | Js.Returned None => Handler.ssr h w request
    end.
Proof.
  unfold Handler.attempt, static_response, Engine.bind, Engine.lift.
  destruct (Handler.file_step h w request) as [[response|]|err]; [done| |done].
  destruct (Handler.page_step h w request) as [[response|]|err]; [done| |done].
  by destruct (Handler.shell_step h w request) as [[response|]|err].
Qed.

(** An answer of the static handler leaves the engine alone. *)
Lemma handler_static h w request e response :
  static_response h w request = Js.Returned (Some response) →
  Handler.handler h w request e = (Js.Returned response, e).
Proof.
  intros Hs. unfold Handler.handler, Engine.try_catch.
  by rewrite attempt_by_static_response, Hs.
Qed.

(** [render] throws only for a url it cannot parse. *)
Lemma render_Thrown_inv (ew : Engine.World) options e err e' :
  Engine.render ew options e = (Js.Thrown err, e') →
  Engine.URL_parse ew (Engine.url options) = None.
Proof.
  destruct (Engine.URL_parse ew (Engine.url options)) as [[p s]|] eqn:Hparse; [|done].
  rewrite (render_equation ew options e p s Hparse). cbv zeta.
  destruct (match LRU.get (p +:+ s) <$> consulted_cache options e with
            | Some (Some entry, _) =>
                if Engine.isCacheValid ew entry then Some entry else None
            | _ => None
            end); [done|].
  destruct (Engine.getDocument ew (Engine.document options) _) as [[document|] e2]; [|done].
  by destruct (Engine.renderApplication ew document (p +:+ s)).
Qed.

(** X29. The promise the handler returns rejects only through [onError].
    When it rejects, an [Error] was thrown inside the [try] block, the
    callback was called with it, and the callback threw or rejected in
    turn.  The [Error] came from one of four places: the static handler
    threw while serving; or the static handler had no answer and
    [getProviders] threw; or the url of the request, path and query, is
    one the engine cannot parse, so that [render] threw; or the render
    returned a status outside 200..599, which the [Response] constructor
    refuses.  Without [onError], and for a thrown value that is not an
    [Error], every request is answered. *)
Theorem handler_rejects_only_through_onError h w request e :
  match (Handler.handler h w request e).1 with
  | Js.Returned _ => True
  | Js.Thrown err =>
      ∃ f message,
        Handler.onError (Handler.options h) = Some f ∧
        f message request = Js.Thrown err ∧
        (static_response h w request = Js.Thrown (Js.Error message) ∨
         static_response h w request = Js.Returned None ∧
         (Handler.providers h request = Js.Thrown (Js.Error message) ∨
          Handler.providers h request = Js.Returned tt ∧
          (Engine.URL_parse (Handler.engine_world w)
             (Handler.req_pathname request +:+ Handler.req_search request) = None ∨
           ∃ result e',
             Engine.render (Handler.engine_world w) (Handler.render_options request) e =
               (Js.Returned result, e') ∧
             ¬ (200 ≤ Engine.status result ≤ 599) ∧
             message = Handler.status_range_message w)))
  end.
Proof.
  unfold Handler.handler, Engine.try_catch.
  rewrite attempt_by_static_response.
  assert (Hcatch : ∀ error e1 (cause : string → Prop),
    (∀ message, error = Js.Error message → cause message) →
    match (Handler.on_thrown h request error e1).1 with
    | Js.Returned _ => True
    | Js.Thrown err =>
        ∃ f message,
          Handler.onError (Handler.options h) = Some f ∧
          f message request = Js.Thrown err ∧ cause message
    end).
  { intros error e1 cause Hcause. unfold Handler.on_thrown.
    destruct (Handler.onError (Handler.options h)) as [f|]; [|done].
    destruct error as [message|]; [|done].
    unfold Engine.lift. cbn [fst].
    destruct (f message request) as [response|err] eqn:Hcall; [done|].
    exists f, message. split; [done|]. split; [done|]. by apply Hcause. }
  destruct (static_response h w request) as [[response|]|error] eqn:Hs.
  - done.
  - unfold Handler.ssr, Engine.bind, Engine.lift.
    destruct (Handler.providers h request) as [[]|error] eqn:Hproviders.
    + destruct (Engine.render (Handler.engine_world w) (Handler.render_options request) e)
        as [[result|error] e'] eqn:Hrender.
      * unfold Handler.ssr_response.
        destruct ((200 <=? Engine.status result) && (Engine.status result <=? 599))
          eqn:Hrange; [done|].
        apply Hcatch. intros message [= <-]. right. split; [done|]. right.
        split; [done|]. right. exists result, e'. split; [done|]. split; [|done].
        intros [Hlow Hhigh].
        apply Z.leb_le in Hlow, Hhigh. by rewrite Hlow, Hhigh in Hrange.
      * apply Hcatch. intros message _. right. split; [done|]. right. split; [done|].
        left. by apply render_Thrown_inv in Hrender.
    + apply Hcatch. intros message ->. right. split; [done|]. by left.
  - apply Hcatch. intros message ->. by left.
Qed.

(** X30. Two requests for the same path and query that the static handler
    does not answer: when the first was answered inside the [try] block
    with status 200 and [X-Cache-Hit: false], and the second is handled
    before that page expires, the second is answered with the same body,
    status 200 and [X-Cache-Hit: true]. *)
Theorem handler_repeated_request_hits_cache h w1 w2 request e
    (c : LRU.LRUCache Engine.CacheEntry) r1 e1 :
  static_response h w1 request = Js.Returned None →
  static_response h w2 request = Js.Returned None →
  Engine.cache e = Some c →
  Engine.URL_parse (Handler.engine_world w2) (Engine.url (Handler.render_options request)) =
  Engine.URL_parse (Handler.engine_world w1) (Engine.url (Handler.render_options request)) →
  Handler.attempt h w1 request e = (Js.Returned r1, e1) →
  Handler.status r1 = 200 →
  Handler.headers r1 !! "X-Cache-Hit" = Some "false" →
  Engine.now_at_check (Handler.engine_world w2) <
    Engine.now_at_expiry (Handler.engine_world w1) + Engine.cacheTtl e →
  ∃ r2 e2,
    Handler.handler h w2 request e1 = (Js.Returned r2, e2) ∧
    Handler.status r2 = 200 ∧
    Handler.body r2 = Handler.body r1 ∧
    Handler.headers r2 !! "X-Cache-Hit" = Some "true".
Proof.
  intros Hs1 Hs2 Hc Hurl Hatt Hstatus Hhit Hnow.
  rewrite attempt_by_static_response, Hs1 in Hatt.
  unfold Handler.ssr, Engine.bind, Engine.lift in Hatt.
  destruct (Handler.providers h request) as [[]|] eqn:Hproviders; [|done].
  destruct (Engine.render (Handler.engine_world w1) (Handler.render_options request) e)
    as [[result|] e'] eqn:Hrender; [|done].
  unfold Handler.ssr_response in Hatt.
  destruct ((200 <=? Engine.status result) && (Engine.status result <=? 599)); [|done].
  injection Hatt as <- <-. cbn [Handler.status Handler.headers Handler.body] in *.
  rewrite lookup_insert_eq in Hhit.
  destruct (Engine.fromCache result) eqn:Hfresh; [done|].
  destruct (Engine.URL_parse (Handler.engine_world w1)
              (Engine.url (Handler.render_options request))) as [[p s]|] eqn:Hparse.
  2: { unfold Engine.render, Engine.bind, Engine.lift, Engine.getCacheKey in Hrender.
       by rewrite Hparse in Hrender. }
  destruct (render_fresh_is_stored _ _ e c p s result e' Hparse Hc eq_refl
              Hrender Hfresh Hstatus) as (c' & Hc' & _ & Hpeek).
  pose proof (render_hit (Handler.engine_world w2) (Handler.render_options request)
                e' c' p s _ Hurl Hc' eq_refl Hpeek Hnow) as Hsecond.
  unfold Handler.handler, Engine.try_catch.
  rewrite attempt_by_static_response, Hs2.
  unfold Handler.ssr, Engine.bind, Engine.lift.
  rewrite Hproviders, Hsecond. unfold Handler.ssr_response. simpl.
  do 2 eexists. split; [reflexivity|]. simpl.
  split; [done|]. split; [done|]. by rewrite lookup_insert_eq.
Qed.
End HandlerFacts.

Lemma handler_repeated_request_hits_cache_witness :
  let h := DemoHandler.built None in
  let w1 := DemoHandler.world_at 1000 in
  let w2 := DemoHandler.world_at 300999 in
  let request := DemoHandler.get "/about" "?x=1" in
  let e := DemoEngine2.fresh in
  let out := Handler.attempt h w1 request e in
  let r1 :=
    {| Handler.status := 200;
       Handler.headers :=
         <["X-Cache-Hit" := "false"]>
           (<["X-Render-Time" := "1.50ms"]>
              (Engine.headers (rendered_page "<html>/about?x=1</html>")));
       Handler.body := Handler.TextBody "<html>/about?x=1</html>" |} in
  static_response h w1 request = Js.Returned None ∧
  static_response h w2 request = Js.Returned None ∧
  out = (Js.Returned r1, out.2) ∧
  ∃ r2 e2,
    Handler.handler h w2 request out.2 = (Js.Returned r2, e2) ∧
    Handler.status r2 = 200 ∧
    Handler.body r2 = Handler.TextBody "<html>/about?x=1</html>" ∧
    Handler.headers r2 !! "X-Cache-Hit" = Some "true".
Proof.
  intros h w1 w2 request e out r1.
  assert (Hout : out = (Js.Returned r1, out.2)) by (vm_compute; reflexivity).
  split; [reflexivity|]. split; [reflexivity|]. split; [exact Hout|].
  apply (handler_repeated_request_hits_cache h w1 w2 request e (LRU.new 100) r1 out.2).
  - reflexivity.
  - reflexivity.
  - reflexivity.
  - reflexivity.
  - exact Hout.
  - reflexivity.
  - reflexivity.
  - reflexivity.
Defined.

(** A request for a file, one for a page that is rendered, one whose url
    the engine refuses, and the last again with an [onError] that fails. *)
Example handler_run :
  let h := DemoHandler.built None in
  let w := DemoHandler.world_at 1000 in
  let e := DemoEngine2.fresh in
  let answer request :=
    match (Handler.handler h w request e).1 with
    | Js.Returned r => Js.Returned (Handler.status r, Handler.body r)
    | Js.Thrown err => Js.Thrown err
    end in
  answer (DemoHandler.get "/logo.svg" EmptyString) =
    Js.Returned (200, Handler.FileBody "/srv/www/logo.svg") ∧
  answer (DemoHandler.get "/about" EmptyString) =
    Js.Returned (200, Handler.TextBody "<html>/about</html>") ∧
  answer (DemoHandler.get "//" EmptyString) =
    Js.Returned (500, Handler.body Handler.internal_server_error) ∧
  (Handler.handler (DemoHandler.built (Some DemoHandler.failing_onError)) w
     (DemoHandler.get "//" EmptyString) e).1 =
    Js.Thrown (Js.Error "while handling: Invalid URL").
Proof.
  intros h w e answer. split_and!.
  - vm_compute. reflexivity.
  - vm_compute. reflexivity.
  - vm_compute. reflexivity.
  - vm_compute. reflexivity.
Qed.

(** A static handler that throws: the request is answered with the generic
    page, or handed to [onError], and nothing is rendered. *)
Example handler_static_throws_run :
  let w := DemoHandler.world_with_failing_static 1000 in
  let e := DemoEngine2.fresh in
  let request := DemoHandler.get "/logo.svg" EmptyString in
  Handler.handler (DemoHandler.built None) w request e =
    (Js.Returned Handler.internal_server_error, e) ∧
  Handler.handler (DemoHandler.built (Some DemoHandler.failing_onError)) w request e =
    (Js.Thrown (Js.Error "while handling: Invalid header name"), e).
Proof. split; vm_compute; reflexivity. Qed.
